(** * ArcaneFEM: sparse matrix assembly of the Poisson module

    A shallow embedding of the CSR assembly code of the Poisson module
    (poisson/FemModule.cc, CsrBiliAssembly.hxx, CsrGpuBiliAssembly.hxx,
    BlCsrBiliAssembly.hxx) and of the linear-system back ends of femutils
    (NodeLinearSystem.cc, HypreDoFLinearSystem.cc), followed by the
    properties established about them.

    Conventions.
    - [Int32] local ids and array positions are natural numbers; the
      column array keeps [Z] entries because it stores the sentinel [-1].
      Signed overflow is undefined in C++, so meshes are assumed to keep
      [2 * nbFace + nbNode] within [Int32] (see [Mesh.valid]).
    - [Real] is a parameter ([RealOps]); it is instantiated with IEEE
      binary64 ([float]) and with exact rationals ([Q]).
    - A [NumArray] is a list with checked accesses ([na_get], [na_set]):
      an access past the end is the exception [ArrayIndexOutOfBounds].
    - Mesh variables (coordinates, Dirichlet flags, right-hand side) are
      total maps from item ids to values.
    - One scalar DoF is attached to each node, numbered like the node:
      [node_dof.dofId(node, 0).localId()] is the node's local id.
    - Accelerator loops ([RUNCOMMAND_ENUMERATE]) are run one item after
      the other, in enumeration order, except in [Module Interleaving]. *)

From Stdlib Require Import ZArith QArith Lia List String Floats.PrimFloat.
From Stdlib Require Import Floats.SpecFloat Floats.FloatAxioms Lqa.
From stdpp Require Import base list.
Import ListNotations.

Local Open Scope nat_scope.
Local Open Scope list_scope.
Set Warnings "-inexact-float".

(* ===================================================================== *)
(** * Arcane: exceptions, arrays, reals                                   *)
(* ===================================================================== *)

Module Arcane.

(** Exceptions thrown by the embedded code. *)
Inductive exn : Type :=
| ArrayIndexOutOfBounds
| NotImplementedException
| FatalErrorException.

(** A computation either returns or throws. *)
Inductive result (A : Type) : Type :=
| Ok (a : A)
| Throw (e : exn).
Arguments Ok {A} a.
Arguments Throw {A} e.

Definition bind {A B} (c : result A) (k : A -> result B) : result B :=
  match c with
  | Ok a => k a
  | Throw e => Throw e
  end.

(** [for (x : l) body], threading the state [s]. *)
Fixpoint foldM {A St} (body : A -> St -> result St) (l : list A) (s : St) : result St :=
  match l with
  | [] => Ok s
  | x :: l' => bind (body x s) (foldM body l')
  end.

(** [a(i)] on a [NumArray]. *)
Definition na_get {A} (a : list A) (i : nat) : result A :=
  match a !! i with
  | Some x => Ok x
  | None => Throw ArrayIndexOutOfBounds
  end.

(** [a(i) = x] on a [NumArray]. *)
Definition na_set {A} (a : list A) (i : nat) (x : A) : result (list A) :=
  match a !! i with
  | Some _ => Ok (<[i := x]> a)
  | None => Throw ArrayIndexOutOfBounds
  end.

(** The arithmetic of [Real] used by the assembly code. *)
Class RealOps (R : Type) : Type := {
  r0 : R;                      (* 0.0 *)
  rhalf : R;                   (* 0.5 *)
  r1 : R;                      (* 1.0 *)
  r2 : R;                      (* 2.0 *)
  radd : R -> R -> R;
  rsub : R -> R -> R;
  rmul : R -> R -> R;
  rdiv : R -> R -> R;
}.

(** [math::sqrt]. *)
Class RealSqrt (R : Type) : Type := {
  rsqrt : R -> R;
}.

#[global] Instance float_RealOps : RealOps float := {
  r0 := 0%float;
  rhalf := 0.5%float;
  r1 := 1%float;
  r2 := 2%float;
  radd := PrimFloat.add;
  rsub := PrimFloat.sub;
  rmul := PrimFloat.mul;
  rdiv := PrimFloat.div;
}.

#[global] Instance float_RealSqrt : RealSqrt float := {
  rsqrt := PrimFloat.sqrt;
}.

#[global] Instance Q_RealOps : RealOps Q := {
  r0 := 0%Q;
  rhalf := (1 # 2)%Q;
  r1 := 1%Q;
  r2 := 2%Q;
  radd := Qplus;
  rsub := Qminus;
  rmul := Qmult;
  rdiv := Qdiv;
}.

End Arcane.

(** [Real2] and [Real3]: points and vectors. *)
Module Real2.
Record t (R : Type) : Type := mk { x : R; y : R }.
Arguments mk {R} _ _.
Arguments x {R} _.
Arguments y {R} _.
End Real2.

Module Real3.
Record t (R : Type) : Type := mk { x : R; y : R; z : R }.
Arguments mk {R} _ _ _.
Arguments x {R} _.
Arguments y {R} _.
Arguments z {R} _.
End Real3.

Export Arcane.

Declare Scope real_scope.
Delimit Scope real_scope with real.
Notation "a + b" := (radd a b) : real_scope.
Notation "a - b" := (rsub a b) : real_scope.
Notation "a * b" := (rmul a b) : real_scope.
Notation "a / b" := (rdiv a b) : real_scope.

Notation "'do' x <- c ;; k" := (bind c (fun x => k))
  (at level 10, x name, c at level 99, k at level 200).
Notation "'do' ' p <- c ;; k" := (bind c (fun x => let 'p := x in k))
  (at level 10, p pattern, c at level 99, k at level 200).

(* ===================================================================== *)
(** * FemUtils.h: fixed-size matrices                                     *)
(* ===================================================================== *)

Module FemUtils.
Section FixedMatrix.
Context {R : Type} `{RealOps R}.

(** [FixedMatrix<N, M>]: the [N * M] values, row after row. *)
Definition FixedMatrix : Type := list R.

(** [a(i, j)] of a matrix with [M] columns: [m_values[i * M + j]]. *)
Definition at_ (M : nat) (a : FixedMatrix) (i j : nat) : R :=
  nth (i * M + j) a r0.

(** [multInPlace]: every component times [v]. *)
Definition multInPlace (a : FixedMatrix) (v : R) : FixedMatrix :=
  map (fun m => (m * v)%real) a.

(** [matrixTranspose]: [t(j, i) = a(i, j)] for an [N x M] matrix. *)
Definition matrixTranspose (N M : nat) (a : FixedMatrix) : FixedMatrix :=
  flat_map (fun j => map (fun i => at_ M a i j) (seq 0 N)) (seq 0 M).

(** [matrixMultiplication] of [a : N x M] by [b : M x N]; the sum starts
    from [0.0] and is added to the zero-initialised result. *)
Definition matrixMultiplication (N M : nat) (a b : FixedMatrix) : FixedMatrix :=
  flat_map (fun i =>
    map (fun j =>
      let x := fold_left (fun x k => (x + at_ M a i k * at_ N b k j)%real) (seq 0 M) r0 in
      (r0 + x)%real) (seq 0 N)) (seq 0 N).
End FixedMatrix.
End FemUtils.

Export FemUtils.

(* ===================================================================== *)
(** * The mesh: nodes, faces (edges), triangles, ownership               *)
(* ===================================================================== *)

Module Mesh.

(** A face of a 2D mesh is an edge: [face.nodeId(0)], [face.nodeId(1)]. *)
Record Face : Type := mkFace { fnode0 : nat; fnode1 : nat }.

(** A [Triangle3] cell: [cell.nodeId(0..2)]. *)
Record Cell : Type := mkCell { cnode0 : nat; cnode1 : nat; cnode2 : nat }.

Record t : Type := mk {
  nbNode : nat;
  allFaces : list Face;
  allCells : list Cell;
  isOwn : nat -> bool;
}.

Definition nbFace (m : t) : nat := length (allFaces m).

(** [allNodes()], in local-id order. *)
Definition allNodes (m : t) : list nat := seq 0 (nbNode m).

(** [ownNodes()]. *)
Definition ownNodes (m : t) : list nat := List.filter (isOwn m) (allNodes m).

Definition face_has_node (n : nat) (f : Face) : bool :=
  (fnode0 f =? n) || (fnode1 f =? n).

(** [node.faces()]: the faces incident to the node. *)
Definition node_faces (m : t) (n : nat) : list Face :=
  List.filter (face_has_node n) (allFaces m).

(** [node.nbFace()]. *)
Definition node_nbFace (m : t) (n : nat) : nat := length (node_faces m n).

(** [cell.nodes()]. *)
Definition cell_nodes (c : Cell) : list nat := [cnode0 c; cnode1 c; cnode2 c].

Definition cell_has_node (n : nat) (c : Cell) : bool :=
  (cnode0 c =? n) || (cnode1 c =? n) || (cnode2 c =? n).

(** [ncc.cells(inode)]: the cells incident to the node. *)
Definition node_cells (m : t) (n : nat) : list Cell :=
  List.filter (cell_has_node n) (allCells m).

(** The items of a loop together with their positions: the counters
    [n1_index], [n2_index], [i] of the loops over [cell.nodes()]. *)
Definition indexed {A} (l : list A) : list (nat * A) := combine (seq 0 (length l)) l.

Definition valid_face (m : t) (f : Face) : Prop :=
  fnode0 f < nbNode m /\ fnode1 f < nbNode m /\ fnode0 f <> fnode1 f.

Definition valid_cell (m : t) (c : Cell) : Prop :=
  cnode0 c < nbNode m /\ cnode1 c < nbNode m /\ cnode2 c < nbNode m.

(** A valid mesh: faces join two distinct nodes of the mesh, cells use
    nodes of the mesh, and the capacity formula stays within [Int32]. *)
Record valid (m : t) : Prop := {
  valid_faces : Forall (valid_face m) (allFaces m);
  valid_cells : Forall (valid_cell m) (allCells m);
  valid_int32 : (Z.of_nat (nbFace m * 2 + nbNode m) <= 2147483647)%Z;
}.

End Mesh.

(* ===================================================================== *)
(** * CsrFormat: the CSR store                                            *)
(* ===================================================================== *)

Module CsrFormat.
Section Store.
Context {R : Type} `{RealOps R}.

Record t : Type := mk {
  m_matrix_row : list nat;
  m_matrix_column : list Z;
  m_matrix_value : list R;
  m_matrix_rows_nb_column : list nat;
  m_last_value : nat;
}.

(** Modelled from the spec: [CsrFormat::initialize(dof_family, nnz,
    nb_row)] (CsrFormatMatrix.h is not among the sources). The column
    and value arrays are allocated to the total capacity and
    initialised to the sentinel and to zero; the row arrays have one
    entry per row. *)
Definition initialize (nnz nb_row : nat) : t :=
  {| m_matrix_row := replicate nb_row 0;
     m_matrix_column := replicate nnz (-1)%Z;
     m_matrix_value := replicate nnz r0;
     m_matrix_rows_nb_column := replicate nb_row 0;
     m_last_value := 0 |}.

(** Modelled from the spec: [CsrFormat::setCoordinates(row, column)]
    (CsrFormatMatrix.h is not among the sources). Coordinates arrive row
    after row; each one takes the next free slot, and the row pointer
    and the reserved size of the row are produced by accumulation. *)
Definition setCoordinates (row column : nat) (m : t) : result t :=
  do nb <- na_get (m_matrix_rows_nb_column m) row ;;
  do rows <- (if nb =? 0 then na_set (m_matrix_row m) row (m_last_value m)
              else Ok (m_matrix_row m)) ;;
  do nbs <- na_set (m_matrix_rows_nb_column m) row (nb + 1) ;;
  do cols <- na_set (m_matrix_column m) (m_last_value m) (Z.of_nat column) ;;
  Ok {| m_matrix_row := rows;
        m_matrix_column := cols;
        m_matrix_value := m_matrix_value m;
        m_matrix_rows_nb_column := nbs;
        m_last_value := m_last_value m + 1 |}.

(** The end of the span of [row], as the scatter code computes it:
    [col_csr_size] for the last row ([row == row_csr_size - 1]),
    [in_row_csr[row + 1]] otherwise. *)
Definition row_end (rows : list nat) (col_csr_size row : nat) : result nat :=
  if S row =? length rows then Ok col_csr_size else na_get rows (row + 1).

(** The store with its column and value arrays replaced. *)
Definition with_slots (m : t) (cols : list Z) (vals : list R) : t :=
  {| m_matrix_row := m_matrix_row m;
     m_matrix_column := cols;
     m_matrix_value := vals;
     m_matrix_rows_nb_column := m_matrix_rows_nb_column m;
     m_last_value := m_last_value m |}.

(** Modelled from the spec: the scan of [CsrFormat::matrixAddValue]
    (CsrFormatMatrix.h is not among the sources) over the [n] slots from
    [begin]: the entry is located by the matching column, or the first
    sentinel, and the value is added in place; when the slice holds
    neither, the entry is dropped. *)
Fixpoint locate_add (n begin : nat) (col : Z) (value : R)
         (cols : list Z) (vals : list R) : result (list Z * list R) :=
  match n with
  | 0 => Ok (cols, vals)
  | S n' =>
      do c <- na_get cols begin ;;
      if Z.eqb c col then
        do old <- na_get vals begin ;;
        do vals <- na_set vals begin (old + value)%real ;;
        Ok (cols, vals)
      else if Z.eqb c (-1) then
        do cols <- na_set cols begin col ;;
        do old <- na_get vals begin ;;
        do vals <- na_set vals begin (old + value)%real ;;
        Ok (cols, vals)
      else locate_add n' (S begin) col value cols vals
  end.

(** Modelled from the spec: [CsrFormat::matrixAddValue(row, column,
    value)] over the slice of the owning row. *)
Definition matrixAddValue (row column : nat) (value : R) (m : t) : result t :=
  do begin <- na_get (m_matrix_row m) row ;;
  do end_ <- row_end (m_matrix_row m) (length (m_matrix_column m)) row ;;
  do '(cols, vals) <- locate_add (end_ - begin) begin (Z.of_nat column) value
                                 (m_matrix_column m) (m_matrix_value m) ;;
  Ok (with_slots m cols vals).

(** The value stored for [(row, col)]: the first slot of the row's span
    that holds the column, if any. *)
Definition entry (m : t) (row col : nat) : option R :=
  match m_matrix_row m !! row, row_end (m_matrix_row m) (length (m_matrix_column m)) row with
  | Some b, Ok e =>
      let slots := take (e - b) (drop b (combine (m_matrix_column m) (m_matrix_value m))) in
      match List.find (fun s => Z.eqb (fst s) (Z.of_nat col)) slots with
      | Some s => Some (snd s)
      | None => None
      end
  | _, _ => None
  end.

(** The columns stored in the span of [row]. *)
Definition row_columns (m : t) (row : nat) : list Z :=
  match m_matrix_row m !! row, row_end (m_matrix_row m) (length (m_matrix_column m)) row with
  | Some b, Ok e => take (e - b) (drop b (m_matrix_column m))
  | _, _ => []
  end.

(** The values stored in the span of [row]. *)
Definition row_values (m : t) (row : nat) : list R :=
  match m_matrix_row m !! row, row_end (m_matrix_row m) (length (m_matrix_column m)) row with
  | Some b, Ok e => take (e - b) (drop b (m_matrix_value m))
  | _, _ => []
  end.

(** The number of slots of the span of each row. *)
Definition row_sizes (m : t) : list nat :=
  map (fun row =>
         match m_matrix_row m !! row, row_end (m_matrix_row m) (length (m_matrix_column m)) row with
         | Some b, Ok e => e - b
         | _, _ => 0
         end) (seq 0 (length (m_matrix_row m))).
End Store.
Arguments t R : clear implicits.
End CsrFormat.

(* ===================================================================== *)
(** * femutils: linear-system back ends                                   *)
(* ===================================================================== *)

(** The per-coordinate operations of a linear system that the assembly of
    the linear operator calls on [m_linear_system]. *)
Class LinearSystemImpl (St R : Type) : Type := {
  matrixAddValue : nat -> nat -> R -> St -> result St;
  matrixSetValue : nat -> nat -> R -> St -> result St;
}.

(** NodeLinearSystem.cc, [SequentialNodeLinearSystemImpl]: the dense
    matrix [m_k_matrix] of extent [nb_node x nb_node]. *)
Module SequentialNodeLinearSystemImpl.
Section Dense.
Context {R : Type} `{RealOps R}.

Record t : Type := mk {
  nb_node : nat;
  m_k_matrix : list R;
}.

(** [build()]: [resize(nb_node, nb_node)] and [fill(0.0)]. *)
Definition build (n : nat) : t :=
  {| nb_node := n; m_k_matrix := replicate (n * n) r0 |}.

(** [m_k_matrix(row, column)], each index checked against its extent. *)
Definition get (m : t) (row column : nat) : result R :=
  if (row <? nb_node m) && (column <? nb_node m)
  then na_get (m_k_matrix m) (row * nb_node m + column)
  else Throw ArrayIndexOutOfBounds.

Definition set (m : t) (row column : nat) (v : R) : result t :=
  if (row <? nb_node m) && (column <? nb_node m)
  then do a <- na_set (m_k_matrix m) (row * nb_node m + column) v ;;
       Ok {| nb_node := nb_node m; m_k_matrix := a |}
  else Throw ArrayIndexOutOfBounds.

(** [matrixAddValue]: [m_k_matrix(row, column) += value]. *)
Definition matrixAddValue (row column : nat) (value : R) (m : t) : result t :=
  do old <- get m row column ;;
  set m row column (old + value)%real.

(** Modelled from the spec: [matrixSetValue(row, column, value)]
    (DoFLinearSystem.cc is not among the sources), the overwriting
    counterpart of [matrixAddValue] on the same storage. *)
Definition matrixSetValue (row column : nat) (value : R) (m : t) : result t :=
  set m row column value.

#[global] Instance impl : LinearSystemImpl t R := {
  matrixAddValue := matrixAddValue;
  matrixSetValue := matrixSetValue;
}.
End Dense.
Arguments t R : clear implicits.
End SequentialNodeLinearSystemImpl.

(** NodeLinearSystem.cc, [SequentialNodeLinearSystemImpl]: the
    right-hand side [m_rhs_vector], of extent [nb_node]. *)
Module SequentialNodeLinearSystemRhs.
Section Rhs.
Context {R : Type} `{RealOps R}.

(** [build()]: [m_rhs_vector.resize(nb_node)] and [fill(0.0)]. *)
Definition build (nb_node : nat) : list R := replicate nb_node r0.

(** [setRHSValues(values)]: the own nodes receive the values of the
    span, one after the other; [index] counts them. *)
Definition setRHSValues (own_nodes : list nat) (values : list R) (m_rhs_vector : list R)
  : result (list R) :=
  do '(m_rhs_vector, index) <-
     foldM (fun node_id '(m_rhs_vector, index) =>
              do v <- na_get values index ;;
              do m_rhs_vector <- na_set m_rhs_vector node_id v ;;
              Ok (m_rhs_vector, index + 1))
           own_nodes (m_rhs_vector, 0) ;;
  Ok m_rhs_vector.
End Rhs.
End SequentialNodeLinearSystemRhs.

(** HypreDoFLinearSystem.cc, [HypreDoFLinearSystemImpl]. *)
Module HypreDoFLinearSystemImpl.
Section Hypre.
Context {R : Type}.

(** [CSRFormatView]: the four spans handed over by the CSR store. *)
Record CSRFormatView : Type := mkView {
  rows : list nat;
  rowsNbColumn : list nat;
  columns : list Z;
  values : list R;
}.

Record t : Type := mk {
  m_csr_view : CSRFormatView;
  m_first_own_row : Z;
  m_nb_own_row : Z;
}.

(** A freshly constructed instance: an empty view, [-1] for the rows. *)
Definition create : t :=
  {| m_csr_view := mkView [] [] [] []; m_first_own_row := (-1)%Z; m_nb_own_row := (-1)%Z |}.

Definition matrixAddValue (row column : nat) (value : R) (m : t) : result t :=
  Throw NotImplementedException.

Definition matrixSetValue (row column : nat) (value : R) (m : t) : result t :=
  Throw NotImplementedException.

Definition eliminateRow (row : nat) (value : R) (m : t) : result t :=
  Throw NotImplementedException.

Definition eliminateRowColumn (row : nat) (value : R) (m : t) : result t :=
  Throw NotImplementedException.

Definition clearValues (m : t) : t :=
  {| m_csr_view := mkView [] [] [] [];
     m_first_own_row := m_first_own_row m; m_nb_own_row := m_nb_own_row m |}.

Definition setCSRValues (csr_view : CSRFormatView) (m : t) : t :=
  {| m_csr_view := csr_view;
     m_first_own_row := m_first_own_row m; m_nb_own_row := m_nb_own_row m |}.

Definition hasSetCSRValues (m : t) : bool := true.

(** [_computeMatrixNumerotation]: the first global row of this rank is
    the number of own rows of the ranks before it
    ([parallel_rows_index] is what [allGather] returns: the number of own
    rows of every rank); the own DoFs are numbered from it, in their
    order. The numbering is the one before [synchronize()], which brings
    the numbers of the other DoFs from their owners. The counts, the sum
    [own_first_index] and the numbers are [Int32] in the source and
    natural numbers here: the definition is the code as long as
    [own_first_index + nb_own_row] stays within [Int32] (signed overflow
    is undefined); properties are stated under that bound. *)
Definition _computeMatrixNumerotation (is_parallel : bool) (parallel_rows_index : list nat)
           (my_rank : nat) (own_dofs : list nat) (m_dof_matrix_numbering : nat -> Z) (m : t)
  : result (t * (nat -> Z)) :=
  let nb_own_row := length own_dofs in
  do own_first_index <-
     (if is_parallel then
        foldM (fun i own_first_index =>
                 do n <- na_get parallel_rows_index i ;;
                 Ok (own_first_index + n))
              (seq 0 my_rank) 0
      else Ok 0) ;;
  let m_dof_matrix_numbering :=
    fold_left (fun numbering '(index, dof) =>
                 fun d => if d =? dof then Z.of_nat (own_first_index + index) else numbering d)
              (Mesh.indexed own_dofs) m_dof_matrix_numbering in
  Ok ({| m_csr_view := m_csr_view m;
         m_first_own_row := Z.of_nat own_first_index;
         m_nb_own_row := Z.of_nat nb_own_row |},
      m_dof_matrix_numbering).

#[global] Instance impl : LinearSystemImpl t R := {
  matrixAddValue := matrixAddValue;
  matrixSetValue := matrixSetValue;
}.
End Hypre.
Arguments t R : clear implicits.
Arguments CSRFormatView R : clear implicits.
End HypreDoFLinearSystemImpl.

(** A caller that assembles through the per-coordinate operations: the
    sequence of [matrixAddValue] and [matrixSetValue] calls it issues. *)
Inductive coordinate_op (R : Type) : Type :=
| AddValue (row column : nat) (value : R)
| SetValue (row column : nat) (value : R).
Arguments AddValue {R} _ _ _.
Arguments SetValue {R} _ _ _.

Definition run_coordinate_op {St R} `{LinearSystemImpl St R} (op : coordinate_op R) (m : St) : result St :=
  match op with
  | AddValue row column value => matrixAddValue row column value m
  | SetValue row column value => matrixSetValue row column value m
  end.

Definition run_coordinate_ops {St R} `{LinearSystemImpl St R} (ops : list (coordinate_op R)) (m : St)
  : result St :=
  foldM run_coordinate_op ops m.

(* ===================================================================== *)
(** * FemModule: element kernels                                          *)
(* ===================================================================== *)

Module FemModule.
Import Mesh.

Section Kernels.
Context {R : Type} `{RealOps R}.
Implicit Type m_node_coord : nat -> Real3.t R.

(** FemModule.cc, [_computeAreaTriangle3] (and its copy
    [_computeAreaTriangle3Gpu]). *)
Definition _computeAreaTriangle3 m_node_coord (cell : Cell) : R :=
  let m0 := m_node_coord (cnode0 cell) in
  let m1 := m_node_coord (cnode1 cell) in
  let m2 := m_node_coord (cnode2 cell) in
  (rhalf * ((m1.(Real3.x) - m0.(Real3.x)) * (m2.(Real3.y) - m0.(Real3.y))
            - (m2.(Real3.x) - m0.(Real3.x)) * (m1.(Real3.y) - m0.(Real3.y))))%real.

Definition _computeAreaTriangle3Gpu := _computeAreaTriangle3.

(** FemModule.cc, [_computeElementMatrixTRIA3]: the [3 x 3] element
    stiffness matrix, through [FixedMatrix]. *)
Definition _computeElementMatrixTRIA3 m_node_coord (cell : Cell) : FixedMatrix :=
  let m0 := m_node_coord (cnode0 cell) in
  let m1 := m_node_coord (cnode1 cell) in
  let m2 := m_node_coord (cnode2 cell) in
  let area := _computeAreaTriangle3 m_node_coord cell in
  let dPhi0 := Real2.mk (m1.(Real3.y) - m2.(Real3.y))%real (m2.(Real3.x) - m1.(Real3.x))%real in
  let dPhi1 := Real2.mk (m2.(Real3.y) - m0.(Real3.y))%real (m0.(Real3.x) - m2.(Real3.x))%real in
  let dPhi2 := Real2.mk (m0.(Real3.y) - m1.(Real3.y))%real (m1.(Real3.x) - m0.(Real3.x))%real in
  (* FixedMatrix<2, 3> b_matrix *)
  let b_matrix : FixedMatrix :=
    [ dPhi0.(Real2.x); dPhi1.(Real2.x); dPhi2.(Real2.x);
      dPhi0.(Real2.y); dPhi1.(Real2.y); dPhi2.(Real2.y) ] in
  let b_matrix := multInPlace b_matrix (r1 / (r2 * area))%real in
  let int_cdPi_dPj := matrixMultiplication 3 2 (matrixTranspose 2 3 b_matrix) b_matrix in
  multInPlace int_cdPi_dPj area.

(** FemModule.cc, [_computeElementMatrixTRIA3GPU]: the same matrix in a
    plain array [K_e[9]], with [b_matrix[2][3]] laid out row after row. *)
Definition _computeElementMatrixTRIA3GPU m_node_coord (cell : Cell) : list R :=
  let m0 := m_node_coord (cnode0 cell) in
  let m1 := m_node_coord (cnode1 cell) in
  let m2 := m_node_coord (cnode2 cell) in
  let area := (rhalf * ((m1.(Real3.x) - m0.(Real3.x)) * (m2.(Real3.y) - m0.(Real3.y))
                        - (m2.(Real3.x) - m0.(Real3.x)) * (m1.(Real3.y) - m0.(Real3.y))))%real in
  let dPhi0 := Real2.mk (m1.(Real3.y) - m2.(Real3.y))%real (m2.(Real3.x) - m1.(Real3.x))%real in
  let dPhi1 := Real2.mk (m2.(Real3.y) - m0.(Real3.y))%real (m0.(Real3.x) - m2.(Real3.x))%real in
  let dPhi2 := Real2.mk (m0.(Real3.y) - m1.(Real3.y))%real (m1.(Real3.x) - m0.(Real3.x))%real in
  let b_matrix : list R :=
    [ (dPhi0.(Real2.x) * (r1 / (r2 * area)))%real;
      (dPhi1.(Real2.x) * (r1 / (r2 * area)))%real;
      (dPhi2.(Real2.x) * (r1 / (r2 * area)))%real;
      (dPhi0.(Real2.y) * (r1 / (r2 * area)))%real;
      (dPhi1.(Real2.y) * (r1 / (r2 * area)))%real;
      (dPhi2.(Real2.y) * (r1 / (r2 * area)))%real ] in
  flat_map (fun i =>
    map (fun j =>
      let x := fold_left
                 (fun x k => (x + nth (k * 3 + i) b_matrix r0 * nth (k * 3 + j) b_matrix r0)%real)
                 (seq 0 2) r0 in
      (x * area)%real) (seq 0 3)) (seq 0 3).

(** BlCsrBiliAssembly.hxx, [_computeCellMatrixGpuTRIA3]: returns the
    area and fills [b_matrix[6]]. *)
Definition _computeCellMatrixGpuTRIA3 m_node_coord (cell : Cell) : R * list R :=
  let m0 := m_node_coord (cnode0 cell) in
  let m1 := m_node_coord (cnode1 cell) in
  let m2 := m_node_coord (cnode2 cell) in
  let area := _computeAreaTriangle3Gpu m_node_coord cell in
  let dPhi0 := Real2.mk (m1.(Real3.y) - m2.(Real3.y))%real (m2.(Real3.x) - m1.(Real3.x))%real in
  let dPhi1 := Real2.mk (m2.(Real3.y) - m0.(Real3.y))%real (m0.(Real3.x) - m2.(Real3.x))%real in
  let dPhi2 := Real2.mk (m0.(Real3.y) - m1.(Real3.y))%real (m1.(Real3.x) - m0.(Real3.x))%real in
  let mul := (r1 / (r2 * area))%real in
  (area, [ (dPhi0.(Real2.x) * mul)%real; (dPhi0.(Real2.y) * mul)%real;
           (dPhi1.(Real2.x) * mul)%real; (dPhi1.(Real2.y) * mul)%real;
           (dPhi2.(Real2.x) * mul)%real; (dPhi2.(Real2.y) * mul)%real ]).
End Kernels.

Section Builders.
Context {R : Type} `{RealOps R}.

(** [Scanner<Int32>::exclusiveSum(queue, input, output)]: [output[i]] is
    the sum of [input[0 .. i)]. *)
Fixpoint exclusiveSum_from (acc : nat) (input : list nat) : list nat :=
  match input with
  | [] => []
  | v :: input' => acc :: exclusiveSum_from (acc + v) input'
  end.
Definition exclusiveSum (input : list nat) : list nat := exclusiveSum_from 0 input.

(** CsrBiliAssembly.hxx, [_buildMatrixCsr], over the operation
    [setCoordinates] of the store [St]. The neighbour is chosen by the
    conditional expression of line 48, whose two branches both read
    [face.nodeId(1)]. *)
Definition _buildMatrixCsr_with {St : Type}
           (setCoordinates : nat -> nat -> St -> result St) (mesh : Mesh.t) (m : St) : result St :=
  foldM (fun node m =>
           let node_dof_id := node in
           let diagonal_entry := node_dof_id in
           do m <- setCoordinates diagonal_entry diagonal_entry m ;;
           foldM (fun face m =>
                    let nodeId := if negb (fnode0 face =? 0) then fnode1 face else fnode1 face in
                    setCoordinates diagonal_entry nodeId m)
                 (node_faces mesh node) m)
        (allNodes mesh) m.

(** [_buildMatrixCsr] on the CSR store [m_csr_matrix]. *)
Definition _buildMatrixCsr (mesh : Mesh.t) : result (CsrFormat.t R) :=
  let nnz := nbFace mesh * 2 + nbNode mesh in
  _buildMatrixCsr_with CsrFormat.setCoordinates mesh (CsrFormat.initialize nnz (nbNode mesh)).

(** FemModule.cc, [_buildMatrixGPU] (the COO builder), over the
    operation [setCoordinates] of the store [St]. *)
Definition _buildMatrixGPU_with {St : Type}
           (setCoordinates : nat -> nat -> St -> result St) (mesh : Mesh.t) (m : St) : result St :=
  foldM (fun node m =>
           do m <- setCoordinates node node m ;;
           foldM (fun face m =>
                    if fnode0 face =? node
                    then setCoordinates node (fnode1 face) m
                    else setCoordinates node (fnode0 face) m)
                 (node_faces mesh node) m)
        (allNodes mesh) m.

(** A store that records the coordinates it is given, in order. *)
Definition log_coordinates (row column : nat) (log : list (nat * nat)) : result (list (nat * nat)) :=
  Ok (log ++ [(row, column)]).

(** BlCsrBiliAssembly.hxx, [_buildMatrixBuildLessCsr]: the row offsets
    accumulated on the host. *)
Definition _buildMatrixBuildLessCsr (mesh : Mesh.t) : result (CsrFormat.t R) :=
  let nbnde := nbNode mesh in
  let nnz := nbFace mesh * 2 + nbnde in
  let m := CsrFormat.initialize nnz nbnde in
  let index := 1 in
  do rows <- na_set (CsrFormat.m_matrix_row m) 0 0 ;;
  do '(rows, index) <-
     foldM (fun node '(rows, index) =>
              if index <? nbnde then
                do prev <- na_get rows (index - 1) ;;
                do rows <- na_set rows index (node_nbFace mesh node + prev + 1) ;;
                Ok (rows, index + 1)
              else Ok (rows, index))
           (allNodes mesh) (rows, index) ;;
  Ok {| CsrFormat.m_matrix_row := rows;
        CsrFormat.m_matrix_column := CsrFormat.m_matrix_column m;
        CsrFormat.m_matrix_value := CsrFormat.m_matrix_value m;
        CsrFormat.m_matrix_rows_nb_column := CsrFormat.m_matrix_rows_nb_column m;
        CsrFormat.m_last_value := CsrFormat.m_last_value m |}.

(** BlCsrBiliAssembly.hxx, [_buildMatrixGpuBuildLessCsr]: one count per
    node, then an exclusive scan into the row offsets. *)
Definition _buildMatrixGpuBuildLessCsr (mesh : Mesh.t) : result (CsrFormat.t R) :=
  let nbnde := nbNode mesh in
  let nnz := nbFace mesh * 2 + nbnde in
  let tmp_row := replicate nbnde 0 in
  let m := CsrFormat.initialize nnz nbnde in
  do tmp_row <- foldM (fun inode tmp_row =>
                         let index := inode in
                         na_set tmp_row index (node_nbFace mesh inode + 1))
                      (allNodes mesh) tmp_row ;;
  Ok {| CsrFormat.m_matrix_row := exclusiveSum tmp_row;
        CsrFormat.m_matrix_column := CsrFormat.m_matrix_column m;
        CsrFormat.m_matrix_value := CsrFormat.m_matrix_value m;
        CsrFormat.m_matrix_rows_nb_column := CsrFormat.m_matrix_rows_nb_column m;
        CsrFormat.m_last_value := CsrFormat.m_last_value m |}.
End Builders.

Section Scatter.
Context {R : Type} `{RealOps R}.
Implicit Type m_node_coord : nat -> Real3.t R.

(** CsrGpuBiliAssembly.hxx, lines 107-120: the loop
    [while (begin < end)] of the device-parallel scatter, over the
    [n = end - begin] slots from [begin]. A matching column receives an
    (atomic) add; a sentinel slot is claimed by two plain stores. *)
Fixpoint _assembleCsrAllGPU_probe (n begin : nat) (col : Z) (v : R)
         (in_out_col_csr : list Z) (in_out_val_csr : list R) : result (list Z * list R) :=
  match n with
  | 0 => Ok (in_out_col_csr, in_out_val_csr)
  | S n' =>
      do c <- na_get in_out_col_csr begin ;;
      if Z.eqb c col then
        do old <- na_get in_out_val_csr begin ;;
        do vals <- na_set in_out_val_csr begin (old + v)%real ;;
        Ok (in_out_col_csr, vals)
      else if Z.eqb c (-1) then
        do cols <- na_set in_out_col_csr begin col ;;
        do vals <- na_set in_out_val_csr begin v ;;
        Ok (cols, vals)
      else _assembleCsrAllGPU_probe n' (S begin) col v in_out_col_csr in_out_val_csr
  end.

(** BlCsrBiliAssembly.hxx, [_addValueToGlobalMatrixTria3Gpu]: the loop
    over the [n = end - begin] slots from [begin]. *)
Fixpoint _addValueToGlobalMatrixTria3Gpu_loop (n begin : nat) (col : Z)
         (in_out_col_csr : list Z) (in_out_val_csr : list R) (x : R) : result (list Z * list R) :=
  match n with
  | 0 => Ok (in_out_col_csr, in_out_val_csr)
  | S n' =>
      do c <- na_get in_out_col_csr begin ;;
      if Z.eqb c (-1) then
        do cols <- na_set in_out_col_csr begin col ;;
        do vals <- na_set in_out_val_csr begin x ;;
        Ok (cols, vals)
      else if Z.eqb c col then
        do old <- na_get in_out_val_csr begin ;;
        do vals <- na_set in_out_val_csr begin (old + x)%real ;;
        Ok (in_out_col_csr, vals)
      else _addValueToGlobalMatrixTria3Gpu_loop n' (S begin) col in_out_col_csr in_out_val_csr x
  end.

Definition _addValueToGlobalMatrixTria3Gpu (begin end_ : nat) (col : Z)
           (in_out_col_csr : list Z) (in_out_val_csr : list R) (x : R) : result (list Z * list R) :=
  _addValueToGlobalMatrixTria3Gpu_loop (end_ - begin) begin col in_out_col_csr in_out_val_csr x.

(** CsrGpuBiliAssembly.hxx, [_assembleCsrAllGPUBilinearOperatorTRIA3]:
    the sparsity of [_buildMatrixGpuBuildLessCsr], then one unit of
    work per cell. *)
Definition _assembleCsrAllGPUBilinearOperatorTRIA3 (mesh : Mesh.t) m_node_coord
  : result (CsrFormat.t R) :=
  do m_csr_matrix <- _buildMatrixGpuBuildLessCsr mesh ;;
  let in_row_csr := CsrFormat.m_matrix_row m_csr_matrix in
  let col_csr_size := length (CsrFormat.m_matrix_column m_csr_matrix) in
  do '(cols, vals) <-
     foldM (fun icell st =>
              let K_e := _computeElementMatrixTRIA3GPU m_node_coord icell in
              foldM (fun '(n1_index, node1) st =>
                       foldM (fun '(n2_index, node2) '(cols, vals) =>
                                let v := nth (n1_index * 3 + n2_index) K_e r0 in
                                if isOwn mesh node1 then
                                  let row := node1 in
                                  let col := Z.of_nat node2 in
                                  do begin <- na_get in_row_csr row ;;
                                  do end_ <- CsrFormat.row_end in_row_csr col_csr_size row ;;
                                  _assembleCsrAllGPU_probe (end_ - begin) begin col v cols vals
                                else Ok (cols, vals))
                             (indexed (cell_nodes icell)) st)
                    (indexed (cell_nodes icell)) st)
           (allCells mesh)
           (CsrFormat.m_matrix_column m_csr_matrix, CsrFormat.m_matrix_value m_csr_matrix) ;;
  Ok (CsrFormat.with_slots m_csr_matrix cols vals).

(** BlCsrBiliAssembly.hxx, [_assembleBuildLessCsrBilinearOperatorTria3]:
    the row offsets of [_buildMatrixGpuBuildLessCsr], then one unit of
    work per node, over the cells of the node. *)
Definition _assembleBuildLessCsrBilinearOperatorTria3 (mesh : Mesh.t) m_node_coord
  : result (CsrFormat.t R) :=
  do m_csr_matrix <- _buildMatrixGpuBuildLessCsr mesh ;;
  let in_row_csr := CsrFormat.m_matrix_row m_csr_matrix in
  let col_csr_size := length (CsrFormat.m_matrix_column m_csr_matrix) in
  do '(cols, vals) <-
     foldM (fun inode st =>
              foldM (fun cell st =>
                       let inode_index :=
                         if inode =? cnode1 cell then 1
                         else if inode =? cnode2 cell then 2
                         else 0 in
                       let '(area, b_matrix) := _computeCellMatrixGpuTRIA3 m_node_coord cell in
                       foldM (fun '(i, node2) '(cols, vals) =>
                                let x := fold_left
                                           (fun x k => (x + nth (inode_index * 2 + k) b_matrix r0
                                                            * nth (i * 2 + k) b_matrix r0)%real)
                                           (seq 0 2) r0 in
                                let x := (x * area)%real in
                                if isOwn mesh inode then
                                  let row := inode in
                                  let col := Z.of_nat node2 in
                                  do begin <- na_get in_row_csr row ;;
                                  do end_ <- CsrFormat.row_end in_row_csr col_csr_size row ;;
                                  _addValueToGlobalMatrixTria3Gpu begin end_ col cols vals x
                                else Ok (cols, vals))
                             (indexed (cell_nodes cell)) st)
                    (node_cells mesh inode) st)
           (allNodes mesh)
           (CsrFormat.m_matrix_column m_csr_matrix, CsrFormat.m_matrix_value m_csr_matrix) ;;
  Ok (CsrFormat.with_slots m_csr_matrix cols vals).

(** CsrBiliAssembly.hxx, [_assembleCsrBilinearOperatorTRIA3], the loop
    over the cells, over the operation [matrixAddValue] of the store. *)
Definition _assembleCsrBilinearOperatorTRIA3_with {St : Type}
           (matrixAddValue : nat -> nat -> R -> St -> result St)
           (mesh : Mesh.t) m_node_coord (m : St) : result St :=
  foldM (fun cell m =>
           let K_e := _computeElementMatrixTRIA3 m_node_coord cell in
           foldM (fun '(n1_index, node1) m =>
                    foldM (fun '(n2_index, node2) m =>
                             let v := at_ 3 K_e n1_index n2_index in
                             if isOwn mesh node1 then matrixAddValue node1 node2 v m
                             else Ok m)
                          (indexed (cell_nodes cell)) m)
                 (indexed (cell_nodes cell)) m)
        (allCells mesh) m.

(** [_assembleCsrBilinearOperatorTRIA3]: [_buildMatrixCsr], then the
    loop over the cells on the CSR store. *)
Definition _assembleCsrBilinearOperatorTRIA3 (mesh : Mesh.t) m_node_coord
  : result (CsrFormat.t R) :=
  do m_csr_matrix <- _buildMatrixCsr mesh ;;
  _assembleCsrBilinearOperatorTRIA3_with CsrFormat.matrixAddValue mesh m_node_coord m_csr_matrix.

(** A store that records the additions it is asked for, in order. *)
Definition log_add (row column : nat) (v : R) (log : list (nat * nat * R))
  : result (list (nat * nat * R)) :=
  Ok (log ++ [(row, column, v)]).
End Scatter.

Section LinearOperator.
Context {R : Type} `{RealOps R} `{RealSqrt R}.
Context {St : Type} `{LinearSystemImpl St R}.
Implicit Type m_node_coord : nat -> Real3.t R.

(** A face of a boundary group, with [isSubDomainBoundaryOutside()]. *)
Record BoundaryFace : Type := mkBoundaryFace {
  bface : Face;
  isSubDomainBoundaryOutside : bool;
}.

(** One [neumann-boundary-condition] of the options. *)
Record NeumannBoundaryCondition : Type := mkNeumann {
  surface : list BoundaryFace;
  value : option R;
  valueX : option R;
  valueY : option R;
}.

Record Options : Type := mkOptions {
  enforceDirichletMethod : string;
  penalty : R;
  neumannBoundaryCondition : list NeumannBoundaryCondition;
}.

(** [rhs_values[dof] = v] on the variable [rhs_values]. *)
Definition assign (rhs_values : nat -> R) (dof : nat) (v : R) : nat -> R :=
  fun d => if d =? dof then v else rhs_values d.

(** FemModule.cc, [_computeEdgeLength2]. *)
Definition _computeEdgeLength2 m_node_coord (face : Face) : R :=
  let m0 := m_node_coord (fnode0 face) in
  let m1 := m_node_coord (fnode1 face) in
  rsqrt ((m1.(Real3.x) - m0.(Real3.x)) * (m1.(Real3.x) - m0.(Real3.x))
         + (m1.(Real3.y) - m0.(Real3.y)) * (m1.(Real3.y) - m0.(Real3.y)))%real.

(** FemModule.cc, [_computeEdgeNormal2]. *)
Definition _computeEdgeNormal2 m_node_coord (face : BoundaryFace) : Real2.t R :=
  let m0 := m_node_coord (fnode0 (bface face)) in
  let m1 := m_node_coord (fnode1 (bface face)) in
  let '(m0, m1) := if negb (isSubDomainBoundaryOutside face) then (m1, m0) else (m0, m1) in
  let norm_N := rsqrt ((m1.(Real3.y) - m0.(Real3.y)) * (m1.(Real3.y) - m0.(Real3.y))
                       + (m1.(Real3.x) - m0.(Real3.x)) * (m1.(Real3.x) - m0.(Real3.x)))%real in
  Real2.mk ((m1.(Real3.y) - m0.(Real3.y)) / norm_N)%real
           ((m0.(Real3.x) - m1.(Real3.x)) / norm_N)%real.

(** The loops [for (Node node : ...nodes())] of the source and flux
    terms: [rhs_values[dof] += term] on the own nodes that are not
    Dirichlet nodes. *)
Definition add_on_free_nodes (mesh : Mesh.t) (m_u_dirichlet : nat -> bool)
           (nodes : list nat) (term : R) (rhs_values : nat -> R) : nat -> R :=
  fold_left (fun rhs_values node =>
               if negb (m_u_dirichlet node) && isOwn mesh node
               then assign rhs_values node (rhs_values node + term)%real
               else rhs_values)
            nodes rhs_values.

(** FemModule.cc, [_assembleLinearOperator], lines 417-553: the Dirichlet
    condition on [m_linear_system] and on the right-hand side, by the
    method of the options. *)
Definition enforceDirichlet (mesh : Mesh.t) (options : Options)
           (m_u : nat -> R) (m_u_dirichlet : nat -> bool)
           (m_linear_system : St) (rhs_values : nat -> R) : result (St * (nat -> R)) :=
  if String.eqb (enforceDirichletMethod options) "Penalty" then
    let Penalty := penalty options in
    foldM (fun node_id '(m_linear_system, rhs_values) =>
             if m_u_dirichlet node_id then
               let dof_id := node_id in
               do m_linear_system <- matrixSetValue dof_id dof_id Penalty m_linear_system ;;
               let u_g := (Penalty * m_u node_id)%real in
               Ok (m_linear_system, assign rhs_values dof_id u_g)
             else Ok (m_linear_system, rhs_values))
          (ownNodes mesh) (m_linear_system, rhs_values)
  else if String.eqb (enforceDirichletMethod options) "WeakPenalty" then
    let Penalty := penalty options in
    foldM (fun node_id '(m_linear_system, rhs_values) =>
             if m_u_dirichlet node_id then
               let dof_id := node_id in
               do m_linear_system <- matrixAddValue dof_id dof_id Penalty m_linear_system ;;
               let u_g := (Penalty * m_u node_id)%real in
               Ok (m_linear_system, assign rhs_values dof_id u_g)
             else Ok (m_linear_system, rhs_values))
          (ownNodes mesh) (m_linear_system, rhs_values)
  else (* RowElimination, RowColumnElimination: nothing yet; others: a message *)
    Ok (m_linear_system, rhs_values).

(** Lines 561-577: the constant source term. *)
Definition sourceTerm (mesh : Mesh.t) m_node_coord (f ElementNodes : R)
           (m_u_dirichlet : nat -> bool) (rhs_values : nat -> R) : nat -> R :=
  fold_left (fun rhs_values cell =>
               let area := _computeAreaTriangle3 m_node_coord cell in
               add_on_free_nodes mesh m_u_dirichlet (cell_nodes cell)
                                 (f * area / ElementNodes)%real rhs_values)
            (allCells mesh) rhs_values.

(** Lines 599-661: the constant flux terms of the Neumann conditions. *)
Definition fluxTerms (mesh : Mesh.t) m_node_coord (options : Options)
           (m_u_dirichlet : nat -> bool) (rhs_values : nat -> R) : nat -> R :=
  fold_left (fun rhs_values bs =>
               let flux (term : BoundaryFace -> R) :=
                 fold_left (fun rhs_values face =>
                              add_on_free_nodes mesh m_u_dirichlet
                                                [fnode0 (bface face); fnode1 (bface face)]
                                                (term face) rhs_values)
                           (surface bs) rhs_values in
               match value bs, valueX bs, valueY bs with
               | Some value, _, _ =>
                   flux (fun face =>
                           let length := _computeEdgeLength2 m_node_coord (bface face) in
                           (value * length / r2)%real)
               | None, Some valueX, Some valueY =>
                   flux (fun face =>
                           let length := _computeEdgeLength2 m_node_coord (bface face) in
                           let Normal := _computeEdgeNormal2 m_node_coord face in
                           ((Normal.(Real2.x) * valueX + Normal.(Real2.y) * valueY)
                            * length / r2)%real)
               | None, Some valueX, None =>
                   flux (fun face =>
                           let length := _computeEdgeLength2 m_node_coord (bface face) in
                           let Normal := _computeEdgeNormal2 m_node_coord face in
                           (Normal.(Real2.x) * valueX * length / r2)%real)
               | None, None, Some valueY =>
                   flux (fun face =>
                           let length := _computeEdgeLength2 m_node_coord (bface face) in
                           let Normal := _computeEdgeNormal2 m_node_coord face in
                           (Normal.(Real2.y) * valueY * length / r2)%real)
               | None, None, None => rhs_values
               end)
            (neumannBoundaryCondition options) rhs_values.

(** FemModule.cc, [_assembleLinearOperator]: the right-hand side is
    cleared, the Dirichlet condition is enforced, then the source term and
    the flux terms are added. Returns the linear system and [rhs_values]. *)
Definition _assembleLinearOperator (mesh : Mesh.t) m_node_coord (options : Options)
           (f ElementNodes : R) (m_u : nat -> R) (m_u_dirichlet : nat -> bool)
           (m_linear_system : St) : result (St * (nat -> R)) :=
  let rhs_values : nat -> R := fun _ => r0 in
  do '(m_linear_system, rhs_values) <-
     enforceDirichlet mesh options m_u m_u_dirichlet m_linear_system rhs_values ;;
  let rhs_values := sourceTerm mesh m_node_coord f ElementNodes m_u_dirichlet rhs_values in
  let rhs_values := fluxTerms mesh m_node_coord options m_u_dirichlet rhs_values in
  Ok (m_linear_system, rhs_values).
End LinearOperator.

Section CsrLinearOperator.
Context {R : Type} `{RealOps R} `{RealSqrt R}.
Context {St : Type} `{LinearSystemImpl St R}.
Implicit Type m_node_coord : nat -> Real3.t R.

(** [m_rhs_vect[dof] += term] on the [NumArray] [m_rhs_vect]. *)
Definition rhs_add (m_rhs_vect : list R) (dof : nat) (term : R) : result (list R) :=
  do old <- na_get m_rhs_vect dof ;;
  na_set m_rhs_vect dof (old + term)%real.

(** The loops [for (Node node : ...nodes())] of the source and flux
    terms on [m_rhs_vect]. *)
Definition add_on_free_nodes_vect (mesh : Mesh.t) (m_u_dirichlet : nat -> bool)
           (nodes : list nat) (term : R) (m_rhs_vect : list R) : result (list R) :=
  foldM (fun node m_rhs_vect =>
           if negb (m_u_dirichlet node) && isOwn mesh node
           then rhs_add m_rhs_vect node term
           else Ok m_rhs_vect)
        nodes m_rhs_vect.

(** FemModule.cc, [_assembleCsrLinearOperator], the Dirichlet condition
    on the CSR store [m_csr_matrix], reached through its operations
    [matrixSetValue] and [matrixAddValue], and on [m_rhs_vect]. *)
Definition enforceDirichletCsr (mesh : Mesh.t) (options : Options)
           (m_u : nat -> R) (m_u_dirichlet : nat -> bool)
           (m_csr_matrix : St) (m_rhs_vect : list R) : result (St * list R) :=
  if String.eqb (enforceDirichletMethod options) "Penalty" then
    let Penalty := penalty options in
    foldM (fun node_id '(m_csr_matrix, m_rhs_vect) =>
             if m_u_dirichlet node_id then
               let dof_id := node_id in
               do m_csr_matrix <- matrixSetValue dof_id dof_id Penalty m_csr_matrix ;;
               let u_g := (Penalty * m_u node_id)%real in
               do m_rhs_vect <- na_set m_rhs_vect dof_id u_g ;;
               Ok (m_csr_matrix, m_rhs_vect)
             else Ok (m_csr_matrix, m_rhs_vect))
          (ownNodes mesh) (m_csr_matrix, m_rhs_vect)
  else if String.eqb (enforceDirichletMethod options) "WeakPenalty" then
    let Penalty := penalty options in
    foldM (fun node_id '(m_csr_matrix, m_rhs_vect) =>
             if m_u_dirichlet node_id then
               let dof_id := node_id in
               do m_csr_matrix <- matrixAddValue dof_id dof_id Penalty m_csr_matrix ;;
               let u_g := (Penalty * m_u node_id)%real in
               do m_rhs_vect <- na_set m_rhs_vect dof_id u_g ;;
               Ok (m_csr_matrix, m_rhs_vect)
             else Ok (m_csr_matrix, m_rhs_vect))
          (ownNodes mesh) (m_csr_matrix, m_rhs_vect)
  else Ok (m_csr_matrix, m_rhs_vect).

(** The constant source term on [m_rhs_vect]. *)
Definition sourceTermCsr (mesh : Mesh.t) m_node_coord (f ElementNodes : R)
           (m_u_dirichlet : nat -> bool) (m_rhs_vect : list R) : result (list R) :=
  foldM (fun cell m_rhs_vect =>
           let area := _computeAreaTriangle3 m_node_coord cell in
           add_on_free_nodes_vect mesh m_u_dirichlet (cell_nodes cell)
                                  (f * area / ElementNodes)%real m_rhs_vect)
        (allCells mesh) m_rhs_vect.

(** The constant flux terms of the Neumann conditions on [m_rhs_vect]. *)
Definition fluxTermsCsr (mesh : Mesh.t) m_node_coord (options : Options)
           (m_u_dirichlet : nat -> bool) (m_rhs_vect : list R) : result (list R) :=
  foldM (fun bs m_rhs_vect =>
           let flux (term : BoundaryFace -> R) :=
             foldM (fun face m_rhs_vect =>
                      add_on_free_nodes_vect mesh m_u_dirichlet
                                             [fnode0 (bface face); fnode1 (bface face)]
                                             (term face) m_rhs_vect)
                   (surface bs) m_rhs_vect in
           match value bs, valueX bs, valueY bs with
           | Some value, _, _ =>
               flux (fun face =>
                       let length := _computeEdgeLength2 m_node_coord (bface face) in
                       (value * length / r2)%real)
           | None, Some valueX, Some valueY =>
               flux (fun face =>
                       let length := _computeEdgeLength2 m_node_coord (bface face) in
                       let Normal := _computeEdgeNormal2 m_node_coord face in
                       ((Normal.(Real2.x) * valueX + Normal.(Real2.y) * valueY)
                        * length / r2)%real)
           | None, Some valueX, None =>
               flux (fun face =>
                       let length := _computeEdgeLength2 m_node_coord (bface face) in
                       let Normal := _computeEdgeNormal2 m_node_coord face in
                       (Normal.(Real2.x) * valueX * length / r2)%real)
           | None, None, Some valueY =>
               flux (fun face =>
                       let length := _computeEdgeLength2 m_node_coord (bface face) in
                       let Normal := _computeEdgeNormal2 m_node_coord face in
                       (Normal.(Real2.y) * valueY * length / r2)%real)
           | None, None, None => Ok m_rhs_vect
           end)
        (neumannBoundaryCondition options) m_rhs_vect.

(** FemModule.cc, [_assembleCsrLinearOperator]: [m_rhs_vect] is resized
    to the number of nodes and cleared, the Dirichlet condition is
    enforced, then the source term and the flux terms are added. Returns
    the CSR store and [m_rhs_vect]. *)
Definition _assembleCsrLinearOperator (mesh : Mesh.t) m_node_coord (options : Options)
           (f ElementNodes : R) (m_u : nat -> R) (m_u_dirichlet : nat -> bool)
           (m_csr_matrix : St) : result (St * list R) :=
  let m_rhs_vect := replicate (nbNode mesh) r0 in
  do '(m_csr_matrix, m_rhs_vect) <-
     enforceDirichletCsr mesh options m_u m_u_dirichlet m_csr_matrix m_rhs_vect ;;
  do m_rhs_vect <- sourceTermCsr mesh m_node_coord f ElementNodes m_u_dirichlet m_rhs_vect ;;
  do m_rhs_vect <- fluxTermsCsr mesh m_node_coord options m_u_dirichlet m_rhs_vect ;;
  Ok (m_csr_matrix, m_rhs_vect).

(** FemModule.cc, [_translateRhs]: the variable [rhs_values] is cleared,
    then receives the entries of [m_rhs_vect]. *)
Definition _translateRhs (m_rhs_vect : list R) : nat -> R :=
  fold_left (fun rhs_values i =>
               match m_rhs_vect !! i with
               | Some v => assign rhs_values i v
               | None => rhs_values
               end)
            (seq 0 (length m_rhs_vect)) (fun _ => r0).
End CsrLinearOperator.

Section CsrGpuLinearOperator.
Context {R : Type} `{RealOps R} `{RealSqrt R}.
Implicit Type m_node_coord : nat -> Real3.t R.

(** [a(i)] and [a(i) = x] on a [NumArray] when the index is an [Int32]
    that may be negative. *)
Definition na_getZ {A} (a : list A) (i : Z) : result A :=
  if (i <? 0)%Z then Throw ArrayIndexOutOfBounds else na_get a (Z.to_nat i).

Definition na_setZ {A} (a : list A) (i : Z) (x : A) : result (list A) :=
  if (i <? 0)%Z then Throw ArrayIndexOutOfBounds else na_set a (Z.to_nat i) x.

(** FemModule.cc, [_getValIndexCsrGpu], the loop
    [while (i < end && col != csr_col(i)) i++] over the [n = end - i]
    indices from [i]: the index at which it stops. *)
Fixpoint _getValIndexCsrGpu_loop (n i : nat) (col : Z) (csr_col : list Z) : result nat :=
  match n with
  | 0 => Ok i
  | S n' =>
      do c <- na_get csr_col i ;;
      if negb (Z.eqb col c) then _getValIndexCsrGpu_loop n' (S i) col csr_col
      else Ok i
  end.

(** [_getValIndexCsrGpu]: [-1] when the loop stops at [end], the index
    where it stops otherwise. *)
Definition _getValIndexCsrGpu (begin end_ : nat) (col : nat) (csr_col : list Z) : result Z :=
  do i <- _getValIndexCsrGpu_loop (end_ - begin) begin (Z.of_nat col) csr_col ;;
  if i =? end_ then Ok (-1)%Z else Ok (Z.of_nat i).

(** The end of the span searched for the diagonal, as
    [_assembleCsrGpuLinearOperator] computes it: the test compares the
    offset [begin] of the row, not the row, with [row_csr_size - 1]. *)
Definition diagonal_search_end (in_csr_row : list nat) (col_csr_size : nat)
           (begin dof_id : nat) : result nat :=
  if (Z.of_nat begin =? Z.of_nat (length in_csr_row) - 1)%Z then Ok col_csr_size
  else na_get in_csr_row (dof_id + 1).

(** FemModule.cc, [_assembleCsrGpuLinearOperator], the Dirichlet
    condition: one unit of work per own node, on the value array of the
    CSR store and on [m_rhs_vect]. *)
Definition enforceDirichletCsrGpu (mesh : Mesh.t) (options : Options)
           (m_u : nat -> R) (m_u_dirichlet : nat -> bool)
           (m_csr_matrix : CsrFormat.t R) (m_rhs_vect : list R) : result (list R * list R) :=
  let in_csr_row := CsrFormat.m_matrix_row m_csr_matrix in
  let in_csr_col := CsrFormat.m_matrix_column m_csr_matrix in
  let col_csr_size := length in_csr_col in
  if String.eqb (enforceDirichletMethod options) "Penalty" then
    let Penalty := penalty options in
    foldM (fun inode '(in_out_csr_val, in_out_rhs_vect) =>
             if m_u_dirichlet inode then
               let dof_id := inode in
               do begin <- na_get in_csr_row dof_id ;;
               do end_ <- diagonal_search_end in_csr_row col_csr_size begin dof_id ;;
               do index <- _getValIndexCsrGpu begin end_ dof_id in_csr_col ;;
               do in_out_csr_val <- na_setZ in_out_csr_val index Penalty ;;
               let u_g := (Penalty * m_u inode)%real in
               do in_out_rhs_vect <- na_set in_out_rhs_vect dof_id u_g ;;
               Ok (in_out_csr_val, in_out_rhs_vect)
             else Ok (in_out_csr_val, in_out_rhs_vect))
          (ownNodes mesh) (CsrFormat.m_matrix_value m_csr_matrix, m_rhs_vect)
  else if String.eqb (enforceDirichletMethod options) "WeakPenalty" then
    let Penalty := penalty options in
    foldM (fun inode '(in_out_csr_val, in_out_rhs_vect) =>
             if m_u_dirichlet inode then
               let dof_id := inode in
               do begin <- na_get in_csr_row dof_id ;;
               do end_ <- diagonal_search_end in_csr_row col_csr_size begin dof_id ;;
               do index <- _getValIndexCsrGpu begin end_ dof_id in_csr_col ;;
               do old <- na_getZ in_out_csr_val index ;;
               do in_out_csr_val <- na_setZ in_out_csr_val index (old + Penalty)%real ;;
               let u_g := (Penalty * m_u inode)%real in
               do in_out_rhs_vect <- na_set in_out_rhs_vect dof_id u_g ;;
               Ok (in_out_csr_val, in_out_rhs_vect)
             else Ok (in_out_csr_val, in_out_rhs_vect))
          (ownNodes mesh) (CsrFormat.m_matrix_value m_csr_matrix, m_rhs_vect)
  else Ok (CsrFormat.m_matrix_value m_csr_matrix, m_rhs_vect).

(** FemModule.cc, [_assembleCsrGpuLinearOperator]: as
    [_assembleCsrLinearOperator], with the Dirichlet condition written
    into the arrays of the CSR store. *)
Definition _assembleCsrGpuLinearOperator (mesh : Mesh.t) m_node_coord (options : Options)
           (f ElementNodes : R) (m_u : nat -> R) (m_u_dirichlet : nat -> bool)
           (m_csr_matrix : CsrFormat.t R) : result (CsrFormat.t R * list R) :=
  let m_rhs_vect := replicate (nbNode mesh) r0 in
  do '(in_out_csr_val, m_rhs_vect) <-
     enforceDirichletCsrGpu mesh options m_u m_u_dirichlet m_csr_matrix m_rhs_vect ;;
  do m_rhs_vect <- sourceTermCsr mesh m_node_coord f ElementNodes m_u_dirichlet m_rhs_vect ;;
  do m_rhs_vect <- fluxTermsCsr mesh m_node_coord options m_u_dirichlet m_rhs_vect ;;
  Ok (CsrFormat.with_slots m_csr_matrix (CsrFormat.m_matrix_column m_csr_matrix) in_out_csr_val,
      m_rhs_vect).
End CsrGpuLinearOperator.

Section Quad4.
Context {R : Type} `{RealOps R}.
Context {St : Type} `{LinearSystemImpl St R}.
Implicit Type m_node_coord : nat -> Real3.t R.

(** A [Quad4] cell: [cell.nodeId(0..3)]. *)
Record Quad : Type := mkQuad { qnode0 : nat; qnode1 : nat; qnode2 : nat; qnode3 : nat }.

(** A cell of a mesh that mixes types: [cell.type()] is [IT_Triangle3] or
    [IT_Quad4]. *)
Inductive TypedCell : Type :=
| IT_Triangle3 (cell : Cell)
| IT_Quad4 (cell : Quad).

Definition quad_nodes (c : Quad) : list nat := [qnode0 c; qnode1 c; qnode2 c; qnode3 c].

(** FemModule.cc, [_computeAreaQuad4]. *)
Definition _computeAreaQuad4 m_node_coord (cell : Quad) : R :=
  let m0 := m_node_coord (qnode0 cell) in
  let m1 := m_node_coord (qnode1 cell) in
  let m2 := m_node_coord (qnode2 cell) in
  let m3 := m_node_coord (qnode3 cell) in
  (rhalf * ((m1.(Real3.x) * m2.(Real3.y) + m2.(Real3.x) * m3.(Real3.y)
             + m3.(Real3.x) * m0.(Real3.y) + m0.(Real3.x) * m1.(Real3.y))
            - (m2.(Real3.x) * m1.(Real3.y) + m3.(Real3.x) * m2.(Real3.y)
               + m0.(Real3.x) * m3.(Real3.y) + m1.(Real3.x) * m0.(Real3.y))))%real.

(** FemModule.cc, [_computeElementMatrixQUAD4]: the [4 x 4] element
    matrix, through [FixedMatrix]. *)
Definition _computeElementMatrixQUAD4 m_node_coord (cell : Quad) : FixedMatrix :=
  let m0 := m_node_coord (qnode0 cell) in
  let m1 := m_node_coord (qnode1 cell) in
  let m2 := m_node_coord (qnode2 cell) in
  let m3 := m_node_coord (qnode3 cell) in
  let area := _computeAreaQuad4 m_node_coord cell in
  let dPhi0 := Real2.mk (m2.(Real3.y) - m3.(Real3.y))%real (m3.(Real3.x) - m2.(Real3.x))%real in
  let dPhi1 := Real2.mk (m3.(Real3.y) - m0.(Real3.y))%real (m0.(Real3.x) - m3.(Real3.x))%real in
  let dPhi2 := Real2.mk (m0.(Real3.y) - m1.(Real3.y))%real (m1.(Real3.x) - m0.(Real3.x))%real in
  let dPhi3 := Real2.mk (m1.(Real3.y) - m2.(Real3.y))%real (m2.(Real3.x) - m1.(Real3.x))%real in
  (* FixedMatrix<2, 4> b_matrix *)
  let b_matrix : FixedMatrix :=
    [ dPhi0.(Real2.x); dPhi1.(Real2.x); dPhi2.(Real2.x); dPhi3.(Real2.x);
      dPhi0.(Real2.y); dPhi1.(Real2.y); dPhi2.(Real2.y); dPhi3.(Real2.y) ] in
  let b_matrix := multInPlace b_matrix (r1 / (r2 * area))%real in
  let int_cdPi_dPj := matrixMultiplication 4 2 (matrixTranspose 2 4 b_matrix) b_matrix in
  multInPlace int_cdPi_dPj area.

(** FemModule.cc, [_assembleBilinearOperatorQUAD4]: every cell must be a
    [Quad4]; its element matrix is added to the rows of its own nodes. *)
Definition _assembleBilinearOperatorQUAD4 (allCells : list TypedCell) (isOwn : nat -> bool)
           m_node_coord (m_linear_system : St) : result St :=
  foldM (fun cell m_linear_system =>
           match cell with
           | IT_Triangle3 _ => Throw FatalErrorException
           | IT_Quad4 cell =>
               let K_e := _computeElementMatrixQUAD4 m_node_coord cell in
               foldM (fun '(n1_index, node1) m_linear_system =>
                        foldM (fun '(n2_index, node2) m_linear_system =>
                                 let v := at_ 4 K_e n1_index n2_index in
                                 if isOwn node1
                                 then matrixAddValue node1 node2 v m_linear_system
                                 else Ok m_linear_system)
                              (indexed (quad_nodes cell)) m_linear_system)
                     (indexed (quad_nodes cell)) m_linear_system
           end)
        allCells m_linear_system.
End Quad4.

Section Initialisation.
Context {R : Type}.

(** FemModule.cc, [_checkCellType]: every cell must have the type that
    the option [meshType] announces; the test is on the string "QUAD4". *)
Definition _checkCellType (meshType : string) (allCells : list TypedCell) : result unit :=
  let type_is_quad := String.eqb meshType "QUAD4" in
  foldM (fun cell _ =>
           match cell with
           | IT_Triangle3 _ => if type_is_quad then Throw FatalErrorException else Ok tt
           | IT_Quad4 _ => if type_is_quad then Ok tt else Throw FatalErrorException
           end)
        allCells tt.

(** One [dirichlet-boundary-condition] and one
    [dirichlet-point-condition] of the options. *)
Record DirichletBoundaryCondition : Type := mkDirichletBoundary {
  dirichlet_surface : list Face;
  dirichlet_value : R;
}.

Record DirichletPointCondition : Type := mkDirichletPoint {
  dirichlet_node : list nat;
  dirichlet_point_value : R;
}.

(** [m_u[node] = value; m_u_dirichlet[node] = true]. *)
Definition prescribe (value : R) (st : (nat -> R) * (nat -> bool)) (node : nat)
  : (nat -> R) * (nat -> bool) :=
  (fun n => if n =? node then value else fst st n,
   fun n => if n =? node then true else snd st n).

(** FemModule.cc, [_applyDirichletBoundaryConditions]: the nodes of the
    faces of every boundary condition, then the nodes of every point
    condition, receive the value and the mark. *)
Definition _applyDirichletBoundaryConditions
           (dirichletBoundaryCondition : list DirichletBoundaryCondition)
           (dirichletPointCondition : list DirichletPointCondition)
           (m_u : nat -> R) (m_u_dirichlet : nat -> bool) : (nat -> R) * (nat -> bool) :=
  let st :=
    fold_left (fun st bs =>
                 fold_left (fun st iface =>
                              fold_left (prescribe (dirichlet_value bs))
                                        [fnode0 iface; fnode1 iface] st)
                           (dirichlet_surface bs) st)
              dirichletBoundaryCondition (m_u, m_u_dirichlet) in
  fold_left (fun st bs =>
               fold_left (prescribe (dirichlet_point_value bs)) (dirichlet_node bs) st)
            dirichletPointCondition st.
End Initialisation.
End FemModule.

(* ===================================================================== *)
(** * Concurrent units of the device-parallel scatter                     *)
(* ===================================================================== *)

(** The loop of CsrGpuBiliAssembly.hxx, lines 107-120, cut at its accesses
    to the shared arrays: a unit of work makes one access per step, and a
    schedule says which unit moves next. *)
Module Interleaving.
Section Units.
Context {R : Type} `{RealOps R}.

Inductive pc : Type :=
| AtTestColumn      (* while (begin < end) if (in_out_col_csr[begin] == col) *)
| AtAtomicAdd       (* ax::doAtomic<Add>(in_out_val_csr(begin), v); break *)
| AtTestSentinel    (* else if (in_out_col_csr[begin] == -1) *)
| AtStoreColumn     (* in_out_col_csr[begin] = col *)
| AtStoreValue      (* in_out_val_csr(begin) = v; break *)
| Finished.

Record work_unit : Type := mkUnit {
  at_pc : pc;
  begin : nat;
  end_ : nat;
  col : Z;
  v : R;
}.

Record memory : Type := mkMemory {
  in_out_col_csr : list Z;
  in_out_val_csr : list R;
}.

Definition goto (u : work_unit) (p : pc) : work_unit :=
  {| at_pc := p; begin := begin u; end_ := end_ u; col := col u; v := v u |}.

Definition next_slot (u : work_unit) : work_unit :=
  {| at_pc := AtTestColumn; begin := S (begin u); end_ := end_ u; col := col u; v := v u |}.

(** One step of a unit: at most one access to the shared arrays. *)
Definition step (u : work_unit) (mem : memory) : result (work_unit * memory) :=
  match at_pc u with
  | AtTestColumn =>
      if begin u <? end_ u then
        do c <- na_get (in_out_col_csr mem) (begin u) ;;
        Ok (goto u (if Z.eqb c (col u) then AtAtomicAdd else AtTestSentinel), mem)
      else Ok (goto u Finished, mem)
  | AtAtomicAdd =>
      do old <- na_get (in_out_val_csr mem) (begin u) ;;
      do vals <- na_set (in_out_val_csr mem) (begin u) (old + v u)%real ;;
      Ok (goto u Finished, {| in_out_col_csr := in_out_col_csr mem; in_out_val_csr := vals |})
  | AtTestSentinel =>
      do c <- na_get (in_out_col_csr mem) (begin u) ;;
      Ok (if Z.eqb c (-1) then goto u AtStoreColumn else next_slot u, mem)
  | AtStoreColumn =>
      do cols <- na_set (in_out_col_csr mem) (begin u) (col u) ;;
      Ok (goto u AtStoreValue, {| in_out_col_csr := cols; in_out_val_csr := in_out_val_csr mem |})
  | AtStoreValue =>
      do vals <- na_set (in_out_val_csr mem) (begin u) (v u) ;;
      Ok (goto u Finished, {| in_out_col_csr := in_out_col_csr mem; in_out_val_csr := vals |})
  | Finished => Ok (u, mem)
  end.

(** Two units on one memory. *)
Record system : Type := mkSystem {
  unit_a : work_unit;
  unit_b : work_unit;
  shared : memory;
}.

Inductive turn : Type := A | B.

Definition system_step (t : turn) (s : system) : result system :=
  match t with
  | A => do '(u, mem) <- step (unit_a s) (shared s) ;;
         Ok {| unit_a := u; unit_b := unit_b s; shared := mem |}
  | B => do '(u, mem) <- step (unit_b s) (shared s) ;;
         Ok {| unit_a := unit_a s; unit_b := u; shared := mem |}
  end.

(** The system after the turns of a schedule. *)
Definition run (schedule : list turn) (s : system) : result system :=
  foldM system_step schedule s.

(** A unit about to scatter [v] for column [col] into the span
    [begin, end_). *)
Definition start (begin end_ : nat) (col : Z) (v : R) : work_unit :=
  {| at_pc := AtTestColumn; begin := begin; end_ := end_; col := col; v := v |}.

(** A unit alone, for at most [fuel] steps. *)
Fixpoint run_alone (fuel : nat) (u : work_unit) (mem : memory) : result (work_unit * memory) :=
  match fuel with
  | 0 => Ok (u, mem)
  | S fuel' =>
      match at_pc u with
      | Finished => Ok (u, mem)
      | _ => do '(u, mem) <- step u mem ;; run_alone fuel' u mem
      end
  end.
End Units.
Arguments work_unit R : clear implicits.
Arguments memory R : clear implicits.
Arguments system R : clear implicits.
End Interleaving.

(* ===================================================================== *)
(** * Sample meshes                                                       *)
(* ===================================================================== *)

Module Samples.
Import Mesh.

(** One triangle: nodes 0, 1, 2 and its three edges. *)
Definition single_triangle : Mesh.t :=
  {| nbNode := 3;
     allFaces := [mkFace 0 1; mkFace 1 2; mkFace 2 0];
     allCells := [mkCell 0 1 2];
     isOwn := fun _ => true |}.

(** The right triangle with nodes (0,0), (1,0), (0,1). *)
Definition right_triangle_coord {R} `{RealOps R} (node : nat) : Real3.t R :=
  match node with
  | 0 => Real3.mk r0 r0 r0
  | 1 => Real3.mk r1 r0 r0
  | _ => Real3.mk r0 r1 r0
  end.

(** Two triangles sharing the edge between nodes 1 and 2. *)
Definition two_triangles : Mesh.t :=
  {| nbNode := 4;
     allFaces := [mkFace 0 1; mkFace 1 2; mkFace 2 0; mkFace 1 3; mkFace 3 2];
     allCells := [mkCell 0 1 2; mkCell 1 3 2];
     isOwn := fun _ => true |}.

(** The same two triangles when node 3 belongs to another sub-domain. *)
Definition two_triangles_ghost : Mesh.t :=
  {| nbNode := 4;
     allFaces := [mkFace 0 1; mkFace 1 2; mkFace 2 0; mkFace 1 3; mkFace 3 2];
     allCells := [mkCell 0 1 2; mkCell 1 3 2];
     isOwn := fun node => negb (node =? 3) |}.

Definition two_triangles_coord {R} `{RealOps R} (node : nat) : Real3.t R :=
  match node with
  | 0 => Real3.mk r0 r0 r0
  | 1 => Real3.mk r1 r0 r0
  | 2 => Real3.mk r0 r1 r0
  | _ => Real3.mk r1 r1 r0
  end.

(** The mesh without nodes, faces or cells. *)
Definition empty_mesh : Mesh.t :=
  {| nbNode := 0; allFaces := []; allCells := []; isOwn := fun _ => true |}.
End Samples.

(* ===================================================================== *)
(** * Notions used to state the properties                                *)
(* ===================================================================== *)

(** A span that holds neither the column nor the sentinel. *)
Definition span_exhausted (cols : list Z) (begin end_ : nat) (col : Z) : Prop :=
  forall i, begin <= i < end_ ->
            exists c, cols !! i = Some c /\ c <> col /\ c <> (-1)%Z.

(** [f 0 + ... + f (k - 1)]. *)
Fixpoint sum_to (f : nat -> nat) (k : nat) : nat :=
  match k with
  | 0 => 0
  | S k' => sum_to f k' + f k'
  end.

(** The number of slots a sparsity builder reserves for the row of a
    node: its incident faces and itself. *)
Definition reserved (mesh : Mesh.t) (node : nat) : nat := Mesh.node_nbFace mesh node + 1.

(** The coordinates of a log that belong to a row. *)
Definition coordinates_of_row (row : nat) (log : list (nat * nat)) : list (nat * nat) :=
  List.filter (fun c => fst c =? row) log.

(** The store built by [_buildMatrixGpuBuildLessCsr]: the exclusive scan
    of the reserved sizes, sentinel columns and zero values. *)
Definition built {R : Type} `{RealOps R} (mesh : Mesh.t) : CsrFormat.t R :=
  {| CsrFormat.m_matrix_row := FemModule.exclusiveSum (map (reserved mesh) (Mesh.allNodes mesh));
     CsrFormat.m_matrix_column := replicate (Mesh.nbFace mesh * 2 + Mesh.nbNode mesh) (-1)%Z;
     CsrFormat.m_matrix_value := replicate (Mesh.nbFace mesh * 2 + Mesh.nbNode mesh) r0;
     CsrFormat.m_matrix_rows_nb_column := replicate (Mesh.nbNode mesh) 0;
     CsrFormat.m_last_value := 0 |}.

(** The coordinates [_buildMatrixCsr] inserts for a node: the diagonal,
    then one coordinate per incident face. *)
Definition csr_coordinates_of_node (mesh : Mesh.t) (node : nat) : list (nat * nat) :=
  (node, node) :: map (fun face => (node, Mesh.fnode1 face)) (Mesh.node_faces mesh node).

(** The rows of the nodes that belong to other sub-domains still hold
    what the builder left there: sentinels and zeros. *)
Definition ghost_rows_untouched {R : Type} `{RealOps R} (mesh : Mesh.t) (st : list Z * list R) : Prop :=
  length (fst st) = Mesh.nbFace mesh * 2 + Mesh.nbNode mesh
  /\ length (snd st) = Mesh.nbFace mesh * 2 + Mesh.nbNode mesh
  /\ forall node i,
      node < Mesh.nbNode mesh ->
      Mesh.isOwn mesh node = false ->
      sum_to (reserved mesh) node <= i < sum_to (reserved mesh) (S node) ->
      fst st !! i = Some (-1)%Z /\ snd st !! i = Some r0.

(** A probe over [n] slots from [begin] returns and changes no slot
    outside of them. *)
Definition frames {R : Type} (probe : list Z -> list R -> result (list Z * list R))
           (begin n : nat) : Prop :=
  forall cols vals,
    begin + n <= length cols ->
    length vals = length cols ->
    exists cols' vals',
      probe cols vals = Ok (cols', vals')
      /\ length cols' = length cols
      /\ length vals' = length cols
      /\ forall i, i < begin \/ begin + n <= i ->
                   cols' !! i = cols !! i /\ vals' !! i = vals !! i.

(** A dense matrix whose storage has the size of its extents. *)
Definition dense_wf {R : Type} (m : SequentialNodeLinearSystemImpl.t R) : Prop :=
  length (SequentialNodeLinearSystemImpl.m_k_matrix m)
  = SequentialNodeLinearSystemImpl.nb_node m * SequentialNodeLinearSystemImpl.nb_node m.

(** What an operation on the diagonal does to the dense matrix: the entry
    [(i, i)] becomes [post old] and the other diagonal entries stay. *)
Definition diagonal_update {R : Type} `{RealOps R}
           (op : nat -> nat -> R -> SequentialNodeLinearSystemImpl.t R
                 -> result (SequentialNodeLinearSystemImpl.t R))
           (P : R) (post : R -> R) : Prop :=
  forall m i,
    dense_wf m ->
    i < SequentialNodeLinearSystemImpl.nb_node m ->
    exists old m',
      SequentialNodeLinearSystemImpl.get m i i = Ok old
      /\ op i i P m = Ok m'
      /\ dense_wf m'
      /\ SequentialNodeLinearSystemImpl.nb_node m' = SequentialNodeLinearSystemImpl.nb_node m
      /\ SequentialNodeLinearSystemImpl.get m' i i = Ok (post old)
      /\ forall j, j < SequentialNodeLinearSystemImpl.nb_node m -> j <> i ->
                   SequentialNodeLinearSystemImpl.get m' j j = SequentialNodeLinearSystemImpl.get m j j.

(** A run of the Poisson module on the right triangle: the value 21 is
    prescribed at node 0, the penalty is 1.0e30, and the matrix holds the
    element stiffness matrix of the triangle. *)
Module PenaltySample.
Definition options (method : string) : FemModule.Options (R := float) :=
  {| FemModule.enforceDirichletMethod := method;
     FemModule.penalty := 1.0e30%float;
     FemModule.neumannBoundaryCondition := [] |}.

Definition m_u (node : nat) : float := if node =? 0 then 21%float else 0%float.

Definition m_u_dirichlet (node : nat) : bool := node =? 0.

Definition assembled : SequentialNodeLinearSystemImpl.t float :=
  {| SequentialNodeLinearSystemImpl.nb_node := 3;
     SequentialNodeLinearSystemImpl.m_k_matrix :=
       [1; -0.5; -0.5; -0.5; 0.5; 0; -0.5; 0; 0.5]%float |}.
End PenaltySample.

(** The body of the loops of [enforceDirichlet] over the own nodes, with
    the operation [op] on the diagonal. *)
Definition dirichlet_body {R St : Type} `{RealOps R}
           (op : nat -> nat -> R -> St -> result St) (P : R)
           (m_u : nat -> R) (m_u_dirichlet : nat -> bool)
           (node_id : nat) (st : St * (nat -> R)) : result (St * (nat -> R)) :=
  let '(m_linear_system, rhs_values) := st in
  if m_u_dirichlet node_id then
    do m_linear_system <- op node_id node_id P m_linear_system ;;
    Ok (m_linear_system, FemModule.assign rhs_values node_id (P * m_u node_id)%real)
  else Ok (m_linear_system, rhs_values).



(** The dense reading of the first [n] rows and columns of a CSR store. *)
Definition csr_to_dense {R : Type} `{RealOps R} (n : nat) (m : CsrFormat.t R) : list (option R) :=
  flat_map (fun row => map (fun col => CsrFormat.entry m row col) (seq 0 n)) (seq 0 n).

(** The closed-form element stiffness matrix of the right triangle with
    nodes (0,0), (1,0), (0,1), row after row. *)
Definition right_triangle_stiffness : list float :=
  [1%float; (-0.5)%float; (-0.5)%float;
   (-0.5)%float; 0.5%float; 0%float;
   (-0.5)%float; 0%float; 0.5%float].


(** The outcome of a unit of work and the outcome of the sequential loop
    agree: both throw, or the unit has finished and the shared arrays are
    those the loop returns. *)
Definition agrees {R : Type}
           (r1 : result (Interleaving.work_unit R * Interleaving.memory R))
           (r2 : result (list Z * list R)) : Prop :=
  match r1, r2 with
  | Ok (u, mem), Ok (cols, vals) =>
      Interleaving.at_pc u = Interleaving.Finished
      /\ Interleaving.in_out_col_csr mem = cols
      /\ Interleaving.in_out_val_csr mem = vals
  | Throw _, Throw _ => True
  | _, _ => False
  end.

(** A span that holds the column or a free slot. *)
Definition span_has_room (cols : list Z) (begin end_ : nat) (col : Z) : Prop :=
  exists i, begin <= i < end_ /\ (cols !! i = Some col \/ cols !! i = Some (-1)%Z).

(** A computation whose only failure is an access outside an array. *)
Definition returns_or_out_of_bounds {A} (c : result A) : Prop :=
  c = Throw ArrayIndexOutOfBounds \/ exists a, c = Ok a.

(** Two computations end alike: both throw the same exception, or both
    return and the results are related. *)
Definition result_rel {A B} (rel : A -> B -> Prop) (c1 : result A) (c2 : result B) : Prop :=
  match c1, c2 with
  | Ok a, Ok b => rel a b
  | Throw e1, Throw e2 => e1 = e2
  | _, _ => False
  end.

(** The array [m_rhs_vect], of size [n], holds the values of the variable
    [rhs_values], which is zero past the array. *)
Definition represents {R : Type} `{RealOps R} (n : nat) (m_rhs_vect : list R) (rhs_values : nat -> R)
  : Prop :=
  length m_rhs_vect = n /\ forall d, rhs_values d = default r0 (m_rhs_vect !! d).

(** The faces of the Neumann conditions join nodes of the mesh. *)
Definition neumann_surfaces_in_mesh {R : Type} (mesh : Mesh.t) (options : FemModule.Options (R := R))
  : Prop :=
  Forall (fun bs =>
            Forall (fun face =>
                      Mesh.fnode0 (FemModule.bface face) < Mesh.nbNode mesh
                      /\ Mesh.fnode1 (FemModule.bface face) < Mesh.nbNode mesh)
                   (FemModule.surface bs))
         (FemModule.neumannBoundaryCondition options).

(** A cell whose three nodes are distinct. *)
Definition proper_cell (c : Mesh.Cell) : Prop :=
  Mesh.cnode0 c <> Mesh.cnode1 c /\ Mesh.cnode1 c <> Mesh.cnode2 c /\ Mesh.cnode0 c <> Mesh.cnode2 c.

(** A run of the Poisson module on the right triangle with a flux of 2.0
    through the edge between nodes 1 and 2. *)
Module NeumannSample.
Definition options (method : string) : FemModule.Options (R := float) :=
  {| FemModule.enforceDirichletMethod := method;
     FemModule.penalty := 1.0e30%float;
     FemModule.neumannBoundaryCondition :=
       [ {| FemModule.surface := [FemModule.mkBoundaryFace (Mesh.mkFace 1 2) true];
            FemModule.value := Some 2%float;
            FemModule.valueX := None;
            FemModule.valueY := None |} ] |}.
End NeumannSample.

(** The position of a node of a triangle once the nodes at positions 1
    and 2 are exchanged. *)
Definition exchanged (i : nat) : nat :=
  match i with
  | 1 => 2
  | 2 => 1
  | _ => i
  end.

(** The node at the other end of a face incident to [node], as
    [_buildMatrixGPU] picks it. *)
Definition other_endpoint (node : nat) (face : Mesh.Face) : nat :=
  if Mesh.fnode0 face =? node then Mesh.fnode1 face else Mesh.fnode0 face.

(** The coordinates [_buildMatrixGPU] inserts for a node: the diagonal,
    then one coordinate per incident face. *)
Definition coo_coordinates_of_node (mesh : Mesh.t) (node : nat) : list (nat * nat) :=
  (node, node) :: map (fun face => (node, other_endpoint node face)) (Mesh.node_faces mesh node).

(** A face of the mesh joins the nodes [i] and [j]. *)
Definition joined (mesh : Mesh.t) (i j : nat) : Prop :=
  exists face,
    List.In face (Mesh.allFaces mesh)
    /\ ((Mesh.fnode0 face = i /\ Mesh.fnode1 face = j)
        \/ (Mesh.fnode0 face = j /\ Mesh.fnode1 face = i)).

(** A node of one of the faces of a surface. *)
Definition on_surface (node : nat) (faces : list Mesh.Face) : Prop :=
  exists face, List.In face faces /\ (Mesh.fnode0 face = node \/ Mesh.fnode1 face = node).

(** The nodes of the faces of a surface, in the order in which
    [_applyDirichletBoundaryConditions] visits them. *)
Definition surface_nodes (faces : list Mesh.Face) : list nat :=
  flat_map (fun face => [Mesh.fnode0 face; Mesh.fnode1 face]) faces.

(** One condition, boundary or point: the nodes it visits and its value. *)
Definition prescribed {R : Type} (c : list nat * R) (st : (nat -> R) * (nat -> bool))
  : (nat -> R) * (nat -> bool) :=
  fold_left (FemModule.prescribe (snd c)) (fst c) st.

Definition visits {R : Type} (node : nat) (c : list nat * R) : bool :=
  existsb (Nat.eqb node) (fst c).

(** The nodes of the quadrangles are rows and columns of a system of
    extent [n]. *)
Definition quads_in_range (n : nat) (cells : list FemModule.TypedCell) : Prop :=
  Forall (fun cell =>
            match cell with
            | FemModule.IT_Quad4 q => Forall (fun node => node < n) (FemModule.quad_nodes q)
            | FemModule.IT_Triangle3 _ => True
            end)
         cells.

(** What a pass over the dense matrix keeps: its extents, and the rows of
    the nodes that are not own. *)
Definition keeps_ghost_rows {R : Type} (isOwn : nat -> bool)
           (m m' : SequentialNodeLinearSystemImpl.t R) : Prop :=
  dense_wf m'
  /\ SequentialNodeLinearSystemImpl.nb_node m' = SequentialNodeLinearSystemImpl.nb_node m
  /\ forall r c, isOwn r = false ->
                 SequentialNodeLinearSystemImpl.get m' r c = SequentialNodeLinearSystemImpl.get m r c.

(* ===================================================================== *)
(** * The entries of the store after a scatter pass                       *)
(* ===================================================================== *)

(** Every two distinct nodes of a cell are the ends of a face of the
    mesh. *)
Definition cell_edges_are_faces (mesh : Mesh.t) : Prop :=
  forall cell a b,
    List.In cell (Mesh.allCells mesh) ->
    List.In a (Mesh.cell_nodes cell) ->
    List.In b (Mesh.cell_nodes cell) ->
    a <> b ->
    joined mesh a b.

(** The additions [(row, col, v)] that the device-parallel pass
    [_assembleCsrAllGPUBilinearOperatorTRIA3] scatters, in the order of
    its loops. *)
Definition device_parallel_log {R : Type} `{RealOps R}
           (mesh : Mesh.t) (m_node_coord : nat -> Real3.t R) : list (nat * nat * R) :=
  flat_map (fun icell =>
              let K_e := FemModule._computeElementMatrixTRIA3GPU m_node_coord icell in
              flat_map (fun '(n1_index, node1) =>
                          flat_map (fun '(n2_index, node2) =>
                                      if Mesh.isOwn mesh node1
                                      then [(node1, node2, nth (n1_index * 3 + n2_index) K_e r0)]
                                      else [])
                                   (Mesh.indexed (Mesh.cell_nodes icell)))
                       (Mesh.indexed (Mesh.cell_nodes icell)))
           (Mesh.allCells mesh).

(** The additions that the build-less pass
    [_assembleBuildLessCsrBilinearOperatorTria3] scatters, in the order
    of its loops. *)
Definition build_less_log {R : Type} `{RealOps R}
           (mesh : Mesh.t) (m_node_coord : nat -> Real3.t R) : list (nat * nat * R) :=
  flat_map (fun inode =>
              flat_map (fun cell =>
                          let inode_index :=
                            if inode =? Mesh.cnode1 cell then 1
                            else if inode =? Mesh.cnode2 cell then 2
                            else 0 in
                          let '(area, b_matrix) :=
                            FemModule._computeCellMatrixGpuTRIA3 m_node_coord cell in
                          flat_map (fun '(i, node2) =>
                                      let x := fold_left
                                                 (fun x k => (x + nth (inode_index * 2 + k) b_matrix r0
                                                                  * nth (i * 2 + k) b_matrix r0)%real)
                                                 (seq 0 2) r0 in
                                      let x := (x * area)%real in
                                      if Mesh.isOwn mesh inode then [(inode, node2, x)] else [])
                                   (Mesh.indexed (Mesh.cell_nodes cell)))
                       (Mesh.node_cells mesh inode))
           (Mesh.allNodes mesh).

(** The values added to the entry [(row, col)], in the order of the
    log. *)
Definition contributions {R : Type} (row col : nat) (log : list (nat * nat * R)) : list R :=
  map snd (List.filter (fun e => (fst (fst e) =? row) && (snd (fst e) =? col)) log).

(** What a sequence of contributions leaves in a slot: the first one is
    stored, the following ones are added to it one after the other. *)
Definition accumulated {R : Type} `{RealOps R} (l : list R) : option R :=
  match l with
  | [] => None
  | v :: l' => Some (fold_left radd l' v)
  end.

(** One addition scattered into the store built by
    [_buildMatrixGpuBuildLessCsr]: the span of the row is read off the
    row offsets and handed to the probe. *)
Definition scatter_entry {R : Type} `{RealOps R}
           (probe : nat -> nat -> Z -> R -> list Z -> list R -> result (list Z * list R))
           (mesh : Mesh.t) (e : nat * nat * R) (st : list Z * list R) : result (list Z * list R) :=
  do begin <- na_get (CsrFormat.m_matrix_row (built (R := R) mesh)) (fst (fst e)) ;;
  do end_ <- CsrFormat.row_end (CsrFormat.m_matrix_row (built (R := R) mesh))
                               (length (CsrFormat.m_matrix_column (built (R := R) mesh)))
                               (fst (fst e)) ;;
  probe (end_ - begin) begin (Z.of_nat (snd (fst e))) (snd e) (fst st) (snd st).

(** The claimed slots of a row span, as the columns and values they
    hold, after one more addition: the value is added to the slot of the
    column, or the next free slot is claimed. *)
Fixpoint row_add {R : Type} `{RealOps R} (col : nat) (v : R) (al : list (nat * R))
  : list (nat * R) :=
  match al with
  | [] => [(col, v)]
  | (c, old) :: al' =>
      if c =? col then (c, (old + v)%real) :: al' else (c, old) :: row_add col v al'
  end.

(** The claimed slots of the span of [row] after the additions of a
    log. *)
Definition row_state {R : Type} `{RealOps R} (row : nat) (log : list (nat * nat * R))
  : list (nat * R) :=
  fold_left (fun al e => if fst (fst e) =? row then row_add (snd (fst e)) (snd e) al else al)
            log [].

(** The value held for a column by the claimed slots of a row. *)
Definition row_lookup {R : Type} (col : nat) (al : list (nat * R)) : option R :=
  match List.find (fun s => fst s =? col) al with
  | Some s => Some (snd s)
  | None => None
  end.

(** The [n] slots from [b] hold the claimed slots [al], then
    sentinels. *)
Definition row_repr {R : Type} (cols : list Z) (vals : list R) (b n : nat) (al : list (nat * R))
  : Prop :=
  length al <= n
  /\ (forall i c v, al !! i = Some (c, v) ->
                    cols !! (b + i) = Some (Z.of_nat c) /\ vals !! (b + i) = Some v)
  /\ (forall i, length al <= i < n -> cols !! (b + i) = Some (-1)%Z).

(** The arrays of the store hold, row after row, the claimed slots left
    by the additions of a log. *)
Definition store_holds {R : Type} `{RealOps R} (mesh : Mesh.t) (log : list (nat * nat * R))
           (st : list Z * list R) : Prop :=
  length (fst st) = Mesh.nbFace mesh * 2 + Mesh.nbNode mesh
  /\ length (snd st) = Mesh.nbFace mesh * 2 + Mesh.nbNode mesh
  /\ forall row, row < Mesh.nbNode mesh ->
                 row_repr (fst st) (snd st) (sum_to (reserved mesh) row) (reserved mesh row)
                          (row_state row log).

(** An addition into the row of a node of the mesh, for the column of
    the node or of a node joined to it by a face. *)
Definition admissible {R : Type} (mesh : Mesh.t) (e : nat * nat * R) : Prop :=
  fst (fst e) < Mesh.nbNode mesh
  /\ (snd (fst e) = fst (fst e) \/ joined mesh (fst (fst e)) (snd (fst e))).

(** The additions [(row, col, v)] that [_assembleBilinearOperatorQUAD4]
    asks the linear system for, in the order of its loops. *)
Definition quad4_log {R : Type} `{RealOps R}
           (allCells : list FemModule.TypedCell) (isOwn : nat -> bool)
           (m_node_coord : nat -> Real3.t R) : list (nat * nat * R) :=
  flat_map (fun cell =>
              match cell with
              | FemModule.IT_Triangle3 _ => []
              | FemModule.IT_Quad4 cell =>
                  let K_e := FemModule._computeElementMatrixQUAD4 m_node_coord cell in
                  flat_map (fun '(n1_index, node1) =>
                              flat_map (fun '(n2_index, node2) =>
                                          if isOwn node1
                                          then [(node1, node2, at_ 4 K_e n1_index n2_index)]
                                          else [])
                                       (Mesh.indexed (FemModule.quad_nodes cell)))
                           (Mesh.indexed (FemModule.quad_nodes cell))
              end)
           allCells.

(** The sum of a list of rationals. *)
Definition Qsum (l : list Q) : Q := fold_right Qplus 0%Q l.

(** The value of an entry of the matrix: zero when the row holds no slot
    for the column. *)
Definition entry_value (o : option Q) : Q :=
  match o with
  | Some v => v
  | None => 0%Q
  end.

(** The sum of the entries of a row, over the columns of the nodes of
    the mesh: the row of the matrix applied to the constant field 1. *)
Definition row_sum (m : CsrFormat.t Q) (row nb_node : nat) : Q :=
  Qsum (map (fun col => entry_value (CsrFormat.entry m row col)) (seq 0 nb_node)).

(** The slot [i] is the first slot of the span reserved for [row] that
    holds the column [col]: the slot of the entry [(row, col)]. *)
Definition entry_slot (mesh : Mesh.t) (cols : list Z) (row col i : nat) : Prop :=
  sum_to (reserved mesh) row <= i < sum_to (reserved mesh) (S row)
  /\ cols !! i = Some (Z.of_nat col)
  /\ forall j, sum_to (reserved mesh) row <= j < i -> cols !! j <> Some (Z.of_nat col).

(** The slot of the diagonal entry of the row of a node. *)
Definition diagonal_slot (mesh : Mesh.t) (cols : list Z) (node i : nat) : Prop :=
  entry_slot mesh cols node node i.

(** No cell of the mesh is degenerate: the area that the kernels divide
    by is not zero. *)
Definition no_flat_cell (mesh : Mesh.t) (m_node_coord : nat -> Real3.t Q) : Prop :=
  Forall (fun cell => ~ (FemModule._computeAreaTriangle3 m_node_coord cell == 0)%Q)
         (Mesh.allCells mesh).


(** The triangle with nodes (0,0), (49,0), (0,1): twice its area is 49,
    whose reciprocal is rounded in binary64. *)
Definition long_triangle_coord (node : nat) : Real3.t float :=
  match node with
  | 0 => Real3.mk 0%float 0%float 0%float
  | 1 => Real3.mk 49%float 0%float 0%float
  | _ => Real3.mk 0%float 1%float 0%float
  end.

(* ===================================================================== *)
(** * The second text of FemModule.cc                                     *)
(* ===================================================================== *)

(** FemModule.cc holds the text of the module twice (lines 1-1688 and
    1689-3558). The two texts differ in [_computeElementMatrixTRIA3GPU]:
    [FemModule] has the one of lines 1184-1236, this module the one of
    lines 3259-3312, which divides by [A2 = 2.0 * area], accumulates the
    upper triangle in place in the [K_e] of its caller and mirrors it. *)
Module FemModule2.
Import Mesh.

Section Kernels.
Context {R : Type} `{RealOps R}.
Implicit Type m_node_coord : nat -> Real3.t R.

(** FemModule.cc, lines 3259-3312, [_computeElementMatrixTRIA3GPU]:
    [K_e] is the array [Real K_e[9]] of the caller, returned as the
    kernel leaves it. *)
Definition _computeElementMatrixTRIA3GPU m_node_coord (cell : Cell) (K_e : list R) : list R :=
  let m0 := m_node_coord (cnode0 cell) in
  let m1 := m_node_coord (cnode1 cell) in
  let m2 := m_node_coord (cnode2 cell) in
  let area := (rhalf * ((m1.(Real3.x) - m0.(Real3.x)) * (m2.(Real3.y) - m0.(Real3.y))
                        - (m2.(Real3.x) - m0.(Real3.x)) * (m1.(Real3.y) - m0.(Real3.y))))%real in
  let dPhi0 := Real2.mk (m1.(Real3.y) - m2.(Real3.y))%real (m2.(Real3.x) - m1.(Real3.x))%real in
  let dPhi1 := Real2.mk (m2.(Real3.y) - m0.(Real3.y))%real (m0.(Real3.x) - m2.(Real3.x))%real in
  let dPhi2 := Real2.mk (m0.(Real3.y) - m1.(Real3.y))%real (m1.(Real3.x) - m0.(Real3.x))%real in
  let A2 := (r2 * area)%real in
  let b_matrix : list R :=
    [ (dPhi0.(Real2.x) / A2)%real; (dPhi1.(Real2.x) / A2)%real; (dPhi2.(Real2.x) / A2)%real;
      (dPhi0.(Real2.y) / A2)%real; (dPhi1.(Real2.y) / A2)%real; (dPhi2.(Real2.y) / A2)%real ] in
  fold_left
    (fun K_e i =>
       fold_left
         (fun K_e j =>
            let K_e :=
              fold_left
                (fun K_e k =>
                   <[i * 3 + j := (nth (i * 3 + j) K_e r0
                                   + nth (k * 3 + i) b_matrix r0 * nth (k * 3 + j) b_matrix r0)%real]>
                     K_e)
                (seq 0 2) K_e in
            let K_e := <[i * 3 + j := (nth (i * 3 + j) K_e r0 * area)%real]> K_e in
            <[j * 3 + i := nth (i * 3 + j) K_e r0]> K_e)
         (seq i (3 - i)) K_e)
    (seq 0 3) K_e.
End Kernels.

Section Scatter.
Context {R : Type} `{RealOps R}.
Implicit Type m_node_coord : nat -> Real3.t R.

(** CsrGpuBiliAssembly.hxx, [_assembleCsrAllGPUBilinearOperatorTRIA3],
    over the text of [_computeElementMatrixTRIA3GPU] that the build
    compiles: [kernel] receives [Real K_e[9] = { 0 }] and returns it
    filled. *)
Definition _assembleCsrAllGPUBilinearOperatorTRIA3_with
           (kernel : (nat -> Real3.t R) -> Cell -> list R -> list R)
           (mesh : Mesh.t) m_node_coord : result (CsrFormat.t R) :=
  do m_csr_matrix <- FemModule._buildMatrixGpuBuildLessCsr mesh ;;
  let in_row_csr := CsrFormat.m_matrix_row m_csr_matrix in
  let col_csr_size := length (CsrFormat.m_matrix_column m_csr_matrix) in
  do '(cols, vals) <-
     foldM (fun icell st =>
              let K_e := kernel m_node_coord icell (repeat r0 9) in
              foldM (fun '(n1_index, node1) st =>
                       foldM (fun '(n2_index, node2) '(cols, vals) =>
                                let v := nth (n1_index * 3 + n2_index) K_e r0 in
                                if isOwn mesh node1 then
                                  let row := node1 in
                                  let col := Z.of_nat node2 in
                                  do begin <- na_get in_row_csr row ;;
                                  do end_ <- CsrFormat.row_end in_row_csr col_csr_size row ;;
                                  FemModule._assembleCsrAllGPU_probe (end_ - begin) begin col v cols vals
                                else Ok (cols, vals))
                             (indexed (cell_nodes icell)) st)
                    (indexed (cell_nodes icell)) st)
           (allCells mesh)
           (CsrFormat.m_matrix_column m_csr_matrix, CsrFormat.m_matrix_value m_csr_matrix) ;;
  Ok (CsrFormat.with_slots m_csr_matrix cols vals).

(** BlCsrBiliAssembly.hxx, [_assembleBuildLessCsrBilinearOperatorTria3],
    over the connectivity [ncc]: [ncc_cells inode] lists the cells of
    the node in the order in which [ncc.cells(inode)] enumerates
    them. *)
Definition _assembleBuildLessCsrBilinearOperatorTria3_with
           (ncc_cells : nat -> list Cell)
           (mesh : Mesh.t) m_node_coord : result (CsrFormat.t R) :=
  do m_csr_matrix <- FemModule._buildMatrixGpuBuildLessCsr mesh ;;
  let in_row_csr := CsrFormat.m_matrix_row m_csr_matrix in
  let col_csr_size := length (CsrFormat.m_matrix_column m_csr_matrix) in
  do '(cols, vals) <-
     foldM (fun inode st =>
              foldM (fun cell st =>
                       let inode_index :=
                         if inode =? cnode1 cell then 1
                         else if inode =? cnode2 cell then 2
                         else 0 in
                       let '(area, b_matrix) := FemModule._computeCellMatrixGpuTRIA3 m_node_coord cell in
                       foldM (fun '(i, node2) '(cols, vals) =>
                                let x := fold_left
                                           (fun x k => (x + nth (inode_index * 2 + k) b_matrix r0
                                                            * nth (i * 2 + k) b_matrix r0)%real)
                                           (seq 0 2) r0 in
                                let x := (x * area)%real in
                                if isOwn mesh inode then
                                  let row := inode in
                                  let col := Z.of_nat node2 in
                                  do begin <- na_get in_row_csr row ;;
                                  do end_ <- CsrFormat.row_end in_row_csr col_csr_size row ;;
                                  FemModule._addValueToGlobalMatrixTria3Gpu begin end_ col cols vals x
                                else Ok (cols, vals))
                             (indexed (cell_nodes cell)) st)
                    (ncc_cells inode) st)
           (allNodes mesh)
           (CsrFormat.m_matrix_column m_csr_matrix, CsrFormat.m_matrix_value m_csr_matrix) ;;
  Ok (CsrFormat.with_slots m_csr_matrix cols vals).
End Scatter.
End FemModule2.

(** The text of [_computeElementMatrixTRIA3GPU] at lines 1184-1236 as a
    kernel that fills the [K_e] of its caller: it assigns every
    entry. *)
Definition first_text_kernel {R : Type} `{RealOps R}
           (m_node_coord : nat -> Real3.t R) (cell : Mesh.Cell) (K_e : list R) : list R :=
  FemModule._computeElementMatrixTRIA3GPU m_node_coord cell.

(** The additions that the device-parallel pass scatters over a text of
    the kernel, in the order of its loops. *)
Definition device_parallel_log_with {R : Type} `{RealOps R}
           (kernel : (nat -> Real3.t R) -> Mesh.Cell -> list R -> list R)
           (mesh : Mesh.t) (m_node_coord : nat -> Real3.t R) : list (nat * nat * R) :=
  flat_map (fun icell =>
              let K_e := kernel m_node_coord icell (repeat r0 9) in
              flat_map (fun '(n1_index, node1) =>
                          flat_map (fun '(n2_index, node2) =>
                                      if Mesh.isOwn mesh node1
                                      then [(node1, node2, nth (n1_index * 3 + n2_index) K_e r0)]
                                      else [])
                                   (Mesh.indexed (Mesh.cell_nodes icell)))
                       (Mesh.indexed (Mesh.cell_nodes icell)))
           (Mesh.allCells mesh).

(** The additions that the build-less pass scatters over an enumeration
    of the cells of each node, in the order of its loops. *)
Definition build_less_log_with {R : Type} `{RealOps R}
           (ncc_cells : nat -> list Mesh.Cell)
           (mesh : Mesh.t) (m_node_coord : nat -> Real3.t R) : list (nat * nat * R) :=
  flat_map (fun inode =>
              flat_map (fun cell =>
                          let inode_index :=
                            if inode =? Mesh.cnode1 cell then 1
                            else if inode =? Mesh.cnode2 cell then 2
                            else 0 in
                          let '(area, b_matrix) :=
                            FemModule._computeCellMatrixGpuTRIA3 m_node_coord cell in
                          flat_map (fun '(i, node2) =>
                                      let x := fold_left
                                                 (fun x k => (x + nth (inode_index * 2 + k) b_matrix r0
                                                                  * nth (i * 2 + k) b_matrix r0)%real)
                                                 (seq 0 2) r0 in
                                      let x := (x * area)%real in
                                      if Mesh.isOwn mesh inode then [(inode, node2, x)] else [])
                                   (Mesh.indexed (Mesh.cell_nodes cell)))
                       (ncc_cells inode))
           (Mesh.allNodes mesh).

(** Two additions into the same entry, of equal rational values. *)
Definition same_addition (e1 e2 : nat * nat * Q) : Prop :=
  fst e1 = fst e2 /\ (snd e1 == snd e2)%Q.

(* ===================================================================== *)
(** * Facts about the monad and the arrays                                *)
(* ===================================================================== *)

Section MonadFacts.
Context {A St : Type}.

Lemma bind_Ok {B C} (c : result B) (k : B -> result C) (b : B) :
  c = Ok b -> bind c k = k b.
Proof. intros ->. reflexivity. Qed.

Lemma bind_Ok_inv {B C} (c : result B) (k : B -> result C) (r : C) :
  bind c k = Ok r -> exists b, c = Ok b /\ k b = Ok r.
Proof. destruct c as [b|e]; simpl; [eauto | discriminate]. Qed.

(** A loop whose body keeps an invariant and returns, returns and keeps
    the invariant. *)
Lemma foldM_invariant (I : St -> Prop) (body : A -> St -> result St) (l : list A) :
  forall s,
    I s ->
    (forall a s, List.In a l -> I s -> exists s', body a s = Ok s' /\ I s') ->
    exists s', foldM body l s = Ok s' /\ I s'.
Proof.
  induction l as [|a l IH]; intros s Hs Hbody; simpl.
  - eauto.
  - destruct (Hbody a s (or_introl eq_refl) Hs) as (s1 & -> & Hs1). simpl.
    apply IH; [exact Hs1 |].
    intros a' s' Hin. apply Hbody. right. exact Hin.
Qed.

Lemma foldM_app (body : A -> St -> result St) (l1 l2 : list A) (s : St) :
  foldM body (l1 ++ l2) s = bind (foldM body l1 s) (foldM body l2).
Proof.
  revert s. induction l1 as [|a l1 IH]; intros s; simpl; [reflexivity |].
  destruct (body a s); simpl; [apply IH | reflexivity].
Qed.
End MonadFacts.

Section ArrayFacts.
Context {A : Type}.
Implicit Types (a : list A) (i : nat).

Lemma na_get_lookup a i x : a !! i = Some x -> na_get a i = Ok x.
Proof. unfold na_get. intros ->. reflexivity. Qed.

Lemma na_get_in_range a i : i < length a -> exists x, a !! i = Some x /\ na_get a i = Ok x.
Proof.
  intros Hi. destruct (lookup_lt_is_Some_2 a i Hi) as [x Hx].
  exists x. split; [exact Hx | apply na_get_lookup, Hx].
Qed.

Lemma na_set_in_range a i x : i < length a -> na_set a i x = Ok (<[i := x]> a).
Proof.
  intros Hi. unfold na_set. destruct (lookup_lt_is_Some_2 a i Hi) as [y ->]. reflexivity.
Qed.

Lemma na_set_out_of_range a i x : length a <= i -> na_set a i x = Throw ArrayIndexOutOfBounds.
Proof. intros Hi. unfold na_set. rewrite (lookup_ge_None_2 a i Hi). reflexivity. Qed.
End ArrayFacts.

(* ===================================================================== *)
(** * The Hypre back end                                                  *)
(* ===================================================================== *)

Section HypreFacts.
Context {R : Type}.
Import HypreDoFLinearSystemImpl.

Lemma hypre_run_coordinate_ops_throw (ops : list (coordinate_op R)) (m : t R) :
  ops <> [] -> run_coordinate_ops ops m = Throw NotImplementedException.
Proof.
  destruct ops as [|op ops]; [congruence | intros _].
  unfold run_coordinate_ops. simpl. destruct op; reflexivity.
Qed.

(** A loop throws [e] when one of its items always throws [e] and the
    others either return or throw [e]. *)
Lemma foldM_throw {A St} (body : A -> St -> result St) (e : exn) (l : list A) :
  forall s,
    (exists a, List.In a l /\ forall s, body a s = Throw e) ->
    (forall a s, List.In a l -> body a s = Throw e \/ exists s', body a s = Ok s') ->
    foldM body l s = Throw e.
Proof.
  induction l as [|a l IH]; intros s (a0 & Hin & Hthrow) Hall; [destruct Hin |].
  simpl. destruct (Hall a s (or_introl eq_refl)) as [-> | (s' & E)]; [reflexivity |].
  destruct Hin as [<- | Hin].
  - rewrite Hthrow in E. discriminate.
  - rewrite E. simpl. apply IH; [eauto |].
    intros a' s1 Hin'. apply Hall. right. exact Hin'.
Qed.

Context `{RealOps R} `{RealSqrt R}.

Lemma hypre_assembleLinearOperator_throw
      (mesh : Mesh.t) (m_node_coord : nat -> Real3.t R) (options : FemModule.Options)
      (f ElementNodes : R) (m_u : nat -> R) (m_u_dirichlet : nat -> bool) (m : t R) (node : nat) :
  List.In node (Mesh.ownNodes mesh) ->
  m_u_dirichlet node = true ->
  FemModule.enforceDirichletMethod options = "Penalty"%string
  \/ FemModule.enforceDirichletMethod options = "WeakPenalty"%string ->
  FemModule._assembleLinearOperator mesh m_node_coord options f ElementNodes m_u m_u_dirichlet m
  = Throw NotImplementedException.
Proof.
  intros Hin Hdir Hmethod. unfold FemModule._assembleLinearOperator. cbv zeta.
  match goal with |- bind ?c _ = _ => assert (Hc : c = Throw NotImplementedException) end.
  { unfold FemModule.enforceDirichlet. destruct Hmethod as [-> | ->]; simpl.
    all: apply foldM_throw.
    all: try (exists node; split; [exact Hin |]; intros [ls rhs]; rewrite Hdir; reflexivity).
    all: intros a [ls rhs] _; destruct (m_u_dirichlet a); [left; reflexivity | right; eauto]. }
  rewrite Hc. reflexivity.
Qed.
End HypreFacts.

(** C10: on the Hypre back end [matrixAddValue], [matrixSetValue],
    [eliminateRow] and [eliminateRowColumn] throw [NotImplementedException]
    on every input; [setCSRValues] stores the view and [hasSetCSRValues] is
    always true; a caller that issues at least one per-coordinate operation,
    such as the assembly of the linear operator with a penalty method on an
    own Dirichlet node, fails with that exception. *)
Theorem C10_hypre_per_coordinate_operations_throw :
  forall (R : Type) `{RealOps R} `{RealSqrt R},
    (forall row column (value : R) m,
        HypreDoFLinearSystemImpl.matrixAddValue row column value m = Throw NotImplementedException)
    /\ (forall row column (value : R) m,
        HypreDoFLinearSystemImpl.matrixSetValue row column value m = Throw NotImplementedException)
    /\ (forall row (value : R) m,
        HypreDoFLinearSystemImpl.eliminateRow row value m = Throw NotImplementedException)
    /\ (forall row (value : R) m,
        HypreDoFLinearSystemImpl.eliminateRowColumn row value m = Throw NotImplementedException)
    /\ (forall csr_view (m : HypreDoFLinearSystemImpl.t R),
        HypreDoFLinearSystemImpl.m_csr_view (HypreDoFLinearSystemImpl.setCSRValues csr_view m) = csr_view)
    /\ (forall m : HypreDoFLinearSystemImpl.t R, HypreDoFLinearSystemImpl.hasSetCSRValues m = true)
    /\ (forall (calls : list (coordinate_op R)) (m : HypreDoFLinearSystemImpl.t R),
        calls <> [] -> run_coordinate_ops calls m = Throw NotImplementedException)
    /\ (forall mesh m_node_coord options f ElementNodes m_u m_u_dirichlet
               (m : HypreDoFLinearSystemImpl.t R) node,
        List.In node (Mesh.ownNodes mesh) ->
        m_u_dirichlet node = true ->
        FemModule.enforceDirichletMethod options = "Penalty"%string
        \/ FemModule.enforceDirichletMethod options = "WeakPenalty"%string ->
        FemModule._assembleLinearOperator mesh m_node_coord options f ElementNodes m_u m_u_dirichlet m
        = Throw NotImplementedException).
Proof.
  intros R ops sq. repeat split; try reflexivity.
  - apply hypre_run_coordinate_ops_throw.
  - intros. eapply hypre_assembleLinearOperator_throw; eauto.
Qed.

Lemma C10_hypre_witness :
  run_coordinate_ops [AddValue 0 0 1%float; SetValue 1 1 2%float]
                     (HypreDoFLinearSystemImpl.create (R := float))
  = Throw NotImplementedException.
Proof.
  apply (C10_hypre_per_coordinate_operations_throw float).
  discriminate.
Defined.

(* ===================================================================== *)
(** * The sparsity builders on particular meshes                          *)
(* ===================================================================== *)

(** C1: on the single triangle with edges (0,1), (1,2), (2,0) the
    sequential CSR builder [_buildMatrixCsr] inserts, for node 1, the
    coordinates (1,1), (1,1), (1,2): through the edge (0,1) it inserts the
    node itself, not the other endpoint 0 (and likewise for nodes 0 and 2),
    so the columns of row 1 are {1, 2} and not {1, 0, 2}. The COO builder
    [_buildMatrixGPU] inserts (self, other endpoint) for every incident
    edge. *)
Theorem C1_buildMatrixCsr_misses_other_endpoint :
  FemModule._buildMatrixCsr_with FemModule.log_coordinates Samples.single_triangle []
  = Ok [(0, 0); (0, 1); (0, 0); (1, 1); (1, 1); (1, 2); (2, 2); (2, 2); (2, 0)]
  /\ FemModule._buildMatrixGPU_with FemModule.log_coordinates Samples.single_triangle []
     = Ok [(0, 0); (0, 1); (0, 2); (1, 1); (1, 0); (1, 2); (2, 2); (2, 1); (2, 0)]
  /\ (forall (R : Type) `{RealOps R},
        exists m, FemModule._buildMatrixCsr (R := R) Samples.single_triangle = Ok m
                  /\ CsrFormat.row_columns m 0 = [0; 1; 0]%Z
                  /\ CsrFormat.row_columns m 1 = [1; 1; 2]%Z
                  /\ CsrFormat.row_columns m 2 = [2; 2; 0]%Z).
Proof.
  split; [vm_compute; reflexivity | split; [vm_compute; reflexivity |]].
  intros R ops. eexists. split; [vm_compute; reflexivity |].
  repeat split; vm_compute; reflexivity.
Qed.

(** C8: on the mesh without nodes, [_buildMatrixBuildLessCsr] writes
    [m_matrix_row(0)] although the row array is empty, an access outside
    the array, while [_buildMatrixCsr] and [_buildMatrixGpuBuildLessCsr]
    return the empty matrix. *)
Theorem C8_buildMatrixBuildLessCsr_empty_mesh_out_of_bounds :
  forall (R : Type) `{RealOps R},
    FemModule._buildMatrixBuildLessCsr (R := R) Samples.empty_mesh = Throw ArrayIndexOutOfBounds
    /\ FemModule._buildMatrixCsr (R := R) Samples.empty_mesh = Ok (CsrFormat.initialize 0 0)
    /\ FemModule._buildMatrixGpuBuildLessCsr (R := R) Samples.empty_mesh = Ok (CsrFormat.initialize 0 0)
    /\ CsrFormat.m_matrix_row (CsrFormat.initialize (R := R) 0 0) = []
    /\ CsrFormat.m_matrix_column (CsrFormat.initialize (R := R) 0 0) = []
    /\ CsrFormat.m_matrix_value (CsrFormat.initialize (R := R) 0 0) = [].
Proof. intros R ops. repeat split; reflexivity. Qed.

(* ===================================================================== *)
(** * The probe of a row span                                             *)
(* ===================================================================== *)

Section ProbeFacts.
Context {R : Type} `{RealOps R}.
Implicit Types (cols : list Z) (vals : list R) (col : Z).

Lemma _addValueToGlobalMatrixTria3Gpu_loop_exhausted n :
  forall begin col cols vals x,
    span_exhausted cols begin (begin + n) col ->
    FemModule._addValueToGlobalMatrixTria3Gpu_loop n begin col cols vals x = Ok (cols, vals).
Proof.
  induction n as [|n IH]; intros begin col cols vals x Hspan; simpl; [reflexivity |].
  destruct (Hspan begin ltac:(lia)) as (c & Hc & Hcol & Hsent).
  rewrite (na_get_lookup _ _ _ Hc). simpl.
  destruct (Z.eqb_spec c (-1)); [contradiction |].
  destruct (Z.eqb_spec c col); [contradiction |].
  apply IH. intros i Hi. apply Hspan. lia.
Qed.

Lemma _assembleCsrAllGPU_probe_exhausted n :
  forall begin col cols vals v,
    span_exhausted cols begin (begin + n) col ->
    FemModule._assembleCsrAllGPU_probe n begin col v cols vals = Ok (cols, vals).
Proof.
  induction n as [|n IH]; intros begin col cols vals v Hspan; simpl; [reflexivity |].
  destruct (Hspan begin ltac:(lia)) as (c & Hc & Hcol & Hsent).
  rewrite (na_get_lookup _ _ _ Hc). simpl.
  destruct (Z.eqb_spec c col); [contradiction |].
  destruct (Z.eqb_spec c (-1)); [contradiction |].
  apply IH. intros i Hi. apply Hspan. lia.
Qed.
End ProbeFacts.

(** C6 (as amended): when the probe of a scatter-add reaches the end of
    the row span without meeting the column or a sentinel slot, the
    scatter-add returns normally and leaves the column and value arrays
    unchanged: the contribution is dropped and no error is raised. This
    holds for [_addValueToGlobalMatrixTria3Gpu] and for the loop of
    [_assembleCsrAllGPUBilinearOperatorTRIA3]. *)
Theorem C6_exhausted_probe_returns_unchanged :
  forall (R : Type) `{RealOps R} (begin end_ : nat) (col : Z) (cols : list Z) (vals : list R) (x : R),
    span_exhausted cols begin end_ col ->
    FemModule._addValueToGlobalMatrixTria3Gpu begin end_ col cols vals x = Ok (cols, vals)
    /\ FemModule._assembleCsrAllGPU_probe (end_ - begin) begin col x cols vals = Ok (cols, vals).
Proof.
  intros R ops begin end_ col cols vals x Hspan.
  assert (Hspan' : span_exhausted cols begin (begin + (end_ - begin)) col).
  { intros i Hi. apply Hspan. lia. }
  split.
  - apply _addValueToGlobalMatrixTria3Gpu_loop_exhausted, Hspan'.
  - apply _assembleCsrAllGPU_probe_exhausted, Hspan'.
Qed.

Lemma C6_full_row_span_exhausted : span_exhausted [3; 4]%Z 0 2 5%Z.
Proof.
  intros i Hi. destruct i as [|[|i]]; [| | lia].
  - exists 3%Z. repeat split; [lia | lia].
  - exists 4%Z. repeat split; [lia | lia].
Qed.

Lemma C6_exhausted_probe_witness :
  FemModule._addValueToGlobalMatrixTria3Gpu 0 2 5%Z [3; 4]%Z [1; 1]%float 7%float
  = Ok ([3; 4]%Z, [1; 1]%float)
  /\ FemModule._assembleCsrAllGPU_probe (2 - 0) 0 5%Z 7%float [3; 4]%Z [1; 1]%float
     = Ok ([3; 4]%Z, [1; 1]%float).
Proof.
  apply (C6_exhausted_probe_returns_unchanged float). apply C6_full_row_span_exhausted.
Defined.

(** C6, the property as first stated fails: the row span [3; 4] holds neither the
    column 5 nor the sentinel, and both scatter-adds return normally with
    the arrays unchanged instead of failing. *)
Lemma C6_full_row_is_dropped_silently :
  span_exhausted [3; 4]%Z 0 2 5%Z
  /\ FemModule._addValueToGlobalMatrixTria3Gpu 0 2 5%Z [3; 4]%Z [1; 1]%float 7%float
     = Ok ([3; 4]%Z, [1; 1]%float)
  /\ FemModule._assembleCsrAllGPU_probe (2 - 0) 0 5%Z 7%float [3; 4]%Z [1; 1]%float
     = Ok ([3; 4]%Z, [1; 1]%float)
  /\ ~ (exists e, FemModule._addValueToGlobalMatrixTria3Gpu 0 2 5%Z [3; 4]%Z [1; 1]%float 7%float
                  = Throw e)
  /\ ~ (exists e, FemModule._assembleCsrAllGPU_probe (2 - 0) 0 5%Z 7%float [3; 4]%Z [1; 1]%float
                  = Throw e).
Proof.
  split; [apply C6_full_row_span_exhausted |].
  split; [reflexivity |]. split; [reflexivity |].
  split; intros [e He]; vm_compute in He; discriminate.
Qed.

(* ===================================================================== *)
(** * Row offsets: counts, scan, capacity                                 *)
(* ===================================================================== *)

Section SumFacts.
Implicit Types (f g : nat -> nat).

Lemma sum_to_ext f g k : (forall j, j < k -> f j = g j) -> sum_to f k = sum_to g k.
Proof.
  induction k as [|k IH]; intros Hfg; simpl; [reflexivity |].
  rewrite IH, Hfg; [reflexivity | lia |]. intros j Hj. apply Hfg. lia.
Qed.

Lemma sum_to_add f g k : sum_to (fun j => f j + g j) k = sum_to f k + sum_to g k.
Proof. induction k as [|k IH]; simpl; [reflexivity | rewrite IH; lia]. Qed.

Lemma sum_to_const_1 k : sum_to (fun _ => 1) k = k.
Proof. induction k as [|k IH]; simpl; [reflexivity | rewrite IH; lia]. Qed.

Lemma sum_to_zero k : sum_to (fun _ => 0) k = 0.
Proof. induction k as [|k IH]; simpl; [reflexivity | rewrite IH; reflexivity]. Qed.

Lemma sum_to_mono f k k' : k <= k' -> sum_to f k <= sum_to f k'.
Proof. induction 1 as [|k' _ IH]; simpl; lia. Qed.

(** The indicator of one index sums to one when the index is in range. *)
Lemma sum_to_indicator a k :
  sum_to (fun j => if a =? j then 1 else 0) k = if a <? k then 1 else 0.
Proof.
  induction k as [|k IH]; simpl; [reflexivity |]. rewrite IH.
  destruct (Nat.eqb_spec a k), (Nat.ltb_spec a k), (Nat.ltb_spec a (S k)); lia.
Qed.

Lemma exclusiveSum_from_length acc (l : list nat) :
  length (FemModule.exclusiveSum_from acc l) = length l.
Proof. revert acc. induction l as [|v l IH]; intros acc; simpl; [reflexivity | rewrite IH; reflexivity]. Qed.

Lemma sum_to_shift f a k :
  sum_to (fun j => f (a + j)) (S k) = f a + sum_to (fun j => f (S a + j)) k.
Proof.
  induction k as [|k IH].
  - simpl. rewrite Nat.add_0_r. lia.
  - change (sum_to (fun j => f (a + j)) (S (S k)))
      with (sum_to (fun j => f (a + j)) (S k) + f (a + S k)).
    rewrite IH. simpl. replace (a + S k) with (S (a + k)) by lia. lia.
Qed.

Lemma exclusiveSum_from_lookup f n :
  forall a acc r,
    r < n ->
    FemModule.exclusiveSum_from acc (map f (seq a n)) !! r
    = Some (acc + sum_to (fun j => f (a + j)) r).
Proof.
  induction n as [|n IH]; intros a acc r Hr; [lia |].
  destruct r as [|r].
  - simpl. f_equal. lia.
  - rewrite sum_to_shift.
    change (FemModule.exclusiveSum_from acc (map f (seq a (S n))) !! S r)
      with (FemModule.exclusiveSum_from (acc + f a) (map f (seq (S a) n)) !! r).
    rewrite IH by lia. f_equal. lia.
Qed.

Lemma exclusiveSum_lookup f n r :
  r < n -> FemModule.exclusiveSum (map f (seq 0 n)) !! r = Some (sum_to f r).
Proof.
  intros Hr. unfold FemModule.exclusiveSum. rewrite exclusiveSum_from_lookup by exact Hr.
  reflexivity.
Qed.

Lemma exclusiveSum_length (l : list nat) : length (FemModule.exclusiveSum l) = length l.
Proof. apply exclusiveSum_from_length. Qed.
End SumFacts.

Section HandshakeFacts.
Import Mesh.

(** The faces incident to the nodes below [k], counted with the nodes. *)
Lemma incident_faces_cons (f : Face) (fs : list Face) (j : nat) :
  length (List.filter (face_has_node j) (f :: fs))
  = (if face_has_node j f then 1 else 0) + length (List.filter (face_has_node j) fs).
Proof. simpl. destruct (face_has_node j f); reflexivity. Qed.

Lemma sum_to_face_indicator (f : Face) (k : nat) :
  fnode0 f < k -> fnode1 f < k -> fnode0 f <> fnode1 f ->
  sum_to (fun j => if face_has_node j f then 1 else 0) k = 2.
Proof.
  intros H0 H1 Hne.
  rewrite (sum_to_ext _ (fun j => (if fnode0 f =? j then 1 else 0) + (if fnode1 f =? j then 1 else 0))).
  - rewrite sum_to_add, !sum_to_indicator.
    destruct (Nat.ltb_spec (fnode0 f) k), (Nat.ltb_spec (fnode1 f) k); lia.
  - intros j _. unfold face_has_node.
    destruct (Nat.eqb_spec (fnode0 f) j), (Nat.eqb_spec (fnode1 f) j); simpl; lia.
Qed.

(** Every face is incident to two nodes: the degrees sum to twice the
    number of faces. *)
Lemma handshake (fs : list Face) (k : nat) :
  Forall (fun f => fnode0 f < k /\ fnode1 f < k /\ fnode0 f <> fnode1 f) fs ->
  sum_to (fun j => length (List.filter (face_has_node j) fs)) k = 2 * length fs.
Proof.
  induction 1 as [|f fs (H0 & H1 & Hne) _ IH]; simpl length at 2.
  - simpl. apply sum_to_zero.
  - rewrite (sum_to_ext _ (fun j => (if face_has_node j f then 1 else 0)
                                    + length (List.filter (face_has_node j) fs))).
    + rewrite sum_to_add, IH, sum_to_face_indicator by assumption. lia.
    + intros j _. apply incident_faces_cons.
Qed.

(** The capacity formula: the reserved row sizes of a valid mesh sum to
    [2 * nbFace + nbNode]. *)
Lemma reserved_total (mesh : Mesh.t) :
  Mesh.valid mesh -> sum_to (reserved mesh) (nbNode mesh) = nbFace mesh * 2 + nbNode mesh.
Proof.
  intros [Hfaces _ _]. unfold reserved, node_nbFace, node_faces.
  rewrite sum_to_add, sum_to_const_1, handshake; [unfold nbFace; lia | exact Hfaces].
Qed.
End HandshakeFacts.

Section BuilderFacts.
Context {R : Type} `{RealOps R}.
Import Mesh.

(** The loop that fills [tmp_row]: one count per node. *)
Lemma tmp_row_loop (f : nat -> nat) (n k : nat) :
  k <= n ->
  foldM (fun inode tmp_row => na_set tmp_row inode (f inode)) (seq 0 k) (replicate n 0)
  = Ok (map f (seq 0 k) ++ replicate (n - k) 0).
Proof.
  induction k as [|k IH]; intros Hk.
  - simpl. rewrite Nat.sub_0_r. reflexivity.
  - rewrite seq_S, foldM_app, IH by lia. simpl.
    rewrite na_set_in_range by (rewrite length_app, length_map, length_seq, length_replicate; lia).
    simpl. f_equal.
    rewrite insert_app_r_alt by (rewrite length_map, length_seq; lia).
    rewrite length_map, length_seq, Nat.sub_diag.
    replace (n - k) with (S (n - S k)) by lia. simpl.
    rewrite map_app. simpl. rewrite <- app_assoc. reflexivity.
Qed.

Lemma _buildMatrixGpuBuildLessCsr_built (mesh : Mesh.t) :
  FemModule._buildMatrixGpuBuildLessCsr mesh = Ok (built mesh).
Proof.
  unfold FemModule._buildMatrixGpuBuildLessCsr, allNodes.
  rewrite (tmp_row_loop (fun inode => node_nbFace mesh inode + 1)) by lia.
  rewrite Nat.sub_diag, app_nil_r. reflexivity.
Qed.

Lemma built_rows_length (mesh : Mesh.t) :
  length (CsrFormat.m_matrix_row (built mesh)) = nbNode mesh.
Proof. simpl. unfold allNodes. rewrite exclusiveSum_length, length_map, length_seq. reflexivity. Qed.

Lemma built_row_begin (mesh : Mesh.t) (row : nat) :
  row < nbNode mesh ->
  CsrFormat.m_matrix_row (built mesh) !! row = Some (sum_to (reserved mesh) row).
Proof. intros Hrow. simpl. unfold allNodes. apply exclusiveSum_lookup, Hrow. Qed.

Lemma built_row_end (mesh : Mesh.t) (row : nat) :
  Mesh.valid mesh ->
  row < nbNode mesh ->
  CsrFormat.row_end (CsrFormat.m_matrix_row (built mesh))
                    (length (CsrFormat.m_matrix_column (built mesh))) row
  = Ok (sum_to (reserved mesh) (S row)).
Proof.
  intros Hvalid Hrow. unfold CsrFormat.row_end. rewrite built_rows_length.
  destruct (Nat.eqb_spec (S row) (nbNode mesh)) as [E | E].
  - simpl CsrFormat.m_matrix_column. rewrite length_replicate, E.
    rewrite reserved_total by exact Hvalid. reflexivity.
  - apply na_get_lookup. replace (row + 1) with (S row) by lia.
    apply built_row_begin. lia.
Qed.

Lemma built_row_sizes (mesh : Mesh.t) :
  Mesh.valid mesh -> CsrFormat.row_sizes (built mesh) = map (reserved mesh) (allNodes mesh).
Proof.
  intros Hvalid. unfold CsrFormat.row_sizes. rewrite built_rows_length. unfold allNodes.
  apply map_ext_in. intros row Hrow. apply in_seq in Hrow.
  rewrite built_row_begin, built_row_end by (try exact Hvalid; lia).
  simpl. lia.
Qed.
Lemma exclusiveSum_tabulate (f : nat -> nat) (n : nat) :
  FemModule.exclusiveSum (map f (seq 0 n)) = map (sum_to f) (seq 0 n).
Proof.
  apply list_eq. intros r. destruct (Nat.lt_ge_cases r n) as [Hr | Hr].
  - rewrite exclusiveSum_lookup by exact Hr.
    rewrite list_lookup_fmap, lookup_seq_lt by exact Hr. reflexivity.
  - rewrite !lookup_ge_None_2; [reflexivity | |].
    + rewrite length_map, length_seq. exact Hr.
    + rewrite exclusiveSum_length, length_map, length_seq. exact Hr.
Qed.

(** The loop of [_buildMatrixBuildLessCsr] after its first [k] nodes. *)
Lemma host_row_loop (mesh : Mesh.t) (k : nat) :
  S k <= nbNode mesh ->
  foldM (fun node '(rows, index) =>
           if index <? nbNode mesh then
             do prev <- na_get rows (index - 1) ;;
             do rows <- na_set rows index (node_nbFace mesh node + prev + 1) ;;
             Ok (rows, index + 1)
           else Ok (rows, index))
        (seq 0 k) (<[0 := 0]> (replicate (nbNode mesh) 0), 1)
  = Ok (map (sum_to (reserved mesh)) (seq 0 (S k)) ++ replicate (nbNode mesh - S k) 0, S k).
Proof.
  induction k as [|k IH]; intros Hk.
  - simpl. destruct (nbNode mesh) as [|n]; [lia |]. simpl. rewrite Nat.sub_0_r. reflexivity.
  - rewrite seq_S, foldM_app, IH by lia. cbn [bind foldM Nat.add].
    destruct (Nat.ltb_spec (S k) (nbNode mesh)) as [_ | ?]; [| lia].
    replace (S k - 1) with k by lia.
    rewrite (na_get_lookup _ k (sum_to (reserved mesh) k)).
    2:{ rewrite lookup_app_l by (rewrite length_map, length_seq; lia).
        rewrite list_lookup_fmap, lookup_seq_lt by lia. reflexivity. }
    cbn [bind].
    rewrite na_set_in_range
      by (rewrite length_app, length_map, length_seq, length_replicate; lia).
    cbn [bind]. f_equal. f_equal; [| lia].
    rewrite insert_app_r_alt by (rewrite length_map, length_seq; lia).
    rewrite length_map, length_seq, Nat.sub_diag.
    replace (nbNode mesh - S k) with (S (nbNode mesh - S (S k))) by lia.
    rewrite (seq_S (S k)), map_app, <- app_assoc. simpl.
    unfold reserved. do 3 f_equal. lia.
Qed.

(** On a mesh with at least one node the host builder and the scan builder
    return the same store. *)
Lemma _buildMatrixBuildLessCsr_built (mesh : Mesh.t) :
  0 < nbNode mesh -> FemModule._buildMatrixBuildLessCsr mesh = Ok (built mesh).
Proof.
  intros Hn. unfold FemModule._buildMatrixBuildLessCsr. cbv zeta.
  cbn [CsrFormat.initialize CsrFormat.m_matrix_row CsrFormat.m_matrix_column
       CsrFormat.m_matrix_value CsrFormat.m_matrix_rows_nb_column CsrFormat.m_last_value].
  rewrite na_set_in_range by (rewrite length_replicate; exact Hn). cbn [bind].
  unfold allNodes.
  assert (Hseq : seq 0 (nbNode mesh) = seq 0 (nbNode mesh - 1) ++ [nbNode mesh - 1]).
  { replace (nbNode mesh) with (S (nbNode mesh - 1)) at 1 by lia. apply seq_S. }
  rewrite Hseq, foldM_app, host_row_loop by lia. cbn [bind foldM Nat.add].
  replace (S (nbNode mesh - 1)) with (nbNode mesh) by lia.
  rewrite Nat.ltb_irrefl. cbn [bind].
  rewrite Nat.sub_diag, app_nil_r. unfold built, allNodes.
  rewrite exclusiveSum_tabulate. reflexivity.
Qed.
End BuilderFacts.

Section SequentialBuilderFacts.
Import Mesh.

Lemma log_coordinates_faces (node : nat) (g : Face -> nat) (faces : list Face) :
  forall log,
    foldM (fun face m => FemModule.log_coordinates node (g face) m) faces log
    = Ok (log ++ map (fun face => (node, g face)) faces).
Proof.
  induction faces as [|face faces IH]; intros log; simpl.
  - rewrite app_nil_r. reflexivity.
  - rewrite IH, <- app_assoc. reflexivity.
Qed.

(** The coordinates [_buildMatrixCsr] hands to the store, in order. *)
Lemma _buildMatrixCsr_log (mesh : Mesh.t) (nodes : list nat) :
  forall log,
    foldM (fun node m =>
             let node_dof_id := node in
             let diagonal_entry := node_dof_id in
             do m <- FemModule.log_coordinates diagonal_entry diagonal_entry m ;;
             foldM (fun face m =>
                      let nodeId := if negb (fnode0 face =? 0) then fnode1 face else fnode1 face in
                      FemModule.log_coordinates diagonal_entry nodeId m)
                   (node_faces mesh node) m)
          nodes log
    = Ok (log ++ flat_map (csr_coordinates_of_node mesh) nodes).
Proof.
  induction nodes as [|node nodes IH]; intros log; simpl.
  - rewrite app_nil_r. reflexivity.
  - rewrite (log_coordinates_faces node
               (fun face => if negb (fnode0 face =? 0) then fnode1 face else fnode1 face)).
    simpl. rewrite IH. f_equal. rewrite <- !app_assoc. simpl. do 3 f_equal.
    apply map_ext. intros face. destruct (negb (fnode0 face =? 0)); reflexivity.
Qed.

Lemma coordinates_of_row_node (mesh : Mesh.t) (row node : nat) :
  coordinates_of_row row (csr_coordinates_of_node mesh node)
  = if node =? row then csr_coordinates_of_node mesh node else [].
Proof.
  unfold coordinates_of_row, csr_coordinates_of_node.
  destruct (Nat.eqb_spec node row) as [-> | Hne]; simpl.
  - rewrite Nat.eqb_refl. f_equal.
    induction (node_faces mesh row) as [|face faces IH]; simpl; [reflexivity |].
    rewrite Nat.eqb_refl, IH. reflexivity.
  - destruct (Nat.eqb_spec node row); [contradiction |].
    induction (node_faces mesh node) as [|face faces IH]; simpl; [reflexivity |].
    destruct (Nat.eqb_spec node row); [contradiction | exact IH].
Qed.

Lemma coordinates_of_row_app (row : nat) (l1 l2 : list (nat * nat)) :
  coordinates_of_row row (l1 ++ l2) = coordinates_of_row row l1 ++ coordinates_of_row row l2.
Proof. apply List.filter_app. Qed.

Lemma flat_map_seq_S {A} (g : nat -> list A) (k : nat) :
  flat_map g (seq 0 (S k)) = flat_map g (seq 0 k) ++ g k.
Proof. rewrite seq_S, flat_map_app. simpl. rewrite app_nil_r. reflexivity. Qed.

Lemma csr_coordinates_of_node_length (mesh : Mesh.t) (node : nat) :
  length (csr_coordinates_of_node mesh node) = reserved mesh node.
Proof.
  unfold csr_coordinates_of_node, reserved, node_nbFace. simpl. rewrite length_map. lia.
Qed.

Lemma coordinates_of_row_count (mesh : Mesh.t) (row k : nat) :
  length (coordinates_of_row row (flat_map (csr_coordinates_of_node mesh) (seq 0 k)))
  = if row <? k then reserved mesh row else 0.
Proof.
  induction k as [|k IH]; [reflexivity |].
  rewrite flat_map_seq_S, coordinates_of_row_app, length_app, IH, coordinates_of_row_node.
  destruct (Nat.eqb_spec k row) as [-> | Hne].
  - rewrite csr_coordinates_of_node_length.
    destruct (Nat.ltb_spec row row), (Nat.ltb_spec row (S row)); lia.
  - destruct (Nat.ltb_spec row k), (Nat.ltb_spec row (S k)); simpl; lia.
Qed.

Lemma csr_coordinates_total (mesh : Mesh.t) (k : nat) :
  length (flat_map (csr_coordinates_of_node mesh) (seq 0 k)) = sum_to (reserved mesh) k.
Proof.
  induction k as [|k IH]; [reflexivity |].
  rewrite flat_map_seq_S, length_app, IH, csr_coordinates_of_node_length. reflexivity.
Qed.
End SequentialBuilderFacts.

Lemma two_triangles_valid : Mesh.valid Samples.two_triangles.
Proof.
  split.
  - repeat constructor; simpl; lia.
  - repeat constructor; simpl; lia.
  - simpl. lia.
Qed.

(** C3 (as amended): for every valid mesh the sparsity builders reserve
    exactly [degree(node) + 1] slots for the row of each node and a total
    capacity of exactly [2 * nbFace + nbNode] slots: the scan builder
    [_buildMatrixGpuBuildLessCsr] returns one row per node, the span of
    row [node] has [nbFace(node) + 1] slots, and the column and value
    arrays have [2 * nbFace + nbNode] entries; [_buildMatrixCsr] inserts
    [nbFace(node) + 1] coordinates in row [node] and [2 * nbFace + nbNode]
    coordinates in all, the capacity it initialises the store with; on a
    mesh with at least one node the host builder
    [_buildMatrixBuildLessCsr] returns the store of the scan builder. For
    the two triangles sharing an edge this gives 4 rows of sizes 3, 4, 4,
    3, that is {3, 3, 4, 4}, which sum to 2 * 5 + 4 = 14. *)
Theorem C3_reserved_row_sizes_and_capacity :
  (forall (R : Type) `{RealOps R} (mesh : Mesh.t),
      Mesh.valid mesh ->
      (exists m,
          FemModule._buildMatrixGpuBuildLessCsr (R := R) mesh = Ok m
          /\ length (CsrFormat.m_matrix_row m) = Mesh.nbNode mesh
          /\ CsrFormat.row_sizes m
             = map (fun node => Mesh.node_nbFace mesh node + 1) (Mesh.allNodes mesh)
          /\ length (CsrFormat.m_matrix_column m) = 2 * Mesh.nbFace mesh + Mesh.nbNode mesh
          /\ length (CsrFormat.m_matrix_value m) = 2 * Mesh.nbFace mesh + Mesh.nbNode mesh)
      /\ (exists log,
             FemModule._buildMatrixCsr_with FemModule.log_coordinates mesh [] = Ok log
             /\ (forall node, node < Mesh.nbNode mesh ->
                              length (coordinates_of_row node log) = Mesh.node_nbFace mesh node + 1)
             /\ length log = 2 * Mesh.nbFace mesh + Mesh.nbNode mesh)
      /\ (0 < Mesh.nbNode mesh ->
          FemModule._buildMatrixBuildLessCsr (R := R) mesh
          = FemModule._buildMatrixGpuBuildLessCsr mesh))
  /\ (exists m,
         FemModule._buildMatrixGpuBuildLessCsr (R := float) Samples.two_triangles = Ok m
         /\ length (CsrFormat.m_matrix_row m) = 4
         /\ CsrFormat.row_sizes m = [3; 4; 4; 3]
         /\ list_sum (CsrFormat.row_sizes m) = 2 * 5 + 4
         /\ length (CsrFormat.m_matrix_column m) = 14).
Proof.
  split.
  - intros R ops mesh Hvalid. split.
    + exists (built mesh). split; [apply _buildMatrixGpuBuildLessCsr_built |].
      split; [apply built_rows_length |].
      split; [apply built_row_sizes, Hvalid |].
      simpl. rewrite !length_replicate. lia.
    + split.
      * eexists. split.
        -- unfold FemModule._buildMatrixCsr_with. apply _buildMatrixCsr_log.
        -- simpl. split.
           ++ intros node Hnode. unfold Mesh.allNodes. rewrite coordinates_of_row_count.
              destruct (Nat.ltb_spec node (Mesh.nbNode mesh)); [reflexivity | lia].
           ++ unfold Mesh.allNodes.
              rewrite csr_coordinates_total, reserved_total by exact Hvalid. lia.
      * intros Hn. rewrite _buildMatrixGpuBuildLessCsr_built.
        apply _buildMatrixBuildLessCsr_built, Hn.
  - eexists. split; [vm_compute; reflexivity |]. repeat split; vm_compute; reflexivity.
Qed.

Lemma C3_reserved_witness :
  (exists m,
      FemModule._buildMatrixGpuBuildLessCsr (R := Q) Samples.two_triangles = Ok m
      /\ length (CsrFormat.m_matrix_row m) = Mesh.nbNode Samples.two_triangles
      /\ CsrFormat.row_sizes m
         = map (fun node => Mesh.node_nbFace Samples.two_triangles node + 1)
               (Mesh.allNodes Samples.two_triangles)
      /\ length (CsrFormat.m_matrix_column m)
         = 2 * Mesh.nbFace Samples.two_triangles + Mesh.nbNode Samples.two_triangles
      /\ length (CsrFormat.m_matrix_value m)
         = 2 * Mesh.nbFace Samples.two_triangles + Mesh.nbNode Samples.two_triangles)
  /\ (exists log,
         FemModule._buildMatrixCsr_with FemModule.log_coordinates Samples.two_triangles [] = Ok log
         /\ (forall node, node < Mesh.nbNode Samples.two_triangles ->
                          length (coordinates_of_row node log)
                          = Mesh.node_nbFace Samples.two_triangles node + 1)
         /\ length log = 2 * Mesh.nbFace Samples.two_triangles + Mesh.nbNode Samples.two_triangles)
  /\ (0 < Mesh.nbNode Samples.two_triangles ->
      FemModule._buildMatrixBuildLessCsr (R := Q) Samples.two_triangles
      = FemModule._buildMatrixGpuBuildLessCsr Samples.two_triangles).
Proof.
  apply (proj1 C3_reserved_row_sizes_and_capacity Q _ Samples.two_triangles two_triangles_valid).
Defined.

(** C3, the property as first stated fails: on the two triangles sharing an edge
    the reserved row sizes are 3, 4, 4, 3 and not {2, 2, 3, 3}, whose sum
    is 10 and not 14. *)
Lemma C3_two_triangles_row_sizes_are_not_2_2_3_3 :
  exists m,
    FemModule._buildMatrixGpuBuildLessCsr (R := float) Samples.two_triangles = Ok m
    /\ CsrFormat.row_sizes m = [3; 4; 4; 3]
    /\ ~ Permutation (CsrFormat.row_sizes m) [2; 2; 3; 3]
    /\ list_sum [2; 2; 3; 3] <> 2 * 5 + 4.
Proof.
  eexists. split; [reflexivity |]. split; [reflexivity |]. split.
  - intros Hperm. apply Permutation_length in Hperm as Hlen.
    assert (Hin : List.In 4 [2; 2; 3; 3]).
    { eapply Permutation_in; [exact Hperm |]. vm_compute. auto. }
    simpl in Hin. lia.
  - simpl. lia.
Qed.

(* ===================================================================== *)
(** * Scatter passes write the rows of own nodes only                     *)
(* ===================================================================== *)

Section FrameFacts.
Context {R : Type} `{RealOps R}.
Implicit Types (cols : list Z) (vals : list R) (col : Z).

Lemma _assembleCsrAllGPU_probe_frames n :
  forall begin col v,
    frames (FemModule._assembleCsrAllGPU_probe n begin col v) begin n.
Proof.
  induction n as [|n IH]; intros begin col v cols vals Hspan Hlen; simpl.
  - exists cols, vals. auto.
  - destruct (na_get_in_range cols begin ltac:(lia)) as (c & _ & ->). simpl.
    destruct (na_get_in_range vals begin ltac:(lia)) as (old & _ & Hold).
    destruct (Z.eqb c col); [| destruct (Z.eqb c (-1))].
    + rewrite Hold. simpl. rewrite na_set_in_range by lia. simpl.
      eexists _, _. split; [reflexivity |]. rewrite length_insert.
      repeat split; try lia. apply list_lookup_insert_ne. lia.
    + rewrite na_set_in_range by lia. simpl. rewrite na_set_in_range by lia. simpl.
      eexists _, _. split; [reflexivity |]. rewrite !length_insert.
      repeat split; try lia; apply list_lookup_insert_ne; lia.
    + destruct (IH (S begin) col v cols vals ltac:(lia) Hlen)
        as (cols' & vals' & -> & Hc & Hv & Hframe).
      exists cols', vals'. repeat split; try assumption; apply Hframe; lia.
Qed.

Lemma _addValueToGlobalMatrixTria3Gpu_loop_frames n :
  forall begin col x,
    frames (fun cols vals => FemModule._addValueToGlobalMatrixTria3Gpu_loop n begin col cols vals x)
           begin n.
Proof.
  induction n as [|n IH]; intros begin col x cols vals Hspan Hlen; simpl.
  - exists cols, vals. auto.
  - destruct (na_get_in_range cols begin ltac:(lia)) as (c & _ & ->). simpl.
    destruct (na_get_in_range vals begin ltac:(lia)) as (old & _ & Hold).
    destruct (Z.eqb c (-1)); [| destruct (Z.eqb c col)].
    + rewrite na_set_in_range by lia. simpl. rewrite na_set_in_range by lia. simpl.
      eexists _, _. split; [reflexivity |]. rewrite !length_insert.
      repeat split; try lia; apply list_lookup_insert_ne; lia.
    + rewrite Hold. simpl. rewrite na_set_in_range by lia. simpl.
      eexists _, _. split; [reflexivity |]. rewrite length_insert.
      repeat split; try lia. apply list_lookup_insert_ne. lia.
    + destruct (IH (S begin) col x cols vals ltac:(lia) Hlen)
        as (cols' & vals' & -> & Hc & Hv & Hframe).
      exists cols', vals'. repeat split; try assumption; apply Hframe; lia.
Qed.

(** Scattering one entry into the row of an own node, with a probe that
    frames the span of the row, keeps the rows of the other sub-domains
    untouched. *)
Lemma scatter_entry_keeps_ghost_rows
      (mesh : Mesh.t) (probe : nat -> nat -> list Z -> list R -> result (list Z * list R))
      (row : nat) (st : list Z * list R) :
  Mesh.valid mesh ->
  (forall begin n, frames (probe n begin) begin n) ->
  row < Mesh.nbNode mesh ->
  Mesh.isOwn mesh row = true ->
  ghost_rows_untouched mesh st ->
  exists st',
    (do begin <- na_get (CsrFormat.m_matrix_row (built mesh)) row ;;
     do end_ <- CsrFormat.row_end (CsrFormat.m_matrix_row (built mesh))
                                  (length (CsrFormat.m_matrix_column (built mesh))) row ;;
     probe (end_ - begin) begin (fst st) (snd st)) = Ok st'
    /\ ghost_rows_untouched mesh st'.
Proof.
  intros Hvalid Hprobe Hrow Hown (Hlc & Hlv & Hghost).
  rewrite (na_get_lookup _ _ _ (built_row_begin mesh row Hrow)). cbn [bind].
  rewrite (built_row_end mesh row Hvalid Hrow). cbn [bind].
  set (b := sum_to (reserved mesh) row). set (e := sum_to (reserved mesh) (S row)).
  assert (Hbe : b <= e) by (apply sum_to_mono; lia).
  assert (Hen : e <= Mesh.nbFace mesh * 2 + Mesh.nbNode mesh).
  { rewrite <- (reserved_total mesh Hvalid). apply sum_to_mono. lia. }
  destruct (Hprobe b (e - b) (fst st) (snd st) ltac:(lia) ltac:(lia))
    as (cols' & vals' & -> & Hc & Hv & Hframe).
  exists (cols', vals'). split; [reflexivity |].
  split; [simpl; lia |]. split; [simpl; lia |].
  intros node i Hnode Hother Hi. simpl.
  destruct (Hghost node i Hnode Hother Hi) as [Hgc Hgv].
  assert (Hne : node <> row) by congruence.
  assert (Hout : i < b \/ b + (e - b) <= i).
  { destruct (Nat.lt_ge_cases node row) as [Hlt | Hge].
    - left. assert (sum_to (reserved mesh) (S node) <= b) by (apply sum_to_mono; lia). lia.
    - right. assert (e <= sum_to (reserved mesh) node) by (apply sum_to_mono; lia). lia. }
  destruct (Hframe i Hout) as [-> ->]. auto.
Qed.
End FrameFacts.

Section OwnRowsFacts.
Context {R : Type} `{RealOps R}.
Import Mesh.

Lemma indexed_In {A} (l : list A) (i : nat) (a : A) : List.In (i, a) (indexed l) -> List.In a l.
Proof. unfold indexed. apply in_combine_r. Qed.

Lemma valid_cell_node (mesh : Mesh.t) (cell : Cell) (node : nat) :
  valid_cell mesh cell -> List.In node (cell_nodes cell) -> node < nbNode mesh.
Proof.
  intros (H0 & H1 & H2) Hin. simpl in Hin.
  destruct Hin as [<- | [<- | [<- | []]]]; assumption.
Qed.

Lemma built_ghost_rows_untouched (mesh : Mesh.t) :
  Mesh.valid mesh ->
  ghost_rows_untouched mesh (CsrFormat.m_matrix_column (built mesh),
                             CsrFormat.m_matrix_value (built mesh)).
Proof.
  intros Hvalid. unfold ghost_rows_untouched. simpl. rewrite !length_replicate.
  split; [reflexivity |]. split; [reflexivity |].
  intros node i Hnode _ Hi.
  assert (sum_to (reserved mesh) (S node) <= nbFace mesh * 2 + nbNode mesh).
  { rewrite <- (reserved_total mesh Hvalid). apply sum_to_mono. lia. }
  simpl in *. split; apply lookup_replicate_2; lia.
Qed.

(** The span of a row, read off a store with the row offsets of [built]. *)
Lemma ghost_row_holds_initial_values (mesh : Mesh.t) (cols : list Z) (vals : list R) (node : nat) :
  Mesh.valid mesh ->
  node < nbNode mesh ->
  isOwn mesh node = false ->
  ghost_rows_untouched mesh (cols, vals) ->
  CsrFormat.row_columns (CsrFormat.with_slots (built mesh) cols vals) node
  = replicate (reserved mesh node) (-1)%Z
  /\ CsrFormat.row_values (CsrFormat.with_slots (built mesh) cols vals) node
     = replicate (reserved mesh node) r0.
Proof.
  intros Hvalid Hnode Hown (Hlc & Hlv & Hghost). simpl in Hlc, Hlv.
  unfold CsrFormat.row_columns, CsrFormat.row_values.
  change (CsrFormat.m_matrix_row (CsrFormat.with_slots (built mesh) cols vals))
    with (CsrFormat.m_matrix_row (built mesh)).
  change (CsrFormat.m_matrix_column (CsrFormat.with_slots (built mesh) cols vals)) with cols.
  change (CsrFormat.m_matrix_value (CsrFormat.with_slots (built mesh) cols vals)) with vals.
  rewrite (built_row_begin mesh node Hnode).
  replace (length cols) with (length (CsrFormat.m_matrix_column (built (R := R) mesh)))
    by (simpl; rewrite length_replicate; lia).
  rewrite (built_row_end mesh node Hvalid Hnode).
  replace (sum_to (reserved mesh) (S node) - sum_to (reserved mesh) node)
    with (reserved mesh node) by (simpl; lia).
  split; apply list_eq; intros i.
  all: destruct (Nat.lt_ge_cases i (reserved mesh node)) as [Hi | Hi].
  all: try (rewrite lookup_take_lt, lookup_drop, lookup_replicate_2 by exact Hi;
            apply (Hghost node (sum_to (reserved mesh) node + i) Hnode Hown); simpl; lia).
  all: rewrite lookup_take_ge by exact Hi; symmetry; apply lookup_replicate_None; exact Hi.
Qed.

(** The device-parallel scatter, run cell after cell. *)
Lemma _assembleCsrAllGPU_keeps_ghost_rows (mesh : Mesh.t) (m_node_coord : nat -> Real3.t R) :
  Mesh.valid mesh ->
  exists cols vals,
    FemModule._assembleCsrAllGPUBilinearOperatorTRIA3 mesh m_node_coord
    = Ok (CsrFormat.with_slots (built mesh) cols vals)
    /\ ghost_rows_untouched mesh (cols, vals).
Proof.
  intros Hvalid. unfold FemModule._assembleCsrAllGPUBilinearOperatorTRIA3.
  rewrite _buildMatrixGpuBuildLessCsr_built. cbn [bind].
  match goal with
  | |- context [foldM ?body (allCells mesh) ?s] =>
      destruct (foldM_invariant (ghost_rows_untouched mesh) body (allCells mesh) s)
        as ([cols vals] & Hrun & Hinv)
  end.
  - apply built_ghost_rows_untouched, Hvalid.
  - intros icell st Hcell Hst.
    assert (Hvc : valid_cell mesh icell).
    { destruct Hvalid as [_ Hcells _]. rewrite List.Forall_forall in Hcells. apply Hcells, Hcell. }
    apply foldM_invariant; [exact Hst |].
    intros [n1_index node1] st1 Hin1 Hst1.
    apply foldM_invariant; [exact Hst1 |].
    intros [n2_index node2] [cols2 vals2] Hin2 Hst2.
    destruct (isOwn mesh node1) eqn:Hown; [| eauto].
    exact (scatter_entry_keeps_ghost_rows
             mesh
             (fun n begin cols vals =>
                FemModule._assembleCsrAllGPU_probe
                  n begin (Z.of_nat node2)
                  (nth (n1_index * 3 + n2_index)
                       (FemModule._computeElementMatrixTRIA3GPU m_node_coord icell) r0)
                  cols vals)
             node1 (cols2, vals2) Hvalid
             (fun begin n => _assembleCsrAllGPU_probe_frames n begin _ _)
             (valid_cell_node mesh icell node1 Hvc (indexed_In _ _ _ Hin1))
             Hown Hst2).
  - exists cols, vals. rewrite Hrun. split; [reflexivity | exact Hinv].
Qed.

(** The build-less scatter, run node after node. *)
Lemma _assembleBuildLessCsr_keeps_ghost_rows (mesh : Mesh.t) (m_node_coord : nat -> Real3.t R) :
  Mesh.valid mesh ->
  exists cols vals,
    FemModule._assembleBuildLessCsrBilinearOperatorTria3 mesh m_node_coord
    = Ok (CsrFormat.with_slots (built mesh) cols vals)
    /\ ghost_rows_untouched mesh (cols, vals).
Proof.
  intros Hvalid. unfold FemModule._assembleBuildLessCsrBilinearOperatorTria3.
  rewrite _buildMatrixGpuBuildLessCsr_built. cbn [bind].
  match goal with
  | |- context [foldM ?body (allNodes mesh) ?s] =>
      destruct (foldM_invariant (ghost_rows_untouched mesh) body (allNodes mesh) s)
        as ([cols vals] & Hrun & Hinv)
  end.
  - apply built_ghost_rows_untouched, Hvalid.
  - intros inode st Hinode Hst. apply in_seq in Hinode.
    apply foldM_invariant; [exact Hst |].
    intros cell st1 Hcell Hst1.
    destruct (FemModule._computeCellMatrixGpuTRIA3 m_node_coord cell) as [area b_matrix].
    apply foldM_invariant; [exact Hst1 |].
    intros [i node2] [cols2 vals2] Hin2 Hst2.
    destruct (isOwn mesh inode) eqn:Hown; [| eauto].
    unfold FemModule._addValueToGlobalMatrixTria3Gpu.
    match goal with
    | |- context [FemModule._addValueToGlobalMatrixTria3Gpu_loop _ _ ?col _ _ ?x] =>
        exact (scatter_entry_keeps_ghost_rows
                 mesh
                 (fun n begin cols vals =>
                    FemModule._addValueToGlobalMatrixTria3Gpu_loop n begin col cols vals x)
                 inode (cols2, vals2) Hvalid
                 (fun begin n => _addValueToGlobalMatrixTria3Gpu_loop_frames n begin _ _)
                 ltac:(lia) Hown Hst2)
    end.
  - exists cols, vals. rewrite Hrun. split; [reflexivity | exact Hinv].
Qed.

(** The sequential scatter asks the store for additions in rows of own
    nodes only. *)
Lemma _assembleCsr_log_own_rows (mesh : Mesh.t) (m_node_coord : nat -> Real3.t R) :
  exists log,
    FemModule._assembleCsrBilinearOperatorTRIA3_with FemModule.log_add mesh m_node_coord [] = Ok log
    /\ Forall (fun call => isOwn mesh (fst (fst call)) = true) log.
Proof.
  unfold FemModule._assembleCsrBilinearOperatorTRIA3_with.
  apply foldM_invariant; [constructor |].
  intros cell log Hcell Hlog.
  apply foldM_invariant; [exact Hlog |].
  intros [n1_index node1] log1 Hin1 Hlog1.
  apply foldM_invariant; [exact Hlog1 |].
  intros [n2_index node2] log2 Hin2 Hlog2.
  destruct (isOwn mesh node1) eqn:Hown; [| eauto].
  eexists. split; [reflexivity |].
  apply Forall_app. split; [exact Hlog2 |]. constructor; [exact Hown | constructor].
Qed.
End OwnRowsFacts.

Lemma two_triangles_ghost_valid : Mesh.valid Samples.two_triangles_ghost.
Proof.
  split.
  - repeat constructor; simpl; lia.
  - repeat constructor; simpl; lia.
  - simpl. lia.
Qed.

(** C7: in every scatter pass each write to the sparse store is guarded by
    the ownership of the node of the row. The sequential pass
    [_assembleCsrBilinearOperatorTRIA3] asks the store for additions in
    rows of own nodes only; after the device-parallel pass
    [_assembleCsrAllGPUBilinearOperatorTRIA3] and after the build-less pass
    [_assembleBuildLessCsrBilinearOperatorTria3] on a valid mesh, the row
    of every node that is not own still holds its initial values: its
    [nbFace + 1] column slots hold the sentinel and its value slots hold
    zero. *)
Theorem C7_scatter_writes_own_rows_only :
  forall (R : Type) `{RealOps R} (mesh : Mesh.t) (m_node_coord : nat -> Real3.t R),
    Mesh.valid mesh ->
    (exists log,
        FemModule._assembleCsrBilinearOperatorTRIA3_with FemModule.log_add mesh m_node_coord []
        = Ok log
        /\ Forall (fun call => Mesh.isOwn mesh (fst (fst call)) = true) log)
    /\ (exists m,
           FemModule._assembleCsrAllGPUBilinearOperatorTRIA3 mesh m_node_coord = Ok m
           /\ forall node,
               node < Mesh.nbNode mesh ->
               Mesh.isOwn mesh node = false ->
               CsrFormat.row_columns m node = replicate (Mesh.node_nbFace mesh node + 1) (-1)%Z
               /\ CsrFormat.row_values m node = replicate (Mesh.node_nbFace mesh node + 1) r0)
    /\ (exists m,
           FemModule._assembleBuildLessCsrBilinearOperatorTria3 mesh m_node_coord = Ok m
           /\ forall node,
               node < Mesh.nbNode mesh ->
               Mesh.isOwn mesh node = false ->
               CsrFormat.row_columns m node = replicate (Mesh.node_nbFace mesh node + 1) (-1)%Z
               /\ CsrFormat.row_values m node = replicate (Mesh.node_nbFace mesh node + 1) r0).
Proof.
  intros R ops mesh m_node_coord Hvalid. split; [| split].
  - apply _assembleCsr_log_own_rows.
  - destruct (_assembleCsrAllGPU_keeps_ghost_rows mesh m_node_coord Hvalid)
      as (cols & vals & Hrun & Hinv).
    eexists. split; [exact Hrun |]. intros node Hnode Hown.
    apply ghost_row_holds_initial_values; assumption.
  - destruct (_assembleBuildLessCsr_keeps_ghost_rows mesh m_node_coord Hvalid)
      as (cols & vals & Hrun & Hinv).
    eexists. split; [exact Hrun |]. intros node Hnode Hown.
    apply ghost_row_holds_initial_values; assumption.
Qed.

Lemma C7_scatter_witness :
  (exists log,
      FemModule._assembleCsrBilinearOperatorTRIA3_with
        FemModule.log_add Samples.two_triangles_ghost (Samples.two_triangles_coord (R := float)) []
      = Ok log
      /\ Forall (fun call => Mesh.isOwn Samples.two_triangles_ghost (fst (fst call)) = true) log)
  /\ (exists m,
         FemModule._assembleCsrAllGPUBilinearOperatorTRIA3
           Samples.two_triangles_ghost (Samples.two_triangles_coord (R := float)) = Ok m
         /\ forall node,
             node < Mesh.nbNode Samples.two_triangles_ghost ->
             Mesh.isOwn Samples.two_triangles_ghost node = false ->
             CsrFormat.row_columns m node
             = replicate (Mesh.node_nbFace Samples.two_triangles_ghost node + 1) (-1)%Z
             /\ CsrFormat.row_values m node
                = replicate (Mesh.node_nbFace Samples.two_triangles_ghost node + 1) r0)
  /\ (exists m,
         FemModule._assembleBuildLessCsrBilinearOperatorTria3
           Samples.two_triangles_ghost (Samples.two_triangles_coord (R := float)) = Ok m
         /\ forall node,
             node < Mesh.nbNode Samples.two_triangles_ghost ->
             Mesh.isOwn Samples.two_triangles_ghost node = false ->
             CsrFormat.row_columns m node
             = replicate (Mesh.node_nbFace Samples.two_triangles_ghost node + 1) (-1)%Z
             /\ CsrFormat.row_values m node
                = replicate (Mesh.node_nbFace Samples.two_triangles_ghost node + 1) r0).
Proof.
  apply (C7_scatter_writes_own_rows_only float Samples.two_triangles_ghost
                                         Samples.two_triangles_coord two_triangles_ghost_valid).
Defined.

(* ===================================================================== *)
(** * Dirichlet conditions by penalty                                     *)
(* ===================================================================== *)

Section DenseFacts.
Context {R : Type} `{RealOps R}.
Import SequentialNodeLinearSystemImpl.

Lemma dense_index_in_range (n row column : nat) :
  row < n -> column < n -> row * n + column < n * n.
Proof. intros. nia. Qed.

Lemma dense_index_diag_inj (n i j : nat) :
  i < n -> j < n -> j <> i -> i * n + i <> j * n + j.
Proof. intros. nia. Qed.

Lemma dense_get_in_range (m : t R) (row column : nat) :
  dense_wf m -> row < nb_node m -> column < nb_node m ->
  exists old, m_k_matrix m !! (row * nb_node m + column) = Some old
              /\ get m row column = Ok old.
Proof.
  intros Hwf Hrow Hcol. unfold get.
  destruct (Nat.ltb_spec row (nb_node m)), (Nat.ltb_spec column (nb_node m)); try lia. simpl.
  apply na_get_in_range. rewrite Hwf. apply dense_index_in_range; assumption.
Qed.

Lemma dense_set_diag (m : t R) (i : nat) (v : R) :
  dense_wf m -> i < nb_node m ->
  exists m',
    set m i i v = Ok m'
    /\ dense_wf m'
    /\ nb_node m' = nb_node m
    /\ get m' i i = Ok v
    /\ forall j, j < nb_node m -> j <> i -> get m' j j = get m j j.
Proof.
  intros Hwf Hi. unfold set.
  destruct (Nat.ltb_spec i (nb_node m)); [| lia]. simpl.
  assert (Hidx : i * nb_node m + i < length (m_k_matrix m)).
  { rewrite Hwf. apply dense_index_in_range; assumption. }
  rewrite na_set_in_range by exact Hidx. simpl.
  eexists. split; [reflexivity |]. unfold dense_wf, get. simpl.
  rewrite length_insert. split; [exact Hwf |]. split; [reflexivity |]. split.
  - destruct (Nat.ltb_spec i (nb_node m)); [| lia]. simpl.
    apply na_get_lookup, list_lookup_insert_eq, Hidx.
  - intros j Hj Hne. destruct (Nat.ltb_spec j (nb_node m)); [| lia]. simpl.
    unfold na_get. rewrite list_lookup_insert_ne; [reflexivity |].
    apply dense_index_diag_inj; assumption.
Qed.

Lemma matrixSetValue_diagonal_update (P : R) :
  diagonal_update matrixSetValue P (fun _ => P).
Proof.
  intros m i Hwf Hi.
  destruct (dense_get_in_range m i i Hwf Hi Hi) as (old & _ & Hold).
  destruct (dense_set_diag m i P Hwf Hi) as (m' & Hset & Hrest).
  exists old, m'. split; [exact Hold |]. split; [exact Hset | exact Hrest].
Qed.

Lemma matrixAddValue_diagonal_update (P : R) :
  diagonal_update matrixAddValue P (fun old => (old + P)%real).
Proof.
  intros m i Hwf Hi.
  destruct (dense_get_in_range m i i Hwf Hi Hi) as (old & _ & Hold).
  destruct (dense_set_diag m i (old + P)%real Hwf Hi) as (m' & Hset & Hrest).
  exists old, m'. split; [exact Hold |]. split; [| exact Hrest].
  unfold matrixAddValue. rewrite Hold. exact Hset.
Qed.
End DenseFacts.

Section PenaltyFacts.
Context {R : Type} `{RealOps R} `{RealSqrt R}.
#[local] Abbreviation dense := (SequentialNodeLinearSystemImpl.t R).
#[local] Abbreviation get := SequentialNodeLinearSystemImpl.get.
#[local] Abbreviation nb_node := SequentialNodeLinearSystemImpl.nb_node.

(** The loop over the own nodes that enforces the Dirichlet condition with
    the operation [op] on the diagonal. *)
Lemma penalty_loop
      (op : nat -> nat -> R -> dense -> result dense) (P : R) (post : R -> R)
      (m_u : nat -> R) (m_u_dirichlet : nat -> bool) (n : nat) :
  diagonal_update op P post ->
  forall l,
    List.NoDup l ->
    Forall (fun i => i < n) l ->
    forall m rhs,
      dense_wf m ->
      nb_node m = n ->
      exists m' rhs',
        foldM (dirichlet_body op P m_u m_u_dirichlet) l (m, rhs) = Ok (m', rhs')
        /\ dense_wf m'
        /\ nb_node m' = n
        /\ forall node,
            node < n ->
            (List.In node l -> m_u_dirichlet node = true ->
             exists old, get m node node = Ok old
                         /\ get m' node node = Ok (post old)
                         /\ rhs' node = (P * m_u node)%real)
            /\ (~ List.In node l -> get m' node node = get m node node /\ rhs' node = rhs node).
Proof.
  intros Hop l. induction l as [|a l IH]; intros Hnodup Hrange m rhs Hwf Hn.
  - exists m, rhs. simpl. repeat split; try assumption. intros [].
  - apply List.NoDup_cons_iff in Hnodup as [Ha Hnodup].
    apply Forall_cons in Hrange as [Han Hrange].
    assert (Hstep : exists m1 rhs1,
               dirichlet_body op P m_u m_u_dirichlet a (m, rhs) = Ok (m1, rhs1)
               /\ dense_wf m1 /\ nb_node m1 = n
               /\ (m_u_dirichlet a = true ->
                   exists old, get m a a = Ok old /\ get m1 a a = Ok (post old)
                               /\ rhs1 a = (P * m_u a)%real)
               /\ (forall j, j < n -> j <> a -> get m1 j j = get m j j /\ rhs1 j = rhs j)).
    { unfold dirichlet_body. destruct (m_u_dirichlet a) eqn:Hdir.
      - destruct (Hop m a Hwf ltac:(lia)) as (old & m1 & Hold & -> & Hwf1 & Hn1 & Hnew & Hothers).
        simpl. eexists _, _. split; [reflexivity |].
        split; [exact Hwf1 |]. split; [lia |]. split.
        + intros _. exists old. unfold FemModule.assign. rewrite Nat.eqb_refl. auto.
        + intros j Hj Hne. split; [apply Hothers; lia |].
          unfold FemModule.assign. destruct (Nat.eqb_spec j a); [contradiction | reflexivity].
      - exists m, rhs. repeat split; try assumption; discriminate. }
    destruct Hstep as (m1 & rhs1 & Hrun1 & Hwf1 & Hn1 & Hhead & Hothers).
    destruct (IH Hnodup Hrange m1 rhs1 Hwf1 Hn1) as (m' & rhs' & Hrun & Hwf' & Hn' & Hspec).
    exists m', rhs'. cbn [foldM]. rewrite Hrun1. cbn [bind].
    split; [exact Hrun |]. split; [exact Hwf' |]. split; [exact Hn' |].
    intros node Hnode. destruct (Hspec node Hnode) as [Hin Hout]. split.
    + intros [<- | Hin'] Hdir.
      * destruct (Hhead Hdir) as (old & Hold & Hnew & Hrhs).
        destruct (Hout Ha) as [Hg Hr]. exists old. rewrite Hg, Hr. auto.
      * destruct (Hin Hin' Hdir) as (old & Hold & Hnew & Hrhs).
        assert (Hne : node <> a) by (intros ->; contradiction).
        destruct (Hothers node Hnode Hne) as [Hg _].
        exists old. rewrite <- Hg. auto.
    + intros Hnotin.
      assert (Hne : node <> a) by (intros ->; apply Hnotin; left; reflexivity).
      destruct (Hothers node Hnode Hne) as [Hg Hr].
      destruct (Hout ltac:(intros Hin'; apply Hnotin; right; exact Hin')) as [Hg' Hr'].
      rewrite Hg', Hr'. auto.
Qed.

Lemma ownNodes_NoDup (mesh : Mesh.t) : List.NoDup (Mesh.ownNodes mesh).
Proof. apply List.NoDup_filter, List.seq_NoDup. Qed.

Lemma ownNodes_In (mesh : Mesh.t) (node : nat) :
  List.In node (Mesh.ownNodes mesh) <-> node < Mesh.nbNode mesh /\ Mesh.isOwn mesh node = true.
Proof.
  unfold Mesh.ownNodes, Mesh.allNodes. rewrite filter_In, in_seq. intuition lia.
Qed.

Lemma ownNodes_range (mesh : Mesh.t) : Forall (fun i => i < Mesh.nbNode mesh) (Mesh.ownNodes mesh).
Proof. apply List.Forall_forall. intros node Hin. apply ownNodes_In in Hin. tauto. Qed.

(** The source and flux terms leave the right-hand side of a Dirichlet
    node alone. *)
Lemma add_on_free_nodes_dirichlet
      (mesh : Mesh.t) (m_u_dirichlet : nat -> bool) (node : nat) (term : R) (nodes : list nat) :
  m_u_dirichlet node = true ->
  forall rhs, FemModule.add_on_free_nodes mesh m_u_dirichlet nodes term rhs node = rhs node.
Proof.
  intros Hdir. unfold FemModule.add_on_free_nodes.
  induction nodes as [|a nodes IH]; intros rhs; simpl; [reflexivity |].
  rewrite IH. destruct (negb (m_u_dirichlet a) && Mesh.isOwn mesh a) eqn:Hfree; [| reflexivity].
  unfold FemModule.assign. destruct (Nat.eqb_spec node a) as [-> | Hne]; [| reflexivity].
  rewrite Hdir in Hfree. discriminate.
Qed.

Lemma fold_left_keeps {A} (f : (nat -> R) -> A -> nat -> R) (node : nat) (l : list A) :
  (forall rhs a, f rhs a node = rhs node) ->
  forall rhs, fold_left f l rhs node = rhs node.
Proof.
  intros Hf. induction l as [|a l IH]; intros rhs; simpl; [reflexivity |].
  rewrite IH. apply Hf.
Qed.
End PenaltyFacts.

Section LinearOperatorFacts.
Context {R : Type} `{RealOps R} `{RealSqrt R}.
#[local] Abbreviation dense := (SequentialNodeLinearSystemImpl.t R).

(** After the Dirichlet condition, the rest of [_assembleLinearOperator]
    keeps the linear system and the right-hand side of every Dirichlet
    node. *)
Lemma _assembleLinearOperator_after_dirichlet
      (mesh : Mesh.t) (m_node_coord : nat -> Real3.t R) (options : FemModule.Options)
      (f ElementNodes : R) (m_u : nat -> R) (m_u_dirichlet : nat -> bool) (m : dense)
      (m1 : dense) (rhs1 : nat -> R) :
  FemModule.enforceDirichlet mesh options m_u m_u_dirichlet m (fun _ => r0) = Ok (m1, rhs1) ->
  exists rhs,
    FemModule._assembleLinearOperator mesh m_node_coord options f ElementNodes m_u m_u_dirichlet m
    = Ok (m1, rhs)
    /\ forall node, m_u_dirichlet node = true -> rhs node = rhs1 node.
Proof.
  intros Hloop. unfold FemModule._assembleLinearOperator. cbv zeta. rewrite Hloop. cbn [bind].
  eexists. split; [reflexivity |].
  intros node Hdir. unfold FemModule.fluxTerms, FemModule.sourceTerm. rewrite fold_left_keeps.
  - apply fold_left_keeps. intros rhs cell. apply add_on_free_nodes_dirichlet, Hdir.
  - intros rhs bs.
    destruct (FemModule.value bs), (FemModule.valueX bs), (FemModule.valueY bs);
      try reflexivity;
      (apply fold_left_keeps; intros rhs' face; apply add_on_free_nodes_dirichlet, Hdir).
Qed.
End LinearOperatorFacts.

(** C9: with the method "Penalty", after [_assembleLinearOperator] on the
    dense linear system the diagonal entry of the row of every own
    Dirichlet node is exactly the penalty [P], whatever was assembled
    there; with "WeakPenalty" it is the value assembled before plus [P];
    with both methods the right-hand side of that row is [P] times the
    prescribed value [m_u]. *)
Theorem C9_penalty_sets_weak_penalty_adds :
  forall (R : Type) `{RealOps R} `{RealSqrt R}
         (mesh : Mesh.t) (m_node_coord : nat -> Real3.t R) (options : FemModule.Options)
         (f ElementNodes : R) (m_u : nat -> R) (m_u_dirichlet : nat -> bool)
         (m : SequentialNodeLinearSystemImpl.t R) (node : nat),
    SequentialNodeLinearSystemImpl.nb_node m = Mesh.nbNode mesh ->
    dense_wf m ->
    node < Mesh.nbNode mesh ->
    Mesh.isOwn mesh node = true ->
    m_u_dirichlet node = true ->
    exists old,
      SequentialNodeLinearSystemImpl.get m node node = Ok old
      /\ (FemModule.enforceDirichletMethod options = "Penalty"%string ->
          exists m' rhs,
            FemModule._assembleLinearOperator mesh m_node_coord options f ElementNodes
                                              m_u m_u_dirichlet m = Ok (m', rhs)
            /\ SequentialNodeLinearSystemImpl.get m' node node = Ok (FemModule.penalty options)
            /\ rhs node = (FemModule.penalty options * m_u node)%real)
      /\ (FemModule.enforceDirichletMethod options = "WeakPenalty"%string ->
          exists m' rhs,
            FemModule._assembleLinearOperator mesh m_node_coord options f ElementNodes
                                              m_u m_u_dirichlet m = Ok (m', rhs)
            /\ SequentialNodeLinearSystemImpl.get m' node node
               = Ok (old + FemModule.penalty options)%real
            /\ rhs node = (FemModule.penalty options * m_u node)%real).
Proof.
  intros R ops sq mesh m_node_coord options f ElementNodes m_u m_u_dirichlet m node
         Hn Hwf Hnode Hown Hdir.
  assert (Hin : List.In node (Mesh.ownNodes mesh)) by (apply ownNodes_In; auto).
  destruct (dense_get_in_range m node node Hwf ltac:(lia) ltac:(lia)) as (old & _ & Hold).
  exists old. split; [exact Hold |]. split; intros Hmethod.
  - destruct (penalty_loop
                SequentialNodeLinearSystemImpl.matrixSetValue (FemModule.penalty options)
                (fun _ => FemModule.penalty options) m_u m_u_dirichlet (Mesh.nbNode mesh)
                (matrixSetValue_diagonal_update _)
                (Mesh.ownNodes mesh) (ownNodes_NoDup mesh) (ownNodes_range mesh)
                m (fun _ => r0) Hwf Hn)
      as (m1 & rhs1 & Hrun & _ & _ & Hspec).
    destruct (proj1 (Hspec node Hnode) Hin Hdir) as (old' & _ & Hnew & Hrhs).
    destruct (_assembleLinearOperator_after_dirichlet
                mesh m_node_coord options f ElementNodes m_u m_u_dirichlet m m1 rhs1)
      as (rhs & Hfinal & Hkeep).
    { unfold FemModule.enforceDirichlet. rewrite Hmethod. exact Hrun. }
    exists m1, rhs. split; [exact Hfinal |]. split; [exact Hnew |].
    rewrite (Hkeep node Hdir). exact Hrhs.
  - destruct (penalty_loop
                SequentialNodeLinearSystemImpl.matrixAddValue (FemModule.penalty options)
                (fun old => (old + FemModule.penalty options)%real)
                m_u m_u_dirichlet (Mesh.nbNode mesh)
                (matrixAddValue_diagonal_update _)
                (Mesh.ownNodes mesh) (ownNodes_NoDup mesh) (ownNodes_range mesh)
                m (fun _ => r0) Hwf Hn)
      as (m1 & rhs1 & Hrun & _ & _ & Hspec).
    destruct (proj1 (Hspec node Hnode) Hin Hdir) as (old' & Hold' & Hnew & Hrhs).
    assert (old' = old) as -> by congruence.
    destruct (_assembleLinearOperator_after_dirichlet
                mesh m_node_coord options f ElementNodes m_u m_u_dirichlet m m1 rhs1)
      as (rhs & Hfinal & Hkeep).
    { unfold FemModule.enforceDirichlet. rewrite Hmethod. exact Hrun. }
    exists m1, rhs. split; [exact Hfinal |]. split; [exact Hnew |].
    rewrite (Hkeep node Hdir). exact Hrhs.
Qed.

Lemma C9_penalty_witness :
  (exists m' rhs,
      FemModule._assembleLinearOperator
        Samples.single_triangle Samples.right_triangle_coord (PenaltySample.options "Penalty")
        1%float 3%float PenaltySample.m_u PenaltySample.m_u_dirichlet PenaltySample.assembled
      = Ok (m', rhs)
      /\ SequentialNodeLinearSystemImpl.get m' 0 0 = Ok 1.0e30%float
      /\ rhs 0 = (1.0e30 * 21)%float)
  /\ (exists m' rhs,
         FemModule._assembleLinearOperator
           Samples.single_triangle Samples.right_triangle_coord (PenaltySample.options "WeakPenalty")
           1%float 3%float PenaltySample.m_u PenaltySample.m_u_dirichlet PenaltySample.assembled
         = Ok (m', rhs)
         /\ SequentialNodeLinearSystemImpl.get m' 0 0 = Ok (1 + 1.0e30)%float
         /\ rhs 0 = (1.0e30 * 21)%float).
Proof.
  split.
  - destruct (C9_penalty_sets_weak_penalty_adds
                float Samples.single_triangle Samples.right_triangle_coord
                (PenaltySample.options "Penalty") 1%float 3%float
                PenaltySample.m_u PenaltySample.m_u_dirichlet PenaltySample.assembled 0
                eq_refl eq_refl ltac:(simpl; lia) eq_refl eq_refl)
      as (old & Hold & Hpenalty & _).
    apply Hpenalty. reflexivity.
  - destruct (C9_penalty_sets_weak_penalty_adds
                float Samples.single_triangle Samples.right_triangle_coord
                (PenaltySample.options "WeakPenalty") 1%float 3%float
                PenaltySample.m_u PenaltySample.m_u_dirichlet PenaltySample.assembled 0
                eq_refl eq_refl ltac:(simpl; lia) eq_refl eq_refl)
      as (old & Hold & _ & Hweak).
    injection Hold as <-. apply Hweak. reflexivity.
Defined.

(* ===================================================================== *)
(** * The element kernel                                                  *)
(* ===================================================================== *)

Section KernelFacts.
Variable m_node_coord : nat -> Real3.t Q.
Variable cell : Mesh.Cell.




End KernelFacts.




(* ===================================================================== *)
(** * Units of work that interleave                                       *)
(* ===================================================================== *)

Section InterleavingFacts.
Context {R : Type} `{RealOps R}.
Import Interleaving.
Implicit Types (b e : nat) (c : Z) (x : R) (mem : memory R).

Lemma step_AtTestColumn b e c x mem :
  step (mkUnit AtTestColumn b e c x) mem
  = if b <? e then
      do c' <- na_get (in_out_col_csr mem) b ;;
      Ok (mkUnit (if Z.eqb c' c then AtAtomicAdd else AtTestSentinel) b e c x, mem)
    else Ok (mkUnit Finished b e c x, mem).
Proof. reflexivity. Qed.

Lemma step_AtAtomicAdd b e c x mem :
  step (mkUnit AtAtomicAdd b e c x) mem
  = do old <- na_get (in_out_val_csr mem) b ;;
    do vals <- na_set (in_out_val_csr mem) b (old + x)%real ;;
    Ok (mkUnit Finished b e c x, mkMemory (in_out_col_csr mem) vals).
Proof. reflexivity. Qed.

Lemma step_AtTestSentinel b e c x mem :
  step (mkUnit AtTestSentinel b e c x) mem
  = do c' <- na_get (in_out_col_csr mem) b ;;
    Ok (if Z.eqb c' (-1) then mkUnit AtStoreColumn b e c x else mkUnit AtTestColumn (S b) e c x, mem).
Proof. reflexivity. Qed.

Lemma step_AtStoreColumn b e c x mem :
  step (mkUnit AtStoreColumn b e c x) mem
  = do cols <- na_set (in_out_col_csr mem) b c ;;
    Ok (mkUnit AtStoreValue b e c x, mkMemory cols (in_out_val_csr mem)).
Proof. reflexivity. Qed.

Lemma step_AtStoreValue b e c x mem :
  step (mkUnit AtStoreValue b e c x) mem
  = do vals <- na_set (in_out_val_csr mem) b x ;;
    Ok (mkUnit Finished b e c x, mkMemory (in_out_col_csr mem) vals).
Proof. reflexivity. Qed.

Lemma run_alone_finished fuel (u : work_unit R) mem :
  at_pc u = Finished -> run_alone fuel u mem = Ok (u, mem).
Proof. intros Hu. destruct fuel; simpl; [reflexivity | rewrite Hu; reflexivity]. Qed.

Lemma run_alone_step fuel (u : work_unit R) mem :
  at_pc u <> Finished ->
  run_alone (S fuel) u mem = do '(u, mem) <- step u mem ;; run_alone fuel u mem.
Proof. intros Hu. simpl. destruct (at_pc u); congruence. Qed.

(** A unit that runs alone does what the loop of the scatter does. *)
Lemma run_alone_probe n :
  forall begin col v cols vals fuel,
    2 * n + 2 <= fuel ->
    agrees (run_alone fuel (start begin (begin + n) col v) (mkMemory cols vals))
           (FemModule._assembleCsrAllGPU_probe n begin col v cols vals).
Proof.
  unfold start.
  induction n as [|n IH]; intros begin col v cols vals fuel Hfuel.
  - destruct fuel as [|fuel]; [lia |].
    rewrite run_alone_step, step_AtTestColumn by discriminate.
    rewrite Nat.add_0_r, Nat.ltb_irrefl. cbn [bind].
    rewrite run_alone_finished by reflexivity. simpl. auto.
  - destruct fuel as [|[|fuel]]; try lia.
    rewrite run_alone_step, step_AtTestColumn by discriminate.
    cbn [FemModule._assembleCsrAllGPU_probe in_out_col_csr].
    destruct (Nat.ltb_spec begin (begin + S n)) as [_ | ?]; [| lia].
    destruct (na_get cols begin) as [c | err] eqn:Hc; cbn [bind]; [| exact I].
    destruct (Z.eqb c col) eqn:Hcol.
    + (* the column matches: atomic add *)
      rewrite run_alone_step, step_AtAtomicAdd by discriminate. cbn [in_out_val_csr in_out_col_csr].
      destruct (na_get vals begin) as [old | err]; cbn [bind]; [| exact I].
      destruct (na_set vals begin (old + v)%real) as [vals' | err]; cbn [bind]; [| exact I].
      rewrite run_alone_finished by reflexivity. simpl. auto.
    + rewrite run_alone_step, step_AtTestSentinel by discriminate. cbn [in_out_col_csr].
      rewrite Hc. cbn [bind].
      destruct (Z.eqb c (-1)) eqn:Hsent.
      * (* a sentinel: two stores *)
        destruct fuel as [|[|fuel]]; try lia.
        rewrite run_alone_step, step_AtStoreColumn by discriminate.
        cbn [in_out_val_csr in_out_col_csr].
        destruct (na_set cols begin col) as [cols' | err]; cbn [bind]; [| exact I].
        rewrite run_alone_step, step_AtStoreValue by discriminate.
        cbn [in_out_val_csr in_out_col_csr].
        destruct (na_set vals begin v) as [vals' | err]; cbn [bind]; [| exact I].
        rewrite run_alone_finished by reflexivity. simpl. auto.
      * (* another column: next slot *)
        replace (begin + S n) with (S begin + n) by lia.
        apply (IH (S begin) col v cols vals fuel). lia.
Qed.
End InterleavingFacts.

(** C5: in the device-parallel scatter a sentinel slot is claimed by a
    plain load followed by two plain stores, so two units can both see the
    same slot empty. With the turns A, A, B, B, A, A, B, B on an empty row
    of two slots, unit A (column 1, value [a]) and unit B (column 2, value
    [b]) both claim slot 0: B overwrites the slot claimed by A, no unit
    probes forward, and the contribution of A is lost. When both units
    carry column 1, the slot ends with the value [b] and not with the sum
    of both contributions, also when the two units move in lockstep. One
    unit after the other stores both. *)
Theorem C5_claim_race_loses_contribution :
  forall (R : Type) `{RealOps R} (a b : R),
    let empty_row := Interleaving.mkMemory [-1; -1]%Z [r0; r0] in
    let racing := [Interleaving.A; Interleaving.A; Interleaving.B; Interleaving.B;
                   Interleaving.A; Interleaving.A; Interleaving.B; Interleaving.B] in
    let finished b c x := Interleaving.mkUnit Interleaving.Finished b 2 c x in
    (* one unit after the other, different columns *)
    Interleaving.run
      [Interleaving.A; Interleaving.A; Interleaving.A; Interleaving.A;
       Interleaving.B; Interleaving.B; Interleaving.B; Interleaving.B;
       Interleaving.B; Interleaving.B]
      (Interleaving.mkSystem (Interleaving.start 0 2 1%Z a) (Interleaving.start 0 2 2%Z b) empty_row)
    = Ok (Interleaving.mkSystem (finished 0 1%Z a) (finished 1 2%Z b)
                                (Interleaving.mkMemory [1; 2]%Z [a; b]))
    (* one unit after the other, the same column *)
    /\ Interleaving.run
         [Interleaving.A; Interleaving.A; Interleaving.A; Interleaving.A;
          Interleaving.B; Interleaving.B]
         (Interleaving.mkSystem (Interleaving.start 0 2 1%Z a) (Interleaving.start 0 2 1%Z b)
                                empty_row)
       = Ok (Interleaving.mkSystem (finished 0 1%Z a) (finished 0 1%Z b)
                                   (Interleaving.mkMemory [1; -1]%Z [(a + b)%real; r0]))
    (* interleaved, different columns *)
    /\ Interleaving.run
         racing
         (Interleaving.mkSystem (Interleaving.start 0 2 1%Z a) (Interleaving.start 0 2 2%Z b)
                                empty_row)
       = Ok (Interleaving.mkSystem (finished 0 1%Z a) (finished 0 2%Z b)
                                   (Interleaving.mkMemory [2; -1]%Z [b; r0]))
    (* interleaved, the same column *)
    /\ Interleaving.run
         racing
         (Interleaving.mkSystem (Interleaving.start 0 2 1%Z a) (Interleaving.start 0 2 1%Z b)
                                empty_row)
       = Ok (Interleaving.mkSystem (finished 0 1%Z a) (finished 0 1%Z b)
                                   (Interleaving.mkMemory [1; -1]%Z [b; r0]))
    (* in lockstep, the same column *)
    /\ Interleaving.run
         [Interleaving.A; Interleaving.B; Interleaving.A; Interleaving.B;
          Interleaving.A; Interleaving.B; Interleaving.A; Interleaving.B]
         (Interleaving.mkSystem (Interleaving.start 0 2 1%Z a) (Interleaving.start 0 2 1%Z b)
                                empty_row)
       = Ok (Interleaving.mkSystem (finished 0 1%Z a) (finished 0 1%Z b)
                                   (Interleaving.mkMemory [1; -1]%Z [b; r0])).
Proof. intros R ops a b. repeat split; vm_compute; reflexivity. Qed.

(* ===================================================================== *)
(** * The three strategies on one triangle                                *)
(* ===================================================================== *)

(** C2: on the mesh made of the right triangle alone, with one and the
    same element matrix, the device-parallel pass and the build-less pass
    store the full matrix [[1,-0.5,-0.5],[-0.5,0.5,0],[-0.5,0,0.5]], but
    the sequential pass on the sparsity of [_buildMatrixCsr] does not: the
    additions for (0,2), (1,0) and (2,1) are asked for and find neither
    their column nor a free slot, because row 1, for instance, holds the
    columns 1, 1, 2. The entry (1,0) is -0.5 for two strategies and absent
    for the third. *)
Theorem C2_sequential_strategy_loses_contributions :
  exists m_seq m_gpu m_bl log,
    FemModule._assembleCsrBilinearOperatorTRIA3
      Samples.single_triangle (Samples.right_triangle_coord (R := float)) = Ok m_seq
    /\ FemModule._assembleCsrAllGPUBilinearOperatorTRIA3
         Samples.single_triangle (Samples.right_triangle_coord (R := float)) = Ok m_gpu
    /\ FemModule._assembleBuildLessCsrBilinearOperatorTria3
         Samples.single_triangle (Samples.right_triangle_coord (R := float)) = Ok m_bl
    /\ FemModule._assembleCsrBilinearOperatorTRIA3_with
         FemModule.log_add Samples.single_triangle (Samples.right_triangle_coord (R := float)) []
       = Ok log
    /\ csr_to_dense 3 m_gpu = map Some right_triangle_stiffness
    /\ csr_to_dense 3 m_bl = map Some right_triangle_stiffness
    /\ List.In (1, 0, (-0.5)%float) log
    /\ CsrFormat.row_columns m_seq 1 = [1; 1; 2]%Z
    /\ CsrFormat.entry m_seq 1 0 = None
    /\ CsrFormat.entry m_gpu 1 0 = Some (-0.5)%float
    /\ CsrFormat.entry m_bl 1 0 = Some (-0.5)%float
    /\ csr_to_dense 3 m_seq
       = [Some 1%float; Some (-0.5)%float; None;
          None; Some 0.5%float; Some 0%float;
          Some (-0.5)%float; None; Some 0.5%float].
Proof.
  eexists _, _, _, _.
  split; [vm_compute; reflexivity |].
  split; [vm_compute; reflexivity |].
  split; [vm_compute; reflexivity |].
  split; [vm_compute; reflexivity |].
  split; [vm_compute; reflexivity |].
  split; [vm_compute; reflexivity |].
  split; [vm_compute; tauto |].
  repeat split; vm_compute; reflexivity.
Qed.

(* ===================================================================== *)
(** * Scatter-add and lookup in a row span                                *)
(* ===================================================================== *)

Section SpanFacts.
Context {R : Type} `{RealOps R}.
Implicit Types (cols csr_col : list Z) (vals : list R) (col : Z).

(** The two probes test the sentinel and the column in opposite orders;
    for a column that is not the sentinel they do the same. *)
Lemma probes_agree n :
  forall begin col cols vals x,
    col <> (-1)%Z ->
    FemModule._addValueToGlobalMatrixTria3Gpu_loop n begin col cols vals x
    = FemModule._assembleCsrAllGPU_probe n begin col x cols vals.
Proof.
  induction n as [|n IH]; intros begin col cols vals x Hcol; simpl; [reflexivity |].
  destruct (na_get cols begin) as [c | e]; simpl; [| reflexivity].
  destruct (Z.eqb_spec c (-1)) as [Hsent | Hsent], (Z.eqb_spec c col) as [Heq | Hne];
    try congruence; try reflexivity.
  apply IH, Hcol.
Qed.

(** The probe stops at the first slot of the span that holds the column
    or the sentinel: a free slot receives the column and the value, a
    slot that holds the column accumulates. *)
Lemma _addValueToGlobalMatrixTria3Gpu_loop_hit n :
  forall begin col cols vals x,
    col <> (-1)%Z ->
    begin + n <= length cols ->
    length vals = length cols ->
    span_has_room cols begin (begin + n) col ->
    exists i old,
      begin <= i < begin + n
      /\ (forall j, begin <= j < i -> exists c, cols !! j = Some c /\ c <> col /\ c <> (-1)%Z)
      /\ vals !! i = Some old
      /\ ((cols !! i = Some (-1)%Z
           /\ FemModule._addValueToGlobalMatrixTria3Gpu_loop n begin col cols vals x
              = Ok (<[i := col]> cols, <[i := x]> vals))
          \/ (cols !! i = Some col
              /\ FemModule._addValueToGlobalMatrixTria3Gpu_loop n begin col cols vals x
                 = Ok (cols, <[i := (old + x)%real]> vals))).
Proof.
  induction n as [|n IH]; intros begin col cols vals x Hcol Hspan Hlen (i0 & Hi0 & Hroom).
  - lia.
  - destruct (na_get_in_range cols begin ltac:(lia)) as (c & Hc & Hget).
    destruct (na_get_in_range vals begin ltac:(lia)) as (old & Hold & Hgetv).
    cbn [FemModule._addValueToGlobalMatrixTria3Gpu_loop]. rewrite Hget. cbn [bind].
    destruct (Z.eqb_spec c (-1)) as [Hsent | Hsent]; [| destruct (Z.eqb_spec c col) as [Heq | Hne]];
      try subst c.
    + exists begin, old. split; [lia |]. split; [intros j Hj; lia |]. split; [exact Hold |].
      left. split; [exact Hc |].
      rewrite na_set_in_range by lia. cbn [bind]. rewrite na_set_in_range by lia. reflexivity.
    + exists begin, old. split; [lia |]. split; [intros j Hj; lia |]. split; [exact Hold |].
      right. split; [exact Hc |].
      rewrite Hgetv. cbn [bind]. rewrite na_set_in_range by lia. reflexivity.
    + assert (Hi0' : i0 <> begin).
      { intros ->. rewrite Hc in Hroom. destruct Hroom as [E | E]; injection E; congruence. }
      destruct (IH (S begin) col cols vals x Hcol ltac:(lia) Hlen) as (i & old' & Hi & Hbefore & Hv & Hres).
      { exists i0. split; [lia | exact Hroom]. }
      exists i, old'. split; [lia |]. split.
      * intros j Hj. destruct (Nat.eq_dec j begin) as [-> | Hjb].
        -- exists c. auto.
        -- apply Hbefore. lia.
      * split; [exact Hv | exact Hres].
Qed.

Lemma _getValIndexCsrGpu_loop_spec n :
  forall i col csr_col,
    i + n <= length csr_col ->
    exists k,
      FemModule._getValIndexCsrGpu_loop n i col csr_col = Ok k
      /\ i <= k <= i + n
      /\ (forall j, i <= j < k -> csr_col !! j <> Some col)
      /\ (k < i + n -> csr_col !! k = Some col).
Proof.
  induction n as [|n IH]; intros i col csr_col Hlen; simpl.
  - exists i. split; [reflexivity |]. split; [lia |]. split; intros; lia.
  - destruct (na_get_in_range csr_col i ltac:(lia)) as (c & Hc & ->). simpl.
    destruct (Z.eqb_spec col c) as [-> | Hne]; simpl.
    + exists i. split; [reflexivity |]. split; [lia |]. split; [intros; lia | auto].
    + destruct (IH (S i) col csr_col ltac:(lia)) as (k & -> & Hk & Hbefore & Hat).
      exists k. split; [reflexivity |]. split; [lia |]. split.
      * intros j Hj. destruct (Nat.eq_dec j i) as [-> | Hji].
        -- rewrite Hc. congruence.
        -- apply Hbefore. lia.
      * intros Hlt. apply Hat. lia.
Qed.

Lemma _getValIndexCsrGpu_found (begin end_ col : nat) csr_col (i : nat) :
  begin <= i < end_ ->
  end_ <= length csr_col ->
  (forall j, begin <= j < i -> csr_col !! j <> Some (Z.of_nat col)) ->
  csr_col !! i = Some (Z.of_nat col) ->
  FemModule._getValIndexCsrGpu begin end_ col csr_col = Ok (Z.of_nat i).
Proof.
  intros Hi Hlen Hbefore Hat. unfold FemModule._getValIndexCsrGpu.
  destruct (_getValIndexCsrGpu_loop_spec (end_ - begin) begin (Z.of_nat col) csr_col ltac:(lia))
    as (k & -> & Hk & Hkbefore & Hkat).
  cbn [bind].
  assert (k = i) as ->.
  { destruct (Nat.lt_trichotomy k i) as [Hlt | [Heq | Hgt]]; [| exact Heq |].
    - exfalso. apply (Hbefore k); [lia |]. apply Hkat. lia.
    - exfalso. apply (Hkbefore i); [lia | exact Hat]. }
  destruct (Nat.eqb_spec i end_); [lia | reflexivity].
Qed.
End SpanFacts.

(** X1: for a column that is not the sentinel [-1], the probe of the
    build-less pass ([_addValueToGlobalMatrixTria3Gpu], which tests the
    sentinel first) and the probe of the device-parallel pass (which
    tests the column first) return the same arrays, or both fail. *)
Theorem X1_probes_agree_on_columns :
  forall (R : Type) `{RealOps R} (begin end_ : nat) (col : Z) (cols : list Z) (vals : list R) (x : R),
    col <> (-1)%Z ->
    FemModule._addValueToGlobalMatrixTria3Gpu begin end_ col cols vals x
    = FemModule._assembleCsrAllGPU_probe (end_ - begin) begin col x cols vals.
Proof.
  intros R ops begin end_ col cols vals x Hcol.
  unfold FemModule._addValueToGlobalMatrixTria3Gpu. apply probes_agree, Hcol.
Qed.

Lemma X1_probes_agree_witness :
  FemModule._addValueToGlobalMatrixTria3Gpu 0 3 2%Z [0; -1; -1]%Z [4; 0; 0]%float 7%float
  = FemModule._assembleCsrAllGPU_probe (3 - 0) 0 2%Z 7%float [0; -1; -1]%Z [4; 0; 0]%float.
Proof. apply (X1_probes_agree_on_columns float). discriminate. Defined.

(** X2: [_getValIndexCsrGpu] on a span [begin, end) inside the column
    array returns the first index of the span that holds the column, and
    [-1] exactly when no index of the span holds it. *)
Theorem X2_getValIndexCsrGpu_first_match :
  forall (begin end_ col : nat) (csr_col : list Z),
    begin <= end_ ->
    end_ <= length csr_col ->
    exists r,
      FemModule._getValIndexCsrGpu begin end_ col csr_col = Ok r
      /\ ((r = (-1)%Z
           /\ forall j, begin <= j < end_ -> csr_col !! j <> Some (Z.of_nat col))
          \/ (exists k,
                 r = Z.of_nat k
                 /\ begin <= k < end_
                 /\ csr_col !! k = Some (Z.of_nat col)
                 /\ forall j, begin <= j < k -> csr_col !! j <> Some (Z.of_nat col))).
Proof.
  intros begin end_ col csr_col Hbe Hlen. unfold FemModule._getValIndexCsrGpu.
  destruct (_getValIndexCsrGpu_loop_spec (end_ - begin) begin (Z.of_nat col) csr_col ltac:(lia))
    as (k & -> & Hk & Hbefore & Hat).
  cbn [bind]. destruct (Nat.eqb_spec k end_) as [-> | Hne].
  - eexists. split; [reflexivity |]. left. split; [reflexivity | exact Hbefore].
  - eexists. split; [reflexivity |]. right. exists k.
    split; [reflexivity |]. split; [lia |]. split; [apply Hat; lia | exact Hbefore].
Qed.

Lemma X2_getValIndexCsrGpu_witness :
  exists r,
    FemModule._getValIndexCsrGpu 1 4 2 [2; 0; 2; 2; -1]%Z = Ok r
    /\ ((r = (-1)%Z
         /\ forall j, 1 <= j < 4 -> [2; 0; 2; 2; -1]%Z !! j <> Some (Z.of_nat 2))
        \/ (exists k,
               r = Z.of_nat k
               /\ 1 <= k < 4
               /\ [2; 0; 2; 2; -1]%Z !! k = Some (Z.of_nat 2)
               /\ forall j, 1 <= j < k -> [2; 0; 2; 2; -1]%Z !! j <> Some (Z.of_nat 2))).
Proof. apply X2_getValIndexCsrGpu_first_match; simpl; lia. Defined.

(** X3: a scatter-add of [x] for a column into a row span that holds the
    column or a free slot stops at the first such slot [i] (every slot of
    the span before [i] holds another column): the slot holds the column
    afterwards, its value is [x] when the slot was free (the first
    contribution is stored) and the former value plus [x] when it held
    the column (later contributions accumulate), no other slot changes,
    and [_getValIndexCsrGpu] then finds the column at [i]. Both probes
    behave so. *)
Theorem X3_scatter_add_then_lookup :
  forall (R : Type) `{RealOps R} (begin end_ col : nat) (cols : list Z) (vals : list R) (x : R),
    end_ <= length cols ->
    length vals = length cols ->
    span_has_room cols begin end_ (Z.of_nat col) ->
    exists cols' vals' i old,
      FemModule._addValueToGlobalMatrixTria3Gpu begin end_ (Z.of_nat col) cols vals x
      = Ok (cols', vals')
      /\ FemModule._assembleCsrAllGPU_probe (end_ - begin) begin (Z.of_nat col) x cols vals
         = Ok (cols', vals')
      /\ begin <= i < end_
      /\ (forall j, begin <= j < i ->
                    exists c, cols !! j = Some c /\ c <> Z.of_nat col /\ c <> (-1)%Z)
      /\ vals !! i = Some old
      /\ cols' = <[i := Z.of_nat col]> cols
      /\ ((cols !! i = Some (-1)%Z /\ vals' = <[i := x]> vals)
          \/ (cols !! i = Some (Z.of_nat col) /\ vals' = <[i := (old + x)%real]> vals))
      /\ FemModule._getValIndexCsrGpu begin end_ col cols' = Ok (Z.of_nat i).
Proof.
  intros R ops begin end_ col cols vals x Hlen Hvals (i0 & Hi0 & Hroom).
  assert (Hcol : Z.of_nat col <> (-1)%Z) by lia.
  destruct (_addValueToGlobalMatrixTria3Gpu_loop_hit
              (end_ - begin) begin (Z.of_nat col) cols vals x Hcol ltac:(lia) Hvals)
    as (i & old & Hi & Hbefore & Hold & Hres).
  { exists i0. split; [lia | exact Hroom]. }
  assert (Hlookup : FemModule._getValIndexCsrGpu begin end_ col (<[i := Z.of_nat col]> cols)
                    = Ok (Z.of_nat i)).
  { apply _getValIndexCsrGpu_found.
    - lia.
    - rewrite length_insert. exact Hlen.
    - intros j Hj. rewrite list_lookup_insert_ne by lia.
      destruct (Hbefore j Hj) as (c & -> & Hc & _). congruence.
    - apply list_lookup_insert_eq. lia. }
  unfold FemModule._addValueToGlobalMatrixTria3Gpu.
  rewrite <- probes_agree by exact Hcol.
  destruct Hres as [[Hfree Hrun] | [Hheld Hrun]]; rewrite Hrun.
  - exists (<[i := Z.of_nat col]> cols), (<[i := x]> vals), i, old.
    split; [reflexivity |]. split; [reflexivity |]. split; [lia |].
    split; [intros j Hj; apply Hbefore; lia |]. split; [exact Hold |].
    split; [reflexivity |]. split; [left; auto | exact Hlookup].
  - exists cols, (<[i := (old + x)%real]> vals), i, old.
    rewrite (list_insert_id cols i (Z.of_nat col) Hheld) in Hlookup.
    split; [reflexivity |]. split; [reflexivity |]. split; [lia |].
    split; [intros j Hj; apply Hbefore; lia |]. split; [exact Hold |].
    split; [symmetry; apply list_insert_id, Hheld |]. split; [right; auto | exact Hlookup].
Qed.

Lemma X3_scatter_add_witness :
  exists cols' vals' i old,
    FemModule._addValueToGlobalMatrixTria3Gpu 0 3 (Z.of_nat 2) [0; -1; -1]%Z [4; 0; 0]%float 7%float
    = Ok (cols', vals')
    /\ FemModule._assembleCsrAllGPU_probe (3 - 0) 0 (Z.of_nat 2) 7%float [0; -1; -1]%Z [4; 0; 0]%float
       = Ok (cols', vals')
    /\ 0 <= i < 3
    /\ (forall j, 0 <= j < i ->
                  exists c, [0; -1; -1]%Z !! j = Some c /\ c <> Z.of_nat 2 /\ c <> (-1)%Z)
    /\ [4; 0; 0]%float !! i = Some old
    /\ cols' = <[i := Z.of_nat 2]> [0; -1; -1]%Z
    /\ (([0; -1; -1]%Z !! i = Some (-1)%Z /\ vals' = <[i := 7%float]> [4; 0; 0]%float)
        \/ ([0; -1; -1]%Z !! i = Some (Z.of_nat 2)
            /\ vals' = <[i := (old + 7%float)%real]> [4; 0; 0]%float))
    /\ FemModule._getValIndexCsrGpu 0 3 2 cols' = Ok (Z.of_nat i).
Proof.
  apply (X3_scatter_add_then_lookup float).
  - simpl. lia.
  - reflexivity.
  - exists 1. split; [lia | right; reflexivity].
Defined.

(* ===================================================================== *)
(** * The Dirichlet condition written into the CSR arrays                 *)
(* ===================================================================== *)

Section OutOfBoundsFacts.

Lemma bind_returns_or_out_of_bounds {A B} (c : result A) (k : A -> result B) :
  returns_or_out_of_bounds c ->
  (forall a, returns_or_out_of_bounds (k a)) ->
  returns_or_out_of_bounds (bind c k).
Proof. intros [-> | (a & ->)] Hk; simpl; [left; reflexivity | apply Hk]. Qed.

Lemma na_get_returns_or_out_of_bounds {A} (a : list A) i : returns_or_out_of_bounds (na_get a i).
Proof. unfold na_get. destruct (a !! i); [right; eauto | left; reflexivity]. Qed.

Lemma na_set_returns_or_out_of_bounds {A} (a : list A) i x :
  returns_or_out_of_bounds (na_set a i x).
Proof. unfold na_set. destruct (a !! i); [right; eauto | left; reflexivity]. Qed.

Lemma na_getZ_returns_or_out_of_bounds {A} (a : list A) i :
  returns_or_out_of_bounds (FemModule.na_getZ a i).
Proof.
  unfold FemModule.na_getZ. destruct (i <? 0)%Z;
    [left; reflexivity | apply na_get_returns_or_out_of_bounds].
Qed.

Lemma na_setZ_returns_or_out_of_bounds {A} (a : list A) i x :
  returns_or_out_of_bounds (FemModule.na_setZ a i x).
Proof.
  unfold FemModule.na_setZ. destruct (i <? 0)%Z;
    [left; reflexivity | apply na_set_returns_or_out_of_bounds].
Qed.

Lemma _getValIndexCsrGpu_returns_or_out_of_bounds begin end_ col csr_col :
  returns_or_out_of_bounds (FemModule._getValIndexCsrGpu begin end_ col csr_col).
Proof.
  unfold FemModule._getValIndexCsrGpu. apply bind_returns_or_out_of_bounds.
  - generalize (end_ - begin) as n. intros n. revert begin.
    induction n as [|n IH]; intros begin; simpl; [right; eauto |].
    apply bind_returns_or_out_of_bounds; [apply na_get_returns_or_out_of_bounds |].
    intros c. destruct (negb (Z.eqb (Z.of_nat col) c)); [apply IH | right; eauto].
  - intros i. destruct (i =? end_); right; eauto.
Qed.

Lemma diagonal_search_end_returns_or_out_of_bounds rows size begin dof_id :
  returns_or_out_of_bounds (FemModule.diagonal_search_end rows size begin dof_id).
Proof.
  unfold FemModule.diagonal_search_end.
  destruct (Z.of_nat begin =? Z.of_nat (length rows) - 1)%Z;
    [right; eauto | apply na_get_returns_or_out_of_bounds].
Qed.

Lemma sum_to_ge_term (f : nat -> nat) (j k : nat) : j < k -> f j <= sum_to f k.
Proof.
  induction k as [|k IH]; intros Hj; [lia |]. simpl.
  destruct (Nat.eq_dec j k) as [-> | Hne]; [lia |]. specialize (IH ltac:(lia)). lia.
Qed.

(** On a valid mesh with a face, the row of the last node starts past
    [nbNode - 1]: some node before it has an incident face. *)
Lemma last_row_begin (mesh : Mesh.t) :
  Mesh.valid mesh ->
  Mesh.allFaces mesh <> [] ->
  Mesh.nbNode mesh <= sum_to (reserved mesh) (Mesh.nbNode mesh - 1)
  /\ 2 <= Mesh.nbNode mesh.
Proof.
  intros [Hfaces _ _] Hne.
  destruct (Mesh.allFaces mesh) as [|face faces] eqn:Efaces; [congruence |].
  apply Forall_cons in Hfaces as [(H0 & H1 & Hdiff) _].
  set (a := Nat.min (Mesh.fnode0 face) (Mesh.fnode1 face)).
  assert (Ha : a < Mesh.nbNode mesh - 1) by (unfold a; lia).
  assert (Hdeg : 1 <= Mesh.node_nbFace mesh a).
  { unfold Mesh.node_nbFace, Mesh.node_faces. rewrite Efaces. simpl.
    assert (Hhas : Mesh.face_has_node a face = true).
    { unfold Mesh.face_has_node, a.
      destruct (Nat.min_spec (Mesh.fnode0 face) (Mesh.fnode1 face)) as [[_ ->] | [_ ->]];
        rewrite Nat.eqb_refl; [reflexivity | apply orb_true_r]. }
    rewrite Hhas. simpl. lia. }
  split; [| lia].
  unfold reserved. rewrite sum_to_add, sum_to_const_1.
  pose proof (sum_to_ge_term (Mesh.node_nbFace mesh) a (Mesh.nbNode mesh - 1) Ha). lia.
Qed.
End OutOfBoundsFacts.

Section CsrGpuDirichletFacts.
Context {R : Type} `{RealOps R} `{RealSqrt R}.

Lemma enforceDirichletCsrGpu_last_node
      (mesh : Mesh.t) (options : FemModule.Options) (m_u : nat -> R) (m_u_dirichlet : nat -> bool)
      (m : CsrFormat.t R) (rhs : list R) :
  Mesh.valid mesh ->
  Mesh.allFaces mesh <> [] ->
  CsrFormat.m_matrix_row m = CsrFormat.m_matrix_row (built mesh) ->
  Mesh.isOwn mesh (Mesh.nbNode mesh - 1) = true ->
  m_u_dirichlet (Mesh.nbNode mesh - 1) = true ->
  FemModule.enforceDirichletMethod options = "Penalty"%string
  \/ FemModule.enforceDirichletMethod options = "WeakPenalty"%string ->
  FemModule.enforceDirichletCsrGpu mesh options m_u m_u_dirichlet m rhs
  = Throw ArrayIndexOutOfBounds.
Proof.
  intros Hvalid Hfaces Hrows Hown Hdir Hmethod.
  destruct (last_row_begin mesh Hvalid Hfaces) as [Hbegin Hn].
  assert (Hin : List.In (Mesh.nbNode mesh - 1) (Mesh.ownNodes mesh)).
  { apply ownNodes_In. split; [lia | exact Hown]. }
  assert (Hget : na_get (CsrFormat.m_matrix_row m) (Mesh.nbNode mesh - 1)
                 = Ok (sum_to (reserved mesh) (Mesh.nbNode mesh - 1))).
  { rewrite Hrows. apply na_get_lookup, built_row_begin. lia. }
  assert (Hend : FemModule.diagonal_search_end
                   (CsrFormat.m_matrix_row m) (length (CsrFormat.m_matrix_column m))
                   (sum_to (reserved mesh) (Mesh.nbNode mesh - 1)) (Mesh.nbNode mesh - 1)
                 = Throw ArrayIndexOutOfBounds).
  { rewrite Hrows. unfold FemModule.diagonal_search_end. rewrite built_rows_length.
    destruct (Z.eqb_spec (Z.of_nat (sum_to (reserved mesh) (Mesh.nbNode mesh - 1)))
                         (Z.of_nat (Mesh.nbNode mesh) - 1)) as [E | _]; [lia |].
    unfold na_get. rewrite lookup_ge_None_2; [reflexivity |].
    rewrite built_rows_length. lia. }
  unfold FemModule.enforceDirichletCsrGpu. cbv zeta.
  destruct Hmethod as [-> | ->]; simpl String.eqb; cbv iota.
  - apply foldM_throw.
    + exists (Mesh.nbNode mesh - 1). split; [exact Hin |].
      intros [vals rhs']. rewrite Hdir, Hget. cbn [bind]. rewrite Hend. reflexivity.
    + intros inode [vals rhs'] _. destruct (m_u_dirichlet inode); [| right; eauto].
      repeat first
             [ apply _getValIndexCsrGpu_returns_or_out_of_bounds
             | apply diagonal_search_end_returns_or_out_of_bounds
             | apply na_get_returns_or_out_of_bounds
             | apply na_set_returns_or_out_of_bounds
             | apply na_setZ_returns_or_out_of_bounds
             | apply bind_returns_or_out_of_bounds; [| intros ?]
             | (right; eexists; reflexivity) ].
  - apply foldM_throw.
    + exists (Mesh.nbNode mesh - 1). split; [exact Hin |].
      intros [vals rhs']. rewrite Hdir, Hget. cbn [bind]. rewrite Hend. reflexivity.
    + intros inode [vals rhs'] _. destruct (m_u_dirichlet inode); [| right; eauto].
      repeat first
             [ apply _getValIndexCsrGpu_returns_or_out_of_bounds
             | apply diagonal_search_end_returns_or_out_of_bounds
             | apply na_get_returns_or_out_of_bounds
             | apply na_set_returns_or_out_of_bounds
             | apply na_getZ_returns_or_out_of_bounds
             | apply na_setZ_returns_or_out_of_bounds
             | apply bind_returns_or_out_of_bounds; [| intros ?]
             | (right; eexists; reflexivity) ].
Qed.
End CsrGpuDirichletFacts.

Lemma single_triangle_valid : Mesh.valid Samples.single_triangle.
Proof.
  split.
  - repeat constructor; simpl; lia.
  - repeat constructor; simpl; lia.
  - simpl. lia.
Qed.

(** X4: [_assembleCsrGpuLinearOperator] with the method "Penalty" or
    "WeakPenalty", on the sparsity of a valid mesh that has a face: when
    the last node is an own Dirichlet node, the search for its diagonal
    reads [in_csr_row(dof_id + 1)] past the end of the row array, because
    the test for the last row compares the offset [begin] of the row, and
    not the row, with [row_csr_size - 1]. *)
Theorem X4_csr_gpu_dirichlet_last_node_out_of_bounds :
  forall (R : Type) `{RealOps R} `{RealSqrt R}
         (mesh : Mesh.t) (m_node_coord : nat -> Real3.t R) (options : FemModule.Options)
         (f ElementNodes : R) (m_u : nat -> R) (m_u_dirichlet : nat -> bool)
         (m0 m : CsrFormat.t R),
    Mesh.valid mesh ->
    Mesh.allFaces mesh <> [] ->
    FemModule._buildMatrixGpuBuildLessCsr mesh = Ok m0 ->
    CsrFormat.m_matrix_row m = CsrFormat.m_matrix_row m0 ->
    Mesh.isOwn mesh (Mesh.nbNode mesh - 1) = true ->
    m_u_dirichlet (Mesh.nbNode mesh - 1) = true ->
    FemModule.enforceDirichletMethod options = "Penalty"%string
    \/ FemModule.enforceDirichletMethod options = "WeakPenalty"%string ->
    FemModule._assembleCsrGpuLinearOperator mesh m_node_coord options f ElementNodes
                                            m_u m_u_dirichlet m
    = Throw ArrayIndexOutOfBounds.
Proof.
  intros R ops sq mesh m_node_coord options f ElementNodes m_u m_u_dirichlet m0 m
         Hvalid Hfaces Hbuilt Hrows Hown Hdir Hmethod.
  rewrite _buildMatrixGpuBuildLessCsr_built in Hbuilt. injection Hbuilt as <-.
  unfold FemModule._assembleCsrGpuLinearOperator. cbv zeta.
  rewrite enforceDirichletCsrGpu_last_node by assumption. reflexivity.
Qed.

Lemma X4_csr_gpu_dirichlet_witness :
  FemModule._assembleCsrGpuLinearOperator
    Samples.single_triangle Samples.right_triangle_coord (PenaltySample.options "Penalty")
    1%float 3%float (fun _ => 21%float) (fun node => node =? 2)
    (CsrFormat.mk [0; 3; 6] [0; 1; 2; 0; 1; 2; 0; 1; 2]%Z right_triangle_stiffness [0; 0; 0] 0)
  = Throw ArrayIndexOutOfBounds.
Proof.
  apply (X4_csr_gpu_dirichlet_last_node_out_of_bounds
           float Samples.single_triangle Samples.right_triangle_coord
           (PenaltySample.options "Penalty") 1%float 3%float (fun _ => 21%float)
           (fun node => node =? 2) (built Samples.single_triangle)).
  - exact single_triangle_valid.
  - discriminate.
  - vm_compute. reflexivity.
  - reflexivity.
  - reflexivity.
  - reflexivity.
  - left. reflexivity.
Defined.

(* ===================================================================== *)
(** * The linear operator on the array [m_rhs_vect]                       *)
(* ===================================================================== *)

Section RelatedLoops.
Context {A S1 S2 : Type}.

Lemma foldM_related (rel : S1 -> S2 -> Prop)
      (body1 : A -> S1 -> result S1) (body2 : A -> S2 -> result S2) (l : list A) :
  (forall a s1 s2, List.In a l -> rel s1 s2 -> result_rel rel (body1 a s1) (body2 a s2)) ->
  forall s1 s2, rel s1 s2 -> result_rel rel (foldM body1 l s1) (foldM body2 l s2).
Proof.
  induction l as [|a l IH]; intros Hbody s1 s2 Hrel; simpl; [exact Hrel |].
  pose proof (Hbody a s1 s2 (or_introl eq_refl) Hrel) as Hstep.
  destruct (body1 a s1) as [s1' | e1], (body2 a s2) as [s2' | e2]; simpl in *;
    try contradiction; try exact Hstep.
  apply IH; [| exact Hstep]. intros a' t1 t2 Hin. apply Hbody. right. exact Hin.
Qed.
End RelatedLoops.

Section RhsVectFacts.
Context {R : Type} `{RealOps R} `{RealSqrt R}.
Implicit Types (vect : list R) (rhs : nat -> R).

Lemma represents_init (n : nat) : represents n (replicate n r0) (fun _ => r0).
Proof.
  split; [apply length_replicate |]. intros d.
  destruct (replicate n r0 !! d) as [v |] eqn:E; [| reflexivity].
  apply lookup_replicate in E as [-> _]. reflexivity.
Qed.

Lemma represents_assign n vect rhs d v :
  represents n vect rhs ->
  d < n ->
  na_set vect d v = Ok (<[d := v]> vect)
  /\ represents n (<[d := v]> vect) (FemModule.assign rhs d v).
Proof.
  intros [Hlen Hrep] Hd. split; [apply na_set_in_range; lia |].
  split; [rewrite length_insert; exact Hlen |]. intros d'. unfold FemModule.assign.
  destruct (Nat.eqb_spec d' d) as [-> | Hne].
  - rewrite list_lookup_insert_eq by lia. reflexivity.
  - rewrite list_lookup_insert_ne by lia. apply Hrep.
Qed.

Lemma represents_rhs_add n vect rhs d term :
  represents n vect rhs ->
  d < n ->
  FemModule.rhs_add vect d term = Ok (<[d := (rhs d + term)%real]> vect)
  /\ represents n (<[d := (rhs d + term)%real]> vect)
                (FemModule.assign rhs d (rhs d + term)%real).
Proof.
  intros Hrep Hd. pose proof Hrep as [Hlen Hval].
  destruct (na_get_in_range vect d ltac:(lia)) as (old & Hold & Hget).
  assert (old = rhs d) as -> by (rewrite Hval, Hold; reflexivity).
  unfold FemModule.rhs_add. rewrite Hget. cbn [bind].
  apply represents_assign; assumption.
Qed.

(** A loop on the array follows the loop on the variable, item after
    item. *)
Lemma fold_represents {A} (P : A -> Prop) (n : nat)
      (g : A -> list R -> result (list R)) (f : (nat -> R) -> A -> nat -> R) (l : list A) :
  Forall P l ->
  (forall a vect rhs, P a -> represents n vect rhs ->
                      exists vect', g a vect = Ok vect' /\ represents n vect' (f rhs a)) ->
  forall vect rhs,
    represents n vect rhs ->
    exists vect', foldM g l vect = Ok vect' /\ represents n vect' (fold_left f l rhs).
Proof.
  intros Hl Hstep. induction Hl as [|a l Ha _ IH]; intros vect rhs Hrep; simpl; [eauto |].
  destruct (Hstep a vect rhs Ha Hrep) as (vect1 & -> & Hrep1). cbn [bind]. apply IH, Hrep1.
Qed.

Lemma add_on_free_nodes_represents (mesh : Mesh.t) (m_u_dirichlet : nat -> bool)
      (nodes : list nat) (term : R) vect rhs :
  Forall (fun node => node < Mesh.nbNode mesh) nodes ->
  represents (Mesh.nbNode mesh) vect rhs ->
  exists vect',
    FemModule.add_on_free_nodes_vect mesh m_u_dirichlet nodes term vect = Ok vect'
    /\ represents (Mesh.nbNode mesh) vect'
                  (FemModule.add_on_free_nodes mesh m_u_dirichlet nodes term rhs).
Proof.
  intros Hnodes. revert vect rhs.
  apply (fold_represents (fun node => node < Mesh.nbNode mesh)); [exact Hnodes |].
  intros node vect rhs Hnode Hrep.
  destruct (negb (m_u_dirichlet node) && Mesh.isOwn mesh node); [| eauto].
  destruct (represents_rhs_add _ vect rhs node term Hrep Hnode) as [-> Hrep']. eauto.
Qed.

Lemma sourceTerm_represents (mesh : Mesh.t) (m_node_coord : nat -> Real3.t R)
      (f ElementNodes : R) (m_u_dirichlet : nat -> bool) vect rhs :
  Mesh.valid mesh ->
  represents (Mesh.nbNode mesh) vect rhs ->
  exists vect',
    FemModule.sourceTermCsr mesh m_node_coord f ElementNodes m_u_dirichlet vect = Ok vect'
    /\ represents (Mesh.nbNode mesh) vect'
                  (FemModule.sourceTerm mesh m_node_coord f ElementNodes m_u_dirichlet rhs).
Proof.
  intros [_ Hcells _]. revert vect rhs.
  apply (fold_represents (Mesh.valid_cell mesh)); [exact Hcells |].
  intros cell vect rhs (Hc0 & Hc1 & Hc2) Hrep.
  apply add_on_free_nodes_represents; [| exact Hrep].
  unfold Mesh.cell_nodes. repeat constructor; assumption.
Qed.

Lemma fluxTerms_represents (mesh : Mesh.t) (m_node_coord : nat -> Real3.t R)
      (options : FemModule.Options) (m_u_dirichlet : nat -> bool) vect rhs :
  neumann_surfaces_in_mesh mesh options ->
  represents (Mesh.nbNode mesh) vect rhs ->
  exists vect',
    FemModule.fluxTermsCsr mesh m_node_coord options m_u_dirichlet vect = Ok vect'
    /\ represents (Mesh.nbNode mesh) vect'
                  (FemModule.fluxTerms mesh m_node_coord options m_u_dirichlet rhs).
Proof.
  intros Hsurfaces. revert vect rhs.
  apply (fold_represents
           (fun bs => Forall (fun face =>
                                Mesh.fnode0 (FemModule.bface face) < Mesh.nbNode mesh
                                /\ Mesh.fnode1 (FemModule.bface face) < Mesh.nbNode mesh)
                             (FemModule.surface bs)));
    [exact Hsurfaces |].
  intros bs vect rhs Hfaces Hrep.
  assert (Hflux : forall term : FemModule.BoundaryFace -> R,
             exists vect',
               foldM (fun face m_rhs_vect =>
                        FemModule.add_on_free_nodes_vect
                          mesh m_u_dirichlet
                          [Mesh.fnode0 (FemModule.bface face); Mesh.fnode1 (FemModule.bface face)]
                          (term face) m_rhs_vect)
                     (FemModule.surface bs) vect = Ok vect'
               /\ represents (Mesh.nbNode mesh) vect'
                    (fold_left (fun rhs_values face =>
                                  FemModule.add_on_free_nodes
                                    mesh m_u_dirichlet
                                    [Mesh.fnode0 (FemModule.bface face);
                                     Mesh.fnode1 (FemModule.bface face)]
                                    (term face) rhs_values)
                               (FemModule.surface bs) rhs)).
  { intros term.
    apply (fold_represents
             (fun face => Mesh.fnode0 (FemModule.bface face) < Mesh.nbNode mesh
                          /\ Mesh.fnode1 (FemModule.bface face) < Mesh.nbNode mesh));
      [exact Hfaces | | exact Hrep].
    intros face vect1 rhs1 [H0f H1f] Hrep1.
    apply add_on_free_nodes_represents; [| exact Hrep1]. repeat constructor; assumption. }
  destruct (FemModule.value bs), (FemModule.valueX bs), (FemModule.valueY bs);
    try apply Hflux. eauto.
Qed.

Lemma _translateRhs_lookup vect d : FemModule._translateRhs vect d = default r0 (vect !! d).
Proof.
  unfold FemModule._translateRhs.
  assert (Hgen : forall k, k <= length vect ->
             fold_left (fun rhs_values i =>
                          match vect !! i with
                          | Some v => FemModule.assign rhs_values i v
                          | None => rhs_values
                          end) (seq 0 k) (fun _ => r0) d
             = if d <? k then default r0 (vect !! d) else r0).
  { induction k as [|k IH]; intros Hk; [reflexivity |].
    rewrite seq_S, fold_left_app. simpl.
    destruct (lookup_lt_is_Some_2 vect k ltac:(lia)) as [v Hv]. rewrite Hv.
    unfold FemModule.assign at 1.
    destruct (Nat.eqb_spec d k) as [-> | Hne].
    - destruct (Nat.ltb_spec k (S k)); [| lia]. rewrite Hv. reflexivity.
    - rewrite IH by lia.
      destruct (Nat.ltb_spec d k), (Nat.ltb_spec d (S k)); try lia; reflexivity. }
  rewrite Hgen by lia.
  destruct (Nat.ltb_spec d (length vect)) as [Hd | Hd]; [reflexivity |].
  rewrite lookup_ge_None_2 by lia. reflexivity.
Qed.
End RhsVectFacts.

Section CsrLinearOperatorFacts.
Context {R : Type} `{RealOps R} `{RealSqrt R}.
Context {St : Type} `{LinearSystemImpl St R}.

Lemma enforceDirichlet_related
      (mesh : Mesh.t) (options : FemModule.Options) (m_u : nat -> R) (m_u_dirichlet : nat -> bool)
      (m : St) (vect : list R) (rhs : nat -> R) :
  represents (Mesh.nbNode mesh) vect rhs ->
  result_rel (fun s1 s2 => fst s1 = fst s2 /\ represents (Mesh.nbNode mesh) (snd s2) (snd s1))
             (FemModule.enforceDirichlet mesh options m_u m_u_dirichlet m rhs)
             (FemModule.enforceDirichletCsr mesh options m_u m_u_dirichlet m vect).
Proof.
  intros Hrep. unfold FemModule.enforceDirichlet, FemModule.enforceDirichletCsr.
  assert (Hloop : forall op : nat -> nat -> R -> St -> result St,
             result_rel
               (fun s1 s2 => fst s1 = fst s2 /\ represents (Mesh.nbNode mesh) (snd s2) (snd s1))
               (foldM (fun node_id '(m_linear_system, rhs_values) =>
                         if m_u_dirichlet node_id then
                           do m_linear_system <- op node_id node_id (FemModule.penalty options)
                                                    m_linear_system ;;
                           Ok (m_linear_system,
                               FemModule.assign rhs_values node_id
                                                (FemModule.penalty options * m_u node_id)%real)
                         else Ok (m_linear_system, rhs_values))
                      (Mesh.ownNodes mesh) (m, rhs))
               (foldM (fun node_id '(m_csr_matrix, m_rhs_vect) =>
                         if m_u_dirichlet node_id then
                           do m_csr_matrix <- op node_id node_id (FemModule.penalty options)
                                                 m_csr_matrix ;;
                           do m_rhs_vect <- na_set m_rhs_vect node_id
                                                   (FemModule.penalty options * m_u node_id)%real ;;
                           Ok (m_csr_matrix, m_rhs_vect)
                         else Ok (m_csr_matrix, m_rhs_vect))
                      (Mesh.ownNodes mesh) (m, vect))).
  { intros op. apply foldM_related; [| split; [reflexivity | exact Hrep]].
    intros node [m1 rhs1] [m2 vect2] Hin [Hm Hrep2]. simpl in Hm, Hrep2. subst m2.
    apply ownNodes_In in Hin as [Hnode _].
    destruct (m_u_dirichlet node); [| split; [reflexivity | exact Hrep2]].
    destruct (op node node (FemModule.penalty options) m1) as [m' | e]; simpl; [| reflexivity].
    destruct (represents_assign _ vect2 rhs1 node
                                (FemModule.penalty options * m_u node)%real Hrep2 Hnode)
      as [-> Hrep']. simpl. split; [reflexivity | exact Hrep']. }
  destruct (String.eqb (FemModule.enforceDirichletMethod options) "Penalty"); [apply Hloop |].
  destruct (String.eqb (FemModule.enforceDirichletMethod options) "WeakPenalty"); [apply Hloop |].
  split; [reflexivity | exact Hrep].
Qed.

Lemma _assembleCsrLinearOperator_related
      (mesh : Mesh.t) (m_node_coord : nat -> Real3.t R) (options : FemModule.Options)
      (f ElementNodes : R) (m_u : nat -> R) (m_u_dirichlet : nat -> bool) (m : St) :
  Mesh.valid mesh ->
  neumann_surfaces_in_mesh mesh options ->
  result_rel (fun s1 s2 => fst s1 = fst s2 /\ forall d, FemModule._translateRhs (snd s2) d = snd s1 d)
             (FemModule._assembleLinearOperator mesh m_node_coord options f ElementNodes
                                                m_u m_u_dirichlet m)
             (FemModule._assembleCsrLinearOperator mesh m_node_coord options f ElementNodes
                                                   m_u m_u_dirichlet m).
Proof.
  intros Hvalid Hsurfaces.
  unfold FemModule._assembleLinearOperator, FemModule._assembleCsrLinearOperator. cbv zeta.
  pose proof (enforceDirichlet_related mesh options m_u m_u_dirichlet m _ _
                                       (represents_init (Mesh.nbNode mesh))) as Hdir.
  destruct (FemModule.enforceDirichlet mesh options m_u m_u_dirichlet m (fun _ => r0))
    as [[m1 rhs1] | e1],
     (FemModule.enforceDirichletCsr mesh options m_u m_u_dirichlet m
                                    (replicate (Mesh.nbNode mesh) r0))
    as [[m2 vect2] | e2]; simpl in Hdir; try contradiction; [| exact Hdir].
  destruct Hdir as [<- Hrep]. cbn [bind].
  destruct (sourceTerm_represents mesh m_node_coord f ElementNodes m_u_dirichlet vect2 rhs1
                                  Hvalid Hrep) as (vect3 & -> & Hrep3).
  cbn [bind].
  destruct (fluxTerms_represents mesh m_node_coord options m_u_dirichlet vect3 _
                                 Hsurfaces Hrep3) as (vect4 & -> & Hrep4).
  cbn [bind]. simpl. split; [reflexivity |].
  intros d. rewrite _translateRhs_lookup. symmetry. apply Hrep4.
Qed.
End CsrLinearOperatorFacts.

(** X5: on a valid mesh whose Neumann faces join nodes of the mesh,
    [_assembleCsrLinearOperator] followed by [_translateRhs] ends like
    [_assembleLinearOperator] on the same store: both return the same
    store and the same right-hand side, entry by entry, or both throw the
    same exception; the accesses to the array [m_rhs_vect] never fail. *)
Theorem X5_csr_linear_operator_agrees :
  forall (R : Type) `{RealOps R} `{RealSqrt R} (St : Type) `{LinearSystemImpl St R}
         (mesh : Mesh.t) (m_node_coord : nat -> Real3.t R) (options : FemModule.Options)
         (f ElementNodes : R) (m_u : nat -> R) (m_u_dirichlet : nat -> bool) (m : St),
    Mesh.valid mesh ->
    neumann_surfaces_in_mesh mesh options ->
    match FemModule._assembleLinearOperator mesh m_node_coord options f ElementNodes
                                            m_u m_u_dirichlet m,
          FemModule._assembleCsrLinearOperator mesh m_node_coord options f ElementNodes
                                               m_u m_u_dirichlet m
    with
    | Ok (m1, rhs_values), Ok (m2, m_rhs_vect) =>
        m1 = m2 /\ forall d, FemModule._translateRhs m_rhs_vect d = rhs_values d
    | Throw e1, Throw e2 => e1 = e2
    | _, _ => False
    end.
Proof.
  intros R ops sq St impl mesh m_node_coord options f ElementNodes m_u m_u_dirichlet m
         Hvalid Hsurfaces.
  pose proof (_assembleCsrLinearOperator_related mesh m_node_coord options f ElementNodes
                                                 m_u m_u_dirichlet m Hvalid Hsurfaces) as Hrel.
  unfold result_rel in Hrel.
  destruct (FemModule._assembleLinearOperator mesh m_node_coord options f ElementNodes
                                              m_u m_u_dirichlet m) as [[m1 rhs] | e1],
           (FemModule._assembleCsrLinearOperator mesh m_node_coord options f ElementNodes
                                                 m_u m_u_dirichlet m) as [[m2 vect] | e2];
    exact Hrel.
Qed.

Lemma X5_csr_linear_operator_witness :
  match FemModule._assembleLinearOperator
          Samples.single_triangle Samples.right_triangle_coord (PenaltySample.options "Penalty")
          1%float 3%float PenaltySample.m_u PenaltySample.m_u_dirichlet PenaltySample.assembled,
        FemModule._assembleCsrLinearOperator
          Samples.single_triangle Samples.right_triangle_coord (PenaltySample.options "Penalty")
          1%float 3%float PenaltySample.m_u PenaltySample.m_u_dirichlet PenaltySample.assembled
  with
  | Ok (m1, rhs_values), Ok (m2, m_rhs_vect) =>
      m1 = m2 /\ forall d, FemModule._translateRhs m_rhs_vect d = rhs_values d
  | Throw e1, Throw e2 => e1 = e2
  | _, _ => False
  end.
Proof.
  apply (X5_csr_linear_operator_agrees
           float (SequentialNodeLinearSystemImpl.t float)
           Samples.single_triangle Samples.right_triangle_coord (PenaltySample.options "Penalty")
           1%float 3%float PenaltySample.m_u PenaltySample.m_u_dirichlet PenaltySample.assembled).
  - exact single_triangle_valid.
  - constructor.
Defined.

(* ===================================================================== *)
(** * What the linear operator writes                                     *)
(* ===================================================================== *)

Section LoopFacts.
Context {A St : Type}.

(** What every returning step of a loop keeps, the returning loop keeps. *)
Lemma foldM_preserves (I : St -> Prop) (body : A -> St -> result St) (l : list A) :
  (forall a s s', List.In a l -> body a s = Ok s' -> I s -> I s') ->
  forall s s', foldM body l s = Ok s' -> I s -> I s'.
Proof.
  induction l as [|a l IH]; intros Hbody s s' Hrun Hs; simpl in Hrun.
  - injection Hrun as <-. exact Hs.
  - apply bind_Ok_inv in Hrun as (s1 & Hstep & Hrun).
    apply (IH (fun a' t t' Hin => Hbody a' t t' (or_intror Hin)) s1 s' Hrun).
    apply (Hbody a s s1 (or_introl eq_refl) Hstep Hs).
Qed.
End LoopFacts.

Section RightHandSideFacts.
Context {R : Type} `{RealOps R} `{RealSqrt R}.
Context {St : Type} `{LinearSystemImpl St R}.

(** The loops over the nodes of a cell or of a face write the entries of
    own nodes that are not Dirichlet nodes, and no other. *)
Lemma add_on_free_nodes_skips
      (mesh : Mesh.t) (m_u_dirichlet : nat -> bool) (node : nat) (term : R) (nodes : list nat) :
  negb (m_u_dirichlet node) && Mesh.isOwn mesh node = false ->
  forall rhs, FemModule.add_on_free_nodes mesh m_u_dirichlet nodes term rhs node = rhs node.
Proof.
  intros Hskip. unfold FemModule.add_on_free_nodes.
  induction nodes as [|a nodes IH]; intros rhs; simpl; [reflexivity |].
  rewrite IH. destruct (negb (m_u_dirichlet a) && Mesh.isOwn mesh a) eqn:Hfree; [| reflexivity].
  unfold FemModule.assign. destruct (Nat.eqb_spec node a) as [-> | Hne]; [| reflexivity].
  rewrite Hskip in Hfree. discriminate.
Qed.

Lemma source_and_flux_skip
      (mesh : Mesh.t) (m_node_coord : nat -> Real3.t R) (options : FemModule.Options)
      (f ElementNodes : R) (m_u_dirichlet : nat -> bool) (node : nat) (rhs : nat -> R) :
  negb (m_u_dirichlet node) && Mesh.isOwn mesh node = false ->
  FemModule.fluxTerms mesh m_node_coord options m_u_dirichlet
    (FemModule.sourceTerm mesh m_node_coord f ElementNodes m_u_dirichlet rhs) node
  = rhs node.
Proof.
  intros Hskip. unfold FemModule.fluxTerms, FemModule.sourceTerm. rewrite fold_left_keeps.
  - apply fold_left_keeps. intros rhs' cell. apply add_on_free_nodes_skips, Hskip.
  - intros rhs' bs.
    destruct (FemModule.value bs), (FemModule.valueX bs), (FemModule.valueY bs);
      try reflexivity;
      (apply fold_left_keeps; intros rhs'' face; apply add_on_free_nodes_skips, Hskip).
Qed.

(** The Dirichlet condition writes the entries of own Dirichlet nodes,
    and no other. *)
Lemma enforceDirichlet_skips
      (mesh : Mesh.t) (options : FemModule.Options) (m_u : nat -> R) (m_u_dirichlet : nat -> bool)
      (m m' : St) (rhs rhs' : nat -> R) (node : nat) :
  m_u_dirichlet node && Mesh.isOwn mesh node = false ->
  FemModule.enforceDirichlet mesh options m_u m_u_dirichlet m rhs = Ok (m', rhs') ->
  rhs' node = rhs node.
Proof.
  intros Hskip. unfold FemModule.enforceDirichlet.
  assert (Hloop : forall op : nat -> nat -> R -> St -> result St,
             foldM (fun node_id '(m_linear_system, rhs_values) =>
                      if m_u_dirichlet node_id then
                        do m_linear_system <- op node_id node_id (FemModule.penalty options)
                                                 m_linear_system ;;
                        Ok (m_linear_system,
                            FemModule.assign rhs_values node_id
                                             (FemModule.penalty options * m_u node_id)%real)
                      else Ok (m_linear_system, rhs_values))
                   (Mesh.ownNodes mesh) (m, rhs) = Ok (m', rhs') ->
             rhs' node = rhs node).
  { intros op Hrun.
    refine (foldM_preserves (fun s : St * (nat -> R) => snd s node = rhs node) _ _
                            _ (m, rhs) (m', rhs') Hrun eq_refl).
    intros node_id [m1 rhs1] [m2 rhs2] Hin Hstep Hkeep. simpl in Hkeep |- *.
    apply ownNodes_In in Hin as [_ Hown].
    destruct (m_u_dirichlet node_id) eqn:Hdir.
    - apply bind_Ok_inv in Hstep as (m3 & _ & E). injection E as _ <-.
      unfold FemModule.assign. destruct (Nat.eqb_spec node node_id) as [-> | Hne]; [| exact Hkeep].
      rewrite Hdir, Hown in Hskip. discriminate.
    - injection Hstep as _ <-. exact Hkeep. }
  destruct (String.eqb (FemModule.enforceDirichletMethod options) "Penalty"); [apply Hloop |].
  destruct (String.eqb (FemModule.enforceDirichletMethod options) "WeakPenalty"); [apply Hloop |].
  intros E. injection E as _ <-. reflexivity.
Qed.
End RightHandSideFacts.

Section SourceTermFacts.
Context {R : Type} `{RealOps R}.

Lemma add_on_free_nodes_cell
      (mesh : Mesh.t) (m_u_dirichlet : nat -> bool) (node : nat) (term : R) (cell : Mesh.Cell)
      (rhs : nat -> R) :
  proper_cell cell ->
  negb (m_u_dirichlet node) && Mesh.isOwn mesh node = true ->
  FemModule.add_on_free_nodes mesh m_u_dirichlet (Mesh.cell_nodes cell) term rhs node
  = if Mesh.cell_has_node node cell then (rhs node + term)%real else rhs node.
Proof.
  intros (H01 & H12 & H02) Hfree.
  unfold FemModule.add_on_free_nodes, Mesh.cell_nodes, Mesh.cell_has_node, FemModule.assign.
  cbn [fold_left].
  destruct (Nat.eqb_spec (Mesh.cnode0 cell) node) as [E0 | E0],
           (Nat.eqb_spec (Mesh.cnode1 cell) node) as [E1 | E1],
           (Nat.eqb_spec (Mesh.cnode2 cell) node) as [E2 | E2];
    try (exfalso; congruence); cbn [orb].
  - rewrite E0, Hfree.
    destruct (negb (m_u_dirichlet (Mesh.cnode1 cell)) && Mesh.isOwn mesh (Mesh.cnode1 cell)),
             (negb (m_u_dirichlet (Mesh.cnode2 cell)) && Mesh.isOwn mesh (Mesh.cnode2 cell));
      repeat match goal with
             | |- context [Nat.eqb ?a ?b] => destruct (Nat.eqb_spec a b); try congruence
             end;
      reflexivity.
  - rewrite E1, Hfree.
    destruct (negb (m_u_dirichlet (Mesh.cnode0 cell)) && Mesh.isOwn mesh (Mesh.cnode0 cell)),
             (negb (m_u_dirichlet (Mesh.cnode2 cell)) && Mesh.isOwn mesh (Mesh.cnode2 cell));
      repeat match goal with
             | |- context [Nat.eqb ?a ?b] => destruct (Nat.eqb_spec a b); try congruence
             end;
      reflexivity.
  - rewrite E2, Hfree.
    destruct (negb (m_u_dirichlet (Mesh.cnode0 cell)) && Mesh.isOwn mesh (Mesh.cnode0 cell)),
             (negb (m_u_dirichlet (Mesh.cnode1 cell)) && Mesh.isOwn mesh (Mesh.cnode1 cell));
      repeat match goal with
             | |- context [Nat.eqb ?a ?b] => destruct (Nat.eqb_spec a b); try congruence
             end;
      reflexivity.
  - destruct (negb (m_u_dirichlet (Mesh.cnode0 cell)) && Mesh.isOwn mesh (Mesh.cnode0 cell)),
             (negb (m_u_dirichlet (Mesh.cnode1 cell)) && Mesh.isOwn mesh (Mesh.cnode1 cell)),
             (negb (m_u_dirichlet (Mesh.cnode2 cell)) && Mesh.isOwn mesh (Mesh.cnode2 cell));
      repeat match goal with
             | |- context [Nat.eqb ?a ?b] => destruct (Nat.eqb_spec a b); try congruence
             end;
      reflexivity.
Qed.

(** The cell-wise scatter of the source term gathers, at a free own node,
    the terms of the cells of the node, in the order of the cells. *)
Lemma sourceTerm_gather
      (mesh : Mesh.t) (m_node_coord : nat -> Real3.t R) (f ElementNodes : R)
      (m_u_dirichlet : nat -> bool) (node : nat) (cells : list Mesh.Cell) :
  Forall proper_cell cells ->
  negb (m_u_dirichlet node) && Mesh.isOwn mesh node = true ->
  forall rhs,
    fold_left (fun rhs_values cell =>
                 FemModule.add_on_free_nodes
                   mesh m_u_dirichlet (Mesh.cell_nodes cell)
                   (f * FemModule._computeAreaTriangle3 m_node_coord cell / ElementNodes)%real
                   rhs_values)
              cells rhs node
    = fold_left (fun acc cell =>
                   (acc + f * FemModule._computeAreaTriangle3 m_node_coord cell / ElementNodes)%real)
                (List.filter (Mesh.cell_has_node node) cells) (rhs node).
Proof.
  intros Hcells Hfree. induction Hcells as [|cell cells Hcell _ IH]; intros rhs; [reflexivity |].
  cbn [fold_left List.filter]. rewrite IH, add_on_free_nodes_cell by assumption.
  destruct (Mesh.cell_has_node node cell); reflexivity.
Qed.
End SourceTermFacts.

(** X6: with a method other than "Penalty" and "WeakPenalty"
    ("RowElimination" and "RowColumnElimination" included)
    [_assembleLinearOperator] issues no operation on the linear system,
    which it returns as it was, on every back end; the right-hand side of
    every Dirichlet node is left at zero: the Dirichlet condition is not
    enforced. *)
Theorem X6_other_methods_leave_dirichlet_unenforced :
  forall (R : Type) `{RealOps R} `{RealSqrt R} (St : Type) `{LinearSystemImpl St R}
         (mesh : Mesh.t) (m_node_coord : nat -> Real3.t R) (options : FemModule.Options)
         (f ElementNodes : R) (m_u : nat -> R) (m_u_dirichlet : nat -> bool) (m : St),
    FemModule.enforceDirichletMethod options <> "Penalty"%string ->
    FemModule.enforceDirichletMethod options <> "WeakPenalty"%string ->
    exists rhs_values,
      FemModule._assembleLinearOperator mesh m_node_coord options f ElementNodes
                                        m_u m_u_dirichlet m = Ok (m, rhs_values)
      /\ forall node, m_u_dirichlet node = true -> rhs_values node = r0.
Proof.
  intros R ops sq St impl mesh m_node_coord options f ElementNodes m_u m_u_dirichlet m Hp Hw.
  unfold FemModule._assembleLinearOperator, FemModule.enforceDirichlet. cbv zeta.
  apply String.eqb_neq in Hp, Hw. rewrite Hp, Hw. cbn [bind].
  eexists. split; [reflexivity |].
  intros node Hdir. rewrite source_and_flux_skip; [reflexivity |]. rewrite Hdir. reflexivity.
Qed.

Lemma X6_other_methods_witness :
  exists rhs_values,
    FemModule._assembleLinearOperator
      Samples.single_triangle Samples.right_triangle_coord
      (NeumannSample.options "RowElimination") 1%float 3%float
      PenaltySample.m_u PenaltySample.m_u_dirichlet
      (HypreDoFLinearSystemImpl.create (R := float))
    = Ok (HypreDoFLinearSystemImpl.create, rhs_values)
    /\ forall node, PenaltySample.m_u_dirichlet node = true -> rhs_values node = 0%float.
Proof.
  refine (X6_other_methods_leave_dirichlet_unenforced
            float (HypreDoFLinearSystemImpl.t float)
            Samples.single_triangle Samples.right_triangle_coord
            (NeumannSample.options "RowElimination") 1%float 3%float
            PenaltySample.m_u PenaltySample.m_u_dirichlet HypreDoFLinearSystemImpl.create _ _).
  - discriminate.
  - discriminate.
Defined.

(** X7: [_assembleLinearOperator] writes the right-hand side in the rows
    of own nodes only: when it returns, the entry of every node that is
    not own is zero, whatever the method, the source and the Neumann
    conditions. *)
Theorem X7_right_hand_side_of_ghost_nodes_is_zero :
  forall (R : Type) `{RealOps R} `{RealSqrt R} (St : Type) `{LinearSystemImpl St R}
         (mesh : Mesh.t) (m_node_coord : nat -> Real3.t R) (options : FemModule.Options)
         (f ElementNodes : R) (m_u : nat -> R) (m_u_dirichlet : nat -> bool) (m m' : St)
         (rhs_values : nat -> R),
    FemModule._assembleLinearOperator mesh m_node_coord options f ElementNodes
                                      m_u m_u_dirichlet m = Ok (m', rhs_values) ->
    forall node, Mesh.isOwn mesh node = false -> rhs_values node = r0.
Proof.
  intros R ops sq St impl mesh m_node_coord options f ElementNodes m_u m_u_dirichlet m m' rhs
         Hrun node Hghost.
  unfold FemModule._assembleLinearOperator in Hrun. cbv zeta in Hrun.
  apply bind_Ok_inv in Hrun as ([m1 rhs1] & Hdir & Hrest). injection Hrest as _ <-.
  rewrite source_and_flux_skip by (rewrite Hghost; apply andb_false_r).
  apply (enforceDirichlet_skips mesh options m_u m_u_dirichlet m m1 _ rhs1 node) in Hdir;
    [exact Hdir |]. rewrite Hghost. apply andb_false_r.
Qed.

Lemma X7_right_hand_side_witness :
  match FemModule._assembleLinearOperator
          Samples.two_triangles_ghost Samples.two_triangles_coord (NeumannSample.options "Penalty")
          1%float 3%float (fun _ => 21%float) (fun node => node =? 0)
          (SequentialNodeLinearSystemImpl.build (R := float) 4)
  with
  | Ok (_, rhs_values) =>
      forall node, Mesh.isOwn Samples.two_triangles_ghost node = false -> rhs_values node = 0%float
  | Throw _ => False
  end.
Proof.
  destruct (FemModule._assembleLinearOperator
              Samples.two_triangles_ghost Samples.two_triangles_coord
              (NeumannSample.options "Penalty")
              1%float 3%float (fun _ => 21%float) (fun node => node =? 0)
              (SequentialNodeLinearSystemImpl.build (R := float) 4))
    as [[m' rhs_values] | e] eqn:Hrun.
  - exact (X7_right_hand_side_of_ghost_nodes_is_zero float _ _ _ _ _ _ _ _ _ _ _ Hrun).
  - vm_compute in Hrun. discriminate.
Defined.

(** X8: without Neumann conditions, when [_assembleLinearOperator]
    returns, the right-hand side of an own node that is not a Dirichlet
    node is the sum of [f * area / ElementNodes] over the cells of the
    node, added to zero in the order of the cells; the cells have three
    distinct nodes. *)
Theorem X8_source_term_gathers_cells_of_node :
  forall (R : Type) `{RealOps R} `{RealSqrt R} (St : Type) `{LinearSystemImpl St R}
         (mesh : Mesh.t) (m_node_coord : nat -> Real3.t R) (options : FemModule.Options)
         (f ElementNodes : R) (m_u : nat -> R) (m_u_dirichlet : nat -> bool) (m m' : St)
         (rhs_values : nat -> R) (node : nat),
    Forall proper_cell (Mesh.allCells mesh) ->
    FemModule.neumannBoundaryCondition options = [] ->
    m_u_dirichlet node = false ->
    Mesh.isOwn mesh node = true ->
    FemModule._assembleLinearOperator mesh m_node_coord options f ElementNodes
                                      m_u m_u_dirichlet m = Ok (m', rhs_values) ->
    rhs_values node
    = fold_left (fun acc cell =>
                   (acc + f * FemModule._computeAreaTriangle3 m_node_coord cell / ElementNodes)%real)
                (Mesh.node_cells mesh node) r0.
Proof.
  intros R ops sq St impl mesh m_node_coord options f ElementNodes m_u m_u_dirichlet m m' rhs node
         Hcells Hneumann Hfree Hown Hrun.
  unfold FemModule._assembleLinearOperator in Hrun. cbv zeta in Hrun.
  apply bind_Ok_inv in Hrun as ([m1 rhs1] & Hdir & Hrest). injection Hrest as _ <-.
  apply (enforceDirichlet_skips mesh options m_u m_u_dirichlet m m1 _ rhs1 node) in Hdir;
    [| rewrite Hfree; reflexivity].
  unfold FemModule.fluxTerms. rewrite Hneumann. cbn [fold_left].
  unfold FemModule.sourceTerm, Mesh.node_cells.
  rewrite sourceTerm_gather; [rewrite Hdir; reflexivity | exact Hcells |].
  rewrite Hfree, Hown. reflexivity.
Qed.

Lemma X8_source_term_witness :
  match FemModule._assembleLinearOperator
          Samples.two_triangles Samples.two_triangles_coord (PenaltySample.options "Penalty")
          1%float 3%float PenaltySample.m_u PenaltySample.m_u_dirichlet
          (SequentialNodeLinearSystemImpl.build (R := float) 4)
  with
  | Ok (_, rhs_values) =>
      rhs_values 1
      = fold_left (fun acc cell =>
                     (acc + 1%float
                            * FemModule._computeAreaTriangle3 Samples.two_triangles_coord cell
                            / 3%float)%real)
                  (Mesh.node_cells Samples.two_triangles 1) 0%float
  | Throw _ => False
  end.
Proof.
  destruct (FemModule._assembleLinearOperator
              Samples.two_triangles Samples.two_triangles_coord (PenaltySample.options "Penalty")
              1%float 3%float PenaltySample.m_u PenaltySample.m_u_dirichlet
              (SequentialNodeLinearSystemImpl.build (R := float) 4))
    as [[m' rhs_values] | e] eqn:Hrun.
  - apply (X8_source_term_gathers_cells_of_node float _ _ _ _ _ _ _ _ _ _ _ 1) in Hrun.
    + exact Hrun.
    + repeat constructor; simpl; lia.
    + reflexivity.
    + reflexivity.
    + reflexivity.
  - vm_compute in Hrun. discriminate.
Defined.

(* ===================================================================== *)
(** * Element matrices                                                    *)
(* ===================================================================== *)

Ltac expose_element_matrix :=
  cbv [at_ FemModule._computeElementMatrixTRIA3 FemModule._computeElementMatrixTRIA3GPU
       FemModule._computeElementMatrixQUAD4 FemModule._computeCellMatrixGpuTRIA3
       FemModule._computeAreaTriangle3Gpu
       multInPlace matrixMultiplication matrixTranspose fst snd
       map flat_map seq nth fold_left app Nat.mul Nat.add Real2.x Real2.y].

Section SymmetryFacts.
Context {R : Type} `{RealOps R}.
Hypothesis rmul_comm : forall x y : R, (x * y)%real = (y * x)%real.

Ltac swap_factors := repeat first [reflexivity | apply rmul_comm | f_equal].

Lemma _computeElementMatrixTRIA3_symmetric (m_node_coord : nat -> Real3.t R) (cell : Mesh.Cell)
      (i j : nat) :
  i < 3 -> j < 3 ->
  at_ 3 (FemModule._computeElementMatrixTRIA3 m_node_coord cell) i j
  = at_ 3 (FemModule._computeElementMatrixTRIA3 m_node_coord cell) j i.
Proof.
  intros Hi Hj.
  destruct i as [|[|[|i']]]; [| | | lia]; (destruct j as [|[|[|j']]]; [| | | lia]).
  all: expose_element_matrix; swap_factors.
Qed.

Lemma _computeElementMatrixTRIA3GPU_symmetric (m_node_coord : nat -> Real3.t R)
      (cell : Mesh.Cell) (i j : nat) :
  i < 3 -> j < 3 ->
  nth (i * 3 + j) (FemModule._computeElementMatrixTRIA3GPU m_node_coord cell) r0
  = nth (j * 3 + i) (FemModule._computeElementMatrixTRIA3GPU m_node_coord cell) r0.
Proof.
  intros Hi Hj.
  destruct i as [|[|[|i']]]; [| | | lia]; (destruct j as [|[|[|j']]]; [| | | lia]).
  all: expose_element_matrix; swap_factors.
Qed.

Lemma _computeElementMatrixQUAD4_symmetric (m_node_coord : nat -> Real3.t R)
      (cell : FemModule.Quad) (i j : nat) :
  i < 4 -> j < 4 ->
  at_ 4 (FemModule._computeElementMatrixQUAD4 m_node_coord cell) i j
  = at_ 4 (FemModule._computeElementMatrixQUAD4 m_node_coord cell) j i.
Proof.
  intros Hi Hj.
  destruct i as [|[|[|[|i']]]]; [| | | | lia]; (destruct j as [|[|[|[|j']]]]; [| | | | lia]).
  all: expose_element_matrix; swap_factors.
Qed.
End SymmetryFacts.

Lemma Qmult_comm_eq (x y : Q) : Qmult x y = Qmult y x.
Proof.
  destruct x as [a b], y as [c d]. unfold Qmult. simpl.
  rewrite (Z.mul_comm a c), (Pos.mul_comm b d). reflexivity.
Qed.

Lemma SFmul_comm (prec emax : Z) (x y : spec_float) : SFmul prec emax x y = SFmul prec emax y x.
Proof.
  destruct x as [sx | sx | | sx mx ex], y as [sy | sy | | sy my ey]; simpl;
    try reflexivity; try (rewrite Bool.xorb_comm; reflexivity).
  rewrite Bool.xorb_comm, Pos.mul_comm, Z.add_comm. reflexivity.
Qed.

(** The multiplication of binary64 is commutative, bit for bit. *)
Lemma float_mul_comm (x y : float) : PrimFloat.mul x y = PrimFloat.mul y x.
Proof. apply Prim2SF_inj. rewrite !mul_spec. apply SFmul_comm. Qed.

(** X9: in every arithmetic whose multiplication is commutative (that of
    binary64 is, see [float_mul_comm]), the element matrices returned by
    [_computeElementMatrixTRIA3], [_computeElementMatrixTRIA3GPU] and
    [_computeElementMatrixQUAD4] are symmetric, entry for entry and
    without rounding differences. *)
Theorem X9_element_matrices_are_symmetric :
  forall (R : Type) `{RealOps R},
    (forall x y : R, (x * y)%real = (y * x)%real) ->
    forall (m_node_coord : nat -> Real3.t R),
      (forall cell i j, i < 3 -> j < 3 ->
          at_ 3 (FemModule._computeElementMatrixTRIA3 m_node_coord cell) i j
          = at_ 3 (FemModule._computeElementMatrixTRIA3 m_node_coord cell) j i)
      /\ (forall cell i j, i < 3 -> j < 3 ->
          nth (i * 3 + j) (FemModule._computeElementMatrixTRIA3GPU m_node_coord cell) r0
          = nth (j * 3 + i) (FemModule._computeElementMatrixTRIA3GPU m_node_coord cell) r0)
      /\ (forall cell i j, i < 4 -> j < 4 ->
          at_ 4 (FemModule._computeElementMatrixQUAD4 m_node_coord cell) i j
          = at_ 4 (FemModule._computeElementMatrixQUAD4 m_node_coord cell) j i).
Proof.
  intros R ops Hcomm m_node_coord. split; [| split]; intros cell i j Hi Hj.
  - apply _computeElementMatrixTRIA3_symmetric; assumption.
  - apply _computeElementMatrixTRIA3GPU_symmetric; assumption.
  - apply _computeElementMatrixQUAD4_symmetric; assumption.
Qed.

Lemma X9_element_matrices_witness :
  at_ 3 (FemModule._computeElementMatrixTRIA3 (R := float) Samples.two_triangles_coord
                                              (Mesh.mkCell 1 3 2)) 0 2
  = at_ 3 (FemModule._computeElementMatrixTRIA3 (R := float) Samples.two_triangles_coord
                                                (Mesh.mkCell 1 3 2)) 2 0.
Proof.
  apply (proj1 (@X9_element_matrices_are_symmetric float float_RealOps float_mul_comm
                                                     Samples.two_triangles_coord));
    lia.
Defined.

Section ExactKernelFacts.
Variable m_node_coord : nat -> Real3.t Q.

Ltac exact_arithmetic :=
  expose_element_matrix;
  cbv [FemModule._computeAreaTriangle3 FemModule._computeAreaQuad4
       radd rsub rmul rdiv r0 r1 r2 rhalf Q_RealOps];
  unfold Qdiv.

Lemma _computeElementMatrixTRIA3_row_sum (cell : Mesh.Cell) (i : nat) :
  i < 3 ->
  (at_ 3 (FemModule._computeElementMatrixTRIA3 m_node_coord cell) i 0
   + at_ 3 (FemModule._computeElementMatrixTRIA3 m_node_coord cell) i 1
   + at_ 3 (FemModule._computeElementMatrixTRIA3 m_node_coord cell) i 2 == 0)%Q.
Proof.
  intros Hi. destruct i as [|[|[|i']]]; [| | | lia].
  all: exact_arithmetic; ring.
Qed.

Lemma _computeElementMatrixTRIA3GPU_row_sum (cell : Mesh.Cell) (i : nat) :
  i < 3 ->
  (nth (i * 3 + 0) (FemModule._computeElementMatrixTRIA3GPU m_node_coord cell) 0
   + nth (i * 3 + 1) (FemModule._computeElementMatrixTRIA3GPU m_node_coord cell) 0
   + nth (i * 3 + 2) (FemModule._computeElementMatrixTRIA3GPU m_node_coord cell) 0 == 0)%Q.
Proof.
  intros Hi. destruct i as [|[|[|i']]]; [| | | lia].
  all: exact_arithmetic; ring.
Qed.

Lemma _computeElementMatrixQUAD4_row_sum (cell : FemModule.Quad) (i : nat) :
  i < 4 ->
  (at_ 4 (FemModule._computeElementMatrixQUAD4 m_node_coord cell) i 0
   + at_ 4 (FemModule._computeElementMatrixQUAD4 m_node_coord cell) i 1
   + at_ 4 (FemModule._computeElementMatrixQUAD4 m_node_coord cell) i 2
   + at_ 4 (FemModule._computeElementMatrixQUAD4 m_node_coord cell) i 3 == 0)%Q.
Proof.
  intros Hi. destruct i as [|[|[|[|i']]]]; [| | | | lia].
  all: exact_arithmetic; ring.
Qed.

(** Exchanging two nodes of a triangle changes the sign of its area. *)
Lemma _computeAreaTriangle3_swap (a b c : nat) :
  (FemModule._computeAreaTriangle3 m_node_coord (Mesh.mkCell a c b)
   == - FemModule._computeAreaTriangle3 m_node_coord (Mesh.mkCell a b c))%Q.
Proof.
  cbv [FemModule._computeAreaTriangle3 Mesh.cnode0 Mesh.cnode1 Mesh.cnode2
       radd rsub rmul rdiv r0 r1 r2 rhalf Q_RealOps].
  ring.
Qed.

Lemma _computeAreaQuad4_split (a b c d : nat) :
  (FemModule._computeAreaQuad4 m_node_coord (FemModule.mkQuad a b c d)
   == FemModule._computeAreaTriangle3 m_node_coord (Mesh.mkCell a b c)
      + FemModule._computeAreaTriangle3 m_node_coord (Mesh.mkCell a c d))%Q.
Proof.
  cbv [FemModule._computeAreaTriangle3 FemModule._computeAreaQuad4
       Mesh.cnode0 Mesh.cnode1 Mesh.cnode2
       FemModule.qnode0 FemModule.qnode1 FemModule.qnode2 FemModule.qnode3
       radd rsub rmul rdiv r0 r1 r2 rhalf Q_RealOps].
  ring.
Qed.
End ExactKernelFacts.

Section OrientationFacts.
Variable m_node_coord : nat -> Real3.t Q.

(** Exchanging two nodes of a triangle that is not degenerate changes the
    sign of every entry of its element matrix. *)
Lemma _computeElementMatrixTRIA3_swap (a b c i j : nat) :
  ~ (FemModule._computeAreaTriangle3 m_node_coord (Mesh.mkCell a b c) == 0)%Q ->
  i < 3 -> j < 3 ->
  (at_ 3 (FemModule._computeElementMatrixTRIA3 m_node_coord (Mesh.mkCell a c b))
       (exchanged i) (exchanged j)
   == - at_ 3 (FemModule._computeElementMatrixTRIA3 m_node_coord (Mesh.mkCell a b c)) i j)%Q.
Proof.
  intros Harea Hi Hj.
  destruct i as [|[|[|i']]]; [| | | lia]; (destruct j as [|[|[|j']]]; [| | | lia]).
  all: cbv [exchanged]; expose_element_matrix;
    cbv [FemModule._computeAreaTriangle3 Mesh.cnode0 Mesh.cnode1 Mesh.cnode2
         radd rsub rmul rdiv r0 r1 r2 rhalf Q_RealOps] in *.
  all: field.
  all: split; intros Hz; apply Harea.
  all: try (rewrite Hz; ring).
  all: match type of Hz with
       | (?e == 0)%Q =>
           match goal with
           | |- (_ * ?g == 0)%Q => setoid_replace g with (- e)%Q using relation Qeq by ring
           end
       end;
    rewrite Hz; ring.
Qed.
End OrientationFacts.

(** X10: in exact arithmetic every row of the element matrix of a cell
    that is not degenerate (its area is not zero) sums to zero, for
    [_computeElementMatrixTRIA3], [_computeElementMatrixTRIA3GPU] and
    [_computeElementMatrixQUAD4]: a constant field gives no
    contribution. *)
Theorem X10_element_matrix_rows_sum_to_zero :
  forall (m_node_coord : nat -> Real3.t Q),
    (forall cell i,
        ~ (FemModule._computeAreaTriangle3 m_node_coord cell == 0)%Q ->
        i < 3 ->
        (at_ 3 (FemModule._computeElementMatrixTRIA3 m_node_coord cell) i 0
         + at_ 3 (FemModule._computeElementMatrixTRIA3 m_node_coord cell) i 1
         + at_ 3 (FemModule._computeElementMatrixTRIA3 m_node_coord cell) i 2 == 0)%Q)
    /\ (forall cell i,
        ~ (FemModule._computeAreaTriangle3 m_node_coord cell == 0)%Q ->
        i < 3 ->
        (nth (i * 3 + 0) (FemModule._computeElementMatrixTRIA3GPU m_node_coord cell) 0
         + nth (i * 3 + 1) (FemModule._computeElementMatrixTRIA3GPU m_node_coord cell) 0
         + nth (i * 3 + 2) (FemModule._computeElementMatrixTRIA3GPU m_node_coord cell) 0 == 0)%Q)
    /\ (forall cell i,
        ~ (FemModule._computeAreaQuad4 m_node_coord cell == 0)%Q ->
        i < 4 ->
        (at_ 4 (FemModule._computeElementMatrixQUAD4 m_node_coord cell) i 0
         + at_ 4 (FemModule._computeElementMatrixQUAD4 m_node_coord cell) i 1
         + at_ 4 (FemModule._computeElementMatrixQUAD4 m_node_coord cell) i 2
         + at_ 4 (FemModule._computeElementMatrixQUAD4 m_node_coord cell) i 3 == 0)%Q).
Proof.
  intros m_node_coord. split; [| split]; intros cell i _ Hi.
  - apply _computeElementMatrixTRIA3_row_sum, Hi.
  - apply _computeElementMatrixTRIA3GPU_row_sum, Hi.
  - apply _computeElementMatrixQUAD4_row_sum, Hi.
Qed.

Lemma X10_element_matrix_rows_witness :
  (at_ 3 (FemModule._computeElementMatrixTRIA3 (R := Q) Samples.two_triangles_coord
                                               (Mesh.mkCell 1 3 2)) 1 0
   + at_ 3 (FemModule._computeElementMatrixTRIA3 (R := Q) Samples.two_triangles_coord
                                                 (Mesh.mkCell 1 3 2)) 1 1
   + at_ 3 (FemModule._computeElementMatrixTRIA3 (R := Q) Samples.two_triangles_coord
                                                 (Mesh.mkCell 1 3 2)) 1 2 == 0)%Q.
Proof.
  apply (proj1 (X10_element_matrix_rows_sum_to_zero Samples.two_triangles_coord)).
  - intros Harea. vm_compute in Harea. discriminate.
  - lia.
Defined.

(** X11: [_computeAreaTriangle3] is a signed area: exchanging two nodes
    of the cell changes its sign; and for a cell that is not degenerate
    the element matrix of the cell with two nodes exchanged is the
    opposite of the element matrix of the cell, entry for entry (exact
    arithmetic). *)
Theorem X11_orientation_changes_sign :
  forall (m_node_coord : nat -> Real3.t Q) (a b c : nat),
    (FemModule._computeAreaTriangle3 m_node_coord (Mesh.mkCell a c b)
     == - FemModule._computeAreaTriangle3 m_node_coord (Mesh.mkCell a b c))%Q
    /\ (~ (FemModule._computeAreaTriangle3 m_node_coord (Mesh.mkCell a b c) == 0)%Q ->
        forall i j, i < 3 -> j < 3 ->
          (at_ 3 (FemModule._computeElementMatrixTRIA3 m_node_coord (Mesh.mkCell a c b))
               (exchanged i) (exchanged j)
           == - at_ 3 (FemModule._computeElementMatrixTRIA3 m_node_coord (Mesh.mkCell a b c)) i j)%Q).
Proof.
  intros m_node_coord a b c. split.
  - apply _computeAreaTriangle3_swap.
  - intros Harea i j Hi Hj. apply _computeElementMatrixTRIA3_swap; assumption.
Qed.

Lemma X11_orientation_witness :
  (at_ 3 (FemModule._computeElementMatrixTRIA3 (R := Q) Samples.right_triangle_coord
                                               (Mesh.mkCell 0 2 1))
       (exchanged 0) (exchanged 1)
   == - at_ 3 (FemModule._computeElementMatrixTRIA3 (R := Q) Samples.right_triangle_coord
                                                    (Mesh.mkCell 0 1 2)) 0 1)%Q.
Proof.
  apply (proj2 (X11_orientation_changes_sign Samples.right_triangle_coord 0 1 2)).
  - intros Harea. vm_compute in Harea. discriminate.
  - lia.
  - lia.
Defined.

(** X12: in exact arithmetic the area of a quadrangle returned by
    [_computeAreaQuad4] is the sum of the signed areas, by
    [_computeAreaTriangle3], of the two triangles cut by the diagonal
    from its first node. *)
Theorem X12_quad_area_is_sum_of_triangles :
  forall (m_node_coord : nat -> Real3.t Q) (a b c d : nat),
    (FemModule._computeAreaQuad4 m_node_coord (FemModule.mkQuad a b c d)
     == FemModule._computeAreaTriangle3 m_node_coord (Mesh.mkCell a b c)
        + FemModule._computeAreaTriangle3 m_node_coord (Mesh.mkCell a c d))%Q.
Proof. intros m_node_coord a b c d. apply _computeAreaQuad4_split. Qed.

(** The text of [_computeElementMatrixTRIA3GPU] at lines 3259-3312, on
    the zeroed [K_e] of its caller, has in exact arithmetic the entries
    of the text at lines 1184-1236. *)
Lemma second_text_entries (m_node_coord : nat -> Real3.t Q) (cell : Mesh.Cell) (idx : nat) :
  (nth idx (FemModule2._computeElementMatrixTRIA3GPU m_node_coord cell (repeat r0 9)) r0
   == nth idx (FemModule._computeElementMatrixTRIA3GPU m_node_coord cell) r0)%Q.
Proof.
  do 9 (destruct idx as [|idx]; [
    cbv [FemModule2._computeElementMatrixTRIA3GPU FemModule._computeElementMatrixTRIA3GPU
         repeat insert list_insert fold_left seq Nat.sub Nat.mul Nat.add nth map flat_map app
         Real2.x Real2.y radd rsub rmul rdiv r0 r1 r2 rhalf Q_RealOps];
    unfold Qdiv; ring |]).
  cbv [FemModule2._computeElementMatrixTRIA3GPU FemModule._computeElementMatrixTRIA3GPU
       repeat insert list_insert fold_left seq Nat.sub Nat.mul Nat.add nth map flat_map app
       Real2.x Real2.y radd rsub rmul rdiv r0 r1 r2 rhalf Q_RealOps].
  destruct idx; reflexivity.
Qed.

(** X13: the kernels of the triangle. In every arithmetic the entry that
    the build-less pass contracts from [_computeCellMatrixGpuTRIA3] is
    the entry of the text of [_computeElementMatrixTRIA3GPU] at lines
    1184-1236 of FemModule.cc, and the entry of
    [_computeElementMatrixTRIA3] is the same with zero added to the sum
    before it is scaled by the area. The text of
    [_computeElementMatrixTRIA3GPU] at lines 3259-3312, on the zeroed
    [K_e] of the device-parallel pass, has the same entries in exact
    arithmetic on a cell that is not degenerate, but not in binary64: on
    the triangle (0,0), (49,0), (0,1) its entry (2,2) is 24.5, where the
    other text and the build-less contraction give
    24.499999999999993. *)
Theorem X13_triangle_kernels_agree :
  (forall (R : Type) `{RealOps R} (m_node_coord : nat -> Real3.t R) (cell : Mesh.Cell) (i j : nat),
      i < 3 -> j < 3 ->
      let area := fst (FemModule._computeCellMatrixGpuTRIA3 m_node_coord cell) in
      let b_matrix := snd (FemModule._computeCellMatrixGpuTRIA3 m_node_coord cell) in
      let x := fold_left (fun x k => (x + nth (i * 2 + k) b_matrix r0
                                          * nth (j * 2 + k) b_matrix r0)%real)
                         (seq 0 2) r0 in
      nth (i * 3 + j) (FemModule._computeElementMatrixTRIA3GPU m_node_coord cell) r0
      = (x * area)%real
      /\ at_ 3 (FemModule._computeElementMatrixTRIA3 m_node_coord cell) i j
         = ((r0 + x) * area)%real)
  /\ (forall (m_node_coord : nat -> Real3.t Q) (cell : Mesh.Cell) (i j : nat),
         ~ (FemModule._computeAreaTriangle3 m_node_coord cell == 0)%Q ->
         i < 3 -> j < 3 ->
         (nth (i * 3 + j)
              (FemModule2._computeElementMatrixTRIA3GPU m_node_coord cell (repeat r0 9)) r0
          == nth (i * 3 + j) (FemModule._computeElementMatrixTRIA3GPU m_node_coord cell) r0)%Q)
  /\ (let cell := Mesh.mkCell 0 1 2 in
      let area := fst (FemModule._computeCellMatrixGpuTRIA3 long_triangle_coord cell) in
      let b_matrix := snd (FemModule._computeCellMatrixGpuTRIA3 long_triangle_coord cell) in
      let x := fold_left (fun x k => (x + nth (2 * 2 + k) b_matrix r0
                                          * nth (2 * 2 + k) b_matrix r0)%real)
                         (seq 0 2) r0 in
      nth (2 * 3 + 2)
          (FemModule2._computeElementMatrixTRIA3GPU long_triangle_coord cell (repeat r0 9)) r0
      = 24.5%float
      /\ nth (2 * 3 + 2) (FemModule._computeElementMatrixTRIA3GPU long_triangle_coord cell) r0
         = 24.499999999999993%float
      /\ (x * area)%real = 24.499999999999993%float
      /\ nth (2 * 3 + 2)
             (FemModule2._computeElementMatrixTRIA3GPU long_triangle_coord cell (repeat r0 9)) r0
         <> nth (2 * 3 + 2) (FemModule._computeElementMatrixTRIA3GPU long_triangle_coord cell) r0).
Proof.
  split; [| split].
  - intros R ops m_node_coord cell i j Hi Hj.
    destruct i as [|[|[|i']]]; [| | | lia]; (destruct j as [|[|[|j']]]; [| | | lia]).
    all: split; reflexivity.
  - intros m_node_coord cell i j _ _ _. apply second_text_entries.
  - cbv zeta. repeat split; try (vm_compute; reflexivity).
    intros E.
    apply (f_equal (fun x => PrimFloat.ltb x 24.5%float)) in E.
    vm_compute in E. discriminate.
Qed.

Lemma X13_triangle_kernels_witness :
  (let area := fst (FemModule._computeCellMatrixGpuTRIA3 (R := float) Samples.right_triangle_coord
                                                         (Mesh.mkCell 0 1 2)) in
   let b_matrix := snd (FemModule._computeCellMatrixGpuTRIA3 (R := float)
                                                             Samples.right_triangle_coord
                                                             (Mesh.mkCell 0 1 2)) in
   let x := fold_left (fun x k => (x + nth (0 * 2 + k) b_matrix r0
                                       * nth (1 * 2 + k) b_matrix r0)%real)
                      (seq 0 2) r0 in
   nth (0 * 3 + 1) (FemModule._computeElementMatrixTRIA3GPU Samples.right_triangle_coord
                                                            (Mesh.mkCell 0 1 2)) r0
   = (x * area)%real
   /\ at_ 3 (FemModule._computeElementMatrixTRIA3 Samples.right_triangle_coord
                                                  (Mesh.mkCell 0 1 2)) 0 1
      = ((r0 + x) * area)%real)
  /\ (nth (0 * 3 + 1)
          (FemModule2._computeElementMatrixTRIA3GPU (R := Q) Samples.right_triangle_coord
                                                    (Mesh.mkCell 0 1 2) (repeat r0 9)) r0
      == nth (0 * 3 + 1) (FemModule._computeElementMatrixTRIA3GPU Samples.right_triangle_coord
                                                                  (Mesh.mkCell 0 1 2)) r0)%Q.
Proof.
  split.
  - apply (proj1 X13_triangle_kernels_agree float _ Samples.right_triangle_coord
                 (Mesh.mkCell 0 1 2) 0 1); lia.
  - apply (proj1 (proj2 X13_triangle_kernels_agree) Samples.right_triangle_coord
                 (Mesh.mkCell 0 1 2) 0 1); [| lia | lia].
    intros Harea. vm_compute in Harea. discriminate.
Defined.

(* ===================================================================== *)
(** * The coordinates of the COO builder                                  *)
(* ===================================================================== *)

Section CooBuilderFacts.
Import Mesh.

(** The coordinates [_buildMatrixGPU] hands to the store, in order. *)
Lemma _buildMatrixGPU_log (mesh : Mesh.t) (nodes : list nat) :
  forall log,
    foldM (fun node m =>
             do m <- FemModule.log_coordinates node node m ;;
             foldM (fun face m =>
                      if fnode0 face =? node
                      then FemModule.log_coordinates node (fnode1 face) m
                      else FemModule.log_coordinates node (fnode0 face) m)
                   (node_faces mesh node) m)
          nodes log
    = Ok (log ++ flat_map (coo_coordinates_of_node mesh) nodes).
Proof.
  induction nodes as [|node nodes IH]; intros log; simpl.
  - rewrite app_nil_r. reflexivity.
  - assert (Hfaces : forall faces log',
               foldM (fun face m =>
                        if fnode0 face =? node
                        then FemModule.log_coordinates node (fnode1 face) m
                        else FemModule.log_coordinates node (fnode0 face) m)
                     faces log'
               = Ok (log' ++ map (fun face => (node, other_endpoint node face)) faces)).
    { induction faces as [|face faces IHf]; intros log'; simpl.
      - rewrite app_nil_r. reflexivity.
      - unfold other_endpoint at 1.
        destruct (fnode0 face =? node); simpl; rewrite IHf, <- app_assoc; reflexivity. }
    rewrite Hfaces. simpl. rewrite IH. f_equal. rewrite <- !app_assoc. reflexivity.
Qed.

Lemma coo_coordinates_of_node_length (mesh : Mesh.t) (node : nat) :
  length (coo_coordinates_of_node mesh node) = reserved mesh node.
Proof.
  unfold coo_coordinates_of_node, reserved, node_nbFace. simpl. rewrite length_map. lia.
Qed.

Lemma coo_coordinates_total (mesh : Mesh.t) (k : nat) :
  length (flat_map (coo_coordinates_of_node mesh) (seq 0 k)) = sum_to (reserved mesh) k.
Proof.
  induction k as [|k IH]; [reflexivity |].
  rewrite flat_map_seq_S, length_app, IH, coo_coordinates_of_node_length. reflexivity.
Qed.

Lemma coo_coordinates_of_node_In (mesh : Mesh.t) (node i j : nat) :
  List.In (i, j) (coo_coordinates_of_node mesh node) <-> i = node /\ (j = node \/ joined mesh i j).
Proof.
  unfold coo_coordinates_of_node, joined, node_faces. split.
  - intros [E | Hin].
    + injection E as <- <-. auto.
    + apply in_map_iff in Hin as (face & E & Hface). injection E as <- <-.
      apply filter_In in Hface as [Hface Hhas]. split; [reflexivity |]. right.
      exists face. split; [exact Hface |]. unfold other_endpoint, face_has_node in *.
      destruct (Nat.eqb_spec (fnode0 face) node) as [E0 | E0]; [left; auto |].
      destruct (Nat.eqb_spec (fnode1 face) node) as [E1 | E1]; [right; auto | discriminate].
  - intros [-> [-> | (face & Hface & Hends)]]; [left; reflexivity |].
    right. apply in_map_iff. exists face. split.
    + unfold other_endpoint.
      destruct Hends as [[E0 E1] | [E0 E1]]; subst.
      * rewrite Nat.eqb_refl. reflexivity.
      * destruct (Nat.eqb_spec (fnode0 face) (fnode1 face)) as [E | E];
          [rewrite E; reflexivity | reflexivity].
    + apply filter_In. split; [exact Hface |]. unfold face_has_node.
      destruct Hends as [[E0 E1] | [E0 E1]]; subst; rewrite Nat.eqb_refl;
        [reflexivity | apply orb_true_r].
Qed.

Lemma joined_sym (mesh : Mesh.t) (i j : nat) : joined mesh i j -> joined mesh j i.
Proof. intros (face & Hface & Hends). exists face. split; [exact Hface | tauto]. Qed.

Lemma joined_in_mesh (mesh : Mesh.t) (i j : nat) :
  Mesh.valid mesh -> joined mesh i j -> i < nbNode mesh /\ j < nbNode mesh.
Proof.
  intros [Hfaces _ _] (face & Hface & Hends).
  rewrite List.Forall_forall in Hfaces. destruct (Hfaces face Hface) as (H0 & H1 & _).
  destruct Hends as [[<- <-] | [<- <-]]; auto.
Qed.
End CooBuilderFacts.

(** X14: on a valid mesh the COO builder [_buildMatrixGPU] inserts exactly
    [2 * nbFace + nbNode] coordinates, the capacity it initialises the
    store with; the coordinate [(i, j)] is inserted exactly when [i] is a
    node of the mesh and [j] is [i] or a node joined to [i] by a face; so
    the pattern is symmetric. *)
Theorem X14_coo_builder_inserts_symmetric_pattern :
  forall (mesh : Mesh.t),
    Mesh.valid mesh ->
    exists log,
      FemModule._buildMatrixGPU_with FemModule.log_coordinates mesh [] = Ok log
      /\ length log = Mesh.nbFace mesh * 2 + Mesh.nbNode mesh
      /\ (forall i j, List.In (i, j) log <-> i < Mesh.nbNode mesh /\ (j = i \/ joined mesh i j))
      /\ (forall i j, List.In (i, j) log -> List.In (j, i) log).
Proof.
  intros mesh Hvalid. eexists. split.
  { unfold FemModule._buildMatrixGPU_with. apply _buildMatrixGPU_log. }
  simpl.
  assert (Hin : forall i j,
             List.In (i, j) (flat_map (coo_coordinates_of_node mesh) (Mesh.allNodes mesh))
             <-> i < Mesh.nbNode mesh /\ (j = i \/ joined mesh i j)).
  { intros i j. rewrite in_flat_map. unfold Mesh.allNodes. split.
    - intros (node & Hnode & Hcoord). apply in_seq in Hnode.
      apply coo_coordinates_of_node_In in Hcoord as [-> Hj]. split; [lia | exact Hj].
    - intros [Hi Hj]. exists i. split; [apply in_seq; lia |].
      apply coo_coordinates_of_node_In. auto. }
  split; [| split].
  - unfold Mesh.allNodes. rewrite coo_coordinates_total. apply reserved_total, Hvalid.
  - exact Hin.
  - intros i j Hij. apply Hin in Hij as [Hi [-> | Hjoin]]; apply Hin.
    + auto.
    + split; [apply (joined_in_mesh mesh i j Hvalid Hjoin) |]. right. apply joined_sym, Hjoin.
Qed.

Lemma X14_coo_builder_witness :
  exists log,
    FemModule._buildMatrixGPU_with FemModule.log_coordinates Samples.two_triangles [] = Ok log
    /\ length log = Mesh.nbFace Samples.two_triangles * 2 + Mesh.nbNode Samples.two_triangles
    /\ (forall i j, List.In (i, j) log
                    <-> i < Mesh.nbNode Samples.two_triangles
                        /\ (j = i \/ joined Samples.two_triangles i j))
    /\ (forall i j, List.In (i, j) log -> List.In (j, i) log).
Proof. apply (X14_coo_builder_inserts_symmetric_pattern Samples.two_triangles two_triangles_valid). Defined.

(* ===================================================================== *)
(** * Fixed-size matrices                                                 *)
(* ===================================================================== *)

Section FixedMatrixFacts.
Context {R : Type} `{RealOps R}.

Lemma flat_map_rows_length {A} (g : nat -> list A) (N k : nat) :
  (forall j, length (g j) = N) -> length (flat_map g (seq 0 k)) = k * N.
Proof.
  intros Hg. induction k as [|k IH]; [reflexivity |].
  rewrite flat_map_seq_S, length_app, IH, Hg. lia.
Qed.

(** The entry [(j, i)] of a matrix stored row after row. *)
Lemma flat_map_rows_nth {A} (g : nat -> list A) (N M j i : nat) (d : A) :
  (forall j, length (g j) = N) ->
  j < M -> i < N ->
  nth (j * N + i) (flat_map g (seq 0 M)) d = nth i (g j) d.
Proof.
  intros Hg Hj Hi. induction M as [|M IH]; [lia |].
  rewrite flat_map_seq_S.
  pose proof (flat_map_rows_length g N M Hg) as Hlen.
  destruct (Nat.eq_dec j M) as [-> | Hne].
  - rewrite app_nth2 by nia. rewrite Hlen. f_equal. lia.
  - rewrite app_nth1 by nia. apply IH. lia.
Qed.

Lemma matrixTranspose_length (N M : nat) (a : FixedMatrix) :
  length (matrixTranspose N M a) = M * N.
Proof.
  unfold matrixTranspose. apply flat_map_rows_length. intros j.
  rewrite length_map, length_seq. reflexivity.
Qed.

Lemma matrixTranspose_at (N M : nat) (a : FixedMatrix) (i j : nat) :
  i < N -> j < M -> at_ N (matrixTranspose N M a) j i = at_ M a i j.
Proof.
  intros Hi Hj. unfold at_ at 1, matrixTranspose.
  rewrite (flat_map_rows_nth _ N M j i) by (try intros ?; rewrite ?length_map, ?length_seq; auto).
  rewrite (nth_indep _ r0 (at_ M a 0 j)) by (rewrite length_map, length_seq; exact Hi).
  rewrite (map_nth (fun i => at_ M a i j)), seq_nth by exact Hi. reflexivity.
Qed.

Lemma matrixTranspose_involutive (N M : nat) (a : FixedMatrix) :
  length a = N * M -> matrixTranspose M N (matrixTranspose N M a) = a.
Proof.
  intros Hlen. apply (nth_ext _ _ r0 r0).
  - rewrite matrixTranspose_length. lia.
  - intros n Hn. rewrite matrixTranspose_length in Hn.
    assert (HM : 0 < M) by nia.
    pose proof (Nat.div_mod_eq n M) as Hdiv.
    pose proof (Nat.mod_upper_bound n M ltac:(lia)) as Hmod.
    assert (Hquot : n / M < N) by (apply Nat.Div0.div_lt_upper_bound; lia).
    replace n with (n / M * M + n mod M) at 1 by lia.
    change (at_ M (matrixTranspose M N (matrixTranspose N M a)) (n / M) (n mod M) = nth n a r0).
    rewrite matrixTranspose_at by assumption.
    rewrite matrixTranspose_at by assumption.
    unfold at_. f_equal. lia.
Qed.

Lemma matrixMultiplication_at (N M : nat) (a b : FixedMatrix) (i j : nat) :
  i < N -> j < N ->
  at_ N (matrixMultiplication N M a b) i j
  = (r0 + fold_left (fun x k => (x + at_ M a i k * at_ N b k j)%real) (seq 0 M) r0)%real.
Proof.
  intros Hi Hj. unfold at_ at 1, matrixMultiplication.
  rewrite (flat_map_rows_nth _ N N i j) by (try intros ?; rewrite ?length_map, ?length_seq; auto).
  set (entry := fun j => (r0 + fold_left (fun x k => (x + at_ M a i k * at_ N b k j)%real)
                                         (seq 0 M) r0)%real).
  rewrite (nth_indep _ r0 (entry 0)) by (rewrite length_map, length_seq; exact Hj).
  change (nth j (map entry (seq 0 N)) (entry 0) = entry j).
  rewrite (map_nth entry), seq_nth by exact Hj. reflexivity.
Qed.
End FixedMatrixFacts.

(** X15: for a matrix of [N x M] values, [matrixTranspose] returns the
    [M x N] matrix whose entry [(j, i)] is the entry [(i, j)] of the
    argument, and transposing twice gives the matrix back; the entry
    [(i, j)] of [matrixMultiplication] of an [N x M] by an [M x N] matrix is
    zero plus the sum over [k], from zero and in increasing [k], of
    [a(i, k) * b(k, j)]. *)
Theorem X15_fixed_matrix_transpose_and_product :
  forall (R : Type) `{RealOps R} (N M : nat) (a b : FixedMatrix (R := R)),
    length a = N * M ->
    length (matrixTranspose N M a) = M * N
    /\ (forall i j, i < N -> j < M -> at_ N (matrixTranspose N M a) j i = at_ M a i j)
    /\ matrixTranspose M N (matrixTranspose N M a) = a
    /\ (forall i j, i < N -> j < N ->
          at_ N (matrixMultiplication N M a b) i j
          = (r0 + fold_left (fun x k => (x + at_ M a i k * at_ N b k j)%real) (seq 0 M) r0)%real).
Proof.
  intros R ops N M a b Hlen.
  split; [apply matrixTranspose_length |].
  split; [intros i j; apply matrixTranspose_at |].
  split; [apply matrixTranspose_involutive, Hlen |].
  intros i j. apply matrixMultiplication_at.
Qed.

Lemma X15_fixed_matrix_witness :
  length (matrixTranspose 2 3 [1; 2; 3; 4; 5; 6]%float) = 3 * 2
  /\ (forall i j, i < 2 -> j < 3 ->
        at_ 2 (matrixTranspose 2 3 [1; 2; 3; 4; 5; 6]%float) j i
        = at_ 3 [1; 2; 3; 4; 5; 6]%float i j)
  /\ matrixTranspose 3 2 (matrixTranspose 2 3 [1; 2; 3; 4; 5; 6]%float) = [1; 2; 3; 4; 5; 6]%float
  /\ (forall i j, i < 2 -> j < 2 ->
        at_ 2 (matrixMultiplication 2 3 [1; 2; 3; 4; 5; 6]%float [1; 0; 0; 1; 1; 1]%float) i j
        = (r0 + fold_left (fun x k => (x + at_ 3 [1; 2; 3; 4; 5; 6]%float i k
                                           * at_ 2 [1; 0; 0; 1; 1; 1]%float k j)%real)
                          (seq 0 3) r0)%real).
Proof.
  apply (X15_fixed_matrix_transpose_and_product float 2 3).
  reflexivity.
Defined.

(* ===================================================================== *)
(** * The dense linear system                                             *)
(* ===================================================================== *)

Section DenseSystemFacts.
Context {R : Type} `{RealOps R}.
Import SequentialNodeLinearSystemImpl.

Lemma dense_index_inj (n row column r c : nat) :
  row < n -> column < n -> r < n -> c < n ->
  row * n + column = r * n + c -> row = r /\ column = c.
Proof.
  intros Hrow Hcol Hr Hc E.
  destruct (Nat.lt_trichotomy row r) as [Hlt | [-> | Hgt]]; [nia | lia | nia].
Qed.

Lemma dense_build_wf (n : nat) : dense_wf (build (R := R) n).
Proof. unfold dense_wf, build. simpl. apply length_replicate. Qed.

Lemma dense_build_get (n row column : nat) :
  row < n -> column < n -> get (build n) row column = Ok r0.
Proof.
  intros Hrow Hcol.
  destruct (dense_get_in_range (build n) row column (dense_build_wf n) Hrow Hcol)
    as (old & Hold & ->).
  simpl in Hold. apply lookup_replicate in Hold as [-> _]. reflexivity.
Qed.

Lemma dense_matrixAddValue_in_range (m : t R) (row column : nat) (value : R) :
  dense_wf m -> row < nb_node m -> column < nb_node m ->
  exists old m',
    get m row column = Ok old
    /\ matrixAddValue row column value m = Ok m'
    /\ dense_wf m'
    /\ nb_node m' = nb_node m
    /\ get m' row column = Ok (old + value)%real
    /\ forall r c, (r, c) <> (row, column) -> get m' r c = get m r c.
Proof.
  intros Hwf Hrow Hcol.
  destruct (dense_get_in_range m row column Hwf Hrow Hcol) as (old & _ & Hold).
  assert (Hidx : row * nb_node m + column < length (m_k_matrix m)).
  { rewrite Hwf. apply dense_index_in_range; assumption. }
  exists old. unfold matrixAddValue. rewrite Hold. cbn [bind]. unfold set.
  destruct (Nat.ltb_spec row (nb_node m)), (Nat.ltb_spec column (nb_node m)); try lia.
  cbn [andb]. rewrite na_set_in_range by exact Hidx. cbn [bind].
  eexists. split; [reflexivity |]. split; [reflexivity |].
  unfold dense_wf, get. cbn [nb_node m_k_matrix]. rewrite length_insert.
  split; [exact Hwf |]. split; [reflexivity |]. split.
  - destruct (Nat.ltb_spec row (nb_node m)), (Nat.ltb_spec column (nb_node m)); try lia.
    cbn [andb]. apply na_get_lookup, list_lookup_insert_eq, Hidx.
  - intros r c Hne.
    destruct (Nat.ltb_spec r (nb_node m)), (Nat.ltb_spec c (nb_node m)); try reflexivity.
    cbn [andb]. unfold na_get. rewrite list_lookup_insert_ne; [reflexivity |].
    intros E. apply dense_index_inj in E as [-> ->]; try assumption. congruence.
Qed.

Lemma dense_matrixAddValue_out_of_range (m : t R) (row column : nat) (value : R) :
  nb_node m <= row \/ nb_node m <= column ->
  matrixAddValue row column value m = Throw ArrayIndexOutOfBounds.
Proof.
  intros Hout. unfold matrixAddValue, get.
  destruct (Nat.ltb_spec row (nb_node m)), (Nat.ltb_spec column (nb_node m));
    try reflexivity; lia.
Qed.
End DenseSystemFacts.

Section SetRhsFacts.
Context {R : Type} `{RealOps R}.
Import SequentialNodeLinearSystemRhs.

Lemma setRHSValues_loop (values : list R) (nodes : list nat) :
  forall (rhs : list R) (index : nat),
    List.NoDup nodes ->
    Forall (fun node => node < length rhs) nodes ->
    index + length nodes <= length values ->
    exists rhs',
      foldM (fun node_id '(m_rhs_vector, index) =>
               do v <- na_get values index ;;
               do m_rhs_vector <- na_set m_rhs_vector node_id v ;;
               Ok (m_rhs_vector, index + 1))
            nodes (rhs, index) = Ok (rhs', index + length nodes)
      /\ length rhs' = length rhs
      /\ (forall k node, nodes !! k = Some node -> rhs' !! node = values !! (index + k))
      /\ (forall node, ~ List.In node nodes -> rhs' !! node = rhs !! node).
Proof.
  induction nodes as [|a nodes IH]; intros rhs index Hnodup Hrange Hlen.
  - exists rhs. simpl. rewrite Nat.add_0_r. repeat split; try reflexivity.
    intros k node Hk. discriminate.
  - apply List.NoDup_cons_iff in Hnodup as [Ha Hnodup].
    apply Forall_cons in Hrange as [Harange Hrange]. simpl in Hlen.
    destruct (na_get_in_range values index ltac:(lia)) as (v & Hv & Hget).
    cbn [foldM]. rewrite Hget. cbn [bind]. rewrite na_set_in_range by exact Harange. cbn [bind].
    destruct (IH (<[a := v]> rhs) (index + 1) Hnodup) as (rhs' & Hrun & Hlen' & Hown & Hother).
    { rewrite length_insert. exact Hrange. }
    { lia. }
    exists rhs'. rewrite Hrun. split; [do 2 f_equal; simpl; lia |].
    rewrite length_insert in Hlen'. split; [exact Hlen' |]. split.
    + intros k node Hk. destruct k as [|k].
      * injection Hk as <-. rewrite Hother by exact Ha.
        rewrite list_lookup_insert_eq by exact Harange. rewrite Nat.add_0_r. symmetry. exact Hv.
      * rewrite (Hown k node Hk). f_equal. lia.
    + intros node Hnot. rewrite Hother by (intros Hin; apply Hnot; right; exact Hin).
      apply list_lookup_insert_ne. intros ->. apply Hnot. left. reflexivity.
Qed.

Lemma setRHSValues_loop_short (values : list R) (nodes : list nat) :
  forall (rhs : list R) (index : nat),
    Forall (fun node => node < length rhs) nodes ->
    index <= length values ->
    length values < index + length nodes ->
    foldM (fun node_id '(m_rhs_vector, index) =>
             do v <- na_get values index ;;
             do m_rhs_vector <- na_set m_rhs_vector node_id v ;;
             Ok (m_rhs_vector, index + 1))
          nodes (rhs, index) = Throw ArrayIndexOutOfBounds.
Proof.
  induction nodes as [|a nodes IH]; intros rhs index Hrange Hle Hlen; simpl in Hlen; [lia |].
  apply Forall_cons in Hrange as [Harange Hrange]. cbn [foldM].
  destruct (Nat.lt_ge_cases index (length values)) as [Hidx | Hidx].
  - destruct (na_get_in_range values index Hidx) as (v & _ & ->). cbn [bind].
    rewrite na_set_in_range by exact Harange. cbn [bind].
    apply IH; [rewrite length_insert; exact Hrange | lia | lia].
  - unfold na_get. rewrite lookup_ge_None_2 by exact Hidx. reflexivity.
Qed.
End SetRhsFacts.

(** X16: [matrixAddValue] on the dense matrix of
    [SequentialNodeLinearSystemImpl]: for a row and a column inside the
    extents it returns, the entry reads back as its former value plus the
    value added and every other entry is unchanged; outside the extents it
    is an access outside the array. After [build] every entry is zero. *)
Theorem X16_dense_matrixAddValue_accumulates :
  forall (R : Type) `{RealOps R} (m : SequentialNodeLinearSystemImpl.t R)
         (row column : nat) (value : R),
    dense_wf m ->
    (row < SequentialNodeLinearSystemImpl.nb_node m ->
     column < SequentialNodeLinearSystemImpl.nb_node m ->
     exists old m',
       SequentialNodeLinearSystemImpl.get m row column = Ok old
       /\ SequentialNodeLinearSystemImpl.matrixAddValue row column value m = Ok m'
       /\ dense_wf m'
       /\ SequentialNodeLinearSystemImpl.nb_node m' = SequentialNodeLinearSystemImpl.nb_node m
       /\ SequentialNodeLinearSystemImpl.get m' row column = Ok (old + value)%real
       /\ forall r c, (r, c) <> (row, column) ->
                      SequentialNodeLinearSystemImpl.get m' r c
                      = SequentialNodeLinearSystemImpl.get m r c)
    /\ (SequentialNodeLinearSystemImpl.nb_node m <= row
        \/ SequentialNodeLinearSystemImpl.nb_node m <= column ->
        SequentialNodeLinearSystemImpl.matrixAddValue row column value m
        = Throw ArrayIndexOutOfBounds)
    /\ (forall n r c, r < n -> c < n ->
          dense_wf (SequentialNodeLinearSystemImpl.build (R := R) n)
          /\ SequentialNodeLinearSystemImpl.get (SequentialNodeLinearSystemImpl.build n) r c
             = Ok r0).
Proof.
  intros R ops m row column value Hwf. split; [| split].
  - apply dense_matrixAddValue_in_range, Hwf.
  - apply dense_matrixAddValue_out_of_range.
  - intros n r c Hr Hc. split; [apply dense_build_wf | apply dense_build_get; assumption].
Qed.

Lemma X16_dense_matrixAddValue_witness :
  exists old m',
    SequentialNodeLinearSystemImpl.get PenaltySample.assembled 1 2 = Ok old
    /\ SequentialNodeLinearSystemImpl.matrixAddValue 1 2 7%float PenaltySample.assembled = Ok m'
    /\ dense_wf m'
    /\ SequentialNodeLinearSystemImpl.nb_node m'
       = SequentialNodeLinearSystemImpl.nb_node PenaltySample.assembled
    /\ SequentialNodeLinearSystemImpl.get m' 1 2 = Ok (old + 7%float)%real
    /\ forall r c, (r, c) <> (1, 2) ->
                   SequentialNodeLinearSystemImpl.get m' r c
                   = SequentialNodeLinearSystemImpl.get PenaltySample.assembled r c.
Proof.
  apply (proj1 (X16_dense_matrixAddValue_accumulates float PenaltySample.assembled 1 2 7%float
                                                     eq_refl)).
  - simpl. lia.
  - simpl. lia.
Defined.

(** X17: [setRHSValues] of [SequentialNodeLinearSystemImpl] hands the
    values of the span to the own nodes in their order: when the span has
    at least one value per own node, the entry of the [k]-th own node
    becomes the [k]-th value and the entries of the other nodes are
    unchanged; when the span is shorter, the call reads past its end. *)
Theorem X17_setRHSValues_follows_own_nodes :
  forall (R : Type) `{RealOps R} (mesh : Mesh.t) (values m_rhs_vector : list R),
    length m_rhs_vector = Mesh.nbNode mesh ->
    (length (Mesh.ownNodes mesh) <= length values ->
     exists rhs',
       SequentialNodeLinearSystemRhs.setRHSValues (Mesh.ownNodes mesh) values m_rhs_vector
       = Ok rhs'
       /\ length rhs' = Mesh.nbNode mesh
       /\ (forall k node, Mesh.ownNodes mesh !! k = Some node -> rhs' !! node = values !! k)
       /\ (forall node, Mesh.isOwn mesh node = false -> rhs' !! node = m_rhs_vector !! node))
    /\ (length values < length (Mesh.ownNodes mesh) ->
        SequentialNodeLinearSystemRhs.setRHSValues (Mesh.ownNodes mesh) values m_rhs_vector
        = Throw ArrayIndexOutOfBounds).
Proof.
  intros R ops mesh values rhs Hlen.
  assert (Hrange : Forall (fun node => node < length rhs) (Mesh.ownNodes mesh)).
  { rewrite Hlen. apply ownNodes_range. }
  unfold SequentialNodeLinearSystemRhs.setRHSValues. split; intros Hvalues.
  - destruct (setRHSValues_loop values (Mesh.ownNodes mesh) rhs 0 (ownNodes_NoDup mesh) Hrange
                                ltac:(simpl; lia))
      as (rhs' & -> & Hlen' & Hown & Hother).
    cbn [bind]. exists rhs'. split; [reflexivity |]. split; [lia |]. split.
    + intros k node Hk. apply (Hown k node Hk).
    + intros node Hghost. apply Hother. intros Hin. apply ownNodes_In in Hin as [_ Hown'].
      congruence.
  - rewrite setRHSValues_loop_short by (try exact Hrange; simpl; lia). reflexivity.
Qed.

Lemma X17_setRHSValues_witness :
  exists rhs',
    SequentialNodeLinearSystemRhs.setRHSValues
      (Mesh.ownNodes Samples.two_triangles_ghost) [5; 6; 7]%float [0; 0; 0; 9]%float
    = Ok rhs'
    /\ length rhs' = Mesh.nbNode Samples.two_triangles_ghost
    /\ (forall k node, Mesh.ownNodes Samples.two_triangles_ghost !! k = Some node ->
                       rhs' !! node = [5; 6; 7]%float !! k)
    /\ (forall node, Mesh.isOwn Samples.two_triangles_ghost node = false ->
                     rhs' !! node = [0; 0; 0; 9]%float !! node).
Proof.
  apply (proj1 (X17_setRHSValues_follows_own_nodes
                  float Samples.two_triangles_ghost [5; 6; 7]%float [0; 0; 0; 9]%float eq_refl)).
  simpl. lia.
Defined.

(* ===================================================================== *)
(** * The global rows of the Hypre back end                               *)
(* ===================================================================== *)

Section NumberingFacts.

Lemma own_first_index_loop (counts : list nat) (k : nat) :
  k <= length counts ->
  foldM (fun i own_first_index =>
           do n <- na_get counts i ;;
           Ok (own_first_index + n))
        (seq 0 k) 0
  = Ok (list_sum (take k counts)).
Proof.
  induction k as [|k IH]; intros Hk; [rewrite take_0; reflexivity |].
  rewrite seq_S, foldM_app, IH by lia. cbn [bind foldM Nat.add].
  destruct (na_get_in_range counts k ltac:(lia)) as (n & Hn & ->). cbn [bind].
  rewrite (take_S_r counts k n Hn), list_sum_app. simpl. do 2 f_equal. lia.
Qed.

Lemma numbering_loop (first : nat) (dofs : list nat) :
  forall (a : nat) (numbering : nat -> Z),
    List.NoDup dofs ->
    let numbering' :=
      fold_left (fun numbering '(index, dof) =>
                   fun d => if d =? dof then Z.of_nat (first + index) else numbering d)
                (combine (seq a (length dofs)) dofs) numbering in
    (forall k dof, dofs !! k = Some dof -> numbering' dof = Z.of_nat (first + (a + k)))
    /\ (forall dof, ~ List.In dof dofs -> numbering' dof = numbering dof).
Proof.
  induction dofs as [|d dofs IH]; intros a numbering Hnodup; cbn zeta.
  - split; [intros k dof Hk; discriminate | reflexivity].
  - apply List.NoDup_cons_iff in Hnodup as [Hd Hnodup].
    cbn [length seq combine fold_left].
    destruct (IH (S a) (fun d' => if d' =? d then Z.of_nat (first + a) else numbering d') Hnodup)
      as [Hown Hother].
    cbn zeta in Hown, Hother. split.
    + intros k dof Hk. destruct k as [|k].
      * injection Hk as <-. rewrite Hother by exact Hd. rewrite Nat.eqb_refl. do 2 f_equal. lia.
      * rewrite (Hown k dof Hk). do 2 f_equal. lia.
    + intros dof Hnot. rewrite Hother by (intros Hin; apply Hnot; right; exact Hin).
      destruct (Nat.eqb_spec dof d) as [-> | Hne]; [| reflexivity].
      exfalso. apply Hnot. left. reflexivity.
Qed.
End NumberingFacts.

(** X18: [_computeMatrixNumerotation] in a parallel run, when [allGather]
    has returned the number of own rows of every rank and the rows of
    the ranks up to this one number at most [2^31 - 1] (the sums are
    [Int32]): the first global row of a rank is the number of own rows of
    the ranks before it, so the row ranges [first_row, last_row] of
    consecutive ranks follow one another without gap or overlap; the
    [k]-th own DoF receives the row [first_row + k], inside the range of
    its rank and within [Int32]; the numbers of the other DoFs are not
    written. In a sequential run the first row is 0. *)
Theorem X18_hypre_row_ranges_tile :
  forall (R : Type) (parallel_rows_index : list nat) (my_rank : nat) (own_dofs : list nat)
         (m_dof_matrix_numbering : nat -> Z) (m : HypreDoFLinearSystemImpl.t R),
    parallel_rows_index !! my_rank = Some (length own_dofs) ->
    (Z.of_nat (list_sum (take (S my_rank) parallel_rows_index)) <= 2147483647)%Z ->
    List.NoDup own_dofs ->
    (exists m' numbering,
        HypreDoFLinearSystemImpl._computeMatrixNumerotation
          true parallel_rows_index my_rank own_dofs m_dof_matrix_numbering m = Ok (m', numbering)
        /\ HypreDoFLinearSystemImpl.m_first_own_row m'
           = Z.of_nat (list_sum (take my_rank parallel_rows_index))
        /\ HypreDoFLinearSystemImpl.m_nb_own_row m' = Z.of_nat (length own_dofs)
        /\ (HypreDoFLinearSystemImpl.m_first_own_row m'
            + HypreDoFLinearSystemImpl.m_nb_own_row m' - 1 + 1
            = Z.of_nat (list_sum (take (S my_rank) parallel_rows_index)))%Z
        /\ (forall k dof, own_dofs !! k = Some dof ->
              numbering dof = (HypreDoFLinearSystemImpl.m_first_own_row m' + Z.of_nat k)%Z
              /\ (HypreDoFLinearSystemImpl.m_first_own_row m' <= numbering dof
                  <= HypreDoFLinearSystemImpl.m_first_own_row m'
                     + HypreDoFLinearSystemImpl.m_nb_own_row m' - 1)%Z
              /\ (numbering dof <= 2147483647)%Z)
        /\ (forall dof, ~ List.In dof own_dofs -> numbering dof = m_dof_matrix_numbering dof))
    /\ (exists m' numbering,
           HypreDoFLinearSystemImpl._computeMatrixNumerotation
             false parallel_rows_index my_rank own_dofs m_dof_matrix_numbering m
           = Ok (m', numbering)
           /\ HypreDoFLinearSystemImpl.m_first_own_row m' = 0%Z
           /\ forall k dof, own_dofs !! k = Some dof -> numbering dof = Z.of_nat k).
Proof.
  intros R counts my_rank own_dofs numbering m Hcount Hbound Hnodup.
  assert (Hsum : list_sum (take (S my_rank) counts)
                 = list_sum (take my_rank counts) + length own_dofs).
  { rewrite (take_S_r counts my_rank _ Hcount), list_sum_app. simpl. lia. }
  assert (Hrank : my_rank < length counts) by (apply lookup_lt_is_Some_1; eauto).
  unfold HypreDoFLinearSystemImpl._computeMatrixNumerotation, Mesh.indexed. cbv zeta. split.
  - rewrite own_first_index_loop by lia. cbn [bind].
    destruct (numbering_loop (list_sum (take my_rank counts)) own_dofs 0 numbering Hnodup)
      as [Hown Hother].
    cbn zeta in Hown, Hother.
    eexists _, _. split; [reflexivity |]. cbn [HypreDoFLinearSystemImpl.m_first_own_row
                                                 HypreDoFLinearSystemImpl.m_nb_own_row].
    split; [reflexivity |]. split; [reflexivity |]. split.
    { rewrite Hsum. lia. }
    split; [| exact Hother].
    intros k dof Hk. rewrite (Hown k dof Hk).
    assert (k < length own_dofs) by (apply lookup_lt_is_Some_1; eauto). lia.
  - cbn [bind].
    destruct (numbering_loop 0 own_dofs 0 numbering Hnodup) as [Hown _]. cbn zeta in Hown.
    eexists _, _. split; [reflexivity |]. split; [reflexivity |].
    intros k dof Hk. rewrite (Hown k dof Hk). reflexivity.
Qed.

Lemma X18_hypre_row_ranges_witness :
  exists m' numbering,
    HypreDoFLinearSystemImpl._computeMatrixNumerotation
      true [3; 2; 4] 1 [0; 2] (fun _ => (-7)%Z) (HypreDoFLinearSystemImpl.create (R := float))
    = Ok (m', numbering)
    /\ HypreDoFLinearSystemImpl.m_first_own_row m' = Z.of_nat (list_sum (take 1 [3; 2; 4]))
    /\ HypreDoFLinearSystemImpl.m_nb_own_row m' = Z.of_nat (length [0; 2])
    /\ (HypreDoFLinearSystemImpl.m_first_own_row m'
        + HypreDoFLinearSystemImpl.m_nb_own_row m' - 1 + 1
        = Z.of_nat (list_sum (take 2 [3; 2; 4]%nat)))%Z
    /\ (forall k dof, [0; 2] !! k = Some dof ->
          numbering dof = (HypreDoFLinearSystemImpl.m_first_own_row m' + Z.of_nat k)%Z
          /\ (HypreDoFLinearSystemImpl.m_first_own_row m' <= numbering dof
              <= HypreDoFLinearSystemImpl.m_first_own_row m'
                 + HypreDoFLinearSystemImpl.m_nb_own_row m' - 1)%Z
          /\ (numbering dof <= 2147483647)%Z)
    /\ (forall dof, ~ List.In dof [0; 2] -> numbering dof = (-7)%Z).
Proof.
  apply (proj1 (X18_hypre_row_ranges_tile
                  float [3; 2; 4] 1 [0; 2] (fun _ => (-7)%Z) HypreDoFLinearSystemImpl.create
                  eq_refl ltac:(vm_compute; discriminate)
                  ltac:(repeat constructor; simpl; intuition lia))).
Defined.

(* ===================================================================== *)
(** * Dirichlet conditions of the options                                 *)
(* ===================================================================== *)

Section DirichletConditionFacts.
Context {R : Type}.
Implicit Types (st : (nat -> R) * (nat -> bool)) (c : list nat * R).

Lemma fold_left_flat_map {A B S} (f : S -> B -> S) (g : A -> list B) (l : list A) :
  forall s, fold_left (fun s a => fold_left f (g a) s) l s = fold_left f (flat_map g l) s.
Proof.
  induction l as [|a l IH]; intros s; simpl; [reflexivity |].
  rewrite fold_left_app. apply IH.
Qed.

Lemma fold_left_pointwise {A S} (f g : S -> A -> S) (l : list A) :
  (forall s a, f s a = g s a) -> forall s, fold_left f l s = fold_left g l s.
Proof.
  intros Hfg. induction l as [|a l IH]; intros s; simpl; [reflexivity |].
  rewrite Hfg. apply IH.
Qed.

Lemma fold_left_map {A B S} (f : S -> B -> S) (g : A -> B) (l : list A) :
  forall s, fold_left (fun s a => f s (g a)) l s = fold_left f (map g l) s.
Proof. induction l as [|a l IH]; intros s; simpl; [reflexivity | apply IH]. Qed.

Lemma prescribe_fold (v : R) (nodes : list nat) :
  forall st n,
    fst (fold_left (FemModule.prescribe v) nodes st) n
    = (if existsb (Nat.eqb n) nodes then v else fst st n)
    /\ snd (fold_left (FemModule.prescribe v) nodes st) n
       = existsb (Nat.eqb n) nodes || snd st n.
Proof.
  induction nodes as [|a nodes IH]; intros st n; simpl; [auto |].
  destruct (IH (FemModule.prescribe v st a) n) as [-> ->]. simpl.
  destruct (Nat.eqb_spec n a), (existsb (Nat.eqb n) nodes); auto.
Qed.

Lemma prescribed_flag (conds : list (list nat * R)) :
  forall st n,
    snd (fold_left (fun st c => prescribed c st) conds st) n
    = existsb (visits n) conds || snd st n.
Proof.
  induction conds as [|c conds IH]; intros st n; simpl; [reflexivity |].
  rewrite IH.
  change (snd (prescribed c st) n)
    with (snd (fold_left (FemModule.prescribe (snd c)) (fst c) st) n).
  rewrite (proj2 (prescribe_fold (snd c) (fst c) st n)).
  change (visits n c) with (existsb (Nat.eqb n) (fst c)).
  destruct (existsb (Nat.eqb n) (fst c)), (existsb (visits n) conds); reflexivity.
Qed.

Lemma prescribed_untouched (conds : list (list nat * R)) :
  forall st n,
    existsb (visits n) conds = false ->
    fst (fold_left (fun st c => prescribed c st) conds st) n = fst st n.
Proof.
  induction conds as [|c conds IH]; intros st n Hnot; simpl in *; [reflexivity |].
  apply orb_false_iff in Hnot as [Hc Hrest]. rewrite IH by exact Hrest.
  change (fst (prescribed c st) n)
    with (fst (fold_left (FemModule.prescribe (snd c)) (fst c) st) n).
  rewrite (proj1 (prescribe_fold (snd c) (fst c) st n)).
  unfold visits in Hc. rewrite Hc. reflexivity.
Qed.

(** The last condition that visits a node gives it its value. *)
Lemma prescribed_last (before after : list (list nat * R)) c :
  forall st n,
    visits n c = true ->
    existsb (visits n) after = false ->
    fst (fold_left (fun st c => prescribed c st) (before ++ c :: after) st) n = snd c.
Proof.
  intros st n Hc Hafter. rewrite fold_left_app. simpl.
  rewrite prescribed_untouched by exact Hafter.
  match goal with
  | |- fst (prescribed c ?s) n = _ =>
      change (fst (prescribed c s) n)
        with (fst (fold_left (FemModule.prescribe (snd c)) (fst c) s) n);
      rewrite (proj1 (prescribe_fold (snd c) (fst c) s n))
  end.
  unfold visits in Hc. rewrite Hc. reflexivity.
Qed.

Lemma visits_In (n : nat) c : visits n c = true <-> List.In n (fst c).
Proof.
  unfold visits. rewrite existsb_exists. split.
  - intros (x & Hx & E). apply Nat.eqb_eq in E. subst. exact Hx.
  - intros Hin. exists n. split; [exact Hin | apply Nat.eqb_refl].
Qed.

Lemma surface_nodes_In (n : nat) (faces : list Mesh.Face) :
  List.In n (surface_nodes faces) <-> on_surface n faces.
Proof.
  unfold surface_nodes, on_surface. rewrite in_flat_map. split.
  - intros (face & Hface & [E | [E | []]]); exists face; auto.
  - intros (face & Hface & [E | E]); exists face; simpl; auto.
Qed.

Lemma existsb_visits_false (n : nat) (conds : list (list nat * R)) :
  existsb (visits n) conds = false <-> forall c, List.In c conds -> ~ List.In n (fst c).
Proof.
  split.
  - intros Hnot c Hc Hin. apply visits_In in Hin.
    assert (existsb (visits n) conds = true) by (apply existsb_exists; eauto). congruence.
  - intros Hnone. destruct (existsb (visits n) conds) eqn:E; [| reflexivity].
    apply existsb_exists in E as (c & Hc & Hvisit). apply visits_In in Hvisit.
    exfalso. exact (Hnone c Hc Hvisit).
Qed.

(** [_applyDirichletBoundaryConditions] is the sequence of the boundary
    conditions followed by the point conditions. *)
Lemma _applyDirichletBoundaryConditions_prescribed
      (bcs : list FemModule.DirichletBoundaryCondition)
      (pcs : list FemModule.DirichletPointCondition) (m_u : nat -> R) (m_u_dirichlet : nat -> bool) :
  FemModule._applyDirichletBoundaryConditions bcs pcs m_u m_u_dirichlet
  = fold_left (fun st c => prescribed c st)
              (map (fun bs => (surface_nodes (FemModule.dirichlet_surface bs),
                               FemModule.dirichlet_value bs)) bcs
               ++ map (fun bs => (FemModule.dirichlet_node bs,
                                  FemModule.dirichlet_point_value bs)) pcs)
              (m_u, m_u_dirichlet).
Proof.
  unfold FemModule._applyDirichletBoundaryConditions. cbv zeta.
  rewrite fold_left_app, <- !fold_left_map.
  rewrite (fold_left_pointwise
             (fun st bs => prescribed (surface_nodes (FemModule.dirichlet_surface bs),
                                       FemModule.dirichlet_value bs) st)
             (fun st bs =>
                fold_left (fun st iface =>
                             fold_left (FemModule.prescribe (FemModule.dirichlet_value bs))
                                       [Mesh.fnode0 iface; Mesh.fnode1 iface] st)
                          (FemModule.dirichlet_surface bs) st)).
  - reflexivity.
  - intros st bs. unfold prescribed, surface_nodes. cbn [fst snd]. symmetry.
    apply (fold_left_flat_map (FemModule.prescribe (FemModule.dirichlet_value bs))
                              (fun face => [Mesh.fnode0 face; Mesh.fnode1 face])).
Qed.
End DirichletConditionFacts.

(** X19: [_applyDirichletBoundaryConditions] marks exactly the nodes
    that were marked, the nodes of the faces of the boundary conditions
    and the nodes of the point conditions. The value of a marked node is
    that of the last condition that holds it: the last point condition
    whose group holds the node, otherwise the last boundary condition
    with a face on the node. A node that no condition holds keeps its
    value and its mark. *)
Theorem X19_dirichlet_conditions_last_writer :
  forall (R : Type) (bcs : list (FemModule.DirichletBoundaryCondition (R := R)))
         (pcs : list (FemModule.DirichletPointCondition (R := R)))
         (m_u : nat -> R) (m_u_dirichlet : nat -> bool),
    let m_u' := fst (FemModule._applyDirichletBoundaryConditions bcs pcs m_u m_u_dirichlet) in
    let marked := snd (FemModule._applyDirichletBoundaryConditions bcs pcs m_u m_u_dirichlet) in
    (forall node,
        marked node = true
        <-> m_u_dirichlet node = true
            \/ (exists bs, List.In bs bcs /\ on_surface node (FemModule.dirichlet_surface bs))
            \/ (exists p, List.In p pcs /\ List.In node (FemModule.dirichlet_node p)))
    /\ (forall before p after node,
          pcs = before ++ p :: after ->
          List.In node (FemModule.dirichlet_node p) ->
          (forall q, List.In q after -> ~ List.In node (FemModule.dirichlet_node q)) ->
          m_u' node = FemModule.dirichlet_point_value p)
    /\ (forall before bs after node,
          bcs = before ++ bs :: after ->
          on_surface node (FemModule.dirichlet_surface bs) ->
          (forall bs', List.In bs' after -> ~ on_surface node (FemModule.dirichlet_surface bs')) ->
          (forall p, List.In p pcs -> ~ List.In node (FemModule.dirichlet_node p)) ->
          m_u' node = FemModule.dirichlet_value bs)
    /\ (forall node,
          (forall bs, List.In bs bcs -> ~ on_surface node (FemModule.dirichlet_surface bs)) ->
          (forall p, List.In p pcs -> ~ List.In node (FemModule.dirichlet_node p)) ->
          m_u' node = m_u node /\ marked node = m_u_dirichlet node).
Proof.
  intros R bcs pcs m_u m_u_dirichlet. cbv zeta.
  rewrite _applyDirichletBoundaryConditions_prescribed.
  set (sc := fun bs : FemModule.DirichletBoundaryCondition =>
               (surface_nodes (FemModule.dirichlet_surface bs), FemModule.dirichlet_value bs)).
  set (pc := fun bs : FemModule.DirichletPointCondition =>
               (FemModule.dirichlet_node bs, FemModule.dirichlet_point_value bs)).
  assert (Hsurf : forall node (l : list FemModule.DirichletBoundaryCondition),
             existsb (visits node) (map sc l) = false
             <-> forall bs, List.In bs l -> ~ on_surface node (FemModule.dirichlet_surface bs)).
  { intros node l. rewrite existsb_visits_false. split.
    - intros Hnone bs Hbs Hon. apply (Hnone (sc bs)); [apply in_map, Hbs |].
      apply surface_nodes_In, Hon.
    - intros Hnone c Hc Hin. apply in_map_iff in Hc as (bs & <- & Hbs).
      apply (Hnone bs Hbs). apply surface_nodes_In, Hin. }
  assert (Hpoint : forall node (l : list FemModule.DirichletPointCondition),
             existsb (visits node) (map pc l) = false
             <-> forall p, List.In p l -> ~ List.In node (FemModule.dirichlet_node p)).
  { intros node l. rewrite existsb_visits_false. split.
    - intros Hnone p Hp Hin. apply (Hnone (pc p)); [apply in_map, Hp | exact Hin].
    - intros Hnone c Hc Hin. apply in_map_iff in Hc as (p & <- & Hp). exact (Hnone p Hp Hin). }
  split; [| split; [| split]].
  - intros node. rewrite prescribed_flag, existsb_app. cbn [snd].
    destruct (existsb (visits node) (map sc bcs)) eqn:Es;
      [| destruct (existsb (visits node) (map pc pcs)) eqn:Ep].
    + split; [intros _ | reflexivity]. right. left.
      apply existsb_exists in Es as (c & Hc & Hvisit).
      apply in_map_iff in Hc as (bs & <- & Hbs). exists bs. split; [exact Hbs |].
      apply visits_In in Hvisit. apply surface_nodes_In. exact Hvisit.
    + split; [intros _ | reflexivity]. right. right.
      apply existsb_exists in Ep as (c & Hc & Hvisit).
      apply in_map_iff in Hc as (p & <- & Hp). exists p. split; [exact Hp |].
      apply visits_In in Hvisit. exact Hvisit.
    + cbn [orb]. split; [auto |]. intros [Hm | [(bs & Hbs & Hon) | (p & Hp & Hin)]].
      * exact Hm.
      * exfalso. exact (proj1 (Hsurf node bcs) Es bs Hbs Hon).
      * exfalso. exact (proj1 (Hpoint node pcs) Ep p Hp Hin).
  - intros before p after node -> Hin Hafter.
    rewrite map_app. cbn [map]. rewrite app_assoc.
    rewrite (prescribed_last _ (map pc after) (pc p)); [reflexivity | |].
    + apply visits_In. exact Hin.
    + apply Hpoint, Hafter.
  - intros before bs after node -> Hon Hafter Hpoints.
    rewrite map_app. cbn [map]. rewrite <- app_assoc. cbn [app].
    rewrite (prescribed_last _ (map sc after ++ map pc pcs) (sc bs)); [reflexivity | |].
    + apply visits_In. unfold sc. cbn [fst]. apply surface_nodes_In, Hon.
    + rewrite existsb_app, (proj2 (Hsurf node after) Hafter), (proj2 (Hpoint node pcs) Hpoints).
      reflexivity.
  - intros node Hsurfaces Hpoints.
    assert (Hnone : existsb (visits node) (map sc bcs ++ map pc pcs) = false).
    { rewrite existsb_app, (proj2 (Hsurf node bcs) Hsurfaces),
        (proj2 (Hpoint node pcs) Hpoints). reflexivity. }
    rewrite prescribed_untouched, prescribed_flag, Hnone by exact Hnone. auto.
Qed.

(* ===================================================================== *)
(** * The assembly of quadrangles                                         *)
(* ===================================================================== *)

Section Quad4Facts.
Context {R : Type} `{RealOps R}.
#[local] Abbreviation dense_matrix := (SequentialNodeLinearSystemImpl.t R).

Lemma keeps_ghost_rows_refl (isOwn : nat -> bool) (m : dense_matrix) :
  dense_wf m -> keeps_ghost_rows isOwn m m.
Proof. intros Hwf. repeat split; auto. Qed.

(** The element matrix of one quadrangle, added to the dense matrix. *)
Lemma quad_scatter_keeps_ghost_rows (isOwn : nat -> bool) (K_e : FixedMatrix) (q : FemModule.Quad)
      (m0 m : dense_matrix) :
  Forall (fun node => node < SequentialNodeLinearSystemImpl.nb_node m0) (FemModule.quad_nodes q) ->
  keeps_ghost_rows isOwn m0 m ->
  exists m',
    foldM (fun '(n1_index, node1) m_linear_system =>
             foldM (fun '(n2_index, node2) m_linear_system =>
                      let v := at_ 4 K_e n1_index n2_index in
                      if isOwn node1
                      then matrixAddValue node1 node2 v m_linear_system
                      else Ok m_linear_system)
                   (Mesh.indexed (FemModule.quad_nodes q)) m_linear_system)
          (Mesh.indexed (FemModule.quad_nodes q)) m = Ok m'
    /\ keeps_ghost_rows isOwn m0 m'.
Proof.
  intros Hnodes Hkeep. rewrite List.Forall_forall in Hnodes.
  apply foldM_invariant; [exact Hkeep |].
  intros [n1_index node1] m1 Hin1 Hkeep1.
  apply foldM_invariant; [exact Hkeep1 |].
  intros [n2_index node2] m2 Hin2 (Hwf2 & Hn2 & Hghost2).
  destruct (isOwn node1) eqn:Hown; [| exists m2; repeat split; auto].
  apply indexed_In in Hin1. apply indexed_In in Hin2.
  destruct (dense_matrixAddValue_in_range m2 node1 node2 (at_ 4 K_e n1_index n2_index) Hwf2)
    as (old & m3 & _ & Hadd & Hwf3 & Hn3 & _ & Hframe).
  { rewrite Hn2. apply Hnodes, Hin1. }
  { rewrite Hn2. apply Hnodes, Hin2. }
  exists m3. split; [exact Hadd |]. split; [exact Hwf3 |]. split; [congruence |].
  intros r c Hr. rewrite Hframe; [apply Hghost2, Hr |].
  intros E. injection E as -> _. congruence.
Qed.

Lemma _assembleBilinearOperatorQUAD4_quads
      (cells : list FemModule.TypedCell) (isOwn : nat -> bool) (m_node_coord : nat -> Real3.t R)
      (m0 : dense_matrix) :
  quads_in_range (SequentialNodeLinearSystemImpl.nb_node m0) cells ->
  forall m,
    keeps_ghost_rows isOwn m0 m ->
    (FemModule._checkCellType "QUAD4" cells = Ok tt
     /\ exists m', FemModule._assembleBilinearOperatorQUAD4 cells isOwn m_node_coord m = Ok m'
                   /\ keeps_ghost_rows isOwn m0 m')
    \/ ((exists cell, List.In (FemModule.IT_Triangle3 cell) cells)
        /\ FemModule._checkCellType "QUAD4" cells = Throw FatalErrorException
        /\ FemModule._assembleBilinearOperatorQUAD4 cells isOwn m_node_coord m
           = Throw FatalErrorException).
Proof.
  unfold FemModule._checkCellType, FemModule._assembleBilinearOperatorQUAD4. cbv zeta.
  change (String.eqb "QUAD4" "QUAD4") with true.
  induction 1 as [|cell cells Hcell _ IH]; intros m Hkeep.
  - left. split; [reflexivity |]. exists m. split; [reflexivity | exact Hkeep].
  - destruct cell as [t | q].
    + right. split; [exists t; left; reflexivity |]. split; reflexivity.
    + cbn [foldM bind].
      destruct (quad_scatter_keeps_ghost_rows
                  isOwn (FemModule._computeElementMatrixQUAD4 m_node_coord q) q m0 m Hcell Hkeep)
        as (m1 & Hrun & Hkeep1).
      cbv zeta in Hrun. cbv zeta. rewrite Hrun. cbn [bind].
      destruct (IH m1 Hkeep1) as [[Hcheck Hassemble] | ((t & Ht) & Hcheck & Hassemble)].
      * left. split; [exact Hcheck | exact Hassemble].
      * right. split; [exists t; right; exact Ht |]. split; [exact Hcheck | exact Hassemble].
Qed.
End Quad4Facts.

Lemma _checkCellType_QUAD4_triangle (cells : list FemModule.TypedCell) (t : Mesh.Cell) :
  List.In (FemModule.IT_Triangle3 t) cells ->
  FemModule._checkCellType "QUAD4" cells = Throw FatalErrorException.
Proof.
  unfold FemModule._checkCellType. cbv zeta. change (String.eqb "QUAD4" "QUAD4") with true.
  induction cells as [|cell cells IH]; intros Hin; [destruct Hin |].
  destruct cell as [t' | q]; [reflexivity |]. cbn [foldM bind].
  destruct Hin as [E | Hin]; [discriminate | exact (IH Hin)].
Qed.

(** X20: [_assembleBilinearOperatorQUAD4] on the dense linear system,
    for cells whose nodes are rows of the system. When [_checkCellType]
    has accepted the cells for the mesh type "QUAD4", the assembly
    returns, keeps the extents of the matrix and leaves every row of a
    node that is not own as it was. When a cell is a triangle, the check
    and the assembly both fail with the fatal error. *)
Theorem X20_quad4_assembly_after_check :
  forall (R : Type) `{RealOps R} (cells : list FemModule.TypedCell) (isOwn : nat -> bool)
         (m_node_coord : nat -> Real3.t R) (m : SequentialNodeLinearSystemImpl.t R),
    dense_wf m ->
    quads_in_range (SequentialNodeLinearSystemImpl.nb_node m) cells ->
    (FemModule._checkCellType "QUAD4" cells = Ok tt ->
     exists m',
       FemModule._assembleBilinearOperatorQUAD4 cells isOwn m_node_coord m = Ok m'
       /\ dense_wf m'
       /\ SequentialNodeLinearSystemImpl.nb_node m' = SequentialNodeLinearSystemImpl.nb_node m
       /\ forall r c, isOwn r = false ->
                      SequentialNodeLinearSystemImpl.get m' r c
                      = SequentialNodeLinearSystemImpl.get m r c)
    /\ ((exists cell, List.In (FemModule.IT_Triangle3 cell) cells) ->
        FemModule._checkCellType "QUAD4" cells = Throw FatalErrorException
        /\ FemModule._assembleBilinearOperatorQUAD4 cells isOwn m_node_coord m
           = Throw FatalErrorException).
Proof.
  intros R ops cells isOwn m_node_coord m Hwf Hrange.
  destruct (_assembleBilinearOperatorQUAD4_quads cells isOwn m_node_coord m Hrange m
                                                 (keeps_ghost_rows_refl isOwn m Hwf))
    as [[Hcheck (m' & Hrun & Hkeep)] | ((t & Ht) & Hcheck & Hrun)].
  - split.
    + intros _. exists m'. split; [exact Hrun | exact Hkeep].
    + intros (t & Ht). rewrite (_checkCellType_QUAD4_triangle cells t Ht) in Hcheck. discriminate.
  - split.
    + intros Hok. rewrite Hcheck in Hok. discriminate.
    + intros _. split; [exact Hcheck | exact Hrun].
Qed.

Lemma X20_quad4_assembly_witness :
  exists m',
    FemModule._assembleBilinearOperatorQUAD4
      [FemModule.IT_Quad4 (FemModule.mkQuad 0 1 3 2)] (fun node => negb (node =? 3))
      (Samples.two_triangles_coord (R := float)) (SequentialNodeLinearSystemImpl.build 4)
    = Ok m'
    /\ dense_wf m'
    /\ SequentialNodeLinearSystemImpl.nb_node m'
       = SequentialNodeLinearSystemImpl.nb_node (SequentialNodeLinearSystemImpl.build (R := float) 4)
    /\ forall r c, negb (r =? 3) = false ->
                   SequentialNodeLinearSystemImpl.get m' r c
                   = SequentialNodeLinearSystemImpl.get (SequentialNodeLinearSystemImpl.build 4) r c.
Proof.
  apply (proj1 (X20_quad4_assembly_after_check
                  float [FemModule.IT_Quad4 (FemModule.mkQuad 0 1 3 2)]
                  (fun node => negb (node =? 3)) Samples.two_triangles_coord
                  (SequentialNodeLinearSystemImpl.build 4) eq_refl
                  ltac:(repeat constructor; simpl; lia))).
  reflexivity.
Defined.

(* ===================================================================== *)
(** * The entries of the store after a scatter pass                       *)
(* ===================================================================== *)

Section LoopFacts.
Context {A B St : Type}.

Lemma bind_Ok_r (c : result St) : bind c Ok = c.
Proof. destruct c; reflexivity. Qed.

Lemma foldM_ext (f g : A -> St -> result St) (l : list A) :
  (forall a s, List.In a l -> f a s = g a s) -> forall s, foldM f l s = foldM g l s.
Proof.
  induction l as [|a l IH]; intros Hfg s; simpl; [reflexivity |].
  rewrite (Hfg a s (or_introl eq_refl)).
  destruct (g a s) as [s' | e]; simpl; [| reflexivity].
  apply IH. intros a' s'' Hin. apply Hfg. right. exact Hin.
Qed.

Lemma foldM_flat_map (f : B -> St -> result St) (g : A -> list B) (l : list A) :
  forall s, foldM (fun a s => foldM f (g a) s) l s = foldM f (flat_map g l) s.
Proof.
  induction l as [|a l IH]; intros s; simpl; [reflexivity |].
  rewrite foldM_app. destruct (foldM f (g a) s) as [s' | e]; simpl; [apply IH | reflexivity].
Qed.

Lemma foldM_guard (f : B -> St -> result St) (b : bool) (e : B) (s : St) :
  (if b then f e s else Ok s) = foldM f (if b then [e] else []) s.
Proof. destruct b; simpl; [symmetry; apply bind_Ok_r | reflexivity]. Qed.
End LoopFacts.

Section RowFacts.
Context {R : Type} `{RealOps R}.
Implicit Types (cols : list Z) (vals : list R) (al : list (nat * R)).

Lemma row_repr_tail cols vals b n c old al :
  row_repr cols vals b (S n) ((c, old) :: al) -> row_repr cols vals (S b) n al.
Proof.
  intros (Hlen & Hheld & Hfree). simpl in Hlen. split; [lia |]. split.
  - intros i c' v Hi. replace (S b + i) with (b + S i) by lia. apply Hheld. exact Hi.
  - intros i Hi. replace (S b + i) with (b + S i) by lia. apply Hfree. simpl. lia.
Qed.

Lemma row_repr_cons cols vals b n c old al :
  cols !! b = Some (Z.of_nat c) ->
  vals !! b = Some old ->
  row_repr cols vals (S b) n al ->
  row_repr cols vals b (S n) ((c, old) :: al).
Proof.
  intros Hc Hv (Hlen & Hheld & Hfree). split; [simpl; lia |]. split.
  - intros [|i] c' v Hi; simpl in Hi.
    + injection Hi as <- <-. rewrite Nat.add_0_r. auto.
    + replace (b + S i) with (S b + i) by lia. apply Hheld. exact Hi.
  - intros [|i] Hi; simpl in Hi; [lia |].
    replace (b + S i) with (S b + i) by lia. apply Hfree. lia.
Qed.

(** The device-parallel probe on a span that holds claimed slots and
    then sentinels, with room for the addition. *)
Lemma _assembleCsrAllGPU_probe_row_add al :
  forall b n c v cols vals,
    row_repr cols vals b n al ->
    length (row_add c v al) <= n ->
    b + n <= length cols ->
    length vals = length cols ->
    exists cols' vals',
      FemModule._assembleCsrAllGPU_probe n b (Z.of_nat c) v cols vals = Ok (cols', vals')
      /\ length cols' = length cols
      /\ length vals' = length vals
      /\ (forall j, j < b \/ b + n <= j -> cols' !! j = cols !! j /\ vals' !! j = vals !! j)
      /\ row_repr cols' vals' b n (row_add c v al).
Proof.
  induction al as [|[c' old] al IH]; intros b n c v cols vals Hrepr Hroom Hspan Hlen.
  - destruct n as [|n]; [simpl in Hroom; lia |].
    destruct Hrepr as (_ & _ & Hfree).
    assert (Hb : cols !! b = Some (-1)%Z).
    { rewrite <- (Nat.add_0_r b). apply Hfree. simpl. lia. }
    cbn [FemModule._assembleCsrAllGPU_probe]. rewrite (na_get_lookup _ _ _ Hb). cbn [bind].
    destruct (Z.eqb_spec (-1) (Z.of_nat c)) as [E | _]; [lia |].
    change (Z.eqb (-1) (-1)) with true. cbv iota.
    rewrite na_set_in_range by lia. cbn [bind]. rewrite na_set_in_range by lia. cbn [bind].
    eexists _, _. split; [reflexivity |]. rewrite !length_insert.
    split; [reflexivity |]. split; [reflexivity |]. split.
    + intros j Hj. split; apply list_lookup_insert_ne; lia.
    + simpl. split; [simpl; lia |]. split.
      * intros [|i] c0 v0 Hi; simpl in Hi; [| discriminate].
        injection Hi as <- <-. rewrite Nat.add_0_r.
        split; apply list_lookup_insert_eq; lia.
      * intros i Hi. simpl in Hi. rewrite list_lookup_insert_ne by lia. apply Hfree. simpl. lia.
  - destruct n as [|n]; [destruct Hrepr as (Hl & _); simpl in Hl; lia |].
    assert (Hb : cols !! b = Some (Z.of_nat c') /\ vals !! b = Some old).
    { destruct Hrepr as (_ & Hheld & _). rewrite <- (Nat.add_0_r b). apply Hheld. reflexivity. }
    destruct Hb as [Hbc Hbv].
    cbn [FemModule._assembleCsrAllGPU_probe]. rewrite (na_get_lookup _ _ _ Hbc). cbn [bind].
    cbn [row_add] in Hroom |- *.
    destruct (Nat.eqb_spec c' c) as [-> | Hne].
    + rewrite Z.eqb_refl. rewrite (na_get_lookup _ _ _ Hbv). cbn [bind].
      rewrite na_set_in_range by lia. cbn [bind].
      eexists _, _. split; [reflexivity |]. rewrite length_insert.
      split; [reflexivity |]. split; [reflexivity |]. split.
      * intros j Hj. split; [reflexivity | apply list_lookup_insert_ne; lia].
      * apply row_repr_cons; [exact Hbc | apply list_lookup_insert_eq; lia |].
        apply row_repr_tail in Hrepr. destruct Hrepr as (Hl & Hheld & Hfree).
        split; [exact Hl |]. split; [| exact Hfree].
        intros i c0 v0 Hi. rewrite list_lookup_insert_ne by lia. apply Hheld, Hi.
    + destruct (Z.eqb_spec (Z.of_nat c') (Z.of_nat c)) as [E | _]; [lia |].
      destruct (Z.eqb_spec (Z.of_nat c') (-1)) as [E | _]; [lia |].
      simpl in Hroom.
      destruct (IH (S b) n c v cols vals (row_repr_tail _ _ _ _ _ _ _ Hrepr)
                   ltac:(lia) ltac:(lia) Hlen)
        as (cols' & vals' & Hrun & Hlc & Hlv & Hframe & Hrepr').
      exists cols', vals'. split; [exact Hrun |]. split; [exact Hlc |]. split; [exact Hlv |].
      split.
      * intros j Hj. apply Hframe. lia.
      * destruct (Hframe b ltac:(lia)) as [Ec Ev].
        apply row_repr_cons; [rewrite Ec; exact Hbc | rewrite Ev; exact Hbv | exact Hrepr'].
Qed.

(** A change outside of a span leaves what the span holds. *)
Lemma row_repr_frame cols vals cols' vals' b n al :
  (forall j, b <= j < b + n -> cols' !! j = cols !! j /\ vals' !! j = vals !! j) ->
  row_repr cols vals b n al -> row_repr cols' vals' b n al.
Proof.
  intros Hsame (Hlen & Hheld & Hfree). split; [exact Hlen |]. split.
  - intros i c v Hi.
    assert (Hin : i < length al) by (apply lookup_lt_is_Some_1; eauto).
    destruct (Hsame (b + i) ltac:(lia)) as [-> ->]. apply Hheld, Hi.
  - intros i Hi. destruct (Hsame (b + i) ltac:(lia)) as [-> _]. apply Hfree, Hi.
Qed.

Lemma combine_lookup cols vals i c v :
  cols !! i = Some c -> vals !! i = Some v -> combine cols vals !! i = Some (c, v).
Proof.
  revert vals i. induction cols as [|c0 cols IH]; intros [|v0 vals] [|i] Hc Hv;
    simpl in *; try discriminate.
  - congruence.
  - apply IH; assumption.
Qed.

(** Looking a column up in a span that holds claimed slots and then
    sentinels. *)
Lemma row_repr_find n :
  forall b al cols vals col,
    row_repr cols vals b n al ->
    b + n <= length cols ->
    length vals = length cols ->
    match List.find (fun s => Z.eqb (fst s) (Z.of_nat col))
                    (take n (drop b (combine cols vals))) with
    | Some s => Some (snd s)
    | None => None
    end = row_lookup col al.
Proof.
  induction n as [|n IH]; intros b al cols vals col Hrepr Hspan Hlen.
  - destruct al as [|s al]; [reflexivity |]. destruct Hrepr as (Hl & _). simpl in Hl. lia.
  - destruct (lookup_lt_is_Some_2 cols b ltac:(lia)) as [cb Hcb].
    destruct (lookup_lt_is_Some_2 vals b ltac:(lia)) as [vb Hvb].
    rewrite (drop_S _ _ _ (combine_lookup _ _ _ _ _ Hcb Hvb)). cbn [take List.find fst].
    destruct al as [|[c old] al].
    + destruct Hrepr as (_ & _ & Hfree).
      assert (E : cols !! b = Some (-1)%Z).
      { rewrite <- (Nat.add_0_r b). apply Hfree. simpl. lia. }
      rewrite Hcb in E. injection E as ->.
      destruct (Z.eqb_spec (-1) (Z.of_nat col)) as [E | _]; [lia |].
      apply (IH (S b) []); [| lia | exact Hlen].
      split; [simpl; lia |]. split; [intros i c v Hi; discriminate |].
      intros i Hi. replace (S b + i) with (b + S i) by lia. apply Hfree. simpl. lia.
    + assert (E : cols !! b = Some (Z.of_nat c) /\ vals !! b = Some old).
      { destruct Hrepr as (_ & Hheld & _). rewrite <- (Nat.add_0_r b). apply Hheld. reflexivity. }
      destruct E as [Ec Ev]. rewrite Hcb in Ec. rewrite Hvb in Ev.
      injection Ec as ->. injection Ev as ->.
      unfold row_lookup. cbn [List.find fst].
      destruct (Nat.eqb_spec c col) as [-> | Hne].
      * rewrite Z.eqb_refl. reflexivity.
      * destruct (Z.eqb_spec (Z.of_nat c) (Z.of_nat col)) as [E | _]; [lia |].
        apply (IH (S b) al); [| lia | exact Hlen].
        eapply row_repr_tail, Hrepr.
Qed.

Lemma row_lookup_row_add col c v al :
  row_lookup col (row_add c v al)
  = if c =? col
    then Some (match row_lookup col al with Some old => (old + v)%real | None => v end)
    else row_lookup col al.
Proof.
  induction al as [|[c' old] al IH]; unfold row_lookup in *; cbn [row_add List.find fst].
  - destruct (Nat.eqb_spec c col); reflexivity.
  - destruct (Nat.eqb_spec c' c) as [-> | Hne]; cbn [List.find fst snd].
    + destruct (Nat.eqb_spec c col); reflexivity.
    + destruct (Nat.eqb_spec c' col) as [-> | Hne'].
      * destruct (Nat.eqb_spec c col); [congruence | reflexivity].
      * exact IH.
Qed.

Lemma row_add_keys_incl c v al :
  forall k, List.In k (map fst (row_add c v al)) -> k = c \/ List.In k (map fst al).
Proof.
  induction al as [|[c' old] al IH]; intros k; cbn [row_add].
  - simpl. intros [<- | []]. auto.
  - destruct (c' =? c); simpl.
    + auto.
    + intros [<- | Hin]; [auto |]. destruct (IH k Hin); auto.
Qed.

Lemma row_add_keys_NoDup c v al :
  List.NoDup (map fst al) -> List.NoDup (map fst (row_add c v al)).
Proof.
  induction al as [|[c' old] al IH]; cbn [row_add]; intros Hnd.
  - simpl. constructor; [intros [] | constructor].
  - simpl in Hnd. apply List.NoDup_cons_iff in Hnd as [Hnotin Hnd].
    destruct (Nat.eqb_spec c' c) as [-> | Hne]; simpl.
    + apply List.NoDup_cons; assumption.
    + apply List.NoDup_cons; [| apply IH, Hnd].
      intros Hin. apply row_add_keys_incl in Hin as [E | Hin]; [congruence | contradiction].
Qed.
End RowFacts.

Section StoreFacts.
Context {R : Type} `{RealOps R}.
Implicit Types (cols : list Z) (vals : list R) (log : list (nat * nat * R)).
Import Mesh.

Lemma row_state_snoc row log e :
  row_state row (log ++ [e])
  = if fst (fst e) =? row then row_add (snd (fst e)) (snd e) (row_state row log)
    else row_state row log.
Proof. unfold row_state. rewrite fold_left_app. reflexivity. Qed.

(** The claimed slots of a row hold distinct columns, each the column of
    the node of the row or of a node joined to it. *)
Lemma row_state_keys (mesh : Mesh.t) row log :
  Forall (admissible mesh) log ->
  List.NoDup (map fst (row_state row log))
  /\ forall k, List.In k (map fst (row_state row log)) -> k = row \/ joined mesh row k.
Proof.
  induction log as [|e log IH] using rev_ind; intros Hlog.
  - split; [constructor | intros k []].
  - apply Forall_app in Hlog as [Hlog He]. apply Forall_inv in He.
    destruct (IH Hlog) as [Hnd Hkeys]. rewrite row_state_snoc.
    destruct (Nat.eqb_spec (fst (fst e)) row) as [E | _]; [| auto].
    split; [apply row_add_keys_NoDup, Hnd |].
    intros k Hin. apply row_add_keys_incl in Hin as [-> | Hin]; [| auto].
    destruct He as [_ He]. rewrite E in He. exact He.
Qed.

(** The claimed slots of a row fit into the span reserved for it. *)
Lemma row_state_fits (mesh : Mesh.t) row log :
  Forall (admissible mesh) log ->
  length (row_state row log) <= reserved mesh row.
Proof.
  intros Hlog. destruct (row_state_keys mesh row log Hlog) as [Hnd Hkeys].
  rewrite <- (coo_coordinates_of_node_length mesh row).
  rewrite <- (length_map fst (row_state row log)).
  rewrite <- (length_map snd (coo_coordinates_of_node mesh row)).
  apply List.NoDup_incl_length; [exact Hnd |].
  intros k Hin. apply in_map_iff. exists (row, k). split; [reflexivity |].
  apply coo_coordinates_of_node_In. split; [reflexivity |].
  destruct (Hkeys k Hin) as [-> | Hj]; auto.
Qed.

Lemma built_store_holds (mesh : Mesh.t) :
  Mesh.valid mesh ->
  store_holds mesh [] (CsrFormat.m_matrix_column (built mesh), CsrFormat.m_matrix_value (built mesh)).
Proof.
  intros Hvalid. unfold store_holds. simpl. rewrite !length_replicate.
  split; [reflexivity |]. split; [reflexivity |].
  intros row Hrow. split; [simpl; lia |]. split; [intros i c v Hi; discriminate |].
  intros i Hi. apply lookup_replicate_2.
  assert (sum_to (reserved mesh) (S row) <= nbFace mesh * 2 + nbNode mesh).
  { rewrite <- (reserved_total mesh Hvalid). apply sum_to_mono. lia. }
  simpl in *. lia.
Qed.

(** One admissible addition scattered into a store that holds the
    additions of a log. *)
Lemma scatter_entry_store_holds
      (probe : nat -> nat -> Z -> R -> list Z -> list R -> result (list Z * list R))
      (mesh : Mesh.t) log e st :
  (forall n b c v cols vals,
      probe n b (Z.of_nat c) v cols vals
      = FemModule._assembleCsrAllGPU_probe n b (Z.of_nat c) v cols vals) ->
  Mesh.valid mesh ->
  Forall (admissible mesh) (log ++ [e]) ->
  store_holds mesh log st ->
  exists st',
    scatter_entry probe mesh e st = Ok st' /\ store_holds mesh (log ++ [e]) st'.
Proof.
  intros Hprobe Hvalid Hlog (Hlc & Hlv & Hrows).
  assert (He : admissible mesh e).
  { apply Forall_app in Hlog as [_ He]. apply Forall_inv in He. exact He. }
  destruct e as [[row col] v]. destruct He as [Hrow _]. cbn [fst snd] in Hrow.
  unfold scatter_entry. cbn [fst snd].
  rewrite (na_get_lookup _ _ _ (built_row_begin mesh row Hrow)). cbn [bind].
  rewrite (built_row_end mesh row Hvalid Hrow). cbn [bind].
  set (b := sum_to (reserved mesh) row).
  replace (sum_to (reserved mesh) (S row) - b) with (reserved mesh row) by (simpl; lia).
  assert (Hen : b + reserved mesh row <= nbFace mesh * 2 + nbNode mesh).
  { rewrite <- (reserved_total mesh Hvalid).
    change (b + reserved mesh row) with (sum_to (reserved mesh) (S row)).
    apply sum_to_mono. lia. }
  assert (Hfits := row_state_fits mesh row (log ++ [(row, col, v)]) Hlog).
  rewrite row_state_snoc in Hfits. cbn [fst snd] in Hfits. rewrite Nat.eqb_refl in Hfits.
  rewrite Hprobe.
  destruct (_assembleCsrAllGPU_probe_row_add
              (row_state row log) b (reserved mesh row) col v (fst st) (snd st)
              (Hrows row Hrow) Hfits ltac:(lia) ltac:(lia))
    as (cols' & vals' & -> & Hc & Hv & Hframe & Hrepr).
  exists (cols', vals'). split; [reflexivity |].
  split; [simpl; lia |]. split; [simpl; lia |].
  intros row' Hrow'. rewrite row_state_snoc. cbn [fst snd].
  destruct (Nat.eqb_spec row row') as [<- | Hne]; [exact Hrepr |].
  apply (row_repr_frame (fst st) (snd st)); [| apply Hrows, Hrow'].
  intros j Hj. apply Hframe.
  destruct (Nat.lt_ge_cases row' row) as [Hlt | Hge].
  - left. assert (sum_to (reserved mesh) (S row') <= b) by (apply sum_to_mono; lia).
    simpl in *. lia.
  - right. assert (sum_to (reserved mesh) (S row) <= sum_to (reserved mesh) row')
      by (apply sum_to_mono; lia).
    simpl in *. lia.
Qed.

(** The additions of an admissible log, scattered one after the other
    into the store that [_buildMatrixGpuBuildLessCsr] returns: every
    probe finds the column or a free slot. *)
Lemma scatter_log_store_holds
      (probe : nat -> nat -> Z -> R -> list Z -> list R -> result (list Z * list R))
      (mesh : Mesh.t) log :
  (forall n b c v cols vals,
      probe n b (Z.of_nat c) v cols vals
      = FemModule._assembleCsrAllGPU_probe n b (Z.of_nat c) v cols vals) ->
  Mesh.valid mesh ->
  Forall (admissible mesh) log ->
  exists st,
    foldM (scatter_entry probe mesh) log
          (CsrFormat.m_matrix_column (built mesh), CsrFormat.m_matrix_value (built mesh)) = Ok st
    /\ store_holds mesh log st.
Proof.
  intros Hprobe Hvalid. induction log as [|e log IH] using rev_ind; intros Hlog.
  - eexists. split; [reflexivity | apply built_store_holds, Hvalid].
  - destruct (IH (proj1 (proj1 (Forall_app _ _ _) Hlog))) as (st & Hrun & Hst).
    rewrite foldM_app, Hrun. cbn [bind foldM].
    destruct (scatter_entry_store_holds probe mesh log e st Hprobe Hvalid Hlog Hst)
      as (st' & -> & Hst').
    exists st'. split; [reflexivity | exact Hst'].
Qed.

Lemma accumulated_fold (l : list R) :
  forall o,
    fold_left (fun o v => Some (match o with Some old => (old + v)%real | None => v end)) l o
    = match o, l with
      | None, [] => None
      | None, v :: l' => Some (fold_left radd l' v)
      | Some a, _ => Some (fold_left radd l a)
      end.
Proof.
  induction l as [|v l IH]; intros o; simpl.
  - destruct o; reflexivity.
  - rewrite IH. destruct o; reflexivity.
Qed.

(** The value that the claimed slots of a row hold for a column. *)
Lemma row_lookup_row_state row col log :
  row_lookup col (row_state row log) = accumulated (contributions row col log).
Proof.
  transitivity
    (fold_left (fun o v => Some (match o with Some old => (old + v)%real | None => v end))
               (contributions row col log) None);
    [| rewrite accumulated_fold; reflexivity].
  induction log as [|e log IH] using rev_ind; [reflexivity |].
  rewrite row_state_snoc. unfold contributions in *.
  rewrite List.filter_app, map_app, fold_left_app, <- IH. cbn [List.filter].
  destruct (Nat.eqb_spec (fst (fst e)) row) as [E | _]; cbn [andb].
  - rewrite row_lookup_row_add. destruct (snd (fst e) =? col); reflexivity.
  - reflexivity.
Qed.

(** The entries of a store that holds the additions of a log. *)
Lemma store_holds_entry (mesh : Mesh.t) log st row col :
  Mesh.valid mesh ->
  store_holds mesh log st ->
  row < nbNode mesh ->
  CsrFormat.entry (CsrFormat.with_slots (built mesh) (fst st) (snd st)) row col
  = accumulated (contributions row col log).
Proof.
  intros Hvalid (Hlc & Hlv & Hrows) Hrow. unfold CsrFormat.entry.
  change (CsrFormat.m_matrix_row (CsrFormat.with_slots (built mesh) (fst st) (snd st)))
    with (CsrFormat.m_matrix_row (built mesh)).
  change (CsrFormat.m_matrix_column (CsrFormat.with_slots (built mesh) (fst st) (snd st)))
    with (fst st).
  change (CsrFormat.m_matrix_value (CsrFormat.with_slots (built mesh) (fst st) (snd st)))
    with (snd st).
  rewrite (built_row_begin mesh row Hrow).
  replace (length (fst st)) with (length (CsrFormat.m_matrix_column (built (R := R) mesh)))
    by (simpl; rewrite length_replicate; lia).
  rewrite (built_row_end mesh row Hvalid Hrow).
  replace (sum_to (reserved mesh) (S row) - sum_to (reserved mesh) row)
    with (reserved mesh row) by (simpl; lia).
  assert (Hen : sum_to (reserved mesh) row + reserved mesh row <= nbFace mesh * 2 + nbNode mesh).
  { rewrite <- (reserved_total mesh Hvalid).
    change (sum_to (reserved mesh) row + reserved mesh row) with (sum_to (reserved mesh) (S row)).
    apply sum_to_mono. lia. }
  rewrite (row_repr_find _ _ _ _ _ col (Hrows row Hrow)) by lia.
  apply row_lookup_row_state.
Qed.
End StoreFacts.

Section PassFacts.
Context {R : Type} `{RealOps R}.
Implicit Type m_node_coord : nat -> Real3.t R.
Import Mesh.

(** The device-parallel pass scatters the additions of its log. *)
Lemma _assembleCsrAllGPU_scatters_log (mesh : Mesh.t) m_node_coord :
  FemModule._assembleCsrAllGPUBilinearOperatorTRIA3 mesh m_node_coord
  = do st <- foldM (scatter_entry FemModule._assembleCsrAllGPU_probe mesh)
                   (device_parallel_log mesh m_node_coord)
                   (CsrFormat.m_matrix_column (built mesh), CsrFormat.m_matrix_value (built mesh)) ;;
    Ok (CsrFormat.with_slots (built mesh) (fst st) (snd st)).
Proof.
  unfold FemModule._assembleCsrAllGPUBilinearOperatorTRIA3.
  rewrite _buildMatrixGpuBuildLessCsr_built. cbn [bind].
  unfold device_parallel_log. rewrite <- foldM_flat_map.
  match goal with
  | |- bind (foldM ?f ?l ?s) _ = bind (foldM ?g ?l ?s) _ =>
      rewrite (foldM_ext f g l)
  end.
  - destruct (foldM _ _ _) as [[cols vals] | e]; reflexivity.
  - intros icell st _. cbv zeta. rewrite <- foldM_flat_map.
    apply foldM_ext. intros [n1_index node1] st1 _. rewrite <- foldM_flat_map.
    apply foldM_ext. intros [n2_index node2] [cols vals] _.
    rewrite <- foldM_guard. reflexivity.
Qed.

(** The build-less pass scatters the additions of its log. *)
Lemma _assembleBuildLessCsr_scatters_log (mesh : Mesh.t) m_node_coord :
  FemModule._assembleBuildLessCsrBilinearOperatorTria3 mesh m_node_coord
  = do st <- foldM (scatter_entry
                      (fun n b col x cols vals =>
                         FemModule._addValueToGlobalMatrixTria3Gpu_loop n b col cols vals x)
                      mesh)
                   (build_less_log mesh m_node_coord)
                   (CsrFormat.m_matrix_column (built mesh), CsrFormat.m_matrix_value (built mesh)) ;;
    Ok (CsrFormat.with_slots (built mesh) (fst st) (snd st)).
Proof.
  unfold FemModule._assembleBuildLessCsrBilinearOperatorTria3.
  rewrite _buildMatrixGpuBuildLessCsr_built. cbn [bind].
  unfold build_less_log. rewrite <- foldM_flat_map.
  match goal with
  | |- bind (foldM ?f ?l ?s) _ = bind (foldM ?g ?l ?s) _ =>
      rewrite (foldM_ext f g l)
  end.
  - destruct (foldM _ _ _) as [[cols vals] | e]; reflexivity.
  - intros inode st _. rewrite <- foldM_flat_map.
    apply foldM_ext. intros cell st1 _. cbv zeta.
    destruct (FemModule._computeCellMatrixGpuTRIA3 m_node_coord cell) as [area b_matrix].
    rewrite <- foldM_flat_map.
    apply foldM_ext. intros [i node2] [cols vals] _.
    rewrite <- foldM_guard. reflexivity.
Qed.

Lemma admissible_cell_nodes (mesh : Mesh.t) (cell : Cell) (a b : nat) (v : R) :
  Mesh.valid mesh ->
  cell_edges_are_faces mesh ->
  List.In cell (allCells mesh) ->
  List.In a (cell_nodes cell) ->
  List.In b (cell_nodes cell) ->
  admissible mesh (a, b, v).
Proof.
  intros Hvalid Hedges Hcell Ha Hb. split; cbn [fst snd].
  - destruct Hvalid as [_ Hcells _]. rewrite List.Forall_forall in Hcells.
    apply (valid_cell_node mesh cell a (Hcells cell Hcell) Ha).
  - destruct (Nat.eq_dec b a) as [E | Hne]; [left; exact E | right].
    apply (Hedges cell a b Hcell Ha Hb). congruence.
Qed.

Lemma device_parallel_log_admissible (mesh : Mesh.t) m_node_coord :
  Mesh.valid mesh ->
  cell_edges_are_faces mesh ->
  Forall (admissible mesh) (device_parallel_log mesh m_node_coord).
Proof.
  intros Hvalid Hedges. apply List.Forall_forall. intros e He.
  unfold device_parallel_log in He.
  apply in_flat_map in He as (icell & Hcell & He).
  apply in_flat_map in He as ([n1_index node1] & Hin1 & He).
  apply in_flat_map in He as ([n2_index node2] & Hin2 & He).
  destruct (isOwn mesh node1); [| destruct He].
  destruct He as [<- | []].
  apply (admissible_cell_nodes mesh icell); try assumption; eapply indexed_In; eassumption.
Qed.

Lemma cell_has_node_In (node : nat) (cell : Cell) :
  cell_has_node node cell = true -> List.In node (cell_nodes cell).
Proof.
  unfold cell_has_node, cell_nodes. intros Hhas.
  apply orb_true_iff in Hhas as [Hhas | Hhas]; [apply orb_true_iff in Hhas as [Hhas | Hhas] |];
    apply Nat.eqb_eq in Hhas; simpl; auto.
Qed.

Lemma build_less_log_admissible (mesh : Mesh.t) m_node_coord :
  Mesh.valid mesh ->
  cell_edges_are_faces mesh ->
  Forall (admissible mesh) (build_less_log mesh m_node_coord).
Proof.
  intros Hvalid Hedges. apply List.Forall_forall. intros e He.
  unfold build_less_log in He.
  apply in_flat_map in He as (inode & Hinode & He).
  apply in_flat_map in He as (cell & Hcell & He).
  destruct (FemModule._computeCellMatrixGpuTRIA3 m_node_coord cell) as [area b_matrix].
  apply in_flat_map in He as ([i node2] & Hin2 & He).
  cbv zeta in He. destruct (isOwn mesh inode); [| destruct He].
  destruct He as [<- | []].
  unfold node_cells in Hcell. apply filter_In in Hcell as [Hcell Hhas].
  apply (admissible_cell_nodes mesh cell); try assumption.
  - apply cell_has_node_In, Hhas.
  - eapply indexed_In; eassumption.
Qed.

(** A pass that scatters an admissible log returns, and the entries of
    the store it returns are the accumulated contributions. *)
Lemma scattered_log_entries
      (probe : nat -> nat -> Z -> R -> list Z -> list R -> result (list Z * list R))
      (mesh : Mesh.t) (log : list (nat * nat * R)) :
  (forall n b c v cols vals,
      probe n b (Z.of_nat c) v cols vals
      = FemModule._assembleCsrAllGPU_probe n b (Z.of_nat c) v cols vals) ->
  Mesh.valid mesh ->
  Forall (admissible mesh) log ->
  exists m,
    (do st <- foldM (scatter_entry probe mesh) log
                    (CsrFormat.m_matrix_column (built mesh), CsrFormat.m_matrix_value (built mesh)) ;;
     Ok (CsrFormat.with_slots (built mesh) (fst st) (snd st))) = Ok m
    /\ forall row col,
        row < nbNode mesh ->
        CsrFormat.entry m row col = accumulated (contributions row col log).
Proof.
  intros Hprobe Hvalid Hlog.
  destruct (scatter_log_store_holds probe mesh log Hprobe Hvalid Hlog) as (st & -> & Hst).
  cbn [bind]. eexists. split; [reflexivity |].
  intros row col Hrow. apply (store_holds_entry mesh log st row col Hvalid Hst Hrow).
Qed.

Lemma build_less_probe_agrees n b (c : nat) (v : R) cols vals :
  FemModule._addValueToGlobalMatrixTria3Gpu_loop n b (Z.of_nat c) cols vals v
  = FemModule._assembleCsrAllGPU_probe n b (Z.of_nat c) v cols vals.
Proof. apply probes_agree. lia. Qed.
End PassFacts.

Lemma two_triangles_cell_edges_are_faces : cell_edges_are_faces Samples.two_triangles.
Proof.
  intros cell a b Hcell Ha Hb Hne. unfold joined. simpl in Hcell.
  destruct Hcell as [<- | [<- | []]]; simpl in Ha, Hb;
    destruct Ha as [<- | [<- | [<- | []]]], Hb as [<- | [<- | [<- | []]]];
    try congruence.
  all: first
         [ exists (Mesh.mkFace 0 1); simpl; split; [tauto | auto; fail]
         | exists (Mesh.mkFace 1 2); simpl; split; [tauto | auto; fail]
         | exists (Mesh.mkFace 2 0); simpl; split; [tauto | auto; fail]
         | exists (Mesh.mkFace 1 3); simpl; split; [tauto | auto; fail]
         | exists (Mesh.mkFace 3 2); simpl; split; [tauto | auto; fail] ].
Qed.

(** X21: on a valid mesh in which the edges of the cells are faces, the
    device-parallel pass [_assembleCsrAllGPUBilinearOperatorTRIA3], its
    cells handled one after the other, returns and drops no
    contribution: the entry [(row, col)] of the store is the first value
    that the pass adds to it, plus the following ones in the order of
    the pass; it is absent exactly when the pass adds nothing to it. *)
Theorem X21_device_parallel_pass_accumulates_every_contribution :
  forall (R : Type) `{RealOps R} (mesh : Mesh.t) (m_node_coord : nat -> Real3.t R),
    Mesh.valid mesh ->
    cell_edges_are_faces mesh ->
    exists m,
      FemModule._assembleCsrAllGPUBilinearOperatorTRIA3 mesh m_node_coord = Ok m
      /\ forall row col,
          row < Mesh.nbNode mesh ->
          CsrFormat.entry m row col
          = accumulated (contributions row col (device_parallel_log mesh m_node_coord)).
Proof.
  intros R ops mesh m_node_coord Hvalid Hedges.
  rewrite _assembleCsrAllGPU_scatters_log.
  apply scattered_log_entries; [reflexivity | exact Hvalid |].
  apply device_parallel_log_admissible; assumption.
Qed.

Lemma X21_device_parallel_pass_witness :
  exists m,
    FemModule._assembleCsrAllGPUBilinearOperatorTRIA3 (R := float)
      Samples.two_triangles Samples.two_triangles_coord = Ok m
    /\ forall row col,
        row < Mesh.nbNode Samples.two_triangles ->
        CsrFormat.entry m row col
        = accumulated (contributions row col
                         (device_parallel_log Samples.two_triangles Samples.two_triangles_coord)).
Proof.
  apply (X21_device_parallel_pass_accumulates_every_contribution float).
  - exact two_triangles_valid.
  - exact two_triangles_cell_edges_are_faces.
Defined.

(** X22: on a valid mesh in which the edges of the cells are faces, the
    build-less pass [_assembleBuildLessCsrBilinearOperatorTria3], its
    nodes handled one after the other, returns and drops no
    contribution: the entry [(row, col)] of the store is the first value
    that the pass adds to it, plus the following ones in the order of
    the pass. *)
Theorem X22_build_less_pass_accumulates_every_contribution :
  forall (R : Type) `{RealOps R} (mesh : Mesh.t) (m_node_coord : nat -> Real3.t R),
    Mesh.valid mesh ->
    cell_edges_are_faces mesh ->
    exists m,
      FemModule._assembleBuildLessCsrBilinearOperatorTria3 mesh m_node_coord = Ok m
      /\ forall row col,
          row < Mesh.nbNode mesh ->
          CsrFormat.entry m row col
          = accumulated (contributions row col (build_less_log mesh m_node_coord)).
Proof.
  intros R ops mesh m_node_coord Hvalid Hedges.
  rewrite _assembleBuildLessCsr_scatters_log.
  apply scattered_log_entries; [| exact Hvalid |].
  - intros n b c v cols vals. apply build_less_probe_agrees.
  - apply build_less_log_admissible; assumption.
Qed.

Lemma X22_build_less_pass_witness :
  exists m,
    FemModule._assembleBuildLessCsrBilinearOperatorTria3 (R := float)
      Samples.two_triangles Samples.two_triangles_coord = Ok m
    /\ forall row col,
        row < Mesh.nbNode Samples.two_triangles ->
        CsrFormat.entry m row col
        = accumulated (contributions row col
                         (build_less_log Samples.two_triangles Samples.two_triangles_coord)).
Proof.
  apply (X22_build_less_pass_accumulates_every_contribution float).
  - exact two_triangles_valid.
  - exact two_triangles_cell_edges_are_faces.
Defined.

Section AgreementFacts.
Context {R : Type} `{RealOps R}.
Implicit Type m_node_coord : nat -> Real3.t R.
Import Mesh.

Lemma filter_flat_map {A B} (p : B -> bool) (g : A -> list B) (l : list A) :
  List.filter p (flat_map g l) = flat_map (fun a => List.filter p (g a)) l.
Proof.
  induction l as [|a l IH]; simpl; [reflexivity |].
  rewrite List.filter_app, IH. reflexivity.
Qed.

Lemma flat_map_filter {A B} (p : A -> bool) (g : A -> list B) (l : list A) :
  flat_map g (List.filter p l) = flat_map (fun a => if p a then g a else []) l.
Proof.
  induction l as [|a l IH]; simpl; [reflexivity |].
  destruct (p a); simpl; rewrite IH; reflexivity.
Qed.

Lemma flat_map_ext_In {A B} (f g : A -> list B) (l : list A) :
  (forall a, List.In a l -> f a = g a) -> flat_map f l = flat_map g l.
Proof.
  induction l as [|a l IH]; intros Hfg; simpl; [reflexivity |].
  rewrite (Hfg a (or_introl eq_refl)), IH; [reflexivity |].
  intros a' Hin. apply Hfg. right. exact Hin.
Qed.

Lemma flat_map_one_row {B} (g : nat -> list B) (row : nat) :
  forall n a,
    (forall i, i <> row -> g i = []) ->
    flat_map g (seq a n) = if (a <=? row) && (row <? a + n) then g row else [].
Proof.
  induction n as [|n IH]; intros a Hg; cbn [seq flat_map].
  - destruct (Nat.leb_spec a row), (Nat.ltb_spec row (a + 0)); try reflexivity. lia.
  - rewrite (IH (S a) Hg). replace (S a + n) with (a + S n) by lia.
    destruct (Nat.eq_dec a row) as [-> | Hne].
    + destruct (Nat.leb_spec (S row) row); [lia |].
      destruct (Nat.leb_spec row row); [| lia].
      destruct (Nat.ltb_spec row (row + S n)); [| lia].
      cbn [andb]. rewrite app_nil_r. reflexivity.
    + rewrite (Hg a Hne). cbn [app].
      destruct (Nat.leb_spec (S a) row), (Nat.leb_spec a row), (Nat.ltb_spec row (a + S n));
        try reflexivity; lia.
Qed.

Lemma filter_andb {A} (p q : A -> bool) (l : list A) :
  List.filter (fun e => p e && q e) l = List.filter q (List.filter p l).
Proof.
  induction l as [|a l IH]; simpl; [reflexivity |].
  destruct (p a); simpl; [destruct (q a) |]; rewrite IH; reflexivity.
Qed.

(** The additions of the two passes into one row, for one cell with
    three distinct nodes. *)
Lemma cell_logs_agree (mesh : Mesh.t) m_node_coord (row : nat) (cell : Cell) :
  proper_cell cell ->
  List.filter (fun e : nat * nat * R => fst (fst e) =? row)
    (let K_e := FemModule._computeElementMatrixTRIA3GPU m_node_coord cell in
     flat_map (fun '(n1_index, node1) =>
                 flat_map (fun '(n2_index, node2) =>
                             if isOwn mesh node1
                             then [(node1, node2, nth (n1_index * 3 + n2_index) K_e r0)]
                             else [])
                          (indexed (cell_nodes cell)))
              (indexed (cell_nodes cell)))
  = if cell_has_node row cell
    then (let inode_index :=
            if row =? cnode1 cell then 1
            else if row =? cnode2 cell then 2
            else 0 in
          let '(area, b_matrix) := FemModule._computeCellMatrixGpuTRIA3 m_node_coord cell in
          flat_map (fun '(i, node2) =>
                      let x := fold_left
                                 (fun x k => (x + nth (inode_index * 2 + k) b_matrix r0
                                                  * nth (i * 2 + k) b_matrix r0)%real)
                                 (seq 0 2) r0 in
                      let x := (x * area)%real in
                      if isOwn mesh row then [(row, node2, x)] else [])
                   (indexed (cell_nodes cell)))
    else [].
Proof.
  destruct cell as [a b c]. intros (Hab & Hbc & Hac). simpl in Hab, Hbc, Hac.
  unfold cell_has_node. cbn [cnode0 cnode1 cnode2].
  destruct (Nat.eqb_spec a row) as [Ea | Ea];
    destruct (Nat.eqb_spec b row) as [Eb | Eb];
    destruct (Nat.eqb_spec c row) as [Ec | Ec]; try congruence; try subst row.
  - cbn [orb]. rewrite (proj2 (Nat.eqb_neq a b) Hab), (proj2 (Nat.eqb_neq a c) Hac).
    cbn. destruct (isOwn mesh a), (isOwn mesh b), (isOwn mesh c); cbn;
      rewrite ?Nat.eqb_refl, ?(proj2 (Nat.eqb_neq b a)), ?(proj2 (Nat.eqb_neq c a)) by congruence;
      reflexivity.
  - cbn [orb]. rewrite Nat.eqb_refl.
    cbn. destruct (isOwn mesh a), (isOwn mesh b), (isOwn mesh c); cbn;
      rewrite ?Nat.eqb_refl, ?(proj2 (Nat.eqb_neq a b)), ?(proj2 (Nat.eqb_neq c b)) by congruence;
      reflexivity.
  - cbn [orb]. rewrite (proj2 (Nat.eqb_neq c b)) by congruence. rewrite Nat.eqb_refl.
    cbn. destruct (isOwn mesh a), (isOwn mesh b), (isOwn mesh c); cbn;
      rewrite ?Nat.eqb_refl, ?(proj2 (Nat.eqb_neq a c)), ?(proj2 (Nat.eqb_neq b c)) by congruence;
      reflexivity.
  - cbn [orb].
    cbn. destruct (isOwn mesh a), (isOwn mesh b), (isOwn mesh c); cbn;
      rewrite ?(proj2 (Nat.eqb_neq a row)), ?(proj2 (Nat.eqb_neq b row)),
        ?(proj2 (Nat.eqb_neq c row)) by congruence;
      reflexivity.
Qed.

Lemma flat_map_nil {A B} (g : A -> list B) (l : list A) :
  (forall a, List.In a l -> g a = []) -> flat_map g l = [].
Proof.
  induction l as [|a l IH]; intros Hg; simpl; [reflexivity |].
  rewrite (Hg a (or_introl eq_refl)), IH; [reflexivity |].
  intros a' Hin. apply Hg. right. exact Hin.
Qed.

Lemma filter_none {A} (p : A -> bool) (l : list A) :
  (forall a, List.In a l -> p a = false) -> List.filter p l = [].
Proof.
  induction l as [|a l IH]; intros Hp; simpl; [reflexivity |].
  rewrite (Hp a (or_introl eq_refl)). apply IH. intros a' Hin. apply Hp. right. exact Hin.
Qed.

Lemma filter_all {A} (p : A -> bool) (l : list A) :
  (forall a, List.In a l -> p a = true) -> List.filter p l = l.
Proof.
  induction l as [|a l IH]; intros Hp; simpl; [reflexivity |].
  rewrite (Hp a (or_introl eq_refl)), IH; [reflexivity |].
  intros a' Hin. apply Hp. right. exact Hin.
Qed.

(** The additions of the build-less pass for a node go to the row of the
    node. *)
Lemma build_less_cell_log_row (mesh : Mesh.t) m_node_coord (inode : nat) (cell : Cell)
      (e : nat * nat * R) :
  List.In e
    (let inode_index :=
       if inode =? cnode1 cell then 1
       else if inode =? cnode2 cell then 2
       else 0 in
     let '(area, b_matrix) := FemModule._computeCellMatrixGpuTRIA3 m_node_coord cell in
     flat_map (fun '(i, node2) =>
                 let x := fold_left
                            (fun x k => (x + nth (inode_index * 2 + k) b_matrix r0
                                             * nth (i * 2 + k) b_matrix r0)%real)
                            (seq 0 2) r0 in
                 let x := (x * area)%real in
                 if isOwn mesh inode then [(inode, node2, x)] else [])
              (indexed (cell_nodes cell))) ->
  fst (fst e) = inode.
Proof.
  cbv zeta. destruct (FemModule._computeCellMatrixGpuTRIA3 m_node_coord cell).
  intros He. apply in_flat_map in He as ([i node2] & _ & He).
  destruct (isOwn mesh inode); [| destruct He]. destruct He as [<- | []]. reflexivity.
Qed.

(** On cells with three distinct nodes the two passes add the same
    values, in the same order, to each row. *)
Lemma row_logs_agree (mesh : Mesh.t) m_node_coord (row : nat) :
  Forall proper_cell (allCells mesh) ->
  row < nbNode mesh ->
  List.filter (fun e : nat * nat * R => fst (fst e) =? row) (device_parallel_log mesh m_node_coord)
  = List.filter (fun e : nat * nat * R => fst (fst e) =? row) (build_less_log mesh m_node_coord).
Proof.
  intros Hproper Hrow. rewrite List.Forall_forall in Hproper.
  unfold device_parallel_log, build_less_log. rewrite !filter_flat_map.
  unfold allNodes.
  rewrite (flat_map_one_row _ row (nbNode mesh) 0).
  - destruct (Nat.leb_spec 0 row); [| lia].
    destruct (Nat.ltb_spec row (0 + nbNode mesh)); [| lia]. cbn [andb].
    rewrite filter_flat_map. unfold node_cells. rewrite flat_map_filter.
    apply flat_map_ext_In. intros cell Hcell.
    etransitivity; [exact (cell_logs_agree mesh m_node_coord row cell (Hproper cell Hcell)) |].
    destruct (cell_has_node row cell); [| reflexivity].
    symmetry. apply filter_all. intros e He.
    rewrite (build_less_cell_log_row mesh m_node_coord row cell e He). apply Nat.eqb_refl.
  - intros i Hne. rewrite filter_flat_map. apply flat_map_nil. intros cell _.
    apply filter_none. intros e He.
    rewrite (build_less_cell_log_row mesh m_node_coord i cell e He). apply Nat.eqb_neq, Hne.
Qed.

Lemma contributions_row (row col : nat) (log : list (nat * nat * R)) :
  contributions row col log
  = map snd (List.filter (fun e => snd (fst e) =? col)
                         (List.filter (fun e => fst (fst e) =? row) log)).
Proof. unfold contributions. rewrite filter_andb. reflexivity. Qed.
End AgreementFacts.

(* ===================================================================== *)
(** * The entries of the dense matrix after the assembly of quadrangles   *)
(* ===================================================================== *)

Section DenseAssemblyFacts.
Context {R : Type} `{RealOps R}.
Import SequentialNodeLinearSystemImpl.

(** The additions of a log, made one after the other on the dense
    matrix. *)
Lemma dense_scatter_log (log : list (nat * nat * R)) :
  forall m : t R,
    dense_wf m ->
    Forall (fun e => fst (fst e) < nb_node m /\ snd (fst e) < nb_node m) log ->
    exists m',
      foldM (fun e m => matrixAddValue (fst (fst e)) (snd (fst e)) (snd e) m) log m = Ok m'
      /\ dense_wf m'
      /\ nb_node m' = nb_node m
      /\ forall row col old,
          get m row col = Ok old ->
          get m' row col = Ok (fold_left radd (contributions row col log) old).
Proof.
  induction log as [|[[r c] v] log IH]; intros m Hwf Hlog.
  - exists m. repeat split; auto.
  - apply Forall_cons_iff in Hlog as [[Hr Hc] Hlog]. cbn [fst snd] in Hr, Hc.
    destruct (dense_matrixAddValue_in_range m r c v Hwf Hr Hc)
      as (old0 & m1 & Hold0 & Hadd & Hwf1 & Hn1 & Hnew & Hframe).
    destruct (IH m1 Hwf1) as (m' & Hrun & Hwf' & Hn' & Hentries).
    { rewrite Hn1. exact Hlog. }
    exists m'. cbn [foldM fst snd]. rewrite Hadd. cbn [bind].
    split; [exact Hrun |]. split; [exact Hwf' |]. split; [congruence |].
    intros row col old Hold. unfold contributions. cbn [List.filter fst snd].
    destruct (Nat.eqb_spec r row) as [-> | Hne]; [destruct (Nat.eqb_spec c col) as [-> | Hne] |];
      cbn [andb map fold_left snd].
    + apply Hentries. rewrite Hnew. congruence.
    + apply Hentries. rewrite Hframe; [exact Hold | congruence].
    + apply Hentries. rewrite Hframe; [exact Hold | congruence].
Qed.

Lemma _checkCellType_QUAD4_quads (cells : list FemModule.TypedCell) (cell : FemModule.TypedCell) :
  FemModule._checkCellType "QUAD4" cells = Ok tt ->
  List.In cell cells ->
  exists q, cell = FemModule.IT_Quad4 q.
Proof.
  intros Hcheck Hin. destruct cell as [t | q]; [| eauto].
  rewrite (_checkCellType_QUAD4_triangle cells t Hin) in Hcheck. discriminate.
Qed.

(** On cells that are all quadrangles, [_assembleBilinearOperatorQUAD4]
    makes the additions of its log. *)
Lemma _assembleBilinearOperatorQUAD4_scatters_log
      (cells : list FemModule.TypedCell) (isOwn : nat -> bool) (m_node_coord : nat -> Real3.t R)
      (m : t R) :
  (forall cell, List.In cell cells -> exists q, cell = FemModule.IT_Quad4 q) ->
  FemModule._assembleBilinearOperatorQUAD4 cells isOwn m_node_coord m
  = foldM (fun e m => matrixAddValue (fst (fst e)) (snd (fst e)) (snd e) m)
          (quad4_log cells isOwn m_node_coord) m.
Proof.
  intros Hquads. unfold FemModule._assembleBilinearOperatorQUAD4, quad4_log.
  rewrite <- foldM_flat_map. apply foldM_ext. intros cell m1 Hcell.
  destruct (Hquads cell Hcell) as (q & ->). cbv zeta.
  rewrite <- foldM_flat_map. apply foldM_ext. intros [n1_index node1] m2 _.
  rewrite <- foldM_flat_map. apply foldM_ext. intros [n2_index node2] m3 _.
  rewrite <- foldM_guard. reflexivity.
Qed.

Lemma quad4_log_in_range (n : nat) (cells : list FemModule.TypedCell) (isOwn : nat -> bool)
      (m_node_coord : nat -> Real3.t R) :
  quads_in_range n cells ->
  Forall (fun e => fst (fst e) < n /\ snd (fst e) < n) (quad4_log cells isOwn m_node_coord).
Proof.
  intros Hrange. apply List.Forall_forall. intros e He.
  unfold quads_in_range in Hrange. rewrite List.Forall_forall in Hrange.
  unfold quad4_log in He. apply in_flat_map in He as (cell & Hcell & He).
  specialize (Hrange cell Hcell). destruct cell as [t | q]; [destruct He |].
  rewrite List.Forall_forall in Hrange.
  apply in_flat_map in He as ([n1_index node1] & Hin1 & He).
  apply in_flat_map in He as ([n2_index node2] & Hin2 & He).
  destruct (isOwn node1); [| destruct He]. destruct He as [<- | []].
  apply indexed_In in Hin1. apply indexed_In in Hin2. cbn [fst snd]. auto.
Qed.
End DenseAssemblyFacts.

(** X24: [_assembleBilinearOperatorQUAD4] on the dense linear system,
    for cells that [_checkCellType] has accepted for the mesh type
    "QUAD4" and whose nodes are rows of the system: the assembly returns,
    and the entry [(row, col)] of the matrix is its former value plus the
    values that the pass adds to it, one after the other in the order of
    the pass. *)
Theorem X24_quad4_assembly_accumulates_every_contribution :
  forall (R : Type) `{RealOps R} (cells : list FemModule.TypedCell) (isOwn : nat -> bool)
         (m_node_coord : nat -> Real3.t R) (m : SequentialNodeLinearSystemImpl.t R),
    dense_wf m ->
    quads_in_range (SequentialNodeLinearSystemImpl.nb_node m) cells ->
    FemModule._checkCellType "QUAD4" cells = Ok tt ->
    exists m',
      FemModule._assembleBilinearOperatorQUAD4 cells isOwn m_node_coord m = Ok m'
      /\ forall row col old,
          SequentialNodeLinearSystemImpl.get m row col = Ok old ->
          SequentialNodeLinearSystemImpl.get m' row col
          = Ok (fold_left radd (contributions row col (quad4_log cells isOwn m_node_coord)) old).
Proof.
  intros R ops cells isOwn m_node_coord m Hwf Hrange Hcheck.
  rewrite _assembleBilinearOperatorQUAD4_scatters_log
    by (intros cell Hcell; apply (_checkCellType_QUAD4_quads cells cell Hcheck Hcell)).
  destruct (dense_scatter_log (quad4_log cells isOwn m_node_coord) m Hwf
                              (quad4_log_in_range _ cells isOwn m_node_coord Hrange))
    as (m' & Hrun & _ & _ & Hentries).
  exists m'. split; [exact Hrun | exact Hentries].
Qed.

Lemma X24_quad4_assembly_witness :
  exists m',
    FemModule._assembleBilinearOperatorQUAD4
      [FemModule.IT_Quad4 (FemModule.mkQuad 0 1 3 2)] (fun node => negb (node =? 3))
      (Samples.two_triangles_coord (R := float)) (SequentialNodeLinearSystemImpl.build 4)
    = Ok m'
    /\ forall row col old,
        SequentialNodeLinearSystemImpl.get (SequentialNodeLinearSystemImpl.build 4) row col = Ok old ->
        SequentialNodeLinearSystemImpl.get m' row col
        = Ok (fold_left radd
                        (contributions row col
                           (quad4_log [FemModule.IT_Quad4 (FemModule.mkQuad 0 1 3 2)]
                                      (fun node => negb (node =? 3))
                                      Samples.two_triangles_coord))
                        old).
Proof.
  apply (X24_quad4_assembly_accumulates_every_contribution float).
  - apply dense_build_wf.
  - repeat constructor.
  - reflexivity.
Defined.

(* ===================================================================== *)
(** * The symmetry of the assembled matrix                                *)
(* ===================================================================== *)

Lemma contributions_flat_map {R A : Type} (row col : nat) (g : A -> list (nat * nat * R))
      (l : list A) :
  contributions row col (flat_map g l) = flat_map (fun a => contributions row col (g a)) l.
Proof.
  unfold contributions. induction l as [|a l IH]; simpl; [reflexivity |].
  rewrite List.filter_app, map_app, IH. reflexivity.
Qed.

Section AssembledSymmetryFacts.
Context {R : Type} `{RealOps R}.
Implicit Type m_node_coord : nat -> Real3.t R.
Import Mesh.

(** The values that one cell adds to the entry [(row, col)] of the row
    of an own node, by the positions of the nodes in the cell. *)
Lemma cell_contributions_positions (mesh : Mesh.t) (K_e : list R) (w : nat)
      (nodes : list (nat * nat)) (row col : nat) :
  isOwn mesh row = true ->
  contributions row col
    (flat_map (fun '(n1_index, node1) =>
                 flat_map (fun '(n2_index, node2) =>
                             if isOwn mesh node1
                             then [(node1, node2, nth (n1_index * w + n2_index) K_e r0)]
                             else [])
                          nodes)
              nodes)
  = flat_map (fun '(n1_index, node1) =>
                if node1 =? row
                then flat_map (fun '(n2_index, node2) =>
                                 if node2 =? col then [nth (n1_index * w + n2_index) K_e r0] else [])
                              nodes
                else [])
             nodes.
Proof.
  intros Hrow. rewrite contributions_flat_map. apply flat_map_ext. intros [n1_index node1].
  rewrite contributions_flat_map. destruct (Nat.eqb_spec node1 row) as [-> | Hne].
  - rewrite Hrow. apply flat_map_ext. intros [n2_index node2].
    unfold contributions. cbn [List.filter fst snd]. rewrite Nat.eqb_refl. cbn [andb].
    destruct (node2 =? col); reflexivity.
  - apply flat_map_nil. intros [n2_index node2] _. unfold contributions.
    destruct (isOwn mesh node1); [| reflexivity].
    cbn [List.filter fst snd]. rewrite (proj2 (Nat.eqb_neq node1 row) Hne). reflexivity.
Qed.

(** The values that one cell with three distinct nodes adds to the
    entries [(row, col)] and [(col, row)], for a symmetric element
    matrix. *)
Lemma cell_contributions_symmetric (mesh : Mesh.t) (K_e : list R) (cell : Cell) (row col : nat) :
  (forall i j, i < 3 -> j < 3 -> nth (i * 3 + j) K_e r0 = nth (j * 3 + i) K_e r0) ->
  proper_cell cell ->
  isOwn mesh row = true ->
  isOwn mesh col = true ->
  contributions row col
    (flat_map (fun '(n1_index, node1) =>
                 flat_map (fun '(n2_index, node2) =>
                             if isOwn mesh node1
                             then [(node1, node2, nth (n1_index * 3 + n2_index) K_e r0)]
                             else [])
                          (indexed (cell_nodes cell)))
              (indexed (cell_nodes cell)))
  = contributions col row
      (flat_map (fun '(n1_index, node1) =>
                   flat_map (fun '(n2_index, node2) =>
                               if isOwn mesh node1
                               then [(node1, node2, nth (n1_index * 3 + n2_index) K_e r0)]
                               else [])
                            (indexed (cell_nodes cell)))
                (indexed (cell_nodes cell))).
Proof.
  intros Hsym (Hab & Hbc & Hac) Hrow Hcol.
  rewrite !cell_contributions_positions by assumption.
  destruct cell as [a b c]. cbn [cnode0 cnode1 cnode2] in Hab, Hbc, Hac.
  assert (H01 := Hsym 0 1 ltac:(lia) ltac:(lia)).
  assert (H02 := Hsym 0 2 ltac:(lia) ltac:(lia)).
  assert (H12 := Hsym 1 2 ltac:(lia) ltac:(lia)).
  clear Hsym Hrow Hcol.
  cbn [indexed cell_nodes cnode0 cnode1 cnode2 length seq combine flat_map] in *.
  destruct (Nat.eqb_spec a row), (Nat.eqb_spec b row), (Nat.eqb_spec c row); try congruence;
    destruct (Nat.eqb_spec a col), (Nat.eqb_spec b col), (Nat.eqb_spec c col); try congruence;
    cbn [app]; congruence.
Qed.
End AssembledSymmetryFacts.

(** X25: in every arithmetic whose multiplication is commutative (that
    of binary64 is), on a valid mesh whose cells have three distinct
    nodes and edges that are faces, the matrix that the device-parallel
    pass assembles is symmetric on the rows of own nodes, entry for entry
    and without rounding differences: the entries [(row, col)] and
    [(col, row)] receive equal values in the same order. *)
Theorem X25_assembled_matrix_is_symmetric :
  forall (R : Type) `{RealOps R},
    (forall x y : R, (x * y)%real = (y * x)%real) ->
    forall (mesh : Mesh.t) (m_node_coord : nat -> Real3.t R),
      Mesh.valid mesh ->
      cell_edges_are_faces mesh ->
      Forall proper_cell (Mesh.allCells mesh) ->
      exists m,
        FemModule._assembleCsrAllGPUBilinearOperatorTRIA3 mesh m_node_coord = Ok m
        /\ forall row col,
            row < Mesh.nbNode mesh -> col < Mesh.nbNode mesh ->
            Mesh.isOwn mesh row = true -> Mesh.isOwn mesh col = true ->
            CsrFormat.entry m row col = CsrFormat.entry m col row.
Proof.
  intros R ops rmul_comm mesh m_node_coord Hvalid Hedges Hproper.
  rewrite _assembleCsrAllGPU_scatters_log.
  destruct (scattered_log_entries
              FemModule._assembleCsrAllGPU_probe mesh (device_parallel_log mesh m_node_coord)
              ltac:(reflexivity) Hvalid
              (device_parallel_log_admissible mesh m_node_coord Hvalid Hedges))
    as (m & -> & Hm).
  exists m. split; [reflexivity |].
  intros row col Hrow Hcol Hownr Hownc. rewrite (Hm row col Hrow), (Hm col row Hcol).
  f_equal. unfold device_parallel_log. rewrite !contributions_flat_map.
  apply flat_map_ext_In. intros cell Hcell. rewrite List.Forall_forall in Hproper.
  apply (cell_contributions_symmetric mesh _ cell row col); try assumption; [| auto].
  intros i j Hi Hj. apply _computeElementMatrixTRIA3GPU_symmetric; assumption.
Qed.

Lemma X25_assembled_matrix_witness :
  exists m,
    FemModule._assembleCsrAllGPUBilinearOperatorTRIA3 (R := float)
      Samples.two_triangles Samples.two_triangles_coord = Ok m
    /\ forall row col,
        row < Mesh.nbNode Samples.two_triangles -> col < Mesh.nbNode Samples.two_triangles ->
        Mesh.isOwn Samples.two_triangles row = true ->
        Mesh.isOwn Samples.two_triangles col = true ->
        CsrFormat.entry m row col = CsrFormat.entry m col row.
Proof.
  apply (@X25_assembled_matrix_is_symmetric float float_RealOps float_mul_comm).
  - exact two_triangles_valid.
  - exact two_triangles_cell_edges_are_faces.
  - repeat constructor; simpl; lia.
Defined.

(* ===================================================================== *)
(** * The rows of the assembled matrix sum to zero                        *)
(* ===================================================================== *)

Section RowSumFacts.
Import Mesh.
Local Open Scope Q_scope.

Lemma Qsum_app (l1 l2 : list Q) : Qsum (l1 ++ l2) == Qsum l1 + Qsum l2.
Proof.
  induction l1 as [|x l1 IH]; simpl; [ring |]. rewrite IH. ring.
Qed.

Lemma Qsum_flat_map_zero {A} (g : A -> list Q) (l : list A) :
  (forall a, List.In a l -> Qsum (g a) == 0) -> Qsum (flat_map g l) == 0.
Proof.
  induction l as [|a l IH]; intros Hg; simpl; [reflexivity |].
  rewrite Qsum_app, (Hg a (or_introl eq_refl)), IH; [ring |].
  intros a' Hin. apply Hg. right. exact Hin.
Qed.

Lemma fold_left_Qplus (l : list Q) : forall v, fold_left Qplus l v == v + Qsum l.
Proof.
  induction l as [|x l IH]; intros v; simpl; [ring |]. rewrite IH. ring.
Qed.

Lemma accumulated_Qsum (l : list Q) : entry_value (accumulated l) == Qsum l.
Proof.
  destruct l as [|v l]; simpl; [reflexivity |].
  change (@radd Q Q_RealOps) with Qplus. apply fold_left_Qplus.
Qed.

Lemma Qsum_indicator (c : nat) (v : Q) :
  forall (n a : nat),
    (a <= c < a + n)%nat ->
    Qsum (map (fun col => if c =? col then v else 0) (seq a n)) == v.
Proof.
  induction n as [|n IH]; intros a Hc; [lia |]. simpl.
  destruct (Nat.eqb_spec c a) as [-> | Hne].
  - assert (Hrest : forall k b, (a < b)%nat ->
                                Qsum (map (fun col => if a =? col then v else 0) (seq b k)) == 0).
    { induction k as [|k IHk]; intros b Hb; simpl; [reflexivity |].
      destruct (Nat.eqb_spec a b); [lia |]. rewrite IHk by lia. ring. }
    rewrite Hrest by lia. ring.
  - rewrite IH by lia. ring.
Qed.

Lemma Qsum_map_plus {A} (f g : A -> Q) (l : list A) :
  Qsum (map (fun x => f x + g x) l) == Qsum (map f l) + Qsum (map g l).
Proof.
  induction l as [|x l IH]; simpl; [ring |]. rewrite IH. ring.
Qed.

Lemma Qsum_map_ext {A} (f g : A -> Q) (l : list A) :
  (forall x, f x == g x) -> Qsum (map f l) == Qsum (map g l).
Proof.
  intros Hfg. induction l as [|x l IH]; simpl; [reflexivity |]. rewrite IH, Hfg. reflexivity.
Qed.

(** The contributions to a row, summed column after column. *)
Lemma Qsum_contributions (n row : nat) (log : list (nat * nat * Q)) :
  Forall (fun e => (snd (fst e) < n)%nat) log ->
  Qsum (map (fun col => Qsum (contributions row col log)) (seq 0 n))
  == Qsum (map snd (List.filter (fun e => fst (fst e) =? row) log)).
Proof.
  induction 1 as [|[[r c] v] log Hc _ IH]; cbn [fst snd] in *.
  - unfold contributions. simpl. induction (seq 0 n) as [|x l IHl]; simpl; [reflexivity |].
    rewrite IHl. ring.
  - cbn [List.filter fst snd]. destruct (Nat.eqb_spec r row) as [-> | Hne].
    + cbn [map snd Qsum fold_right]. fold (Qsum (map snd (List.filter (fun e => fst (fst e) =? row) log))).
      rewrite <- IH, <- (Qsum_indicator c v n 0) at 1 by lia.
      rewrite <- Qsum_map_plus. apply Qsum_map_ext. intros col.
      unfold contributions. cbn [List.filter fst snd]. rewrite Nat.eqb_refl. cbn [andb].
      destruct (c =? col); simpl; ring.
    + rewrite <- IH. apply Qsum_map_ext. intros col.
      unfold contributions. cbn [List.filter fst snd].
      rewrite (proj2 (Nat.eqb_neq r row) Hne). reflexivity.
Qed.

(** The values that one cell adds to a row sum to zero. *)
Lemma cell_row_contributions_sum (mesh : Mesh.t) (m_node_coord : nat -> Real3.t Q)
      (cell : Cell) (row : nat) :
  Qsum (map snd
            (List.filter (fun e : nat * nat * Q => fst (fst e) =? row)
               (flat_map (fun '(n1_index, node1) =>
                            flat_map (fun '(n2_index, node2) =>
                                        if isOwn mesh node1
                                        then [(node1, node2,
                                               nth (n1_index * 3 + n2_index)
                                                   (FemModule._computeElementMatrixTRIA3GPU
                                                      m_node_coord cell) r0)]
                                        else [])
                                     (indexed (cell_nodes cell)))
                         (indexed (cell_nodes cell)))))
  == 0.
Proof.
  assert (H0 := _computeElementMatrixTRIA3GPU_row_sum m_node_coord cell 0 ltac:(lia)).
  assert (H1 := _computeElementMatrixTRIA3GPU_row_sum m_node_coord cell 1 ltac:(lia)).
  assert (H2 := _computeElementMatrixTRIA3GPU_row_sum m_node_coord cell 2 ltac:(lia)).
  change (@r0 Q Q_RealOps) with 0.
  generalize dependent (FemModule._computeElementMatrixTRIA3GPU m_node_coord cell).
  intros K_e H0 H1 H2. destruct cell as [a b c].
  cbn [indexed cell_nodes cnode0 cnode1 cnode2 length seq combine flat_map app].
  destruct (isOwn mesh a), (isOwn mesh b), (isOwn mesh c);
    cbn [List.filter app fst snd map];
    destruct (a =? row), (b =? row), (c =? row);
    cbn [List.filter app fst snd map Qsum fold_right];
    lra.
Qed.
End RowSumFacts.

Lemma map_over_flat_map {A B C} (f : B -> C) (g : A -> list B) (l : list A) :
  map f (flat_map g l) = flat_map (fun a => map f (g a)) l.
Proof.
  induction l as [|a l IH]; simpl; [reflexivity |]. rewrite map_app, IH. reflexivity.
Qed.

(** X26: in exact arithmetic, on a valid mesh in which the edges of the
    cells are faces and no cell has a zero area, every row of the matrix
    that the device-parallel pass assembles sums to zero over the columns
    of the nodes of the mesh: before the boundary conditions are
    enforced, the assembled operator applied to a constant field is
    zero. *)
Theorem X26_assembled_rows_sum_to_zero :
  forall (mesh : Mesh.t) (m_node_coord : nat -> Real3.t Q),
    Mesh.valid mesh ->
    cell_edges_are_faces mesh ->
    no_flat_cell mesh m_node_coord ->
    exists m,
      FemModule._assembleCsrAllGPUBilinearOperatorTRIA3 mesh m_node_coord = Ok m
      /\ forall row,
          row < Mesh.nbNode mesh ->
          (row_sum m row (Mesh.nbNode mesh) == 0)%Q.
Proof.
  intros mesh m_node_coord Hvalid Hedges _.
  rewrite _assembleCsrAllGPU_scatters_log.
  assert (Hlog := device_parallel_log_admissible mesh m_node_coord Hvalid Hedges).
  destruct (scattered_log_entries
              FemModule._assembleCsrAllGPU_probe mesh (device_parallel_log mesh m_node_coord)
              ltac:(reflexivity) Hvalid Hlog)
    as (m & -> & Hm).
  exists m. split; [reflexivity |].
  intros row Hrow. unfold row_sum.
  rewrite (Qsum_map_ext _ (fun col => Qsum (contributions row col
                                              (device_parallel_log mesh m_node_coord))))
    by (intros col; rewrite (Hm row col Hrow); apply accumulated_Qsum).
  rewrite Qsum_contributions.
  - unfold device_parallel_log. rewrite filter_flat_map, map_over_flat_map.
    apply Qsum_flat_map_zero. intros cell _.
    apply (cell_row_contributions_sum mesh m_node_coord cell row).
  - eapply Forall_impl; [exact Hlog |].
    intros [[r c] v] [Hr Hc]. cbn [fst snd] in *.
    destruct Hc as [-> | Hj]; [exact Hr |].
    apply (joined_in_mesh mesh r c Hvalid Hj).
Qed.

Lemma X26_assembled_rows_witness :
  exists m,
    FemModule._assembleCsrAllGPUBilinearOperatorTRIA3 (R := Q)
      Samples.two_triangles Samples.two_triangles_coord = Ok m
    /\ forall row,
        row < Mesh.nbNode Samples.two_triangles ->
        (row_sum m row (Mesh.nbNode Samples.two_triangles) == 0)%Q.
Proof.
  apply X26_assembled_rows_sum_to_zero.
  - exact two_triangles_valid.
  - exact two_triangles_cell_edges_are_faces.
  - repeat constructor; intros Harea; vm_compute in Harea; discriminate.
Defined.


(* ===================================================================== *)
(** * The Dirichlet condition written into the diagonal slots             *)
(* ===================================================================== *)

Section DiagonalSlotFacts.
Context {R : Type} `{RealOps R} `{RealSqrt R}.
Implicit Types (cols : list Z) (vals rhs : list R).
Import Mesh.

Lemma diagonal_slot_node (mesh : Mesh.t) cols node node' i :
  diagonal_slot mesh cols node i -> diagonal_slot mesh cols node' i -> node = node'.
Proof. intros (_ & Hc & _) (_ & Hc' & _). rewrite Hc in Hc'. injection Hc' as E. lia. Qed.

(** A loop over distinct nodes whose body writes the diagonal slot and
    the right-hand side of the Dirichlet nodes. *)
Lemma diagonal_slots_loop (mesh : Mesh.t) cols (m_u_dirichlet : nat -> bool)
      (update : R -> R) (u_g : nat -> R)
      (body : nat -> list R * list R -> result (list R * list R)) (nodes : list nat) :
  List.NoDup nodes ->
  (forall node, List.In node nodes ->
                node < nbNode mesh
                /\ (m_u_dirichlet node = true -> exists i, diagonal_slot mesh cols node i)) ->
  (forall node vals rhs,
      List.In node nodes ->
      length vals = length cols ->
      length rhs = nbNode mesh ->
      (m_u_dirichlet node = false -> body node (vals, rhs) = Ok (vals, rhs))
      /\ (m_u_dirichlet node = true ->
          forall i, diagonal_slot mesh cols node i ->
                    exists old, vals !! i = Some old
                                /\ body node (vals, rhs)
                                   = Ok (<[i := update old]> vals, <[node := u_g node]> rhs))) ->
  forall vals rhs,
    length vals = length cols ->
    length rhs = nbNode mesh ->
    exists vals' rhs',
      foldM body nodes (vals, rhs) = Ok (vals', rhs')
      /\ length vals' = length cols
      /\ length rhs' = nbNode mesh
      /\ (forall node i,
             List.In node nodes -> m_u_dirichlet node = true -> diagonal_slot mesh cols node i ->
             exists old, vals !! i = Some old
                         /\ vals' !! i = Some (update old)
                         /\ rhs' !! node = Some (u_g node))
      /\ (forall j,
             (forall node, List.In node nodes -> m_u_dirichlet node = true ->
                           ~ diagonal_slot mesh cols node j) ->
             vals' !! j = vals !! j)
      /\ (forall node,
             ~ (List.In node nodes /\ m_u_dirichlet node = true) -> rhs' !! node = rhs !! node).
Proof.
  induction nodes as [|node nodes IH]; intros Hnd Hnodes Hbody vals rhs Hlv Hlr.
  - exists vals, rhs. split; [reflexivity |]. split; [exact Hlv |]. split; [exact Hlr |].
    split; [intros node i [] |]. split; auto.
  - apply List.NoDup_cons_iff in Hnd as [Hnotin Hnd].
    destruct (Hnodes node (or_introl eq_refl)) as [Hrange Hslot].
    destruct (Hbody node vals rhs (or_introl eq_refl) Hlv Hlr) as [Hfree Hdir].
    assert (Hnodes' : forall node', List.In node' nodes ->
                                    node' < nbNode mesh
                                    /\ (m_u_dirichlet node' = true ->
                                        exists i, diagonal_slot mesh cols node' i)).
    { intros node' Hin. apply Hnodes. right. exact Hin. }
    assert (Hbody' : forall node' vals rhs,
               List.In node' nodes ->
               length vals = length cols ->
               length rhs = nbNode mesh ->
               (m_u_dirichlet node' = false -> body node' (vals, rhs) = Ok (vals, rhs))
               /\ (m_u_dirichlet node' = true ->
                   forall i, diagonal_slot mesh cols node' i ->
                             exists old, vals !! i = Some old
                                         /\ body node' (vals, rhs)
                                            = Ok (<[i := update old]> vals,
                                                  <[node' := u_g node']> rhs))).
    { intros node' vals0 rhs0 Hin. apply Hbody. right. exact Hin. }
    cbn [foldM]. destruct (m_u_dirichlet node) eqn:Edir.
    + destruct (Hslot eq_refl) as (i & Hi).
      destruct (Hdir eq_refl i Hi) as (old & Hold & ->). cbn [bind].
      destruct (IH Hnd Hnodes' Hbody' (<[i := update old]> vals) (<[node := u_g node]> rhs))
        as (vals' & rhs' & Hrun & Hlv' & Hlr' & Hwritten & Hkept & Hrhs).
      { rewrite length_insert. exact Hlv. }
      { rewrite length_insert. exact Hlr. }
      exists vals', rhs'. split; [exact Hrun |]. split; [exact Hlv' |]. split; [exact Hlr' |].
      split; [| split].
      * intros node' i' [<- | Hin] Hdir' Hi'.
        -- assert (i' = i) as ->.
           { destruct Hi as (Hr & Hc & Hf), Hi' as (Hr' & Hc' & Hf').
             destruct (Nat.lt_trichotomy i' i) as [Hlt | [E | Hgt]]; [| exact E |].
             - exfalso. apply (Hf i'); [lia | exact Hc'].
             - exfalso. apply (Hf' i); [lia | exact Hc]. }
           exists old. split; [exact Hold |]. split.
           ++ rewrite Hkept.
              ** apply list_lookup_insert_eq. apply lookup_lt_is_Some_1. eauto.
              ** intros node' Hin' _ Hslot'.
                 apply Hnotin. rewrite (diagonal_slot_node mesh cols node node' i Hi Hslot').
                 exact Hin'.
           ++ rewrite Hrhs by (intros [Hin' _]; contradiction).
              apply list_lookup_insert_eq. lia.
        -- destruct (Hwritten node' i' Hin Hdir' Hi') as (old' & Hold' & Hval' & Hrhs').
           assert (Hne : i <> i').
           { intros ->. apply Hnotin.
             rewrite (diagonal_slot_node mesh cols node node' i' Hi Hi'). exact Hin. }
           rewrite list_lookup_insert_ne in Hold' by exact Hne.
           exists old'. auto.
      * intros j Hj. rewrite Hkept.
        -- apply list_lookup_insert_ne. intros ->. apply (Hj node (or_introl eq_refl) Edir Hi).
        -- intros node' Hin'. apply Hj. right. exact Hin'.
      * intros node' Hnot. rewrite Hrhs.
        -- apply list_lookup_insert_ne. intros ->. apply Hnot.
           split; [left; reflexivity | assumption].
        -- intros [Hin' Hdir']. apply Hnot. split; [right; assumption | assumption].
    + rewrite (Hfree eq_refl). cbn [bind].
      destruct (IH Hnd Hnodes' Hbody' vals rhs Hlv Hlr)
        as (vals' & rhs' & Hrun & Hlv' & Hlr' & Hwritten & Hkept & Hrhs).
      exists vals', rhs'. split; [exact Hrun |]. split; [exact Hlv' |]. split; [exact Hlr' |].
      split; [| split].
      * intros node' i' [<- | Hin] Hdir' Hi'; [congruence |].
        apply (Hwritten node' i' Hin Hdir' Hi').
      * intros j Hj. apply Hkept. intros node' Hin'. apply Hj. right. exact Hin'.
      * intros node' Hnot. apply Hrhs. intros [Hin' Hdir']. apply Hnot.
        split; [right; assumption | assumption].
Qed.
End DiagonalSlotFacts.

Section CsrGpuPenaltyFacts.
Context {R : Type} `{RealOps R} `{RealSqrt R}.
Implicit Types (cols : list Z) (vals rhs : list R).
Import Mesh.

Lemma na_setZ_in_range {A} (a : list A) (i : nat) (x : A) :
  i < length a -> FemModule.na_setZ a (Z.of_nat i) x = Ok (<[i := x]> a).
Proof.
  intros Hi. unfold FemModule.na_setZ.
  destruct (Z.ltb_spec (Z.of_nat i) 0); [lia |]. rewrite Nat2Z.id. apply na_set_in_range, Hi.
Qed.

Lemma na_getZ_lookup {A} (a : list A) (i : nat) (x : A) :
  a !! i = Some x -> FemModule.na_getZ a (Z.of_nat i) = Ok x.
Proof.
  intros Hi. unfold FemModule.na_getZ.
  destruct (Z.ltb_spec (Z.of_nat i) 0); [lia |]. rewrite Nat2Z.id. apply na_get_lookup, Hi.
Qed.

(** The Dirichlet block of [_assembleCsrGpuLinearOperator] when no own
    Dirichlet node is the last node and every own Dirichlet row holds
    its diagonal. *)
Lemma enforceDirichletCsrGpu_diagonal_slots
      (mesh : Mesh.t) (options : FemModule.Options) (m_u : nat -> R) (m_u_dirichlet : nat -> bool)
      (m : CsrFormat.t R) rhs :
  Mesh.valid mesh ->
  CsrFormat.m_matrix_row m = CsrFormat.m_matrix_row (built mesh) ->
  length (CsrFormat.m_matrix_column m) = nbFace mesh * 2 + nbNode mesh ->
  length (CsrFormat.m_matrix_value m) = nbFace mesh * 2 + nbNode mesh ->
  length rhs = nbNode mesh ->
  (forall node,
      node < nbNode mesh -> isOwn mesh node = true -> m_u_dirichlet node = true ->
      S node < nbNode mesh /\ exists i, diagonal_slot mesh (CsrFormat.m_matrix_column m) node i) ->
  FemModule.enforceDirichletMethod options = "Penalty"%string
  \/ FemModule.enforceDirichletMethod options = "WeakPenalty"%string ->
  exists vals' rhs',
    FemModule.enforceDirichletCsrGpu mesh options m_u m_u_dirichlet m rhs = Ok (vals', rhs')
    /\ length vals' = nbFace mesh * 2 + nbNode mesh
    /\ length rhs' = nbNode mesh
    /\ (forall node i,
           node < nbNode mesh -> isOwn mesh node = true -> m_u_dirichlet node = true ->
           diagonal_slot mesh (CsrFormat.m_matrix_column m) node i ->
           exists old,
             CsrFormat.m_matrix_value m !! i = Some old
             /\ vals' !! i
                = Some (if String.eqb (FemModule.enforceDirichletMethod options) "Penalty"
                        then FemModule.penalty options
                        else (old + FemModule.penalty options)%real)
             /\ rhs' !! node = Some (FemModule.penalty options * m_u node)%real)
    /\ (forall j,
           (forall node,
               node < nbNode mesh -> isOwn mesh node = true -> m_u_dirichlet node = true ->
               ~ diagonal_slot mesh (CsrFormat.m_matrix_column m) node j) ->
           vals' !! j = CsrFormat.m_matrix_value m !! j)
    /\ (forall node,
           ~ (isOwn mesh node = true /\ m_u_dirichlet node = true) ->
           rhs' !! node = rhs !! node).
Proof.
  intros Hvalid Hrows Hlc Hlv Hlr Hdiag Hmethod.
  destruct options as [method Penalty neumann].
  cbn [FemModule.enforceDirichletMethod FemModule.penalty] in *.
  set (P := Penalty).
  set (update := fun old : R =>
                   if String.eqb method "Penalty" then P else (old + P)%real).
  assert (Hloop : forall body,
             (forall node vals0 rhs0,
                 List.In node (ownNodes mesh) ->
                 length vals0 = length (CsrFormat.m_matrix_column m) ->
                 length rhs0 = nbNode mesh ->
                 (m_u_dirichlet node = false -> body node (vals0, rhs0) = Ok (vals0, rhs0))
                 /\ (m_u_dirichlet node = true ->
                     forall i, diagonal_slot mesh (CsrFormat.m_matrix_column m) node i ->
                               exists old, vals0 !! i = Some old
                                           /\ body node (vals0, rhs0)
                                              = Ok (<[i := update old]> vals0,
                                                    <[node := (P * m_u node)%real]> rhs0))) ->
             exists vals' rhs',
               foldM body (ownNodes mesh) (CsrFormat.m_matrix_value m, rhs) = Ok (vals', rhs')
               /\ length vals' = nbFace mesh * 2 + nbNode mesh
               /\ length rhs' = nbNode mesh
               /\ (forall node i,
                      node < nbNode mesh -> isOwn mesh node = true -> m_u_dirichlet node = true ->
                      diagonal_slot mesh (CsrFormat.m_matrix_column m) node i ->
                      exists old,
                        CsrFormat.m_matrix_value m !! i = Some old
                        /\ vals' !! i = Some (update old)
                        /\ rhs' !! node = Some (P * m_u node)%real)
               /\ (forall j,
                      (forall node,
                          node < nbNode mesh -> isOwn mesh node = true ->
                          m_u_dirichlet node = true ->
                          ~ diagonal_slot mesh (CsrFormat.m_matrix_column m) node j) ->
                      vals' !! j = CsrFormat.m_matrix_value m !! j)
               /\ (forall node,
                      ~ (isOwn mesh node = true /\ m_u_dirichlet node = true) ->
                      rhs' !! node = rhs !! node)).
  { intros body Hbody.
    destruct (diagonal_slots_loop mesh (CsrFormat.m_matrix_column m) m_u_dirichlet update
                                  (fun node => (P * m_u node)%real) body (ownNodes mesh)
                                  (ownNodes_NoDup mesh))
      with (vals := CsrFormat.m_matrix_value m) (rhs := rhs)
      as (vals' & rhs' & Hrun & Hlv' & Hlr' & Hwritten & Hkept & Hrhs).
    - intros node Hin. apply ownNodes_In in Hin as [Hnode Hown]. split; [exact Hnode |].
      intros Hdir. apply (Hdiag node Hnode Hown Hdir).
    - exact Hbody.
    - lia.
    - exact Hlr.
    - exists vals', rhs'. split; [exact Hrun |]. split; [lia |]. split; [exact Hlr' |].
      split; [| split].
      + intros node i Hnode Hown Hdir Hi. apply Hwritten; [| exact Hdir | exact Hi].
        apply ownNodes_In. auto.
      + intros j Hj. apply Hkept. intros node Hin Hdir.
        apply ownNodes_In in Hin as [Hnode Hown]. apply Hj; assumption.
      + intros node Hnot. apply Hrhs. intros [Hin Hdir].
        apply ownNodes_In in Hin as [Hnode Hown]. apply Hnot. auto. }
  assert (Hsearch : forall node i,
             List.In node (ownNodes mesh) -> m_u_dirichlet node = true ->
             diagonal_slot mesh (CsrFormat.m_matrix_column m) node i ->
             i < nbFace mesh * 2 + nbNode mesh
             /\ node < nbNode mesh
             /\ exists begin end_,
                 na_get (CsrFormat.m_matrix_row m) node = Ok begin
                 /\ FemModule.diagonal_search_end (CsrFormat.m_matrix_row m)
                                                  (length (CsrFormat.m_matrix_column m))
                                                  begin node = Ok end_
                 /\ FemModule._getValIndexCsrGpu begin end_ node (CsrFormat.m_matrix_column m)
                    = Ok (Z.of_nat i)).
  { intros node i Hin Hdir Hi. apply ownNodes_In in Hin as [Hnode Hown].
    destruct (Hdiag node Hnode Hown Hdir) as [Hlast _].
    destruct Hi as (Hspan & Hc & Hfirst).
    assert (Hen : sum_to (reserved mesh) (S node) <= nbFace mesh * 2 + nbNode mesh).
    { rewrite <- (reserved_total mesh Hvalid). apply sum_to_mono. lia. }
    split; [lia |]. split; [exact Hnode |]. rewrite Hrows.
    exists (sum_to (reserved mesh) node).
    rewrite (na_get_lookup _ _ _ (built_row_begin mesh node Hnode)).
    unfold FemModule.diagonal_search_end. destruct (Z.eqb _ _).
    - eexists. split; [reflexivity |]. split; [reflexivity |].
      apply _getValIndexCsrGpu_found; [lia | lia | | exact Hc].
      intros j Hj. apply Hfirst. lia.
    - replace (node + 1) with (S node) by lia.
      rewrite (na_get_lookup _ _ _ (built_row_begin mesh (S node) Hlast)).
      eexists. split; [reflexivity |]. split; [reflexivity |].
      apply _getValIndexCsrGpu_found; [lia | lia | | exact Hc].
      intros j Hj. apply Hfirst. lia. }
  unfold FemModule.enforceDirichletCsrGpu. cbv zeta.
  cbn [FemModule.enforceDirichletMethod FemModule.penalty].
  destruct Hmethod as [-> | ->].
  - assert (Eupd : forall old, update old = P) by reflexivity.
    change (String.eqb "Penalty" "Penalty") with true. cbv iota.
    apply Hloop. intros node vals0 rhs0 Hin Hlv0 Hlr0. split.
    + intros ->. reflexivity.
    + intros Hdir i Hi. rewrite Hdir.
      destruct (Hsearch node i Hin Hdir Hi) as (Hirange & Hnode & begin & end_ & Hb & He & Hidx).
      rewrite Hb. cbn [bind]. rewrite He. cbn [bind]. rewrite Hidx. cbn [bind]. destruct (lookup_lt_is_Some_2 vals0 i ltac:(lia)) as [old Hold].
      exists old. split; [exact Hold |].
      rewrite na_setZ_in_range by lia. cbn [bind].
      rewrite na_set_in_range by lia. cbn [bind]. rewrite Eupd. reflexivity.
  - assert (Eupd : forall old, update old = (old + P)%real) by reflexivity.
    change (String.eqb "WeakPenalty" "Penalty") with false.
    change (String.eqb "WeakPenalty" "WeakPenalty") with true. cbv iota.
    apply Hloop. intros node vals0 rhs0 Hin Hlv0 Hlr0. split.
    + intros ->. reflexivity.
    + intros Hdir i Hi. rewrite Hdir.
      destruct (Hsearch node i Hin Hdir Hi) as (Hirange & Hnode & begin & end_ & Hb & He & Hidx).
      rewrite Hb. cbn [bind]. rewrite He. cbn [bind]. rewrite Hidx. cbn [bind]. destruct (lookup_lt_is_Some_2 vals0 i ltac:(lia)) as [old Hold].
      exists old. split; [exact Hold |].
      rewrite (na_getZ_lookup _ _ _ Hold). cbn [bind].
      rewrite na_setZ_in_range by lia. cbn [bind].
      rewrite na_set_in_range by lia. cbn [bind]. rewrite Eupd. reflexivity.
Qed.
End CsrGpuPenaltyFacts.

Section CsrGpuOperatorFacts.
Context {R : Type} `{RealOps R} `{RealSqrt R}.
Import Mesh.

(** The source and flux terms added to the array [m_rhs_vect] return and
    leave the entries of the Dirichlet nodes. *)
Lemma source_and_flux_vect_skip
      (mesh : Mesh.t) (m_node_coord : nat -> Real3.t R) (options : FemModule.Options)
      (f ElementNodes : R) (m_u_dirichlet : nat -> bool) (vect : list R) :
  Mesh.valid mesh ->
  neumann_surfaces_in_mesh mesh options ->
  length vect = nbNode mesh ->
  exists vect',
    (do v <- FemModule.sourceTermCsr mesh m_node_coord f ElementNodes m_u_dirichlet vect ;;
     FemModule.fluxTermsCsr mesh m_node_coord options m_u_dirichlet v) = Ok vect'
    /\ length vect' = nbNode mesh
    /\ forall node, m_u_dirichlet node = true -> vect' !! node = vect !! node.
Proof.
  intros Hvalid Hsurfaces Hlen.
  assert (Hrep : represents (nbNode mesh) vect (fun d => default r0 (vect !! d))).
  { split; [exact Hlen | reflexivity]. }
  destruct (sourceTerm_represents mesh m_node_coord f ElementNodes m_u_dirichlet vect _
                                  Hvalid Hrep) as (vect1 & -> & Hrep1).
  cbn [bind].
  destruct (fluxTerms_represents mesh m_node_coord options m_u_dirichlet vect1 _
                                 Hsurfaces Hrep1) as (vect2 & -> & [Hlen2 Hrep2]).
  exists vect2. split; [reflexivity |]. split; [exact Hlen2 |].
  intros node Hdir.
  assert (E := Hrep2 node). rewrite source_and_flux_skip in E by (rewrite Hdir; reflexivity).
  destruct (Nat.lt_ge_cases node (nbNode mesh)) as [Hlt | Hge].
  - destruct (lookup_lt_is_Some_2 vect node ltac:(lia)) as [x Hx].
    destruct (lookup_lt_is_Some_2 vect2 node ltac:(lia)) as [y Hy].
    rewrite Hx, Hy in *. simpl in E. congruence.
  - rewrite !lookup_ge_None_2 by lia. reflexivity.
Qed.
(** [_assembleCsrGpuLinearOperator] when no own Dirichlet node is the
    last node and every own Dirichlet row holds its diagonal. *)
Lemma _assembleCsrGpuLinearOperator_diagonal_slots :
  forall (mesh : Mesh.t) (m_node_coord : nat -> Real3.t R) (options : FemModule.Options)
         (f ElementNodes : R) (m_u : nat -> R) (m_u_dirichlet : nat -> bool)
         (m : CsrFormat.t R),
    Mesh.valid mesh ->
    neumann_surfaces_in_mesh mesh options ->
    CsrFormat.m_matrix_row m = CsrFormat.m_matrix_row (built mesh) ->
    length (CsrFormat.m_matrix_column m) = Mesh.nbFace mesh * 2 + Mesh.nbNode mesh ->
    length (CsrFormat.m_matrix_value m) = Mesh.nbFace mesh * 2 + Mesh.nbNode mesh ->
    (forall node,
        node < Mesh.nbNode mesh -> Mesh.isOwn mesh node = true -> m_u_dirichlet node = true ->
        S node < Mesh.nbNode mesh
        /\ exists i, diagonal_slot mesh (CsrFormat.m_matrix_column m) node i) ->
    FemModule.enforceDirichletMethod options = "Penalty"%string
    \/ FemModule.enforceDirichletMethod options = "WeakPenalty"%string ->
    exists m' rhs',
      FemModule._assembleCsrGpuLinearOperator mesh m_node_coord options f ElementNodes
                                              m_u m_u_dirichlet m
      = Ok (m', rhs')
      /\ CsrFormat.m_matrix_row m' = CsrFormat.m_matrix_row m
      /\ CsrFormat.m_matrix_column m' = CsrFormat.m_matrix_column m
      /\ length (CsrFormat.m_matrix_value m') = length (CsrFormat.m_matrix_value m)
      /\ (forall node i,
             node < Mesh.nbNode mesh -> Mesh.isOwn mesh node = true ->
             m_u_dirichlet node = true ->
             diagonal_slot mesh (CsrFormat.m_matrix_column m) node i ->
             exists old,
               CsrFormat.m_matrix_value m !! i = Some old
               /\ CsrFormat.m_matrix_value m' !! i
                  = Some (if String.eqb (FemModule.enforceDirichletMethod options) "Penalty"
                          then FemModule.penalty options
                          else (old + FemModule.penalty options)%real)
               /\ rhs' !! node = Some (FemModule.penalty options * m_u node)%real)
      /\ (forall j,
             (forall node,
                 node < Mesh.nbNode mesh -> Mesh.isOwn mesh node = true ->
                 m_u_dirichlet node = true ->
                 ~ diagonal_slot mesh (CsrFormat.m_matrix_column m) node j) ->
             CsrFormat.m_matrix_value m' !! j = CsrFormat.m_matrix_value m !! j).
Proof.
  intros mesh m_node_coord options f ElementNodes m_u m_u_dirichlet m
         Hvalid Hsurfaces Hrows Hlc Hlv Hdiag Hmethod.
  unfold FemModule._assembleCsrGpuLinearOperator. cbv zeta.
  destruct (enforceDirichletCsrGpu_diagonal_slots
              mesh options m_u m_u_dirichlet m (replicate (Mesh.nbNode mesh) r0)
              Hvalid Hrows Hlc Hlv ltac:(apply length_replicate) Hdiag Hmethod)
    as (vals1 & rhs1 & -> & Hlv1 & Hlr1 & Hwritten & Hkept & _).
  cbn [bind].
  destruct (source_and_flux_vect_skip mesh m_node_coord options f ElementNodes m_u_dirichlet
                                      rhs1 Hvalid Hsurfaces Hlr1)
    as (rhs2 & Hrun & _ & Hskip).
  destruct (FemModule.sourceTermCsr mesh m_node_coord f ElementNodes m_u_dirichlet rhs1)
    as [rhs_s | e]; cbn [bind] in Hrun |- *; [| discriminate].
  rewrite Hrun. cbn [bind].
  eexists _, _. split; [reflexivity |]. split; [reflexivity |]. split; [reflexivity |].
  cbn [CsrFormat.with_slots CsrFormat.m_matrix_value]. split; [lia |]. split.
  - intros node i Hnode Hown Hdir Hi.
    destruct (Hwritten node i Hnode Hown Hdir Hi) as (old & Hold & Hval & Hrhs).
    exists old. split; [exact Hold |]. split; [exact Hval |].
    rewrite (Hskip node Hdir). exact Hrhs.
  - exact Hkept.
Qed.
End CsrGpuOperatorFacts.

(** X27: [_assembleCsrGpuLinearOperator] with the method "Penalty" or
    "WeakPenalty", on a store with the row offsets of
    [_buildMatrixGpuBuildLessCsr], when no own Dirichlet node is the
    last node and the row of every own Dirichlet node holds its diagonal
    column: the operator returns and keeps the rows and columns of the
    store; for every own Dirichlet node the first slot of its row that
    holds the diagonal column receives the penalty ("Penalty") or its
    former value plus the penalty ("WeakPenalty"), and the right-hand
    side of the node is the penalty times the prescribed value; no other
    value slot changes. *)
Theorem X27_csr_gpu_dirichlet_writes_diagonal_slots :
  forall (R : Type) `{RealOps R} `{RealSqrt R}
         (mesh : Mesh.t) (m_node_coord : nat -> Real3.t R) (options : FemModule.Options)
         (f ElementNodes : R) (m_u : nat -> R) (m_u_dirichlet : nat -> bool)
         (m : CsrFormat.t R),
    Mesh.valid mesh ->
    neumann_surfaces_in_mesh mesh options ->
    CsrFormat.m_matrix_row m = CsrFormat.m_matrix_row (built mesh) ->
    length (CsrFormat.m_matrix_column m) = Mesh.nbFace mesh * 2 + Mesh.nbNode mesh ->
    length (CsrFormat.m_matrix_value m) = Mesh.nbFace mesh * 2 + Mesh.nbNode mesh ->
    (forall node,
        node < Mesh.nbNode mesh -> Mesh.isOwn mesh node = true -> m_u_dirichlet node = true ->
        S node < Mesh.nbNode mesh
        /\ exists i, diagonal_slot mesh (CsrFormat.m_matrix_column m) node i) ->
    FemModule.enforceDirichletMethod options = "Penalty"%string
    \/ FemModule.enforceDirichletMethod options = "WeakPenalty"%string ->
    exists m' rhs',
      FemModule._assembleCsrGpuLinearOperator mesh m_node_coord options f ElementNodes
                                              m_u m_u_dirichlet m
      = Ok (m', rhs')
      /\ CsrFormat.m_matrix_row m' = CsrFormat.m_matrix_row m
      /\ CsrFormat.m_matrix_column m' = CsrFormat.m_matrix_column m
      /\ length (CsrFormat.m_matrix_value m') = length (CsrFormat.m_matrix_value m)
      /\ (forall node i,
             node < Mesh.nbNode mesh -> Mesh.isOwn mesh node = true ->
             m_u_dirichlet node = true ->
             diagonal_slot mesh (CsrFormat.m_matrix_column m) node i ->
             exists old,
               CsrFormat.m_matrix_value m !! i = Some old
               /\ CsrFormat.m_matrix_value m' !! i
                  = Some (if String.eqb (FemModule.enforceDirichletMethod options) "Penalty"
                          then FemModule.penalty options
                          else (old + FemModule.penalty options)%real)
               /\ rhs' !! node = Some (FemModule.penalty options * m_u node)%real)
      /\ (forall j,
             (forall node,
                 node < Mesh.nbNode mesh -> Mesh.isOwn mesh node = true ->
                 m_u_dirichlet node = true ->
                 ~ diagonal_slot mesh (CsrFormat.m_matrix_column m) node j) ->
             CsrFormat.m_matrix_value m' !! j = CsrFormat.m_matrix_value m !! j).
Proof.
  intros R ops sq. apply _assembleCsrGpuLinearOperator_diagonal_slots.
Qed.

Lemma X27_csr_gpu_dirichlet_witness :
  exists m' rhs',
    FemModule._assembleCsrGpuLinearOperator
      Samples.single_triangle Samples.right_triangle_coord (PenaltySample.options "Penalty")
      1%float 3%float PenaltySample.m_u PenaltySample.m_u_dirichlet
      (CsrFormat.mk [0; 3; 6] [0; 1; 2; 0; 1; 2; 0; 1; 2]%Z right_triangle_stiffness [0; 0; 0] 0)
    = Ok (m', rhs')
    /\ CsrFormat.m_matrix_row m' = [0; 3; 6]
    /\ CsrFormat.m_matrix_column m' = [0; 1; 2; 0; 1; 2; 0; 1; 2]%Z
    /\ length (CsrFormat.m_matrix_value m') = length right_triangle_stiffness
    /\ (forall node i,
           node < 3 -> Mesh.isOwn Samples.single_triangle node = true ->
           PenaltySample.m_u_dirichlet node = true ->
           diagonal_slot Samples.single_triangle [0; 1; 2; 0; 1; 2; 0; 1; 2]%Z node i ->
           exists old,
             right_triangle_stiffness !! i = Some old
             /\ CsrFormat.m_matrix_value m' !! i = Some 1.0e30%float
             /\ rhs' !! node = Some (1.0e30 * PenaltySample.m_u node)%float)
    /\ (forall j,
           (forall node,
               node < 3 -> Mesh.isOwn Samples.single_triangle node = true ->
           PenaltySample.m_u_dirichlet node = true ->
               ~ diagonal_slot Samples.single_triangle [0; 1; 2; 0; 1; 2; 0; 1; 2]%Z node j) ->
           CsrFormat.m_matrix_value m' !! j = right_triangle_stiffness !! j).
Proof.
  refine (X27_csr_gpu_dirichlet_writes_diagonal_slots
            float Samples.single_triangle Samples.right_triangle_coord
            (PenaltySample.options "Penalty") 1%float 3%float
            PenaltySample.m_u PenaltySample.m_u_dirichlet
            (CsrFormat.mk [0; 3; 6] [0; 1; 2; 0; 1; 2; 0; 1; 2]%Z right_triangle_stiffness
                          [0; 0; 0] 0) _ _ _ _ _ _ _).
  - exact single_triangle_valid.
  - constructor.
  - reflexivity.
  - reflexivity.
  - reflexivity.
  - intros node Hnode _ Hdir. unfold PenaltySample.m_u_dirichlet in Hdir.
    apply Nat.eqb_eq in Hdir. subst node. split; [simpl; lia |].
    exists 0. split; [vm_compute; lia |]. split; [reflexivity |].
    intros j Hj. vm_compute in Hj. lia.
  - left. reflexivity.
Defined.

(* ===================================================================== *)
(** * From the scatter pass to the Dirichlet condition                    *)
(* ===================================================================== *)

Section EntrySlotFacts.
Context {R : Type} `{RealOps R}.
Implicit Types (cols : list Z) (vals : list R) (m : CsrFormat.t R).
Import Mesh.

Lemma find_first {A} (P : A -> bool) (l : list A) :
  forall k x,
    l !! k = Some x -> P x = true ->
    (forall j y, j < k -> l !! j = Some y -> P y = false) ->
    List.find P l = Some x.
Proof.
  induction l as [|a l IH]; intros [|k] x Hk Hx Hbefore; simpl in *; try discriminate.
  - injection Hk as ->. rewrite Hx. reflexivity.
  - rewrite (Hbefore 0 a ltac:(lia) eq_refl).
    apply (IH k x Hk Hx). intros j y Hj Hy. apply (Hbefore (S j) y ltac:(lia) Hy).
Qed.

Lemma find_first_inv {A} (P : A -> bool) (l : list A) (x : A) :
  List.find P l = Some x ->
  exists k, l !! k = Some x /\ P x = true
            /\ forall j y, j < k -> l !! j = Some y -> P y = false.
Proof.
  induction l as [|a l IH]; simpl; [discriminate |].
  destruct (P a) eqn:Ea.
  - intros E. injection E as ->. exists 0. split; [reflexivity |]. split; [exact Ea |].
    intros j y Hj. lia.
  - intros Hfind. destruct (IH Hfind) as (k & Hk & Hx & Hbefore).
    exists (S k). split; [exact Hk |]. split; [exact Hx |].
    intros [|j] y Hj Hy; simpl in Hy.
    + injection Hy as <-. exact Ea.
    + apply (Hbefore j y ltac:(lia) Hy).
Qed.

Lemma combine_lookup_inv cols vals i c v :
  combine cols vals !! i = Some (c, v) -> cols !! i = Some c /\ vals !! i = Some v.
Proof.
  revert vals i. induction cols as [|c0 cols IH]; intros [|v0 vals] [|i] Hi;
    simpl in *; try discriminate.
  - injection Hi as -> ->. auto.
  - apply IH, Hi.
Qed.

Lemma span_row_unique (f : nat -> nat) (r r' i : nat) :
  sum_to f r <= i < sum_to f (S r) -> sum_to f r' <= i < sum_to f (S r') -> r = r'.
Proof.
  intros Hr Hr'. destruct (Nat.lt_trichotomy r r') as [Hlt | [E | Hgt]]; [| exact E |].
  - assert (sum_to f (S r) <= sum_to f r') by (apply sum_to_mono; lia). lia.
  - assert (sum_to f (S r') <= sum_to f r) by (apply sum_to_mono; lia). lia.
Qed.

(** The entry of a store with the row offsets of [built], read off the
    span of its row. *)
Lemma entry_unfold (mesh : Mesh.t) m row col :
  Mesh.valid mesh ->
  CsrFormat.m_matrix_row m = CsrFormat.m_matrix_row (built mesh) ->
  length (CsrFormat.m_matrix_column m) = nbFace mesh * 2 + nbNode mesh ->
  row < nbNode mesh ->
  CsrFormat.entry m row col
  = match List.find (fun s => Z.eqb (fst s) (Z.of_nat col))
                    (take (reserved mesh row)
                          (drop (sum_to (reserved mesh) row)
                                (combine (CsrFormat.m_matrix_column m)
                                         (CsrFormat.m_matrix_value m)))) with
    | Some s => Some (snd s)
    | None => None
    end.
Proof.
  intros Hvalid Hrows Hlc Hrow. unfold CsrFormat.entry. rewrite Hrows.
  rewrite (built_row_begin mesh row Hrow).
  replace (length (CsrFormat.m_matrix_column m))
    with (length (CsrFormat.m_matrix_column (built (R := R) mesh)))
    by (simpl; rewrite length_replicate; lia).
  rewrite (built_row_end mesh row Hvalid Hrow).
  replace (sum_to (reserved mesh) (S row) - sum_to (reserved mesh) row)
    with (reserved mesh row) by (simpl; lia).
  reflexivity.
Qed.

Lemma entry_of_slot (mesh : Mesh.t) m row col i v :
  Mesh.valid mesh ->
  CsrFormat.m_matrix_row m = CsrFormat.m_matrix_row (built mesh) ->
  length (CsrFormat.m_matrix_column m) = nbFace mesh * 2 + nbNode mesh ->
  row < nbNode mesh ->
  entry_slot mesh (CsrFormat.m_matrix_column m) row col i ->
  CsrFormat.m_matrix_value m !! i = Some v ->
  CsrFormat.entry m row col = Some v.
Proof.
  intros Hvalid Hrows Hlc Hrow (Hspan & Hc & Hfirst) Hv.
  rewrite (entry_unfold mesh m row col Hvalid Hrows Hlc Hrow).
  set (b := sum_to (reserved mesh) row) in *.
  assert (Hse : sum_to (reserved mesh) (S row) = b + reserved mesh row) by reflexivity.
  rewrite (find_first _ _ (i - b) (Z.of_nat col, v)).
  - reflexivity.
  - rewrite lookup_take_lt by lia. rewrite lookup_drop.
    replace (b + (i - b)) with i by lia. apply combine_lookup; assumption.
  - apply Z.eqb_refl.
  - intros j [c y] Hj Hy. rewrite lookup_take_lt in Hy by lia. rewrite lookup_drop in Hy.
    apply combine_lookup_inv in Hy as [Hcj _]. cbn [fst].
    apply Z.eqb_neq. intros ->. apply (Hfirst (b + j)); [lia | exact Hcj].
Qed.

Lemma slot_of_entry (mesh : Mesh.t) m row col v :
  Mesh.valid mesh ->
  CsrFormat.m_matrix_row m = CsrFormat.m_matrix_row (built mesh) ->
  length (CsrFormat.m_matrix_column m) = nbFace mesh * 2 + nbNode mesh ->
  length (CsrFormat.m_matrix_value m) = nbFace mesh * 2 + nbNode mesh ->
  row < nbNode mesh ->
  CsrFormat.entry m row col = Some v ->
  exists i, entry_slot mesh (CsrFormat.m_matrix_column m) row col i
            /\ CsrFormat.m_matrix_value m !! i = Some v.
Proof.
  intros Hvalid Hrows Hlc Hlv Hrow.
  rewrite (entry_unfold mesh m row col Hvalid Hrows Hlc Hrow).
  set (b := sum_to (reserved mesh) row).
  assert (Hse : sum_to (reserved mesh) (S row) = b + reserved mesh row) by reflexivity.
  assert (Hen : b + reserved mesh row <= nbFace mesh * 2 + nbNode mesh).
  { rewrite <- Hse, <- (reserved_total mesh Hvalid). apply sum_to_mono. lia. }
  destruct (List.find _ _) as [[c y] |] eqn:Hfind; [| discriminate].
  intros E. injection E as ->.
  apply find_first_inv in Hfind as (k & Hk & Hc & Hbefore). cbn [fst] in Hc.
  apply Z.eqb_eq in Hc. subst c.
  assert (Hkn : k < reserved mesh row).
  { apply lookup_lt_Some in Hk. rewrite length_take in Hk. lia. }
  rewrite lookup_take_lt in Hk by exact Hkn. rewrite lookup_drop in Hk.
  apply combine_lookup_inv in Hk as [Hck Hvk].
  exists (b + k). split; [| exact Hvk]. split; [unfold b in *; lia |]. split; [exact Hck |].
  intros j Hj Hcj.
  destruct (lookup_lt_is_Some_2 (CsrFormat.m_matrix_value m) j ltac:(unfold b in *; lia))
    as [y Hy].
  assert (Hfalse := Hbefore (j - b) (Z.of_nat col, y) ltac:(unfold b in *; lia)).
  rewrite lookup_take_lt, lookup_drop in Hfalse by (unfold b in *; lia).
  replace (b + (j - b)) with j in Hfalse by (unfold b in *; lia).
  specialize (Hfalse (combine_lookup _ _ _ _ _ Hcj Hy)). cbn [fst] in Hfalse.
  rewrite Z.eqb_refl in Hfalse. discriminate.
Qed.

(** An entry depends on the columns of the store and on the value of its
    slot only. *)
Lemma entry_ext (mesh : Mesh.t) m m' row col :
  Mesh.valid mesh ->
  CsrFormat.m_matrix_row m = CsrFormat.m_matrix_row (built mesh) ->
  CsrFormat.m_matrix_row m' = CsrFormat.m_matrix_row (built mesh) ->
  CsrFormat.m_matrix_column m' = CsrFormat.m_matrix_column m ->
  length (CsrFormat.m_matrix_column m) = nbFace mesh * 2 + nbNode mesh ->
  length (CsrFormat.m_matrix_value m) = nbFace mesh * 2 + nbNode mesh ->
  length (CsrFormat.m_matrix_value m') = nbFace mesh * 2 + nbNode mesh ->
  row < nbNode mesh ->
  (forall i, entry_slot mesh (CsrFormat.m_matrix_column m) row col i ->
             CsrFormat.m_matrix_value m' !! i = CsrFormat.m_matrix_value m !! i) ->
  CsrFormat.entry m' row col = CsrFormat.entry m row col.
Proof.
  intros Hvalid Hrows Hrows' Hcols Hlc Hlv Hlv' Hrow Hsame.
  assert (Hlc' : length (CsrFormat.m_matrix_column m') = nbFace mesh * 2 + nbNode mesh)
    by (rewrite Hcols; exact Hlc).
  destruct (CsrFormat.entry m row col) as [v |] eqn:Em.
  - destruct (slot_of_entry mesh m row col v Hvalid Hrows Hlc Hlv Hrow Em) as (i & Hi & Hv).
    apply (entry_of_slot mesh m' row col i v Hvalid Hrows' Hlc' Hrow).
    + rewrite Hcols. exact Hi.
    + rewrite (Hsame i Hi). exact Hv.
  - destruct (CsrFormat.entry m' row col) as [v' |] eqn:Em'; [| reflexivity].
    destruct (slot_of_entry mesh m' row col v' Hvalid Hrows' Hlc' Hlv' Hrow Em')
      as (i & Hi & Hv').
    rewrite Hcols in Hi.
    destruct (lookup_lt_is_Some_2 (CsrFormat.m_matrix_value m) i) as [v Hv].
    { destruct Hi as (_ & Hc & _). apply lookup_lt_Some in Hc. lia. }
    rewrite (entry_of_slot mesh m row col i v Hvalid Hrows Hlc Hrow Hi Hv) in Em. discriminate.
Qed.

Lemma accumulated_in (row col : nat) (v : R) (log : list (nat * nat * R)) :
  List.In (row, col, v) log -> exists old, accumulated (contributions row col log) = Some old.
Proof.
  intros Hin. unfold contributions.
  assert (Hf : List.In (row, col, v)
                       (List.filter (fun e => (fst (fst e) =? row) && (snd (fst e) =? col)) log)).
  { apply filter_In. split; [exact Hin |]. cbn [fst snd]. rewrite !Nat.eqb_refl. reflexivity. }
  destruct (List.filter _ log) as [|e l]; [destruct Hf |]. simpl. eauto.
Qed.

(** The device-parallel pass adds to the diagonal entry of every own
    node of a cell. *)
Lemma device_parallel_log_diagonal (mesh : Mesh.t) (m_node_coord : nat -> Real3.t R)
      (cell : Cell) (node : nat) :
  List.In cell (allCells mesh) ->
  List.In node (cell_nodes cell) ->
  isOwn mesh node = true ->
  exists v, List.In (node, node, v) (device_parallel_log mesh m_node_coord).
Proof.
  intros Hcell Hnode Hown.
  assert (Hpos : exists p, List.In (p, node) (indexed (cell_nodes cell))).
  { destruct cell as [a b c]. simpl in Hnode |- *.
    destruct Hnode as [<- | [<- | [<- | []]]]; [exists 0 | exists 1 | exists 2]; auto. }
  destruct Hpos as (p & Hp). eexists. unfold device_parallel_log.
  apply in_flat_map. exists cell. split; [exact Hcell |].
  apply in_flat_map. exists (p, node). split; [exact Hp |].
  apply in_flat_map. exists (p, node). split; [exact Hp |].
  rewrite Hown. left. reflexivity.
Qed.
End EntrySlotFacts.

Section PipelineFacts.
Context {R : Type} `{RealOps R} `{RealSqrt R}.
Import Mesh.

(** The device-parallel pass, then [_assembleCsrGpuLinearOperator]. *)
Lemma device_parallel_then_dirichlet
      (mesh : Mesh.t) (m_node_coord : nat -> Real3.t R) (options : FemModule.Options)
      (f ElementNodes : R) (m_u : nat -> R) (m_u_dirichlet : nat -> bool) :
  Mesh.valid mesh ->
  cell_edges_are_faces mesh ->
  neumann_surfaces_in_mesh mesh options ->
  (forall node,
      node < nbNode mesh -> isOwn mesh node = true -> m_u_dirichlet node = true ->
      S node < nbNode mesh
      /\ exists cell, List.In cell (allCells mesh) /\ List.In node (cell_nodes cell)) ->
  FemModule.enforceDirichletMethod options = "Penalty"%string
  \/ FemModule.enforceDirichletMethod options = "WeakPenalty"%string ->
  exists m m' rhs',
    FemModule._assembleCsrAllGPUBilinearOperatorTRIA3 mesh m_node_coord = Ok m
    /\ FemModule._assembleCsrGpuLinearOperator mesh m_node_coord options f ElementNodes
                                               m_u m_u_dirichlet m
       = Ok (m', rhs')
    /\ (forall node,
           node < nbNode mesh -> isOwn mesh node = true -> m_u_dirichlet node = true ->
           exists old,
             CsrFormat.entry m node node = Some old
             /\ CsrFormat.entry m' node node
                = Some (if String.eqb (FemModule.enforceDirichletMethod options) "Penalty"
                        then FemModule.penalty options
                        else (old + FemModule.penalty options)%real)
             /\ rhs' !! node = Some (FemModule.penalty options * m_u node)%real)
    /\ (forall row col,
           row < nbNode mesh ->
           ~ (col = row /\ isOwn mesh row = true /\ m_u_dirichlet row = true) ->
           CsrFormat.entry m' row col = CsrFormat.entry m row col).
Proof.
  intros Hvalid Hedges Hsurfaces Hnodes Hmethod.
  rewrite _assembleCsrAllGPU_scatters_log.
  destruct (scatter_log_store_holds
              FemModule._assembleCsrAllGPU_probe mesh (device_parallel_log mesh m_node_coord)
              ltac:(reflexivity) Hvalid
              (device_parallel_log_admissible mesh m_node_coord Hvalid Hedges))
    as (st & -> & Hst).
  cbn [bind]. set (m := CsrFormat.with_slots (built mesh) (fst st) (snd st)).
  assert (Hrows : CsrFormat.m_matrix_row m = CsrFormat.m_matrix_row (built mesh)) by reflexivity.
  assert (Hlc : length (CsrFormat.m_matrix_column m) = nbFace mesh * 2 + nbNode mesh)
    by (destruct Hst as (Hlc & _); exact Hlc).
  assert (Hlv : length (CsrFormat.m_matrix_value m) = nbFace mesh * 2 + nbNode mesh)
    by (destruct Hst as (_ & Hlv & _); exact Hlv).
  assert (Hheld : forall node,
             node < nbNode mesh -> isOwn mesh node = true -> m_u_dirichlet node = true ->
             exists old i,
               CsrFormat.entry m node node = Some old
               /\ diagonal_slot mesh (CsrFormat.m_matrix_column m) node i
               /\ CsrFormat.m_matrix_value m !! i = Some old).
  { intros node Hnode Hown Hdir.
    destruct (Hnodes node Hnode Hown Hdir) as (_ & cell & Hcell & Hin).
    destruct (device_parallel_log_diagonal mesh m_node_coord cell node Hcell Hin Hown)
      as (v & Hlog).
    destruct (accumulated_in node node v _ Hlog) as (old & Hacc).
    assert (Hentry : CsrFormat.entry m node node = Some old).
    { unfold m. rewrite (store_holds_entry mesh _ st node node Hvalid Hst Hnode). exact Hacc. }
    destruct (slot_of_entry mesh m node node old Hvalid Hrows Hlc Hlv Hnode Hentry)
      as (i & Hi & Hv).
    exists old, i. auto. }
  destruct (_assembleCsrGpuLinearOperator_diagonal_slots
              mesh m_node_coord options f ElementNodes m_u m_u_dirichlet m
              Hvalid Hsurfaces Hrows Hlc Hlv)
    as (m' & rhs' & Hrun & Hrows' & Hcols' & Hlv' & Hwritten & Hkept).
  { intros node Hnode Hown Hdir. split; [apply (Hnodes node Hnode Hown Hdir) |].
    destruct (Hheld node Hnode Hown Hdir) as (old & i & _ & Hi & _). eauto. }
  { exact Hmethod. }
  exists m, m', rhs'. split; [reflexivity |]. split; [exact Hrun |]. split.
  - intros node Hnode Hown Hdir.
    destruct (Hheld node Hnode Hown Hdir) as (old & i & Hentry & Hi & Hv).
    destruct (Hwritten node i Hnode Hown Hdir Hi) as (old' & Hold' & Hval' & Hrhs').
    rewrite Hv in Hold'. injection Hold' as <-.
    exists old. split; [exact Hentry |]. split; [| exact Hrhs'].
    apply (entry_of_slot mesh m' node node i _ Hvalid);
      [congruence | rewrite Hcols'; exact Hlc | exact Hnode | rewrite Hcols'; exact Hi
       | exact Hval'].
  - intros row col Hrow Hnot.
    apply (entry_ext mesh m m' row col Hvalid Hrows ltac:(congruence) Hcols' Hlc Hlv
                     ltac:(congruence) Hrow).
    intros i Hi. apply Hkept. intros node Hnode Hown Hdir Hslot.
    assert (node = row) as ->.
    { destruct Hi as (Hspan & _), Hslot as (Hspan' & _).
      apply (span_row_unique (reserved mesh) node row i); assumption. }
    apply Hnot. split; [| auto].
    destruct Hi as (_ & Hc & _), Hslot as (_ & Hc' & _).
    rewrite Hc in Hc'. injection Hc' as E. lia.
Qed.
End PipelineFacts.

(** X28: the device-parallel pass followed by
    [_assembleCsrGpuLinearOperator] with the method "Penalty" or
    "WeakPenalty", on a valid mesh in which the edges of the cells are
    faces, when every own Dirichlet node belongs to a cell and is not the
    last node: both steps return; the diagonal entry of every own
    Dirichlet node becomes the penalty ("Penalty") or the assembled value
    plus the penalty ("WeakPenalty"), its right-hand side is the penalty
    times the prescribed value, and every other entry of the matrix is
    the assembled one. *)
Theorem X28_device_parallel_pass_then_dirichlet :
  forall (R : Type) `{RealOps R} `{RealSqrt R}
         (mesh : Mesh.t) (m_node_coord : nat -> Real3.t R) (options : FemModule.Options)
         (f ElementNodes : R) (m_u : nat -> R) (m_u_dirichlet : nat -> bool),
    Mesh.valid mesh ->
    cell_edges_are_faces mesh ->
    neumann_surfaces_in_mesh mesh options ->
    (forall node,
        node < Mesh.nbNode mesh -> Mesh.isOwn mesh node = true -> m_u_dirichlet node = true ->
        S node < Mesh.nbNode mesh
        /\ exists cell, List.In cell (Mesh.allCells mesh) /\ List.In node (Mesh.cell_nodes cell)) ->
    FemModule.enforceDirichletMethod options = "Penalty"%string
    \/ FemModule.enforceDirichletMethod options = "WeakPenalty"%string ->
    exists m m' rhs',
      FemModule._assembleCsrAllGPUBilinearOperatorTRIA3 mesh m_node_coord = Ok m
      /\ FemModule._assembleCsrGpuLinearOperator mesh m_node_coord options f ElementNodes
                                                 m_u m_u_dirichlet m
         = Ok (m', rhs')
      /\ (forall node,
             node < Mesh.nbNode mesh -> Mesh.isOwn mesh node = true ->
             m_u_dirichlet node = true ->
             exists old,
               CsrFormat.entry m node node = Some old
               /\ CsrFormat.entry m' node node
                  = Some (if String.eqb (FemModule.enforceDirichletMethod options) "Penalty"
                          then FemModule.penalty options
                          else (old + FemModule.penalty options)%real)
               /\ rhs' !! node = Some (FemModule.penalty options * m_u node)%real)
      /\ (forall row col,
             row < Mesh.nbNode mesh ->
             ~ (col = row /\ Mesh.isOwn mesh row = true /\ m_u_dirichlet row = true) ->
             CsrFormat.entry m' row col = CsrFormat.entry m row col).
Proof. intros R ops sq. apply device_parallel_then_dirichlet. Qed.

Lemma X28_device_parallel_pass_then_dirichlet_witness :
  exists m m' rhs',
    FemModule._assembleCsrAllGPUBilinearOperatorTRIA3
      Samples.two_triangles (Samples.two_triangles_coord (R := float)) = Ok m
    /\ FemModule._assembleCsrGpuLinearOperator
         Samples.two_triangles Samples.two_triangles_coord (NeumannSample.options "WeakPenalty")
         1%float 3%float PenaltySample.m_u PenaltySample.m_u_dirichlet m
       = Ok (m', rhs')
    /\ (forall node,
           node < Mesh.nbNode Samples.two_triangles ->
           Mesh.isOwn Samples.two_triangles node = true ->
           PenaltySample.m_u_dirichlet node = true ->
           exists old,
             CsrFormat.entry m node node = Some old
             /\ CsrFormat.entry m' node node = Some (old + 1.0e30)%float
             /\ rhs' !! node = Some (1.0e30 * PenaltySample.m_u node)%float)
    /\ (forall row col,
           row < Mesh.nbNode Samples.two_triangles ->
           ~ (col = row /\ Mesh.isOwn Samples.two_triangles row = true
              /\ PenaltySample.m_u_dirichlet row = true) ->
           CsrFormat.entry m' row col = CsrFormat.entry m row col).
Proof.
  refine (X28_device_parallel_pass_then_dirichlet
            float Samples.two_triangles Samples.two_triangles_coord
            (NeumannSample.options "WeakPenalty") 1%float 3%float
            PenaltySample.m_u PenaltySample.m_u_dirichlet _ _ _ _ _).
  - exact two_triangles_valid.
  - exact two_triangles_cell_edges_are_faces.
  - repeat constructor.
  - intros node Hnode _ Hdir. unfold PenaltySample.m_u_dirichlet in Hdir.
    apply Nat.eqb_eq in Hdir. subst node. split; [simpl; lia |].
    exists (Mesh.mkCell 0 1 2). simpl. auto.
  - right. reflexivity.
Defined.

(* ===================================================================== *)
(** * The two passes over either text of the kernel                       *)
(* ===================================================================== *)

Section PassTextFacts.
Context {R : Type} `{RealOps R}.
Implicit Type m_node_coord : nat -> Real3.t R.
Import Mesh.

(** The passes of [FemModule] are the passes over the first text of the
    kernel and over the cells of a node in the order of the mesh. *)
Lemma passes_over_first_text (mesh : Mesh.t) m_node_coord :
  FemModule._assembleCsrAllGPUBilinearOperatorTRIA3 mesh m_node_coord
  = FemModule2._assembleCsrAllGPUBilinearOperatorTRIA3_with first_text_kernel mesh m_node_coord
  /\ FemModule._assembleBuildLessCsrBilinearOperatorTria3 mesh m_node_coord
     = FemModule2._assembleBuildLessCsrBilinearOperatorTria3_with (node_cells mesh) mesh m_node_coord
  /\ device_parallel_log mesh m_node_coord
     = device_parallel_log_with first_text_kernel mesh m_node_coord
  /\ build_less_log mesh m_node_coord
     = build_less_log_with (node_cells mesh) mesh m_node_coord.
Proof. repeat split; reflexivity. Qed.

(** The device-parallel pass scatters the additions of its log, whatever
    the text of the kernel. *)
Lemma _assembleCsrAllGPU_with_scatters_log kernel (mesh : Mesh.t) m_node_coord :
  FemModule2._assembleCsrAllGPUBilinearOperatorTRIA3_with kernel mesh m_node_coord
  = do st <- foldM (scatter_entry FemModule._assembleCsrAllGPU_probe mesh)
                   (device_parallel_log_with kernel mesh m_node_coord)
                   (CsrFormat.m_matrix_column (built mesh), CsrFormat.m_matrix_value (built mesh)) ;;
    Ok (CsrFormat.with_slots (built mesh) (fst st) (snd st)).
Proof.
  unfold FemModule2._assembleCsrAllGPUBilinearOperatorTRIA3_with.
  rewrite _buildMatrixGpuBuildLessCsr_built. cbn [bind].
  unfold device_parallel_log_with. rewrite <- foldM_flat_map.
  match goal with
  | |- bind (foldM ?f ?l ?s) _ = bind (foldM ?g ?l ?s) _ =>
      rewrite (foldM_ext f g l)
  end.
  - destruct (foldM _ _ _) as [[cols vals] | e]; reflexivity.
  - intros icell st _. cbv zeta. rewrite <- foldM_flat_map.
    apply foldM_ext. intros [n1_index node1] st1 _. rewrite <- foldM_flat_map.
    apply foldM_ext. intros [n2_index node2] [cols vals] _.
    rewrite <- foldM_guard. reflexivity.
Qed.

(** The build-less pass scatters the additions of its log, whatever the
    order in which the cells of a node are enumerated. *)
Lemma _assembleBuildLessCsr_with_scatters_log ncc_cells (mesh : Mesh.t) m_node_coord :
  FemModule2._assembleBuildLessCsrBilinearOperatorTria3_with ncc_cells mesh m_node_coord
  = do st <- foldM (scatter_entry
                      (fun n b col x cols vals =>
                         FemModule._addValueToGlobalMatrixTria3Gpu_loop n b col cols vals x)
                      mesh)
                   (build_less_log_with ncc_cells mesh m_node_coord)
                   (CsrFormat.m_matrix_column (built mesh), CsrFormat.m_matrix_value (built mesh)) ;;
    Ok (CsrFormat.with_slots (built mesh) (fst st) (snd st)).
Proof.
  unfold FemModule2._assembleBuildLessCsrBilinearOperatorTria3_with.
  rewrite _buildMatrixGpuBuildLessCsr_built. cbn [bind].
  unfold build_less_log_with. rewrite <- foldM_flat_map.
  match goal with
  | |- bind (foldM ?f ?l ?s) _ = bind (foldM ?g ?l ?s) _ =>
      rewrite (foldM_ext f g l)
  end.
  - destruct (foldM _ _ _) as [[cols vals] | e]; reflexivity.
  - intros inode st _. rewrite <- foldM_flat_map.
    apply foldM_ext. intros cell st1 _. cbv zeta.
    destruct (FemModule._computeCellMatrixGpuTRIA3 m_node_coord cell) as [area b_matrix].
    rewrite <- foldM_flat_map.
    apply foldM_ext. intros [i node2] [cols vals] _.
    rewrite <- foldM_guard. reflexivity.
Qed.

Lemma device_parallel_log_with_admissible kernel (mesh : Mesh.t) m_node_coord :
  Mesh.valid mesh ->
  cell_edges_are_faces mesh ->
  Forall (admissible mesh) (device_parallel_log_with kernel mesh m_node_coord).
Proof.
  intros Hvalid Hedges. apply List.Forall_forall. intros e He.
  unfold device_parallel_log_with in He.
  apply in_flat_map in He as (icell & Hcell & He).
  apply in_flat_map in He as ([n1_index node1] & Hin1 & He).
  apply in_flat_map in He as ([n2_index node2] & Hin2 & He).
  destruct (isOwn mesh node1); [| destruct He].
  destruct He as [<- | []].
  apply (admissible_cell_nodes mesh icell); try assumption; eapply indexed_In; eassumption.
Qed.

Lemma build_less_log_with_admissible ncc_cells (mesh : Mesh.t) m_node_coord :
  Mesh.valid mesh ->
  cell_edges_are_faces mesh ->
  (forall inode cell,
      inode < nbNode mesh -> List.In cell (ncc_cells inode) -> List.In cell (node_cells mesh inode)) ->
  Forall (admissible mesh) (build_less_log_with ncc_cells mesh m_node_coord).
Proof.
  intros Hvalid Hedges Hncc. apply List.Forall_forall. intros e He.
  unfold build_less_log_with in He.
  apply in_flat_map in He as (inode & Hinode & He).
  apply in_flat_map in He as (cell & Hcell & He).
  destruct (FemModule._computeCellMatrixGpuTRIA3 m_node_coord cell) as [area b_matrix].
  apply in_flat_map in He as ([i node2] & Hin2 & He).
  cbv zeta in He. destruct (isOwn mesh inode); [| destruct He].
  destruct He as [<- | []].
  unfold allNodes in Hinode. apply in_seq in Hinode.
  apply Hncc in Hcell; [| lia].
  unfold node_cells in Hcell. apply filter_In in Hcell as [Hcell Hhas].
  apply (admissible_cell_nodes mesh cell); try assumption.
  - apply cell_has_node_In, Hhas.
  - eapply indexed_In; eassumption.
Qed.

Lemma accumulated_None (l : list R) : accumulated l = None <-> l = [].
Proof. destruct l; simpl; split; intros E; congruence. Qed.
End PassTextFacts.

Section ExactAgreementFacts.
Import Mesh.

Lemma Forall2_flat_map {A B} (P : B -> B -> Prop) (f g : A -> list B) (l : list A) :
  (forall a, List.In a l -> Forall2 P (f a) (g a)) ->
  Forall2 P (flat_map f l) (flat_map g l).
Proof.
  induction l as [|a l IH]; intros Hfg; simpl; [constructor |].
  apply Forall2_app.
  - apply Hfg. left. reflexivity.
  - apply IH. intros a' Hin. apply Hfg. right. exact Hin.
Qed.

Lemma Permutation_flat_map_In {A B} (f g : A -> list B) (l : list A) :
  (forall a, List.In a l -> Permutation (f a) (g a)) ->
  Permutation (flat_map f l) (flat_map g l).
Proof.
  induction l as [|a l IH]; intros Hfg; simpl; [constructor |].
  apply Permutation_app.
  - apply Hfg. left. reflexivity.
  - apply IH. intros a' Hin. apply Hfg. right. exact Hin.
Qed.

Lemma Permutation_list_filter {A} (p : A -> bool) (l1 l2 : list A) :
  Permutation l1 l2 -> Permutation (List.filter p l1) (List.filter p l2).
Proof.
  induction 1 as [| x l1 l2 _ IH | x y l | l1 l2 l3 _ IH1 _ IH2]; simpl.
  - constructor.
  - destruct (p x); [constructor |]; exact IH.
  - destruct (p x), (p y); try reflexivity. constructor.
  - etransitivity; eassumption.
Qed.

(** Over two texts of the kernel with equal entries, the device-parallel
    pass makes the same additions, of equal values. *)
Lemma device_logs_same_addition
      (kernel1 kernel2 : (nat -> Real3.t Q) -> Cell -> list Q -> list Q)
      (mesh : Mesh.t) (m_node_coord : nat -> Real3.t Q) :
  (forall cell idx,
      (nth idx (kernel1 m_node_coord cell (repeat r0 9)) r0
       == nth idx (kernel2 m_node_coord cell (repeat r0 9)) r0)%Q) ->
  Forall2 same_addition (device_parallel_log_with kernel1 mesh m_node_coord)
          (device_parallel_log_with kernel2 mesh m_node_coord).
Proof.
  intros Hk. unfold device_parallel_log_with.
  apply Forall2_flat_map. intros icell _. cbv zeta.
  apply Forall2_flat_map. intros [n1_index node1] _.
  apply Forall2_flat_map. intros [n2_index node2] _.
  destruct (isOwn mesh node1); constructor; [| constructor].
  split; [reflexivity | apply Hk].
Qed.

Lemma contributions_same_addition (row col : nat) (l1 l2 : list (nat * nat * Q)) :
  Forall2 same_addition l1 l2 ->
  Forall2 Qeq (contributions row col l1) (contributions row col l2).
Proof.
  unfold contributions. induction 1 as [| e1 e2 l1 l2 [Hf Hs] _ IH]; simpl; [constructor |].
  rewrite Hf. destruct ((fst (fst e2) =? row) && (snd (fst e2) =? col)); simpl.
  - constructor; assumption.
  - exact IH.
Qed.

(** Enumerating the cells of each node in another order permutes the
    additions of the build-less pass. *)
Lemma build_less_logs_permutation (ncc1 ncc2 : nat -> list Cell)
      (mesh : Mesh.t) (m_node_coord : nat -> Real3.t Q) :
  (forall inode, inode < nbNode mesh -> Permutation (ncc1 inode) (ncc2 inode)) ->
  Permutation (build_less_log_with ncc1 mesh m_node_coord)
              (build_less_log_with ncc2 mesh m_node_coord).
Proof.
  intros Hncc. unfold build_less_log_with.
  apply Permutation_flat_map_In. intros inode Hin.
  unfold allNodes in Hin. apply in_seq in Hin.
  apply Permutation_flat_map, Hncc. lia.
Qed.

Lemma contributions_Permutation (row col : nat) (l1 l2 : list (nat * nat * Q)) :
  Permutation l1 l2 ->
  Permutation (contributions row col l1) (contributions row col l2).
Proof.
  intros Hp. unfold contributions. apply Permutation_map, Permutation_list_filter, Hp.
Qed.

Lemma Qsum_Forall2 (l1 l2 : list Q) : Forall2 Qeq l1 l2 -> (Qsum l1 == Qsum l2)%Q.
Proof.
  induction 1 as [| x y l1 l2 Hxy _ IH]; simpl; [reflexivity |].
  rewrite Hxy, IH. reflexivity.
Qed.

Lemma Qsum_Permutation (l1 l2 : list Q) : Permutation l1 l2 -> (Qsum l1 == Qsum l2)%Q.
Proof.
  induction 1 as [| x l1 l2 _ IH | x y l | l1 l2 l3 _ IH1 _ IH2]; simpl.
  - reflexivity.
  - rewrite IH. reflexivity.
  - ring.
  - rewrite IH1. exact IH2.
Qed.

(** The contributions to an entry of the device-parallel pass over
    either text of the kernel, and of the build-less pass over any
    enumeration of the cells of a node: equal rationals up to order. *)
Lemma exact_contributions_agree
      (kernel : (nat -> Real3.t Q) -> Cell -> list Q -> list Q) (ncc_cells : nat -> list Cell)
      (mesh : Mesh.t) (m_node_coord : nat -> Real3.t Q) (row col : nat) :
  (forall cell idx,
      (nth idx (kernel m_node_coord cell (repeat r0 9)) r0
       == nth idx (FemModule._computeElementMatrixTRIA3GPU m_node_coord cell) r0)%Q) ->
  (forall inode, inode < nbNode mesh -> Permutation (ncc_cells inode) (node_cells mesh inode)) ->
  Forall proper_cell (allCells mesh) ->
  row < nbNode mesh ->
  exists c,
    Forall2 Qeq (contributions row col (device_parallel_log_with kernel mesh m_node_coord)) c
    /\ Permutation c (contributions row col (build_less_log_with ncc_cells mesh m_node_coord)).
Proof.
  intros Hk Hncc Hproper Hrow.
  exists (contributions row col (device_parallel_log mesh m_node_coord)). split.
  - apply contributions_same_addition.
    apply (device_logs_same_addition kernel first_text_kernel). exact Hk.
  - rewrite contributions_row, (row_logs_agree mesh m_node_coord row Hproper Hrow),
      <- contributions_row.
    apply contributions_Permutation.
    apply (build_less_logs_permutation (node_cells mesh) ncc_cells).
    intros inode Hin. symmetry. apply Hncc, Hin.
Qed.
End ExactAgreementFacts.

(** X23: in exact arithmetic, on a valid mesh whose cells are not
    degenerate, have three distinct nodes and edges that are faces, the
    device-parallel pass over either text of
    [_computeElementMatrixTRIA3GPU] and the build-less pass over any
    enumeration of the cells of each node (every cell that holds the
    node, once, in any order), each run item after item, both return,
    and the stores they return hold the same entries: an entry is absent
    from one exactly when it is absent from the other, and the values
    are equal rationals. *)
Theorem X23_device_parallel_and_build_less_entries_agree :
  forall (kernel : (nat -> Real3.t Q) -> Mesh.Cell -> list Q -> list Q)
         (ncc_cells : nat -> list Mesh.Cell)
         (mesh : Mesh.t) (m_node_coord : nat -> Real3.t Q),
    Mesh.valid mesh ->
    cell_edges_are_faces mesh ->
    Forall proper_cell (Mesh.allCells mesh) ->
    no_flat_cell mesh m_node_coord ->
    kernel = first_text_kernel \/ kernel = FemModule2._computeElementMatrixTRIA3GPU ->
    (forall inode, inode < Mesh.nbNode mesh ->
                   Permutation (ncc_cells inode) (Mesh.node_cells mesh inode)) ->
    exists m1 m2,
      FemModule2._assembleCsrAllGPUBilinearOperatorTRIA3_with kernel mesh m_node_coord = Ok m1
      /\ FemModule2._assembleBuildLessCsrBilinearOperatorTria3_with ncc_cells mesh m_node_coord
         = Ok m2
      /\ forall row col,
          row < Mesh.nbNode mesh ->
          (CsrFormat.entry m1 row col = None <-> CsrFormat.entry m2 row col = None)
          /\ (entry_value (CsrFormat.entry m1 row col)
              == entry_value (CsrFormat.entry m2 row col))%Q.
Proof.
  intros kernel ncc_cells mesh m_node_coord Hvalid Hedges Hproper _ Hkernel Hncc.
  rewrite _assembleCsrAllGPU_with_scatters_log, _assembleBuildLessCsr_with_scatters_log.
  destruct (scattered_log_entries
              FemModule._assembleCsrAllGPU_probe mesh
              (device_parallel_log_with kernel mesh m_node_coord)
              ltac:(reflexivity) Hvalid
              (device_parallel_log_with_admissible kernel mesh m_node_coord Hvalid Hedges))
    as (m1 & -> & Hm1).
  assert (Hin : forall inode cell,
             inode < Mesh.nbNode mesh -> List.In cell (ncc_cells inode) ->
             List.In cell (Mesh.node_cells mesh inode)).
  { intros inode cell Hinode Hcell. apply (Permutation_in cell (Hncc inode Hinode) Hcell). }
  destruct (scattered_log_entries
              (fun n b col x cols vals =>
                 FemModule._addValueToGlobalMatrixTria3Gpu_loop n b col cols vals x)
              mesh (build_less_log_with ncc_cells mesh m_node_coord)
              ltac:(intros; apply build_less_probe_agrees) Hvalid
              (build_less_log_with_admissible ncc_cells mesh m_node_coord Hvalid Hedges Hin))
    as (m2 & -> & Hm2).
  exists m1, m2. split; [reflexivity |]. split; [reflexivity |].
  intros row col Hrow. rewrite (Hm1 row col Hrow), (Hm2 row col Hrow).
  assert (Hk : forall cell idx,
             (nth idx (kernel m_node_coord cell (repeat r0 9)) r0
              == nth idx (FemModule._computeElementMatrixTRIA3GPU m_node_coord cell) r0)%Q).
  { intros cell idx. destruct Hkernel as [-> | ->];
      [reflexivity | apply second_text_entries]. }
  destruct (exact_contributions_agree kernel ncc_cells mesh m_node_coord row col
                                      Hk Hncc Hproper Hrow) as (c & Heq & Hperm).
  split.
  - rewrite !accumulated_None. split; intros E.
    + rewrite E in Heq. inversion Heq; subst. apply Permutation_nil. exact Hperm.
    + rewrite E in Hperm. apply Permutation_sym, Permutation_nil in Hperm. subst c.
      inversion Heq; subst. reflexivity.
  - rewrite !accumulated_Qsum, (Qsum_Forall2 _ _ Heq). apply Qsum_Permutation, Hperm.
Qed.

Lemma X23_device_parallel_and_build_less_witness :
  exists m1 m2,
    FemModule2._assembleCsrAllGPUBilinearOperatorTRIA3_with
      FemModule2._computeElementMatrixTRIA3GPU Samples.two_triangles
      (Samples.two_triangles_coord (R := Q))
    = Ok m1
    /\ FemModule2._assembleBuildLessCsrBilinearOperatorTria3_with
         (fun inode => rev (Mesh.node_cells Samples.two_triangles inode)) Samples.two_triangles
         (Samples.two_triangles_coord (R := Q))
       = Ok m2
    /\ forall row col,
        row < Mesh.nbNode Samples.two_triangles ->
        (CsrFormat.entry m1 row col = None <-> CsrFormat.entry m2 row col = None)
        /\ (entry_value (CsrFormat.entry m1 row col)
            == entry_value (CsrFormat.entry m2 row col))%Q.
Proof.
  apply X23_device_parallel_and_build_less_entries_agree.
  - exact two_triangles_valid.
  - exact two_triangles_cell_edges_are_faces.
  - repeat constructor; simpl; lia.
  - repeat constructor; intros Harea; vm_compute in Harea; discriminate.
  - right. reflexivity.
  - intros inode _. symmetry. apply Permutation_rev.
Defined.
